(** * Intrusive search trees of the ygg library: red-black tree, energy tree,
      interval query.

    The C++ sources keep every tree as a graph of caller-owned nodes linked
    by raw pointers.  The embedding keeps that shape: a node is named by a
    natural number, a pointer is an [option nat] ([None] is [nullptr]), and
    the memory is a total function from node names to node records that the
    operations update field by field.  Dereferencing [nullptr] is reported as
    the error [NullDeref]; every loop of the source is a fuel-indexed fixpoint
    that reports [OutOfFuel] when the fuel does not suffice. *)

From Stdlib Require Import List Arith Lia Bool ZArith Permutation Sorted.
Import ListNotations.

Set Implicit Arguments.

(** ** Results of running a piece of the source *)

(** What can go wrong: undefined behaviour of the C++ code (a null pointer
    dereferenced, a vector indexed out of range), a failed [assert], a
    [VerifyException] thrown by a failed [yggassert], and the fuel of the
    model running out. *)
Inductive error : Type :=
| NullDeref
| OutOfRange
| AssertFailed
| VerifyException
| OutOfFuel.

Inductive result (A : Type) : Type :=
| Ok (a : A)
| Err (e : error).

Arguments Ok {A} a.
Arguments Err {A} e.

Definition bind {A B : Type} (r : result A) (k : A -> result B) : result B :=
  match r with
  | Ok a => k a
  | Err e => Err e
  end.

Notation "x <- c ;; k" := (bind c (fun x => k))
  (at level 61, c at next level, right associativity).

Definition ptr := option nat.

Definition deref (p : ptr) : result nat :=
  match p with
  | Some x => Ok x
  | None => Err NullDeref
  end.

Definition ptr_eqb (p q : ptr) : bool :=
  match p, q with
  | None, None => true
  | Some x, Some y => Nat.eqb x y
  | _, _ => false
  end.

Definition is_null (p : ptr) : bool :=
  match p with
  | None => true
  | Some _ => false
  end.

(** The memory is a total map from node names to node records; [upd m x f]
    rewrites the record of node [x]. *)
Definition upd {A : Type} (m : nat -> A) (x : nat) (f : A -> A) : nat -> A :=
  fun y => if Nat.eqb y x then f (m y) else m y.

(** ** The red-black tree of [rbtree.cpp] *)

Module RB.

Inductive Color := RED | BLACK.

Definition color_eqb (a b : Color) : bool :=
  match a, b with
  | RED, RED | BLACK, BLACK => true
  | _, _ => false
  end.

(** The intrusive node header ([RBTreeNodeBase]): the three structural
    links, the color, and the two links of the equality chain. *)
Record Node := mkNode {
  _rbt_left : ptr;
  _rbt_right : ptr;
  _rbt_parent : ptr;
  _rbt_color : Color;
  _rbt_next : ptr;
  _rbt_prev : ptr
}.

Definition memory := nat -> Node.

Definition with_left (v : ptr) (n : Node) : Node :=
  mkNode v (_rbt_right n) (_rbt_parent n) (_rbt_color n) (_rbt_next n) (_rbt_prev n).
Definition with_right (v : ptr) (n : Node) : Node :=
  mkNode (_rbt_left n) v (_rbt_parent n) (_rbt_color n) (_rbt_next n) (_rbt_prev n).
Definition with_parent (v : ptr) (n : Node) : Node :=
  mkNode (_rbt_left n) (_rbt_right n) v (_rbt_color n) (_rbt_next n) (_rbt_prev n).
Definition with_color (v : Color) (n : Node) : Node :=
  mkNode (_rbt_left n) (_rbt_right n) (_rbt_parent n) v (_rbt_next n) (_rbt_prev n).
Definition with_next (v : ptr) (n : Node) : Node :=
  mkNode (_rbt_left n) (_rbt_right n) (_rbt_parent n) (_rbt_color n) v (_rbt_prev n).
Definition with_prev (v : ptr) (n : Node) : Node :=
  mkNode (_rbt_left n) (_rbt_right n) (_rbt_parent n) (_rbt_color n) (_rbt_next n) v.

Definition set_left (m : memory) (x : nat) (v : ptr) := upd m x (with_left v).
Definition set_right (m : memory) (x : nat) (v : ptr) := upd m x (with_right v).
Definition set_parent (m : memory) (x : nat) (v : ptr) := upd m x (with_parent v).
Definition set_color (m : memory) (x : nat) (v : Color) := upd m x (with_color v).
Definition set_next (m : memory) (x : nat) (v : ptr) := upd m x (with_next v).
Definition set_prev (m : memory) (x : nat) (v : ptr) := upd m x (with_prev v).

(** [p->field = v] guarded by [p != nullptr]. *)
Definition set_parent_if (m : memory) (p : ptr) (v : ptr) : memory :=
  match p with Some x => set_parent m x v | None => m end.
Definition set_next_if (m : memory) (p : ptr) (v : ptr) : memory :=
  match p with Some x => set_next m x v | None => m end.
Definition set_prev_if (m : memory) (p : ptr) (v : ptr) : memory :=
  match p with Some x => set_prev m x v | None => m end.

(** The tree object: the root link and the memory the nodes live in. *)
Record RBTree := mkTree { root : ptr; mem : memory }.

Definition with_mem (t : RBTree) (m : memory) : RBTree := mkTree (root t) m.

Section Code.

(** Keys and the user comparator [Compare()(a, b)]; [multiple] is the
    compile-time option [Node::_rbt_multiple]. *)
Variable K : Type.
Variable cmp : K -> K -> bool.
Variable key : nat -> K.
Variable multiple : bool.

(** *** [utilities::EqualityListHelper] *)

Definition equality_list_insert_before (m : memory) (node : nat) (predecessor : ptr) : memory :=
  if multiple then
    match predecessor with
    | None => set_prev (set_next m node None) node None
    | Some p =>
        let m := set_next m node (_rbt_next (m p)) in
        let m := set_prev m node (Some p) in
        let m := set_prev_if m (_rbt_next (m p)) (Some node) in
        set_next m p (Some node)
    end
  else m.

Definition equality_list_insert_after (m : memory) (node : nat) (successor : ptr) : memory :=
  if multiple then
    match successor with
    | None => set_prev (set_next m node None) node None
    | Some s =>
        let m := set_prev m node (_rbt_prev (m s)) in
        let m := set_next m node (Some s) in
        let m := set_next_if m (_rbt_prev (m s)) (Some node) in
        set_prev m s (Some node)
    end
  else m.

Definition equality_list_delete_node (m : memory) (node : nat) : memory :=
  if multiple then
    let m := set_prev_if m (_rbt_next (m node)) (_rbt_prev (m node)) in
    set_next_if m (_rbt_prev (m node)) (_rbt_next (m node))
  else m.

Fixpoint equality_list_find_first_loop (fuel : nat) (m : memory) (res : nat) : result nat :=
  match _rbt_prev (m res) with
  | None => Ok res
  | Some p =>
      match fuel with
      | 0 => Err OutOfFuel
      | S fuel' => equality_list_find_first_loop fuel' m p
      end
  end.

Definition equality_list_find_first (fuel : nat) (m : memory) (node : nat) : result nat :=
  if multiple then equality_list_find_first_loop fuel m node else Ok node.

Definition equality_list_next (m : memory) (node : nat) : ptr :=
  if multiple then _rbt_next (m node) else None.

Definition equality_list_prev (m : memory) (node : nat) : ptr :=
  if multiple then _rbt_prev (m node) else None.

Definition equality_list_swap_if_necessary (m : memory) (n1 n2 : nat) : memory :=
  if multiple then
    if cmp (key n1) (key n2) || cmp (key n2) (key n1) then m
    else if ptr_eqb (_rbt_next (m n1)) (Some n2) then
      let m := set_next m n1 (_rbt_next (m n2)) in
      let m := set_prev m n2 (_rbt_prev (m n1)) in
      let m := set_prev m n1 (Some n2) in
      let m := set_next m n2 (Some n1) in
      let m := set_prev_if m (_rbt_next (m n1)) (Some n1) in
      set_next_if m (_rbt_prev (m n2)) (Some n2)
    else if ptr_eqb (_rbt_next (m n2)) (Some n1) then
      let m := set_next m n2 (_rbt_next (m n1)) in
      let m := set_prev m n1 (_rbt_prev (m n2)) in
      let m := set_prev m n2 (Some n1) in
      let m := set_next m n1 (Some n2) in
      let m := set_prev_if m (_rbt_next (m n2)) (Some n2) in
      set_next_if m (_rbt_prev (m n1)) (Some n1)
    else
      let p1 := _rbt_prev (m n1) in
      let p2 := _rbt_prev (m n2) in
      let m := set_prev (set_prev m n2 p1) n1 p2 in
      let x1 := _rbt_next (m n1) in
      let x2 := _rbt_next (m n2) in
      let m := set_next (set_next m n2 x1) n1 x2 in
      let m := set_prev_if m (_rbt_next (m n1)) (Some n1) in
      let m := set_next_if m (_rbt_prev (m n1)) (Some n1) in
      let m := set_prev_if m (_rbt_next (m n2)) (Some n2) in
      set_next_if m (_rbt_prev (m n2)) (Some n2)
  else m.

(** *** Rotations *)

Definition rotate_left (t : RBTree) (parent : nat) : result RBTree :=
  let m := mem t in
  right_child <- deref (_rbt_right (m parent)) ;;
  let m := set_right m parent (_rbt_left (m right_child)) in
  let m := set_parent_if m (_rbt_left (m right_child)) (Some parent) in
  let m := set_left m right_child (Some parent) in
  let m := set_parent m right_child (_rbt_parent (m parent)) in
  let t :=
    match _rbt_parent (m parent) with
    | Some pp =>
        if ptr_eqb (_rbt_left (m pp)) (Some parent)
        then mkTree (root t) (set_left m pp (Some right_child))
        else mkTree (root t) (set_right m pp (Some right_child))
    | None => mkTree (Some right_child) m
    end in
  Ok (with_mem t (set_parent (mem t) parent (Some right_child))).

Definition rotate_right (t : RBTree) (parent : nat) : result RBTree :=
  let m := mem t in
  left_child <- deref (_rbt_left (m parent)) ;;
  let m := set_left m parent (_rbt_right (m left_child)) in
  let m := set_parent_if m (_rbt_right (m left_child)) (Some parent) in
  let m := set_right m left_child (Some parent) in
  let m := set_parent m left_child (_rbt_parent (m parent)) in
  let t :=
    match _rbt_parent (m parent) with
    | Some pp =>
        if ptr_eqb (_rbt_left (m pp)) (Some parent)
        then mkTree (root t) (set_left m pp (Some left_child))
        else mkTree (root t) (set_right m pp (Some left_child))
    | None => mkTree (Some left_child) m
    end in
  Ok (with_mem t (set_parent (mem t) parent (Some left_child))).

(** *** Insertion *)

Definition get_uncle (m : memory) (node : nat) : result ptr :=
  parent <- deref (_rbt_parent (m node)) ;;
  grandparent <- deref (_rbt_parent (m parent)) ;;
  if ptr_eqb (_rbt_left (m grandparent)) (Some parent)
  then Ok (_rbt_right (m grandparent))
  else Ok (_rbt_left (m grandparent)).

(** The recoloring loop of [fixup_after_insert].  It yields the memory and
    [Some node] when the loop is left through its condition, and [None] when
    the function returns from inside the loop. *)
Fixpoint fixup_after_insert_loop (fuel : nat) (m : memory) (node : nat)
  : result (memory * option nat) :=
  parent <- deref (_rbt_parent (m node)) ;;
  match _rbt_color (m parent) with
  | BLACK => Ok (m, Some node)
  | RED =>
      uncle <- get_uncle m node ;;
      match uncle with
      | None => Ok (m, Some node)
      | Some u =>
          match _rbt_color (m u) with
          | BLACK => Ok (m, Some node)
          | RED =>
              let m := set_color m parent BLACK in
              let m := set_color m u BLACK in
              grandparent <- deref (_rbt_parent (m parent)) ;;
              match _rbt_parent (m grandparent) with
              | Some _ =>
                  let m := set_color m grandparent RED in
                  match fuel with
                  | 0 => Err OutOfFuel
                  | S fuel' => fixup_after_insert_loop fuel' m grandparent
                  end
              | None => Ok (m, None)
              end
          end
      end
  end.

Definition fixup_after_insert (fuel : nat) (t : RBTree) (node : nat) : result RBTree :=
  r <- fixup_after_insert_loop fuel (mem t) node ;;
  match r with
  | (m, None) => Ok (with_mem t m)
  | (m, Some node) =>
      let t := with_mem t m in
      parent <- deref (_rbt_parent (m node)) ;;
      match _rbt_color (m parent) with
      | BLACK => Ok t
      | RED =>
          grandparent <- deref (_rbt_parent (m parent)) ;;
          t <- (if ptr_eqb (_rbt_left (m grandparent)) (Some parent) then
                  t <- (if ptr_eqb (_rbt_right (m parent)) (Some node) then
                          t <- rotate_left t parent ;;
                          Ok (with_mem t (set_color (mem t) node BLACK))
                        else Ok (with_mem t (set_color (mem t) parent BLACK))) ;;
                  rotate_right t grandparent
                else
                  t <- (if ptr_eqb (_rbt_left (m parent)) (Some node) then
                          t <- rotate_right t parent ;;
                          Ok (with_mem t (set_color (mem t) node BLACK))
                        else Ok (with_mem t (set_color (mem t) parent BLACK))) ;;
                  rotate_left t grandparent) ;;
          Ok (with_mem t (set_color (mem t) grandparent RED))
      end
  end.

(** The descent of [insert_leaf_base]: [while (cur != nullptr)]. *)
Fixpoint insert_descend (fuel : nat) (m : memory) (node : nat) (parent cur : ptr)
  : result ptr :=
  match cur with
  | None => Ok parent
  | Some c =>
      match fuel with
      | 0 => Err OutOfFuel
      | S fuel' =>
          if cmp (key c) (key node)
          then insert_descend fuel' m node (Some c) (_rbt_right (m c))
          else insert_descend fuel' m node (Some c) (_rbt_left (m c))
      end
  end.

Definition insert_leaf_base (on_equality_prefer_left : bool) (fuel : nat)
  (t : RBTree) (node : nat) (start : ptr) : result RBTree :=
  let m := set_left (set_right (mem t) node None) node None in
  parent <- insert_descend fuel m node start start ;;
  match parent with
  | None =>
      let m := set_color (set_parent m node None) node BLACK in
      Ok (mkTree (Some node) (equality_list_insert_after m node None))
  | Some p =>
      let m := set_color (set_parent m node (Some p)) node RED in
      if cmp (key node) (key p) then
        let m := set_left m p (Some node) in
        let m := equality_list_insert_after m node None in
        fixup_after_insert fuel (mkTree (root t) m) node
      else if cmp (key p) (key node) then
        let m := set_right m p (Some node) in
        let m := equality_list_insert_after m node None in
        fixup_after_insert fuel (mkTree (root t) m) node
      else if negb multiple then Ok (mkTree (root t) m)
      else if on_equality_prefer_left then
        let m := set_left m p (Some node) in
        let m := equality_list_insert_before m node (Some p) in
        fixup_after_insert fuel (mkTree (root t) m) node
      else
        let m := set_right m p (Some node) in
        let m := equality_list_insert_after m node (Some p) in
        fixup_after_insert fuel (mkTree (root t) m) node
  end.

Definition insert_leaf := insert_leaf_base true.
Definition insert_leaf_right_biased := insert_leaf_base false.

Definition insert (fuel : nat) (t : RBTree) (node : nat) : result RBTree :=
  insert_leaf fuel t node (root t).

(** [insert(Node & node, Node & hint)]: the upward walk. *)
Fixpoint insert_hint_walk (fuel : nat) (m : memory) (node : nat) (parent : nat)
  : result nat :=
  match _rbt_parent (m parent) with
  | None => Ok parent
  | Some pp =>
      if cmp (key node) (key pp) then
        match fuel with
        | 0 => Err OutOfFuel
        | S fuel' => insert_hint_walk fuel' m node pp
        end
      else Ok parent
  end.

Definition insert_hint (fuel : nat) (t : RBTree) (node : nat) (hint : nat)
  : result RBTree :=
  parent <- insert_hint_walk fuel (mem t) node hint ;;
  insert_leaf fuel t node (Some parent).

Definition clear (t : RBTree) : RBTree := mkTree None (mem t).

(** *** Swapping two nodes *)

(** [parent->_rbt_parent->{left,right} = child], or the root link. *)
Definition swap_neighbors (t : RBTree) (parent child : nat) : RBTree :=
  let m := mem t in
  let m := set_parent m child (_rbt_parent (m parent)) in
  let m := set_parent m parent (Some child) in
  let t :=
    match _rbt_parent (m child) with
    | Some cp =>
        if ptr_eqb (_rbt_left (m cp)) (Some parent)
        then mkTree (root t) (set_left m cp (Some child))
        else mkTree (root t) (set_right m cp (Some child))
    | None => mkTree (Some child) m
    end in
  let m := mem t in
  if ptr_eqb (_rbt_left (m parent)) (Some child) then
    let m := set_left m parent (_rbt_left (m child)) in
    let m := set_parent_if m (_rbt_left (m parent)) (Some parent) in
    let m := set_left m child (Some parent) in
    let pr := _rbt_right (m parent) in
    let cr := _rbt_right (m child) in
    let m := set_right (set_right m parent cr) child pr in
    let m := set_parent_if m (_rbt_right (m child)) (Some child) in
    let m := set_parent_if m (_rbt_right (m parent)) (Some parent) in
    with_mem t m
  else
    let m := set_right m parent (_rbt_right (m child)) in
    let m := set_parent_if m (_rbt_right (m parent)) (Some parent) in
    let m := set_right m child (Some parent) in
    let pl := _rbt_left (m parent) in
    let cl := _rbt_left (m child) in
    let m := set_left (set_left m parent cl) child pl in
    let m := set_parent_if m (_rbt_left (m child)) (Some child) in
    let m := set_parent_if m (_rbt_left (m parent)) (Some parent) in
    with_mem t m.

Definition swap_unrelated_nodes (t : RBTree) (n1 n2 : nat) : RBTree :=
  let m := mem t in
  let l1 := _rbt_left (m n1) in
  let l2 := _rbt_left (m n2) in
  let m := set_left (set_left m n1 l2) n2 l1 in
  let m := set_parent_if m (_rbt_left (m n1)) (Some n1) in
  let m := set_parent_if m (_rbt_left (m n2)) (Some n2) in
  let r1 := _rbt_right (m n1) in
  let r2 := _rbt_right (m n2) in
  let m := set_right (set_right m n1 r2) n2 r1 in
  let m := set_parent_if m (_rbt_right (m n1)) (Some n1) in
  let m := set_parent_if m (_rbt_right (m n2)) (Some n2) in
  let p1 := _rbt_parent (m n1) in
  let p2 := _rbt_parent (m n2) in
  let m := set_parent (set_parent m n1 p2) n2 p1 in
  let t :=
    match _rbt_parent (m n1) with
    | Some p =>
        if ptr_eqb (_rbt_right (m p)) (Some n2)
        then mkTree (root t) (set_right m p (Some n1))
        else mkTree (root t) (set_left m p (Some n1))
    | None => mkTree (Some n1) m
    end in
  let m := mem t in
  match _rbt_parent (m n2) with
  | Some p =>
      if ptr_eqb (_rbt_right (m p)) (Some n1)
      then mkTree (root t) (set_right m p (Some n2))
      else mkTree (root t) (set_left m p (Some n2))
  | None => mkTree (Some n2) m
  end.

Definition swap_nodes (t : RBTree) (n1 n2 : nat) (swap_colors : bool) : RBTree :=
  let t :=
    if ptr_eqb (_rbt_parent (mem t n1)) (Some n2) then swap_neighbors t n2 n1
    else if ptr_eqb (_rbt_parent (mem t n2)) (Some n1) then swap_neighbors t n1 n2
    else swap_unrelated_nodes t n1 n2 in
  let m := equality_list_swap_if_necessary (mem t) n1 n2 in
  let m :=
    if negb swap_colors then
      let c1 := _rbt_color (m n1) in
      let c2 := _rbt_color (m n2) in
      set_color (set_color m n1 c2) n2 c1
    else m in
  with_mem t m.

(** *** Removal *)

Definition nephew_black (m : memory) (p : ptr) : bool :=
  match p with
  | None => true
  | Some x => color_eqb (_rbt_color (m x)) BLACK
  end.

(** The propagation loop of [fixup_after_delete] (case 3).  It yields
    [None] when the function returns from inside the loop, and otherwise the
    memory with the final [parent], [deleted_left] and [sibling]. *)
Fixpoint fixup_after_delete_loop (fuel : nat) (m : memory) (parent : nat)
  (deleted_left : bool) : result (memory * option (nat * bool * nat)) :=
  sibling <- deref (if deleted_left then _rbt_right (m parent) else _rbt_left (m parent)) ;;
  if color_eqb (_rbt_color (m parent)) BLACK
     && color_eqb (_rbt_color (m sibling)) BLACK
     && nephew_black m (_rbt_left (m sibling))
     && nephew_black m (_rbt_right (m sibling))
  then
    let m := set_color m sibling RED in
    match _rbt_parent (m parent) with
    | None => Ok (m, None)
    | Some pp =>
        match fuel with
        | 0 => Err OutOfFuel
        | S fuel' =>
            fixup_after_delete_loop fuel' m pp (ptr_eqb (_rbt_left (m pp)) (Some parent))
        end
    end
  else Ok (m, Some (parent, deleted_left, sibling)).

Definition swap_colors_of (m : memory) (a b : nat) : memory :=
  let ca := _rbt_color (m a) in
  let cb := _rbt_color (m b) in
  set_color (set_color m a cb) b ca.

(** Case 2 of [fixup_after_delete]: a RED sibling is rotated above the
    parent; the result is the tree with the sibling to go on with. *)
Definition fixup_after_delete_case2 (t : RBTree) (parent : nat)
  (deleted_left : bool) (sibling : nat) : result (RBTree * nat) :=
  let m := mem t in
  if color_eqb (_rbt_color (m sibling)) RED then
    let m := set_color m sibling BLACK in
    let m := set_color m parent RED in
    if deleted_left then
      t <- rotate_left (with_mem t m) parent ;;
      s <- deref (_rbt_right (mem t parent)) ;;
      Ok (t, s)
    else
      t <- rotate_right (with_mem t m) parent ;;
      s <- deref (_rbt_left (mem t parent)) ;;
      Ok (t, s)
  else Ok (t, sibling).

(** Cases 4, 5 and 6 of [fixup_after_delete]. *)
Definition fixup_after_delete_case456 (t : RBTree) (parent : nat)
  (deleted_left : bool) (sibling : nat) : result RBTree :=
  let m := mem t in
  if color_eqb (_rbt_color (m sibling)) BLACK
     && nephew_black m (_rbt_left (m sibling))
     && nephew_black m (_rbt_right (m sibling))
  then
    (* Case 4 *)
    let m := set_color m parent BLACK in
    Ok (with_mem t (set_color m sibling RED))
  else if deleted_left then
    ts <- (if nephew_black m (_rbt_right (m sibling)) then
             (* Case 5 *)
             t <- rotate_right t sibling ;;
             let m := set_color (mem t) sibling RED in
             s <- deref (_rbt_parent (m sibling)) ;;
             Ok (with_mem t (set_color m s BLACK), s)
           else Ok (t, sibling)) ;;
    let (t, sibling) := ts in
    (* Case 6 *)
    t <- rotate_left t parent ;;
    let m := swap_colors_of (mem t) parent sibling in
    outer <- deref (_rbt_right (m sibling)) ;;
    Ok (with_mem t (set_color m outer BLACK))
  else
    ts <- (if nephew_black m (_rbt_left (m sibling)) then
             (* Case 5 *)
             t <- rotate_left t sibling ;;
             let m := set_color (mem t) sibling RED in
             s <- deref (_rbt_parent (m sibling)) ;;
             Ok (with_mem t (set_color m s BLACK), s)
           else Ok (t, sibling)) ;;
    let (t, sibling) := ts in
    (* Case 6 *)
    t <- rotate_right t parent ;;
    let m := swap_colors_of (mem t) parent sibling in
    outer <- deref (_rbt_left (m sibling)) ;;
    Ok (with_mem t (set_color m outer BLACK)).

Definition fixup_after_delete (fuel : nat) (t : RBTree) (parent : nat)
  (deleted_left : bool) : result RBTree :=
  r <- fixup_after_delete_loop fuel (mem t) parent deleted_left ;;
  match r with
  | (m, None) => Ok (with_mem t m)
  | (m, Some (parent, deleted_left, sibling)) =>
      ts <- fixup_after_delete_case2 (with_mem t m) parent deleted_left sibling ;;
      let (t, sibling) := ts in
      fixup_after_delete_case456 t parent deleted_left sibling
  end.

(** [while (child->_rbt_left != nullptr) child = child->_rbt_left]. *)
Fixpoint leftmost (fuel : nat) (m : memory) (x : nat) : result nat :=
  match _rbt_left (m x) with
  | None => Ok x
  | Some l =>
      match fuel with
      | 0 => Err OutOfFuel
      | S fuel' => leftmost fuel' m l
      end
  end.

Fixpoint rightmost (fuel : nat) (m : memory) (x : nat) : result nat :=
  match _rbt_right (m x) with
  | None => Ok x
  | Some r =>
      match fuel with
      | 0 => Err OutOfFuel
      | S fuel' => rightmost fuel' m r
      end
  end.

(** The second half of [remove_to_leaf]: [node] is a pseudo-leaf, it has no
    left child. *)
Definition remove_pseudo_leaf (fuel : nat) (t : RBTree) (node : nat)
  : result RBTree :=
  let m := mem t in
  match _rbt_right (m node) with
  | Some right_child =>
      let t := swap_nodes t node right_child true in
      let m := set_color (mem t) right_child BLACK in
      let m := set_right m right_child None in
      let m := equality_list_delete_node m node in
      Ok (with_mem t m)
  | None =>
      match _rbt_parent (m node) with
      | Some p =>
          let deleted_left := ptr_eqb (_rbt_left (m p)) (Some node) in
          let m := if deleted_left then set_left m p None else set_right m p None in
          let m := equality_list_delete_node m node in
          match _rbt_color (m node) with
          | BLACK =>
              p' <- deref (_rbt_parent (m node)) ;;
              fixup_after_delete fuel (with_mem t m) p' deleted_left
          | RED => Ok (with_mem t m)
          end
      | None => Ok (mkTree None m)
      end
  end.

Definition remove_to_leaf (fuel : nat) (t : RBTree) (node : nat) : result RBTree :=
  let m := mem t in
  child <- match _rbt_right (m node), _rbt_left (m node) with
           | Some r, Some _ => leftmost fuel m r
           | _, Some l => Ok l
           | _, None => Ok node
           end ;;
  let t := if Nat.eqb child node then t else swap_nodes t node child false in
  remove_pseudo_leaf fuel t node.

Definition remove (fuel : nat) (t : RBTree) (node : nat) : result RBTree :=
  remove_to_leaf fuel t node.

(** *** Insertion with an iterator as hint *)

(** [insert(Node & node, const_iterator<false> hint)]: with the hint
    [end()] the leaf is looked for from the largest node on, by the descent
    that links to the right of an equal parent; any other hint is passed
    to [insert(node, *hint)]. *)
Definition insert_iterator_hint (fuel : nat) (t : RBTree) (node : nat) (hint : ptr)
  : result RBTree :=
  match hint with
  | None =>
      match root t with
      | None => insert_leaf_right_biased fuel t node None
      | Some r =>
          parent <- rightmost fuel (mem t) r ;;
          insert_leaf_right_biased fuel t node (Some parent)
      end
  | Some h => insert_hint fuel t node h
  end.

(** *** Iteration and search *)

(** [while (parent != nullptr && parent->_rbt_right == n) n = parent]. *)
Fixpoint skip_up_right (fuel : nat) (m : memory) (n : nat) : result nat :=
  match _rbt_parent (m n) with
  | Some p =>
      if ptr_eqb (_rbt_right (m p)) (Some n) then
        match fuel with
        | 0 => Err OutOfFuel
        | S fuel' => skip_up_right fuel' m p
        end
      else Ok n
  | None => Ok n
  end.

Fixpoint skip_up_left (fuel : nat) (m : memory) (n : nat) : result nat :=
  match _rbt_parent (m n) with
  | Some p =>
      if ptr_eqb (_rbt_left (m p)) (Some n) then
        match fuel with
        | 0 => Err OutOfFuel
        | S fuel' => skip_up_left fuel' m p
        end
      else Ok n
  | None => Ok n
  end.

Definition step_forward (fuel : nat) (m : memory) (n : nat) : result ptr :=
  match _rbt_right (m n) with
  | Some r => x <- leftmost fuel m r ;; Ok (Some x)
  | None => x <- skip_up_right fuel m n ;; Ok (_rbt_parent (m x))
  end.

Definition step_back (fuel : nat) (m : memory) (n : nat) : result ptr :=
  match _rbt_left (m n) with
  | Some l => x <- rightmost fuel m l ;; Ok (Some x)
  | None => x <- skip_up_left fuel m n ;; Ok (_rbt_parent (m x))
  end.

Definition get_smallest (fuel : nat) (t : RBTree) : result ptr :=
  match root t with
  | None => Ok None
  | Some r => x <- leftmost fuel (mem t) r ;; Ok (Some x)
  end.

Definition get_largest (fuel : nat) (t : RBTree) : result ptr :=
  match root t with
  | None => Ok None
  | Some r => x <- rightmost fuel (mem t) r ;; Ok (Some x)
  end.

Definition begin (fuel : nat) (t : RBTree) : result ptr := get_smallest fuel t.
Definition end_ : ptr := None.
Definition empty (t : RBTree) : bool := is_null (root t).

(** [for (auto & n : tree)]: the nodes met from iterator [it] up to [end()]. *)
Fixpoint iterate_from (fuel : nat) (m : memory) (it : ptr) : result (list nat) :=
  match it with
  | None => Ok []
  | Some n =>
      match fuel with
      | 0 => Err OutOfFuel
      | S fuel' =>
          nx <- step_forward fuel m n ;;
          rest <- iterate_from fuel' m nx ;;
          Ok (n :: rest)
      end
  end.

Definition iterate (fuel : nat) (t : RBTree) : result (list nat) :=
  b <- begin fuel t ;; iterate_from fuel (mem t) b.

(** [crbegin] and [rbegin]: the reverse iterator starts at the largest
    node; [crend] and [rend] are the null iterator [end_]. *)
Definition rbegin (fuel : nat) (t : RBTree) : result ptr := get_largest fuel t.

(** [const_iterator<reverse>::operator++]: [step_back] for a reverse
    iterator and [step_forward] for a forward one; both read the fields of
    the node [it.n]. *)
Definition operator_plusplus (reverse : bool) (fuel : nat) (m : memory) (it : ptr)
  : result ptr :=
  n <- deref it ;;
  if reverse then step_back fuel m n else step_forward fuel m n.

Definition operator_minusminus (reverse : bool) (fuel : nat) (m : memory) (it : ptr)
  : result ptr :=
  n <- deref it ;;
  if reverse then step_forward fuel m n else step_back fuel m n.

(** [for (auto it = tree.rbegin(); it != tree.rend(); ++it)]: the nodes met
    from the reverse iterator [it] up to [rend()]. *)
Fixpoint riterate_from (fuel : nat) (m : memory) (it : ptr) : result (list nat) :=
  match it with
  | None => Ok []
  | Some n =>
      match fuel with
      | 0 => Err OutOfFuel
      | S fuel' =>
          nx <- operator_plusplus true fuel m (Some n) ;;
          rest <- riterate_from fuel' m nx ;;
          Ok (n :: rest)
      end
  end.

Definition riterate (fuel : nat) (t : RBTree) : result (list nat) :=
  b <- rbegin fuel t ;; riterate_from fuel (mem t) b.

(** [size_t]: an unsigned integer of 64 bits, with wrap-around. *)
Definition size_max : Z := 2 ^ 64.

(** [operator+=(size_t steps)]:
    [for (size_t i = 0 ; i < steps ; ++steps) this->operator++();]
    the loop counts [steps] up and leaves [i] at 0. *)
Fixpoint operator_plus_assign (reverse : bool) (fuel : nat) (m : memory) (it : ptr)
  (steps : Z) : result ptr :=
  if Z.ltb 0 steps then
    match fuel with
    | 0 => Err OutOfFuel
    | S fuel' =>
        it <- operator_plusplus reverse fuel m it ;;
        operator_plus_assign reverse fuel' m it ((steps + 1) mod size_max)%Z
    end
  else Ok it.

(** [operator+(size_t steps)]: [+=] on a copy of the iterator. *)
Definition operator_plus (reverse : bool) (fuel : nat) (m : memory) (it : ptr)
  (steps : Z) : result ptr :=
  operator_plus_assign reverse fuel m it steps.

Fixpoint find_loop (fuel : nat) (m : memory) (query : K) (cur : ptr) : result ptr :=
  match cur with
  | None => Ok end_
  | Some c =>
      if cmp query (key c) then
        match fuel with 0 => Err OutOfFuel | S fuel' => find_loop fuel' m query (_rbt_left (m c)) end
      else if cmp (key c) query then
        match fuel with 0 => Err OutOfFuel | S fuel' => find_loop fuel' m query (_rbt_right (m c)) end
      else
        f <- equality_list_find_first fuel m c ;; Ok (Some f)
  end.

Definition find (fuel : nat) (t : RBTree) (query : K) : result ptr :=
  find_loop fuel (mem t) query (root t).

Fixpoint upper_bound_loop (fuel : nat) (m : memory) (query : K) (cur bound : ptr)
  : result ptr :=
  match cur with
  | None => Ok bound
  | Some c =>
      match fuel with
      | 0 => Err OutOfFuel
      | S fuel' =>
          if cmp query (key c) then
            upper_bound_loop fuel' m query (_rbt_left (m c)) (Some c)
          else if cmp (key c) query then
            upper_bound_loop fuel' m query (_rbt_right (m c)) bound
          else
            match _rbt_right (m c) with
            | Some r => Ok (Some r)
            | None => upper_bound_loop fuel' m query None bound
            end
      end
  end.

Definition upper_bound (fuel : nat) (t : RBTree) (query : K) : result ptr :=
  upper_bound_loop fuel (mem t) query (root t) None.

(** *** The self-checks of [verify_integrity]

    An [assert(false)] that the source reaches is the error [AssertFailed]
    (the assertions are compiled in, as in the default Debug build). *)

Definition verify_black_root (t : RBTree) : bool :=
  match root t with
  | None => true
  | Some r => color_eqb (_rbt_color (mem t r)) BLACK
  end.

(** The path lengths are [unsigned int]s: 32 bits, with wrap-around. *)
Definition uint_max : Z := 2 ^ 32.

(** [verify_black_paths(node, &path_length)]: [Some h] stands for [true]
    with [*path_length = h], [None] for [false]. *)
Fixpoint verify_black_paths (fuel : nat) (m : memory) (node : nat)
  : result (option Z) :=
  match fuel with
  | 0 => Err OutOfFuel
  | S fuel' =>
      left_length <- match _rbt_left (m node) with
                     | None => Ok (Some 0%Z)
                     | Some l => verify_black_paths fuel' m l
                     end ;;
      match left_length with
      | None => Ok None
      | Some left_length =>
          right_length <- match _rbt_right (m node) with
                          | None => Ok (Some 0%Z)
                          | Some r => verify_black_paths fuel' m r
                          end ;;
          match right_length with
          | None => Ok None
          | Some right_length =>
              if negb (Z.eqb left_length right_length) then Ok None
              else match _rbt_color (m node) with
                   | BLACK => Ok (Some ((left_length + 1) mod uint_max)%Z)
                   | RED => Ok (Some left_length)
                   end
          end
      end
  end.

Definition is_red (m : memory) (p : ptr) : bool :=
  match p with
  | None => false
  | Some x => color_eqb (_rbt_color (m x)) RED
  end.

Fixpoint verify_red_black (fuel : nat) (m : memory) (node : ptr) : result bool :=
  match node with
  | None => Ok true
  | Some n =>
      match fuel with
      | 0 => Err OutOfFuel
      | S fuel' =>
          if color_eqb (_rbt_color (m n)) RED && is_red m (_rbt_right (m n))
          then Ok false
          else if color_eqb (_rbt_color (m n)) RED && is_red m (_rbt_left (m n))
          then Ok false
          else
            l <- verify_red_black fuel' m (_rbt_left (m n)) ;;
            if l then verify_red_black fuel' m (_rbt_right (m n)) else Ok false
      end
  end.

(** [EqualityList::verify]: the walk to the head of the chain and the walk
    to its tail; [seen] holds only the node the check starts from. *)
Fixpoint equality_list_verify_prev (fuel : nat) (m : memory) (node cur : nat)
  : result bool :=
  match _rbt_prev (m cur) with
  | None => Ok true
  | Some p =>
      if negb (ptr_eqb (_rbt_next (m p)) (Some cur)) then Err AssertFailed
      else if Nat.eqb p node then Err AssertFailed
      else match fuel with
           | 0 => Err OutOfFuel
           | S fuel' => equality_list_verify_prev fuel' m node p
           end
  end.

Fixpoint equality_list_verify_next (fuel : nat) (m : memory) (node cur : nat)
  : result bool :=
  match _rbt_next (m cur) with
  | None => Ok true
  | Some x =>
      if negb (ptr_eqb (_rbt_prev (m x)) (Some cur)) then Err AssertFailed
      else if Nat.eqb x node then Err AssertFailed
      else match fuel with
           | 0 => Err OutOfFuel
           | S fuel' => equality_list_verify_next fuel' m node x
           end
  end.

Definition equality_list_verify (fuel : nat) (m : memory) (node : nat)
  : result bool :=
  if multiple then
    b <- equality_list_verify_prev fuel m node node ;;
    if b then equality_list_verify_next fuel m node node else Ok false
  else Ok true.

(** [for (const auto & n : *this) if (!EqualityList::verify(n)) return false]. *)
Fixpoint verify_equality_from (fuel : nat) (m : memory) (it : ptr) : result bool :=
  match it with
  | None => Ok true
  | Some n =>
      match fuel with
      | 0 => Err OutOfFuel
      | S fuel' =>
          b <- equality_list_verify fuel m n ;;
          if b then
            nx <- step_forward fuel m n ;;
            verify_equality_from fuel' m nx
          else Ok false
      end
  end.

Definition verify_equality (fuel : nat) (t : RBTree) : result bool :=
  if negb multiple then Ok true
  else b <- begin fuel t ;; verify_equality_from fuel (mem t) b.

Definition key_less (m : memory) (a : nat) (p : ptr) (flip : bool) : bool :=
  match p with
  | None => false
  | Some c => if flip then cmp (key c) (key a) else cmp (key a) (key c)
  end.

(** [verify_order]: at each node of the range loop, the left child may not
    be larger and the right child may not be smaller. *)
Fixpoint verify_order_from (fuel : nat) (m : memory) (it : ptr) : result bool :=
  match it with
  | None => Ok true
  | Some n =>
      match fuel with
      | 0 => Err OutOfFuel
      | S fuel' =>
          if key_less m n (_rbt_left (m n)) false then Err AssertFailed
          else if key_less m n (_rbt_right (m n)) true then Err AssertFailed
          else
            nx <- step_forward fuel m n ;;
            verify_order_from fuel' m nx
      end
  end.

Definition verify_order (fuel : nat) (t : RBTree) : result bool :=
  b <- begin fuel t ;; verify_order_from fuel (mem t) b.

(** [verify_tree]: the descent to the smallest node. *)
Fixpoint verify_tree_descend (fuel : nat) (m : memory) (cur : nat) : result nat :=
  match _rbt_left (m cur) with
  | None => Ok cur
  | Some l =>
      if ptr_eqb (_rbt_left (m l)) (Some l) then Err AssertFailed
      else match fuel with
           | 0 => Err OutOfFuel
           | S fuel' => verify_tree_descend fuel' m l
           end
  end.

(** [verify_tree]: the walk over the nodes with the set [seen].  The source
    finds the next node with the statements of [step_forward], written out
    once more. *)
Fixpoint verify_tree_walk (fuel : nat) (m : memory) (cur : ptr) (seen : list nat)
  : result bool :=
  match cur with
  | None => Ok true
  | Some c =>
      match fuel with
      | 0 => Err OutOfFuel
      | S fuel' =>
          if existsb (Nat.eqb c) seen then Err AssertFailed
          else
            let seen := c :: seen in
            if (match _rbt_left (m c) with
                | None => false
                | Some l =>
                    negb (ptr_eqb (_rbt_parent (m l)) (Some c))
                    || ptr_eqb (_rbt_right (m c)) (Some c)
                end)
            then Err AssertFailed
            else if (match _rbt_right (m c) with
                     | None => false
                     | Some r =>
                         negb (ptr_eqb (_rbt_parent (m r)) (Some c))
                         || ptr_eqb (_rbt_right (m c)) (Some c)
                     end)
            then Err AssertFailed
            else
              nx <- step_forward fuel m c ;;
              verify_tree_walk fuel' m nx seen
      end
  end.

Definition verify_tree (fuel : nat) (t : RBTree) : result bool :=
  match root t with
  | None => Ok true
  | Some r =>
      cur <- verify_tree_descend fuel (mem t) r ;;
      verify_tree_walk fuel (mem t) (Some cur) []
  end.

Definition verify_integrity (fuel : nat) (t : RBTree) : result bool :=
  tree_okay <- verify_tree fuel t ;;
  let root_okay := verify_black_root t in
  paths_okay <- match root t with
                | None => Ok true
                | Some r =>
                    p <- verify_black_paths fuel (mem t) r ;;
                    Ok (match p with Some _ => true | None => false end)
                end ;;
  children_okay <- verify_red_black fuel (mem t) (root t) ;;
  order_okay <- verify_order fuel t ;;
  equality_okay <- verify_equality fuel t ;;
  if root_okay && paths_okay && children_okay && tree_okay && order_okay
     && equality_okay
  then Ok true
  else Err AssertFailed.

End Code.

End RB.

(** ** The energy tree of [energy.cpp] *)

Module ET.

Local Open Scope Z_scope.

(** [size_t] arithmetic wraps around at 2^64. *)
Definition wrap (z : Z) : Z := z mod 2 ^ 64.

(** The node header.  [energy.hpp] is not among the sources; the fields are
    the ones [energy.cpp] reads and writes, with [_et_size] and [_et_energy]
    taken as [size_t]. *)
Record Node := mkNode {
  _et_left : ptr;
  _et_right : ptr;
  _et_parent : ptr;
  _et_size : Z;
  _et_energy : Z
}.

Definition memory := nat -> Node.

Definition set_left (m : memory) (x : nat) (v : ptr) : memory :=
  upd m x (fun n => mkNode v (_et_right n) (_et_parent n) (_et_size n) (_et_energy n)).
Definition set_right (m : memory) (x : nat) (v : ptr) : memory :=
  upd m x (fun n => mkNode (_et_left n) v (_et_parent n) (_et_size n) (_et_energy n)).
Definition set_parent (m : memory) (x : nat) (v : ptr) : memory :=
  upd m x (fun n => mkNode (_et_left n) (_et_right n) v (_et_size n) (_et_energy n)).
Definition set_size (m : memory) (x : nat) (v : Z) : memory :=
  upd m x (fun n => mkNode (_et_left n) (_et_right n) (_et_parent n) v (_et_energy n)).
Definition set_energy (m : memory) (x : nat) (v : Z) : memory :=
  upd m x (fun n => mkNode (_et_left n) (_et_right n) (_et_parent n) (_et_size n) v).

(** The tree object: the root link, the memory, and the scratch vector
    [rebuild_buffer] that survives from one rebuild to the next. *)
Record EnergyTree := mkTree {
  root : ptr;
  mem : memory;
  rebuild_buffer : list ptr
}.

Definition with_mem (t : EnergyTree) (m : memory) : EnergyTree :=
  mkTree (root t) m (rebuild_buffer t).

(** [cur->_et_energy > 0.5 * cur->_et_size], exact on the integers. *)
Definition overcharged (m : memory) (x : nat) : bool :=
  _et_size (m x) <? 2 * _et_energy (m x).

(** [(int)std::ceil(std::log2(n))] for [n >= 1]: the least [l] with
    [n <= 2^l]. *)
Fixpoint ceil_log2_from (fuel : nat) (l : Z) (n : Z) : Z :=
  match fuel with
  | O => l
  | S fuel' => if n <=? 2 ^ l then l else ceil_log2_from fuel' (l + 1) n
  end.
Definition ceil_log2 (n : Z) : Z := ceil_log2_from 64 0 n.

(** [__builtin_ctz]. *)
Fixpoint ctz_from (fuel : nat) (n : Z) : Z :=
  match fuel with
  | O => 0
  | S fuel' => if Z.odd n then 0 else 1 + ctz_from fuel' (n / 2)
  end.
Definition ctz (n : Z) : Z := ctz_from 64 n.

(** [std::vector<Node *>]: [resize], [operator[]] and [back]. *)
Definition resize (buf : list ptr) (n : Z) : list ptr :=
  let k := Z.to_nat n in
  firstn k buf ++ repeat None (k - length buf)%nat.

Definition buf_get (buf : list ptr) (i : Z) : result ptr :=
  if i <? 0 then Err OutOfRange
  else match nth_error buf (Z.to_nat i) with
       | Some p => Ok p
       | None => Err OutOfRange
       end.

Fixpoint list_set (buf : list ptr) (i : nat) (v : ptr) : option (list ptr) :=
  match buf, i with
  | [], _ => None
  | _ :: rest, O => Some (v :: rest)
  | x :: rest, S i' =>
      match list_set rest i' v with
      | Some rest' => Some (x :: rest')
      | None => None
      end
  end.

Definition buf_set (buf : list ptr) (i : Z) (v : ptr) : result (list ptr) :=
  if i <? 0 then Err OutOfRange
  else match list_set buf (Z.to_nat i) v with
       | Some b => Ok b
       | None => Err OutOfRange
       end.

Definition buf_back (buf : list ptr) : result ptr :=
  match rev buf with
  | p :: _ => Ok p
  | [] => Err OutOfRange
  end.

(** [rebuild_buffer[i]->...]: the node a slot points to. *)
Definition buf_node (buf : list ptr) (i : Z) : result nat :=
  p <- buf_get buf i ;; deref p.

Section Code.

Variable K : Type.
Variable cmp : K -> K -> bool.
Variable key : nat -> K.

(** *** Iteration *)

Fixpoint leftmost (fuel : nat) (m : memory) (x : nat) : result nat :=
  match _et_left (m x) with
  | None => Ok x
  | Some l =>
      match fuel with
      | O => Err OutOfFuel
      | S fuel' => leftmost fuel' m l
      end
  end.

Fixpoint rightmost (fuel : nat) (m : memory) (x : nat) : result nat :=
  match _et_right (m x) with
  | None => Ok x
  | Some r =>
      match fuel with
      | O => Err OutOfFuel
      | S fuel' => rightmost fuel' m r
      end
  end.

Fixpoint skip_up_right (fuel : nat) (m : memory) (n : nat) : result nat :=
  match _et_parent (m n) with
  | Some p =>
      if ptr_eqb (_et_right (m p)) (Some n) then
        match fuel with
        | O => Err OutOfFuel
        | S fuel' => skip_up_right fuel' m p
        end
      else Ok n
  | None => Ok n
  end.

(** Modelled from the spec: the iterator of the energy tree is declared in
    [energy.hpp], which is not among the sources.  The spec describes one
    iterator layer of forward in-order traversal for all trees, so [++it]
    is the in-order step of [rbtree.cpp] over the [_et_] links. *)
Definition step_forward (fuel : nat) (m : memory) (it : ptr) : result ptr :=
  n <- deref it ;;
  match _et_right (m n) with
  | Some r => x <- leftmost fuel m r ;; Ok (Some x)
  | None => x <- skip_up_right fuel m n ;; Ok (_et_parent (m x))
  end.

Definition get_smallest (fuel : nat) (t : EnergyTree) : result ptr :=
  match root t with
  | None => Ok None
  | Some r => x <- leftmost fuel (mem t) r ;; Ok (Some x)
  end.

Definition begin (fuel : nat) (t : EnergyTree) : result ptr := get_smallest fuel t.

Definition empty (t : EnergyTree) : bool := is_null (root t).

Fixpoint iterate_from (fuel : nat) (m : memory) (it : ptr) : result (list nat) :=
  match it with
  | None => Ok []
  | Some n =>
      match fuel with
      | O => Err OutOfFuel
      | S fuel' =>
          nx <- step_forward fuel m (Some n) ;;
          rest <- iterate_from fuel' m nx ;;
          Ok (n :: rest)
      end
  end.

Definition iterate (fuel : nat) (t : EnergyTree) : result (list nat) :=
  b <- begin fuel t ;; iterate_from fuel (mem t) b.

(** *** Verification *)

Definition size_of (m : memory) (p : ptr) : Z :=
  match p with
  | None => 0
  | Some x => _et_size (m x)
  end.

(** Modelled from the spec: [debug::yggassert] lives in [debug.hpp], which
    is not among the sources.  The spec lets [verify_integrity] answer
    [false] when an invariant fails, which is the [catch] of
    [verify_integrity]: a failed [yggassert] throws [VerifyException]. *)
Definition yggassert (b : bool) : result unit :=
  if b then Ok tt else Err VerifyException.

Fixpoint dbg_verify_sizes_from (fuel : nat) (m : memory) (it : ptr) : result unit :=
  match it with
  | None => Ok tt
  | Some n =>
      match fuel with
      | O => Err OutOfFuel
      | S fuel' =>
          _ <- yggassert (_et_size (m n) =?
                          wrap (wrap (size_of m (_et_left (m n)) + size_of m (_et_right (m n))) + 1)) ;;
          nx <- step_forward fuel m (Some n) ;;
          dbg_verify_sizes_from fuel' m nx
      end
  end.

Definition dbg_verify_sizes (fuel : nat) (t : EnergyTree) : result unit :=
  b <- begin fuel t ;; dbg_verify_sizes_from fuel (mem t) b.

Definition dbg_verify (fuel : nat) (t : EnergyTree) : result unit :=
  dbg_verify_sizes fuel t.

Definition verify_integrity (fuel : nat) (t : EnergyTree) : result bool :=
  match dbg_verify fuel t with
  | Ok _ => Ok true
  | Err VerifyException => Ok false
  | Err e => Err e
  end.

(** *** [rebuild_below] *)

(** The loop that walks the subtree in order and files every node in its
    slot of [rebuild_buffer]. *)
Fixpoint rebuild_fill (fuel : nat) (m : memory) (buf : list ptr)
  (tree_levels full_tree_size : Z) (largest : nat) (it : ptr) (counter : Z)
  : result (list ptr) :=
  if ptr_eqb it (Some largest) then Ok buf
  else
    match fuel with
    | O => Err OutOfFuel
    | S fuel' =>
        it <- step_forward fuel m it ;;
        let counter := counter + 1 in
        let level := ctz counter in
        let prev_levels_size := 2 ^ (tree_levels - 1 - level) - 1 in
        let this_level_size := prev_levels_size + 1 in
        let level_offset := full_tree_size - prev_levels_size - this_level_size in
        let index_in_level := counter / 2 ^ (level + 1) in
        buf <- buf_set buf (level_offset + index_in_level) it ;;
        rebuild_fill fuel' m buf tree_levels full_tree_size largest it counter
    end.

(** [for (; i < bottom_level_size - 1; i += 2)]: pairs of bottom nodes. *)
Fixpoint rebuild_bottom_pairs (fuel : nat) (m : memory) (buf : list ptr)
  (upper_offset bottom_level_size i : Z) : result (memory * Z) :=
  if i <? wrap (bottom_level_size - 1) then
    match fuel with
    | O => Err OutOfFuel
    | S fuel' =>
        u <- buf_node buf (upper_offset + i / 2) ;;
        a <- buf_get buf i ;;
        let m := set_left m u a in
        b <- buf_get buf (i + 1) ;;
        let m := set_right m u b in
        let m := set_energy (set_size m u 3) u 0 in
        a <- deref a ;;
        let m := set_left m a None in
        let m := set_size m a 1 in
        let m := set_energy m a 0 in
        let m := set_right m a None in
        let m := set_parent m a (Some u) in
        b <- deref b ;;
        let m := set_left m b None in
        let m := set_right m b None in
        let m := set_parent m b (Some u) in
        let m := set_size m b 1 in
        let m := set_energy m b 0 in
        rebuild_bottom_pairs fuel' m buf upper_offset bottom_level_size (i + 2)
    end
  else Ok (m, i).

(** [if (i < bottom_level_size)]: the odd bottom node. *)
Definition rebuild_bottom_single (m : memory) (buf : list ptr)
  (upper_offset bottom_level_size i : Z) : result (memory * Z) :=
  if i <? bottom_level_size then
    u <- buf_node buf (upper_offset + i / 2) ;;
    a <- buf_get buf i ;;
    let m := set_left m u a in
    let m := set_right m u None in
    let m := set_energy (set_size m u 2) u 0 in
    a <- deref a ;;
    let m := set_left m a None in
    let m := set_right m a None in
    let m := set_parent m a (Some u) in
    let m := set_size m a 1 in
    let m := set_energy m a 0 in
    Ok (m, i + 2)
  else Ok (m, i).

(** [for (size_t j = i / 2; j < ((1 << (tree_levels - 2)) - 1); j++)]. *)
Fixpoint rebuild_remaining (fuel : nat) (m : memory) (buf : list ptr)
  (tree_levels j : Z) : result memory :=
  if j <? 2 ^ (tree_levels - 2) - 1 then
    match fuel with
    | O => Err OutOfFuel
    | S fuel' =>
        x <- buf_node buf j ;;
        let m := set_left m x None in
        let m := set_right m x None in
        let m := set_size m x 1 in
        let m := set_energy m x 0 in
        rebuild_remaining fuel' m buf tree_levels (j + 1)
    end
  else Ok m.

(** [for (i = 0; i < current_lower_level_size; i += 2)]: one level linked
    to the level above. *)
Fixpoint rebuild_link_level (fuel : nat) (m : memory) (buf : list ptr)
  (lower_offset upper_offset current_lower_level_size i : Z) : result memory :=
  if i <? current_lower_level_size then
    match fuel with
    | O => Err OutOfFuel
    | S fuel' =>
        u <- buf_node buf (upper_offset + i / 2) ;;
        a <- buf_get buf (lower_offset + i) ;;
        let m := set_left m u a in
        b <- buf_get buf (lower_offset + i + 1) ;;
        let m := set_right m u b in
        a <- deref a ;;
        b <- deref b ;;
        let m := set_size m u (wrap (wrap (_et_size (m a) + _et_size (m b)) + 1)) in
        let m := set_energy m u 0 in
        let m := set_parent m a (Some u) in
        let m := set_parent m b (Some u) in
        rebuild_link_level fuel' m buf lower_offset upper_offset
          current_lower_level_size (i + 2)
    end
  else Ok m.

(** [while (level < tree_levels - 1)]. *)
Fixpoint rebuild_climb (fuel : nat) (m : memory) (buf : list ptr)
  (tree_levels full_tree_size upper_offset level : Z) : result memory :=
  if level <? tree_levels - 1 then
    match fuel with
    | O => Err OutOfFuel
    | S fuel' =>
        let lower_offset := upper_offset in
        let upper_offset := full_tree_size - 2 ^ (tree_levels - 1 - level) + 1 in
        let current_lower_level_size := upper_offset - lower_offset in
        m <- rebuild_link_level fuel m buf lower_offset upper_offset
               current_lower_level_size 0 ;;
        rebuild_climb fuel' m buf tree_levels full_tree_size upper_offset (level + 1)
    end
  else Ok m.

Definition rebuild_below (fuel : nat) (t : EnergyTree) (node : nat)
  : result EnergyTree :=
  _ <- dbg_verify fuel t ;;
  let m := mem t in
  let tree_levels := ceil_log2 (wrap (_et_size (m node) + 1)) in
  let full_tree_size := 2 ^ tree_levels - 1 in
  let buf := resize (rebuild_buffer t) full_tree_size in
  let original_parent := _et_parent (m node) in
  let original_size := _et_size (m node) in
  smallest <- leftmost fuel m node ;;
  largest <- rightmost fuel m node ;;
  buf <- buf_set buf 0 (Some smallest) ;;
  buf <- rebuild_fill fuel m buf tree_levels full_tree_size largest (Some smallest) 1 ;;
  let upper_offset := (full_tree_size + 1) / 2 in
  let bottom_level_size := wrap (upper_offset - wrap (full_tree_size - _et_size (m node))) in
  m <- (if 1 <? tree_levels then
          r <- rebuild_bottom_pairs fuel m buf upper_offset bottom_level_size 0 ;;
          let (m, i) := r in
          r <- rebuild_bottom_single m buf upper_offset bottom_level_size i ;;
          let (m, i) := r in
          m <- rebuild_remaining fuel m buf tree_levels (i / 2) ;;
          rebuild_climb fuel m buf tree_levels full_tree_size upper_offset 1
        else Ok m) ;;
  top <- buf_back buf ;;
  topn <- deref top ;;
  let m := set_parent m topn original_parent in
  t <- match original_parent with
       | None => Ok (mkTree top m buf)
       | Some op =>
           if ptr_eqb (_et_left (m op)) (Some node)
           then Ok (mkTree (root t) (set_left m op top) buf)
           else if ptr_eqb (_et_right (m op)) (Some node)
                then Ok (mkTree (root t) (set_right m op top) buf)
                else Err AssertFailed
       end ;;
  let m := set_energy (set_size (mem t) topn original_size) topn 0 in
  let t := with_mem t m in
  _ <- dbg_verify fuel t ;;
  Ok t.

(** *** [insert] *)

(** The descent [while (true)] of [insert]; it yields the memory and
    [rebuild_at]. *)
Fixpoint insert_descend (fuel : nat) (m : memory) (node : nat) (cur : nat)
  (rebuild_at : ptr) : result (memory * ptr) :=
  let m := set_size m cur (wrap (_et_size (m cur) + 1)) in
  let m := set_energy m cur (wrap (_et_energy (m cur) + 1)) in
  let rebuild_at :=
    if is_null rebuild_at && overcharged m cur then Some cur else rebuild_at in
  if cmp (key cur) (key node) then
    match _et_right (m cur) with
    | Some r =>
        match fuel with
        | O => Err OutOfFuel
        | S fuel' => insert_descend fuel' m node r rebuild_at
        end
    | None => Ok (set_parent (set_right m cur (Some node)) node (Some cur), rebuild_at)
    end
  else
    match _et_left (m cur) with
    | Some l =>
        match fuel with
        | O => Err OutOfFuel
        | S fuel' => insert_descend fuel' m node l rebuild_at
        end
    | None => Ok (set_parent (set_left m cur (Some node)) node (Some cur), rebuild_at)
    end.

Definition insert (fuel : nat) (t : EnergyTree) (node : nat) : result EnergyTree :=
  _ <- dbg_verify fuel t ;;
  let m := mem t in
  let m := set_size m node 1 in
  let m := set_energy m node 0 in
  let m := set_left m node None in
  let m := set_right m node None in
  match root t with
  | None => Ok (mkTree (Some node) (set_parent m node None) (rebuild_buffer t))
  | Some cur =>
      r <- insert_descend fuel m node cur None ;;
      let (m, rebuild_at) := r in
      let t := with_mem t m in
      _ <- dbg_verify fuel t ;;
      match rebuild_at with
      | Some r => rebuild_below fuel t r
      | None => Ok t
      end
  end.

(** *** [remove] *)

(** The upward pass of [remove] over the ancestors of [node]. *)
Fixpoint remove_ascend (fuel : nat) (m : memory) (cur : nat) (rebuild_at : ptr)
  (rebuild_set_upwards : bool) : result (memory * ptr * bool) :=
  match _et_parent (m cur) with
  | None => Ok (m, rebuild_at, rebuild_set_upwards)
  | Some cur =>
      match fuel with
      | O => Err OutOfFuel
      | S fuel' =>
          let m := set_size m cur (wrap (_et_size (m cur) - 1)) in
          let m := set_energy m cur (wrap (_et_energy (m cur) + 1)) in
          if overcharged m cur
          then remove_ascend fuel' m cur (Some cur) true
          else remove_ascend fuel' m cur rebuild_at rebuild_set_upwards
      end
  end.

(** [while (child->_et_right != nullptr)] of the left-leaning branch; the
    overcharge test reads [cur], the node being removed. *)
Fixpoint remove_descend_right (fuel : nat) (m : memory) (cur child : nat)
  (rebuild_at : ptr) : result (memory * nat * ptr) :=
  match _et_right (m child) with
  | None => Ok (m, child, rebuild_at)
  | Some r =>
      match fuel with
      | O => Err OutOfFuel
      | S fuel' =>
          let m := set_size m child (wrap (_et_size (m child) - 1)) in
          let m := set_energy m child (wrap (_et_energy (m child) + 1)) in
          let rebuild_at :=
            if is_null rebuild_at && overcharged m cur then Some child else rebuild_at in
          remove_descend_right fuel' m cur r rebuild_at
      end
  end.

Fixpoint remove_descend_left (fuel : nat) (m : memory) (cur child : nat)
  (rebuild_at : ptr) : result (memory * nat * ptr) :=
  match _et_left (m child) with
  | None => Ok (m, child, rebuild_at)
  | Some l =>
      match fuel with
      | O => Err OutOfFuel
      | S fuel' =>
          let m := set_size m child (wrap (_et_size (m child) - 1)) in
          let m := set_energy m child (wrap (_et_energy (m child) + 1)) in
          let rebuild_at :=
            if is_null rebuild_at && overcharged m cur then Some child else rebuild_at in
          remove_descend_left fuel' m cur l rebuild_at
      end
  end.

Definition remove (fuel : nat) (t : EnergyTree) (node : nat) : result EnergyTree :=
  r <- remove_ascend fuel (mem t) node None false ;;
  let '(m, rebuild_at, rebuild_set_upwards) := r in
  let cur := node in
  r <- (match _et_left (m cur), _et_right (m cur) with
        | None, None =>
            (* a leaf *)
            match _et_parent (m cur) with
            | None => Ok (mkTree None m (rebuild_buffer t), rebuild_at)
            | Some parent =>
                if ptr_eqb (_et_left (m parent)) (Some cur)
                then Ok (with_mem t (set_left m parent None), rebuild_at)
                else if ptr_eqb (_et_right (m parent)) (Some cur)
                     then Ok (with_mem t (set_right m parent None), rebuild_at)
                     else Err AssertFailed
            end
        | l, r =>
            r <- (match l with
                  | Some child =>
                      r <- remove_descend_right fuel m cur child rebuild_at ;;
                      let '(m, child, rebuild_at) := r in
                      match _et_left (m child) with
                      | Some cl =>
                          cp <- deref (_et_parent (m child)) ;;
                          m <- (if ptr_eqb (_et_right (m cp)) (Some child)
                                then Ok (set_right m cp (Some cl))
                                else if ptr_eqb (_et_left (m cp)) (Some child)
                                     then Ok (set_left m cp (Some cl))
                                     else Err AssertFailed) ;;
                          Ok (set_parent m cl (_et_parent (m child)), child, rebuild_at)
                      | None => Ok (m, child, rebuild_at)
                      end
                  | None =>
                      child <- deref r ;;
                      r <- remove_descend_left fuel m cur child rebuild_at ;;
                      let '(m, child, rebuild_at) := r in
                      match _et_right (m child) with
                      | Some cr =>
                          cp <- deref (_et_parent (m child)) ;;
                          m <- (if ptr_eqb (_et_left (m cp)) (Some child)
                                then Ok (set_left m cp (Some cr))
                                else if ptr_eqb (_et_right (m cp)) (Some child)
                                     then Ok (set_right m cp (Some cr))
                                     else Err AssertFailed) ;;
                          Ok (set_parent m cr (_et_parent (m child)), child, rebuild_at)
                      | None => Ok (m, child, rebuild_at)
                      end
                  end) ;;
            let '(m, child, rebuild_at) := r in
            (* move the child up where the node to be deleted was *)
            let m := set_left m child (_et_left (m node)) in
            let m := set_right m child (_et_right (m node)) in
            t <- (match _et_parent (m node) with
                  | None => Ok (mkTree (Some child) m (rebuild_buffer t))
                  | Some np =>
                      if ptr_eqb (_et_left (m np)) (Some node)
                      then Ok (with_mem t (set_left m np (Some child)))
                      else if ptr_eqb (_et_right (m np)) (Some node)
                           then Ok (with_mem t (set_right m np (Some child)))
                           else Err AssertFailed
                  end) ;;
            let m := mem t in
            let m := set_parent m child (_et_parent (m node)) in
            let m := set_energy m child (wrap (_et_energy (m node) + 1)) in
            let m := set_size m child (wrap (_et_size (m node) - 1)) in
            let rebuild_at :=
              if negb rebuild_set_upwards && overcharged m child
              then Some child else rebuild_at in
            Ok (with_mem t m, rebuild_at)
        end) ;;
  let (t, rebuild_at) := r in
  match rebuild_at with
  | Some r => rebuild_below fuel t r
  | None => Ok t
  end.

End Code.

End ET.

(** ** The interval tree: [intervaltree.hpp] *)

Module IT.

Import RB.

(** [ITreeNodeBase]: a red-black node that also carries [_it_max_upper], and
    [IntervalTree], a red-black tree over such nodes. *)
Record IntervalTree : Type := mkITree {
  base : RBTree;
  _it_max_upper : nat -> Z
}.

(** Where the walk of a query stands at a node: it has just come down to
    the node, it stands on the node with the left subtree behind it, it has
    left the node behind as well, or it is about to climb from the node. *)
Inductive phase : Type :=
| Down (n : nat)
| At (n : nat)
| After (n : nat)
| Up (n : nat).

Section Code.

(** [NodeTraits::get_lower] and [NodeTraits::get_upper]. *)
Variable get_lower : nat -> Z.
Variable get_upper : nat -> Z.

(** The half-open interval of node [n] overlaps the query [[c,d)]. *)
Definition overlaps (n : nat) (q : Z * Z) : bool :=
  Z.ltb (get_lower n) (snd q) && Z.ltb (fst q) (get_upper n).

(** Modelled from the spec: [find_next_overlapping] is declared in
    [intervaltree.hpp] and defined in [intervaltree.cpp], which is not among
    the sources.  The steps are those of the spec's overlap query: the node
    the walk stands on is the answer when it overlaps the query; the walk
    prefers the left child when its [_it_max_upper] is greater than the
    lower end of the query, else goes right when the lower end of the node
    is smaller than the upper end of the query, else climbs, and skips every
    ancestor that it leaves from the right child or whose lower end is not
    smaller than the upper end of the query; it ends when it climbs out of
    the root.  The spec does not say how the walk remembers that the left
    subtree of a node is done; the model keeps that in the [phase]. *)
Fixpoint find_next_overlapping_loop (fuel : nat) (t : IntervalTree) (q : Z * Z)
  (ph : phase) : result ptr :=
  match fuel with
  | 0 => Err OutOfFuel
  | S fuel' =>
      let m := mem (base t) in
      match ph with
      | Down n =>
          match _rbt_left (m n) with
          | Some l =>
              if Z.ltb (fst q) (_it_max_upper t l)
              then find_next_overlapping_loop fuel' t q (Down l)
              else find_next_overlapping_loop fuel' t q (At n)
          | None => find_next_overlapping_loop fuel' t q (At n)
          end
      | At n =>
          if overlaps n q then Ok (Some n)
          else find_next_overlapping_loop fuel' t q (After n)
      | After n =>
          match _rbt_right (m n) with
          | Some r =>
              if Z.ltb (get_lower n) (snd q)
              then find_next_overlapping_loop fuel' t q (Down r)
              else find_next_overlapping_loop fuel' t q (Up n)
          | None => find_next_overlapping_loop fuel' t q (Up n)
          end
      | Up n =>
          match _rbt_parent (m n) with
          | None => Ok None
          | Some p =>
              if ptr_eqb (_rbt_right (m p)) (Some n)
              then find_next_overlapping_loop fuel' t q (Up p)
              else if Z.leb (snd q) (get_lower p)
                   then find_next_overlapping_loop fuel' t q (Up p)
                   else find_next_overlapping_loop fuel' t q (At p)
          end
      end
  end.

(** Modelled from the spec: with [skipfirst] the node [cur] was the last
    answer and the walk goes on behind it. *)
Definition find_next_overlapping (skipfirst : bool) (fuel : nat)
  (t : IntervalTree) (cur : nat) (q : Z * Z) : result ptr :=
  find_next_overlapping_loop fuel t q (if skipfirst then After cur else Down cur).

(** Modelled from the spec: [for (auto & n : tree.query(q))], the nodes that
    the iterator of a [QueryResult] yields from [it] up to [end()]. *)
Fixpoint emitted (steps fuel : nat) (t : IntervalTree) (q : Z * Z) (it : ptr)
  : result (list nat) :=
  match it with
  | None => Ok []
  | Some n =>
      match steps with
      | 0 => Err OutOfFuel
      | S steps' =>
          nx <- find_next_overlapping true fuel t n q ;;
          rest <- emitted steps' fuel t q nx ;;
          Ok (n :: rest)
      end
  end.

(** Modelled from the spec: [query(q)] starts the walk at the root. *)
Definition query (fuel : nat) (t : IntervalTree) (q : Z * Z) : result (list nat) :=
  match root (base t) with
  | None => Ok []
  | Some r =>
      b <- find_next_overlapping false fuel t r q ;;
      emitted fuel fuel t q b
  end.

End Code.

End IT.

(** ** The trees that the memory represents *)

Module RBSpec.

Import RB.

(** A binary tree of node names with a color at each node. *)
Inductive tree : Type :=
| E
| T (c : Color) (l : tree) (x : nat) (r : tree).

Definition rootp (t : tree) : ptr :=
  match t with
  | E => None
  | T _ _ x _ => Some x
  end.

Definition col (t : tree) : Color :=
  match t with
  | E => BLACK
  | T c _ _ _ => c
  end.

(** The node names in in-order. *)
Fixpoint ids (t : tree) : list nat :=
  match t with
  | E => []
  | T _ l x r => ids l ++ x :: ids r
  end.

(** [shape m par t]: in the memory [m] the links and colors of the nodes of
    [t] are those of the tree [t], hanging below the parent link [par]. *)
Fixpoint shape (m : memory) (par : ptr) (t : tree) : Prop :=
  match t with
  | E => True
  | T c l x r =>
      _rbt_left (m x) = rootp l /\
      _rbt_right (m x) = rootp r /\
      _rbt_parent (m x) = par /\
      _rbt_color (m x) = c /\
      shape m (Some x) l /\
      shape m (Some x) r
  end.

(** The tree object [st] holds the tree [t]. *)
Definition Rep (st : RBTree) (t : tree) : Prop :=
  root st = rootp t /\ shape (mem st) None t /\ NoDup (ids t).

(** One step of a path from a subtree up to the root: the parent node with
    its color and its other subtree. *)
Inductive frame : Type :=
| FL (c : Color) (x : nat) (r : tree)
| FR (c : Color) (l : tree) (x : nat).

Definition fill (f : frame) (t : tree) : tree :=
  match f with
  | FL c x r => T c t x r
  | FR c l x => T c l x t
  end.

Definition fid (f : frame) : nat :=
  match f with
  | FL _ x _ => x
  | FR _ _ x => x
  end.

Definition fcol (f : frame) : Color :=
  match f with
  | FL c _ _ => c
  | FR c _ _ => c
  end.

Definition fsib (f : frame) : tree :=
  match f with
  | FL _ _ r => r
  | FR _ l _ => l
  end.

Definition fids (f : frame) : list nat := fid f :: ids (fsib f).

(** A context is the list of frames from a subtree up to the root, innermost
    frame first. *)
Definition context := list frame.

Fixpoint plug (t : tree) (k : context) : tree :=
  match k with
  | [] => t
  | f :: k' => plug (fill f t) k'
  end.

Fixpoint cids (k : context) : list nat :=
  match k with
  | [] => []
  | f :: k' => fids f ++ cids k'
  end.

(** The parent link of the hole of a context, and the root link of the
    whole tree when the hole holds a subtree with root link [hole]. *)
Definition cpar (k : context) : ptr :=
  match k with
  | [] => None
  | f :: _ => Some (fid f)
  end.

Fixpoint croot (k : context) (hole : ptr) : ptr :=
  match k with
  | [] => hole
  | f :: k' => croot k' (Some (fid f))
  end.

Definition fshape (m : memory) (par : ptr) (f : frame) (hole : ptr) : Prop :=
  match f with
  | FL c x r =>
      _rbt_left (m x) = hole /\
      _rbt_right (m x) = rootp r /\
      _rbt_parent (m x) = par /\
      _rbt_color (m x) = c /\
      shape m (Some x) r
  | FR c l x =>
      _rbt_left (m x) = rootp l /\
      _rbt_right (m x) = hole /\
      _rbt_parent (m x) = par /\
      _rbt_color (m x) = c /\
      shape m (Some x) l
  end.

Fixpoint cshape (m : memory) (k : context) (hole : ptr) : Prop :=
  match k with
  | [] => True
  | f :: k' => fshape m (cpar k') f hole /\ cshape m k' (Some (fid f))
  end.

(** The tree object [st] holds the subtree [s] in the context [k]. *)
Definition RepZ (st : RBTree) (s : tree) (k : context) : Prop :=
  root st = croot k (rootp s) /\
  shape (mem st) (cpar k) s /\
  cshape (mem st) k (rootp s) /\
  NoDup (ids s ++ cids k).

(** *** The red-black invariants *)

Definition blk (c : Color) : nat :=
  match c with
  | BLACK => 1
  | RED => 0
  end.

(** The number of BLACK nodes on the leftmost path. *)
Fixpoint bh (t : tree) : nat :=
  match t with
  | E => 0
  | T c l _ _ => bh l + blk c
  end.

Fixpoint balanced (t : tree) : Prop :=
  match t with
  | E => True
  | T _ l _ r => bh l = bh r /\ balanced l /\ balanced r
  end.

Fixpoint no_red_red (t : tree) : Prop :=
  match t with
  | E => True
  | T c l _ r =>
      (c = RED -> col l = BLACK /\ col r = BLACK) /\
      no_red_red l /\ no_red_red r
  end.

Definition rbtree (t : tree) : Prop :=
  col t = BLACK /\ no_red_red t /\ balanced t.

(** A context that accepts, in its hole, a balanced subtree without red-red
    pair that has black height [h] and root color [c]. *)
Fixpoint cvalid (k : context) (h : nat) (c : Color) : Prop :=
  match k with
  | [] => c = BLACK
  | f :: k' =>
      balanced (fsib f) /\ no_red_red (fsib f) /\ bh (fsib f) = h /\
      (fcol f = RED -> c = BLACK /\ col (fsib f) = BLACK) /\
      cvalid k' (h + blk (fcol f)) (fcol f)
  end.

(** *** The invariants read off the memory *)

(** [linked_from m p n]: node [n] is reached from the link [p] through
    child links. *)
Inductive linked_from (m : memory) : ptr -> nat -> Prop :=
| linked_here (x : nat) : linked_from m (Some x) x
| linked_left (x n : nat) :
    linked_from m (_rbt_left (m x)) n -> linked_from m (Some x) n
| linked_right (x n : nat) :
    linked_from m (_rbt_right (m x)) n -> linked_from m (Some x) n.

Definition linked (st : RBTree) (n : nat) : Prop :=
  linked_from (mem st) (root st) n.

Definition child_of (m : memory) (n c : nat) : Prop :=
  _rbt_left (m n) = Some c \/ _rbt_right (m n) = Some c.

(** [black_height m p h]: every path from the link [p] down to a null link
    crosses [h] BLACK nodes. *)
Inductive black_height (m : memory) : ptr -> nat -> Prop :=
| black_height_null : black_height m None 0
| black_height_node (x h : nat) :
    black_height m (_rbt_left (m x)) h ->
    black_height m (_rbt_right (m x)) h ->
    black_height m (Some x) (h + blk (_rbt_color (m x))).

(** What the claim asks of a linked node [n]. *)
Definition node_ok (m : memory) (n : nat) : Prop :=
  (_rbt_color (m n) = RED \/ _rbt_color (m n) = BLACK) /\
  (_rbt_color (m n) = RED -> forall c, child_of m n c -> _rbt_color (m c) = BLACK) /\
  (exists h, black_height m (_rbt_left (m n)) h /\ black_height m (_rbt_right (m n)) h) /\
  (forall c, child_of m n c -> _rbt_parent (m c) = Some n).

Definition tree_ok (st : RBTree) : Prop :=
  (forall n, linked st n -> node_ok (mem st) n) /\
  (forall r, root st = Some r -> _rbt_color (mem st r) = BLACK).

Section Built.

Variable K : Type.
Variable cmp : K -> K -> bool.
Variable key : nat -> K.
Variable multiple : bool.

(** The trees built from an empty tree by calls of [insert] on nodes that
    are not linked and of [remove] on nodes that are. *)
Inductive built : RBTree -> Prop :=
| built_empty (m : memory) : built (mkTree None m)
| built_insert (st st' : RBTree) (fuel node : nat) :
    built st -> ~ linked st node ->
    insert cmp key multiple fuel st node = Ok st' -> built st'
| built_remove (st st' : RBTree) (fuel node : nat) :
    built st -> linked st node ->
    remove cmp key multiple fuel st node = Ok st' -> built st'.

End Built.

(** The comparator is asymmetric, as every strict weak ordering is. *)
Definition asymmetric {K : Type} (cmp : K -> K -> bool) : Prop :=
  forall a b, cmp a b = true -> cmp b a = false.

End RBSpec.

(** ** Concrete runs used by the examples *)

Module Scenario.

Inductive op := Ins (n : nat) | Rem (n : nat).

(** *** Red-black trees over natural-number keys *)

Definition rb_blank : RB.Node := RB.mkNode None None None RB.RED None None.
Definition rb_empty : RB.RBTree := RB.mkTree None (fun _ => rb_blank).

Fixpoint rb_run (key : nat -> nat) (multiple : bool) (fuel : nat)
  (ops : list op) (t : RB.RBTree) : result RB.RBTree :=
  match ops with
  | [] => Ok t
  | Ins x :: ops' =>
      t' <- RB.insert Nat.ltb key multiple fuel t x ;; rb_run key multiple fuel ops' t'
  | Rem x :: ops' =>
      t' <- RB.remove Nat.ltb key multiple fuel t x ;; rb_run key multiple fuel ops' t'
  end.

(** Every node is its own key. *)
Definition key_id (n : nat) : nat := n.

(** Nodes 50, 51, 52 carry the key 5, node 30 the key 3, and so on. *)
Definition key_div10 (n : nat) : nat := n / 10.

(** *** Energy trees over natural-number keys *)

Definition et_blank : ET.Node := ET.mkNode None None None 0 0.
Definition et_empty : ET.EnergyTree := ET.mkTree None (fun _ => et_blank) [].

Fixpoint et_run (fuel : nat) (ops : list op) (t : ET.EnergyTree)
  : result ET.EnergyTree :=
  match ops with
  | [] => Ok t
  | Ins x :: ops' => t' <- ET.insert Nat.ltb key_id fuel t x ;; et_run fuel ops' t'
  | Rem x :: ops' => t' <- ET.remove fuel t x ;; et_run fuel ops' t'
  end.

End Scenario.

(** * Theorems *)

Unset Implicit Arguments.

Lemma ptr_eqb_spec (p q : ptr) : reflect (p = q) (ptr_eqb p q).
Proof.
  destruct p as [x|], q as [y|]; simpl; try (constructor; congruence).
  destruct (Nat.eqb_spec x y); constructor; congruence.
Qed.

Lemma ptr_eqb_refl (p : ptr) : ptr_eqb p p = true.
Proof. destruct p; simpl; auto using Nat.eqb_refl. Qed.


Lemma upd_eq {A : Type} (m : nat -> A) (x : nat) (f : A -> A) :
  upd m x f x = f (m x).
Proof. unfold upd. now rewrite Nat.eqb_refl. Qed.

Lemma upd_neq {A : Type} (m : nat -> A) (x y : nat) (f : A -> A) :
  y <> x -> upd m x f y = m y.
Proof. unfold upd. intros H. apply Nat.eqb_neq in H. now rewrite H. Qed.

(** A run that is known to succeed with given observations has a final
    state with these observations. *)
Lemma bind_ok_inv {A B : Type} (r : result A) (f : A -> B) (v : B) :
  (x <- r ;; Ok (f x)) = Ok v -> exists x, r = Ok x /\ f x = v.
Proof.
  destruct r as [x|e]; simpl; intros H; [|discriminate].
  exists x. split; [reflexivity|congruence].
Qed.

(** ** Energy tree: what [insert], [remove] and [rebuild_below] do on
       small trees *)

Module ETFacts.

Import Scenario.

Lemma leftmost_self_loop (m : ET.memory) (x : nat) :
  ET._et_left (m x) = Some x ->
  forall fuel, ET.leftmost fuel m x = Err OutOfFuel.
Proof.
  intros H fuel. induction fuel as [|fuel IH]; simpl; rewrite H; auto.
Qed.

Lemma rebuild_below_self_loop (t : ET.EnergyTree) (x : nat) :
  ET.root t = Some x ->
  ET._et_left (ET.mem t x) = Some x ->
  forall fuel node, ET.rebuild_below fuel t node = Err OutOfFuel.
Proof.
  intros Hr Hl fuel node.
  unfold ET.rebuild_below, ET.dbg_verify, ET.dbg_verify_sizes, ET.begin,
    ET.get_smallest.
  rewrite Hr, (leftmost_self_loop _ _ Hl). reflexivity.
Qed.

(** Removing a root whose only child is a left leaf: the child is not
    spliced out of its old place, inherits the root's left link, which is the
    child itself, and the rebuild that follows walks that link for ever. *)
Lemma remove_root_with_left_leaf (t : ET.EnergyTree) (x c : nat) :
  c <> x ->
  ET.root t = Some x ->
  ET._et_parent (ET.mem t x) = None ->
  ET._et_left (ET.mem t x) = Some c ->
  ET._et_right (ET.mem t x) = None ->
  ET._et_left (ET.mem t c) = None ->
  ET._et_right (ET.mem t c) = None ->
  ET._et_size (ET.mem t x) = 2%Z ->
  ET._et_energy (ET.mem t x) = 1%Z ->
  forall fuel, ET.remove fuel t x = Err OutOfFuel.
Proof.
  intros Hcx Hroot Hpx Hlx Hrx Hlc Hrc Hs He fuel.
  unfold ET.remove.
  assert (Ha : ET.remove_ascend fuel (ET.mem t) x None false
               = Ok (ET.mem t, None, false)).
  { destruct fuel; simpl; rewrite Hpx; reflexivity. }
  rewrite Ha. cbn [bind]. rewrite Hlx. cbn [bind ET.mem ET.root].
  assert (Hd : ET.remove_descend_right fuel (ET.mem t) x c None
               = Ok (ET.mem t, c, None)).
  { destruct fuel; simpl; rewrite Hrc; reflexivity. }
  rewrite Hd. cbn [bind]. rewrite Hlc. cbn [bind ET.mem ET.root].
  assert (Hxc' : Nat.eqb x c = false) by (apply Nat.eqb_neq; auto).
  unfold ET.set_left, ET.set_right, upd. cbn beta.
  rewrite ?Hxc', Hpx. cbn [bind ET.mem ET.root ET.with_mem].
  unfold ET.overcharged, ET.set_size, ET.set_energy, ET.set_parent, upd.
  cbn beta.
  rewrite ?Nat.eqb_refl, ?Hxc'. cbn [ET._et_size ET._et_energy].
  rewrite Hs, He. cbn [negb andb Z.ltb].
  replace (ET.wrap (2 - 1) <? 2 * ET.wrap (1 + 1))%Z with true by reflexivity.
  cbn iota.
  apply rebuild_below_self_loop with (x := c);
    cbn [ET.root ET.mem ET.with_mem ET._et_left]; auto.
  rewrite Nat.eqb_refl. cbn. assumption.
Qed.

(** C9 (failing run).  Insert the nodes 2 and 1 into an empty energy tree;
    both are linked.  Then remove node 2: with any amount of fuel the call
    is still running, so the tree is never emptied. *)
Theorem et_round_trip_diverges :
  exists t,
    et_run 10 [Ins 2; Ins 1] et_empty = Ok t /\
    ET.iterate 10 t = Ok [1; 2] /\
    forall fuel, ET.remove fuel t 2 = Err OutOfFuel.
Proof.
  assert (F : (t <- et_run 10 [Ins 2; Ins 1] et_empty ;;
               Ok (ET.iterate 10 t, ET.root t, ET.mem t 2, ET.mem t 1))
              = Ok (Ok [1; 2], Some 2, ET.mkNode (Some 1) None None 2 1,
                    ET.mkNode None None (Some 2) 1 0)).
  { vm_compute. reflexivity. }
  apply bind_ok_inv in F. destruct F as (t & Ht & F).
  injection F as Hit Hr H2 H1.
  exists t. split; [assumption|]. split; [assumption|].
  apply remove_root_with_left_leaf with (c := 1);
    try rewrite H2; try rewrite H1; auto.
Qed.

(** A four-node energy tree as it stands when [remove] calls
    [rebuild_below] on its root: 2 at the root with right child 4, which
    has the children 3 and 5; every size field is exact. *)
Definition four_nodes : ET.EnergyTree :=
  ET.mkTree (Some 2)
    (fun x =>
       match x with
       | 2 => ET.mkNode None (Some 4) None 4 3
       | 4 => ET.mkNode (Some 3) (Some 5) (Some 2) 3 0
       | 3 => ET.mkNode None None (Some 4) 1 0
       | 5 => ET.mkNode None None (Some 4) 1 0
       | _ => et_blank
       end)
    [Some 3; Some 5; Some 4].

(** C3 (failing run).  A rebuild of four nodes needs three levels; the
    slots are assigned as if the bottom level were full, so slot 5 of
    [rebuild_buffer] is never written and linking level 1 to the root
    dereferences it.  The rebuild is reached by the run "insert 1..5,
    remove 1". *)
Theorem et_rebuild_of_four_nodes_faults :
  ET.verify_integrity 100 four_nodes = Ok true /\
  ET.iterate 100 four_nodes = Ok [2; 3; 4; 5] /\
  ET.rebuild_below 100 four_nodes 2 = Err NullDeref /\
  (t <- et_run 100 [Ins 1; Ins 2; Ins 3; Ins 4; Ins 5] et_empty ;;
   ET.remove 100 t 1) = Err NullDeref.
Proof. repeat split; vm_compute; reflexivity. Qed.

(** For comparison, the run of the spec's scenario 4: fifteen sequential
    inserts end in a rebuild of a full tree, which succeeds. *)
Lemma et_fifteen_inserts :
  (t <- et_run 100 (map Ins (seq 1 15)) et_empty ;;
   l <- ET.iterate 100 t ;;
   Ok (ET.root t, l, ET._et_energy (ET.mem t 8), ET._et_size (ET.mem t 8)))
  = Ok (Some 8, seq 1 15, 0%Z, 15%Z).
Proof. vm_compute. reflexivity. Qed.

(** C2 (failing runs).  Every call below returns normally.
    - After "insert 1..7, remove 3, remove 4, remove 5" the root 2 is
      linked with the children 1 and 6, its size field is 5, and the size
      fields of its children are 1 and 2.
    - After "insert 1..15, remove 7, insert 7, remove 7, remove 8" node 4
      is the left child of the root 6 and has energy 4 with size 5. *)
Theorem et_size_and_energy_broken :
  (exists t,
     et_run 100 (map Ins (seq 1 7) ++ [Rem 3; Rem 4; Rem 5]) et_empty = Ok t /\
     ET.root t = Some 2 /\
     ET._et_left (ET.mem t 2) = Some 1 /\
     ET._et_right (ET.mem t 2) = Some 6 /\
     ET._et_size (ET.mem t 2) = 5%Z /\
     ET._et_size (ET.mem t 1) = 1%Z /\
     ET._et_size (ET.mem t 6) = 2%Z) /\
  (exists t,
     et_run 100 (map Ins (seq 1 15) ++ [Rem 7; Ins 7; Rem 7; Rem 8]) et_empty = Ok t /\
     ET.root t = Some 6 /\
     ET._et_left (ET.mem t 6) = Some 4 /\
     ET._et_size (ET.mem t 4) = 5%Z /\
     ET._et_energy (ET.mem t 4) = 4%Z /\
     ET.overcharged (ET.mem t) 4 = true).
Proof.
  split.
  - assert (F : (t <- et_run 100 (map Ins (seq 1 7) ++ [Rem 3; Rem 4; Rem 5]) et_empty ;;
                 Ok (ET.root t, ET._et_left (ET.mem t 2), ET._et_right (ET.mem t 2),
                     ET._et_size (ET.mem t 2), ET._et_size (ET.mem t 1),
                     ET._et_size (ET.mem t 6)))
                = Ok (Some 2, Some 1, Some 6, 5%Z, 1%Z, 2%Z)).
    { vm_compute. reflexivity. }
    apply bind_ok_inv in F. destruct F as (t & Ht & F).
    injection F as F1 F2 F3 F4 F5 F6.
    exists t. repeat split; assumption.
  - assert (F : (t <- et_run 100 (map Ins (seq 1 15) ++ [Rem 7; Ins 7; Rem 7; Rem 8]) et_empty ;;
                 Ok (ET.root t, ET._et_left (ET.mem t 6), ET._et_size (ET.mem t 4),
                     ET._et_energy (ET.mem t 4), ET.overcharged (ET.mem t) 4))
                = Ok (Some 6, Some 4, 5%Z, 4%Z, true)).
    { vm_compute. reflexivity. }
    apply bind_ok_inv in F. destruct F as (t & Ht & F).
    injection F as F1 F2 F3 F4 F5.
    exists t. repeat split; assumption.
Qed.

End ETFacts.

(** ** Red-black tree: runs on small trees *)

Module RBRuns.

Import Scenario.

(** C10 (failing run).  Insert 5, 3, 10, 7: the tree is 5 at the root with
    the children 3 and 10, and 7 as left child of 10.  The smallest element
    greater than 5 is 7, but [upper_bound(5)] stops at the right child of
    the node that compares equal and answers 10. *)
Theorem upper_bound_answers_right_child :
  exists t,
    rb_run key_id true 100 [Ins 5; Ins 3; Ins 10; Ins 7] rb_empty = Ok t /\
    RB.iterate 100 t = Ok [3; 5; 7; 10] /\
    RB.upper_bound Nat.ltb key_id 100 t 5 = Ok (Some 10).
Proof.
  assert (F : (t <- rb_run key_id true 100 [Ins 5; Ins 3; Ins 10; Ins 7] rb_empty ;;
               Ok (RB.iterate 100 t, RB.upper_bound Nat.ltb key_id 100 t 5))
              = Ok (Ok [3; 5; 7; 10], Ok (Some 10))).
  { vm_compute. reflexivity. }
  apply bind_ok_inv in F. destruct F as (t & Ht & F).
  injection F as F1 F2. exists t. repeat split; assumption.
Qed.

(** C5 (failing run).  MULTIPLE disabled; nodes 50 and 51 carry the key 5
    and node 30 the key 3.  After inserting 50 and 30, the insert of 51
    descends left of 50 and right of 30, its parent 30 is not equal to it,
    and 51 is linked: it even becomes the root. *)
Theorem insert_links_duplicate_key :
  exists t t',
    rb_run key_div10 false 100 [Ins 50; Ins 30] rb_empty = Ok t /\
    RB.iterate 100 t = Ok [30; 50] /\
    RB.insert Nat.ltb key_div10 false 100 t 51 = Ok t' /\
    RB.iterate 100 t' = Ok [30; 51; 50] /\
    RB.root t' = Some 51.
Proof.
  assert (F : (t <- rb_run key_div10 false 100 [Ins 50; Ins 30] rb_empty ;;
               Ok (RB.iterate 100 t,
                   t' <- RB.insert Nat.ltb key_div10 false 100 t 51 ;;
                   Ok (RB.iterate 100 t', RB.root t')))
              = Ok (Ok [30; 50], Ok (Ok [30; 51; 50], Some 51))).
  { vm_compute. reflexivity. }
  apply bind_ok_inv in F. destruct F as (t & Ht & F).
  injection F as F1 F2.
  apply bind_ok_inv in F2. destruct F2 as (t' & Ht' & F2).
  injection F2 as F2 F3.
  exists t, t'. repeat split; assumption.
Qed.


(** [swap_nodes] is written for a node and a node below it.  For the
    siblings 3 and 8 below the root 5 it leaves both where they are and
    exchanges their children, so that node 9 comes to lie before the
    root. *)
Lemma swap_nodes_of_siblings :
  (t <- rb_run key_id true 100 [Ins 5; Ins 3; Ins 8; Ins 1; Ins 9] rb_empty ;;
   l <- RB.iterate 100 t ;;
   l' <- RB.iterate 100 (RB.swap_nodes Nat.ltb key_id true t 3 8 true) ;;
   Ok (l, RB._rbt_left (RB.mem t 5),
       RB._rbt_left (RB.mem (RB.swap_nodes Nat.ltb key_id true t 3 8 true) 5), l'))
  = Ok ([1; 3; 5; 8; 9], Some 3, Some 3, [3; 9; 5; 1; 8]).
Proof. vm_compute. reflexivity. Qed.

(** C7 (counterexample).  MULTIPLE enabled; the nodes 50, 51, 52 carry the
    key 5 and are inserted in this order.  Forward iteration meets them in
    the order 52, 51, 50, and in the chain the equal parent 50 comes before
    the node 51 spliced at it. *)
Lemma equal_keys_counterexample :
  exists t,
    rb_run key_div10 true 100 [Ins 50; Ins 51; Ins 52] rb_empty = Ok t /\
    RB.iterate 100 t <> Ok [50; 51; 52] /\
    RB._rbt_next (RB.mem t 50) = Some 51 /\
    RB._rbt_prev (RB.mem t 51) = Some 50.
Proof.
  assert (F : (t <- rb_run key_div10 true 100 [Ins 50; Ins 51; Ins 52] rb_empty ;;
               Ok (RB.iterate 100 t, RB._rbt_next (RB.mem t 50),
                   RB._rbt_prev (RB.mem t 51)))
              = Ok (Ok [52; 51; 50], Some 51, Some 50)).
  { vm_compute. reflexivity. }
  apply bind_ok_inv in F. destruct F as (t & Ht & F).
  injection F as F1 F2 F3.
  exists t. rewrite F1. repeat split; auto; discriminate.
Qed.


(** The spec's scenarios 1 and 2. *)
Lemma scenario_recolor_only_insert :
  (t <- rb_run key_id true 100 [Ins 10; Ins 5; Ins 15; Ins 3; Ins 7] rb_empty ;;
   l <- RB.iterate 100 t ;;
   Ok (RB.root t, l, map (fun x => RB._rbt_color (RB.mem t x)) l))
  = Ok (Some 10, [3; 5; 7; 10; 15], [RB.RED; RB.BLACK; RB.RED; RB.BLACK; RB.BLACK]).
Proof. vm_compute. reflexivity. Qed.

Lemma scenario_delete_cascade :
  (t <- rb_run key_id true 100
          [Ins 10; Ins 5; Ins 15; Ins 3; Ins 7; Rem 3; Rem 5; Rem 10] rb_empty ;;
   l <- RB.iterate 100 t ;;
   Ok (RB.root t, l, map (fun x => RB._rbt_color (RB.mem t x)) l))
  = Ok (Some 15, [7; 15], [RB.RED; RB.BLACK]).
Proof. vm_compute. reflexivity. Qed.

End RBRuns.

(** ** Reading the memory of a red-black tree after an update *)

Module RBMem.

Import RB.

Create Rewrite HintDb rbmem.

Ltac prove_read :=
  intros; unfold set_left, set_right, set_parent, set_color, set_next, set_prev, upd;
  match goal with
  | |- context [Nat.eqb ?b ?a] => destruct (Nat.eqb b a); reflexivity
  end.

Lemma left_set_left (m : memory) (a b : nat) (v : ptr) :
  _rbt_left (set_left m a v b) = if Nat.eqb b a then v else _rbt_left (m b).
Proof. prove_read. Qed.

Lemma right_set_left (m : memory) (a b : nat) (v : ptr) :
  _rbt_right (set_left m a v b) = _rbt_right (m b).
Proof. prove_read. Qed.

Lemma parent_set_left (m : memory) (a b : nat) (v : ptr) :
  _rbt_parent (set_left m a v b) = _rbt_parent (m b).
Proof. prove_read. Qed.

Lemma color_set_left (m : memory) (a b : nat) (v : ptr) :
  _rbt_color (set_left m a v b) = _rbt_color (m b).
Proof. prove_read. Qed.

Lemma next_set_left (m : memory) (a b : nat) (v : ptr) :
  _rbt_next (set_left m a v b) = _rbt_next (m b).
Proof. prove_read. Qed.

Lemma prev_set_left (m : memory) (a b : nat) (v : ptr) :
  _rbt_prev (set_left m a v b) = _rbt_prev (m b).
Proof. prove_read. Qed.

Lemma left_set_right (m : memory) (a b : nat) (v : ptr) :
  _rbt_left (set_right m a v b) = _rbt_left (m b).
Proof. prove_read. Qed.

Lemma right_set_right (m : memory) (a b : nat) (v : ptr) :
  _rbt_right (set_right m a v b) = if Nat.eqb b a then v else _rbt_right (m b).
Proof. prove_read. Qed.

Lemma parent_set_right (m : memory) (a b : nat) (v : ptr) :
  _rbt_parent (set_right m a v b) = _rbt_parent (m b).
Proof. prove_read. Qed.

Lemma color_set_right (m : memory) (a b : nat) (v : ptr) :
  _rbt_color (set_right m a v b) = _rbt_color (m b).
Proof. prove_read. Qed.

Lemma next_set_right (m : memory) (a b : nat) (v : ptr) :
  _rbt_next (set_right m a v b) = _rbt_next (m b).
Proof. prove_read. Qed.

Lemma prev_set_right (m : memory) (a b : nat) (v : ptr) :
  _rbt_prev (set_right m a v b) = _rbt_prev (m b).
Proof. prove_read. Qed.

Lemma left_set_parent (m : memory) (a b : nat) (v : ptr) :
  _rbt_left (set_parent m a v b) = _rbt_left (m b).
Proof. prove_read. Qed.

Lemma right_set_parent (m : memory) (a b : nat) (v : ptr) :
  _rbt_right (set_parent m a v b) = _rbt_right (m b).
Proof. prove_read. Qed.

Lemma parent_set_parent (m : memory) (a b : nat) (v : ptr) :
  _rbt_parent (set_parent m a v b) = if Nat.eqb b a then v else _rbt_parent (m b).
Proof. prove_read. Qed.

Lemma color_set_parent (m : memory) (a b : nat) (v : ptr) :
  _rbt_color (set_parent m a v b) = _rbt_color (m b).
Proof. prove_read. Qed.

Lemma next_set_parent (m : memory) (a b : nat) (v : ptr) :
  _rbt_next (set_parent m a v b) = _rbt_next (m b).
Proof. prove_read. Qed.

Lemma prev_set_parent (m : memory) (a b : nat) (v : ptr) :
  _rbt_prev (set_parent m a v b) = _rbt_prev (m b).
Proof. prove_read. Qed.

Lemma left_set_color (m : memory) (a b : nat) (v : Color) :
  _rbt_left (set_color m a v b) = _rbt_left (m b).
Proof. prove_read. Qed.

Lemma right_set_color (m : memory) (a b : nat) (v : Color) :
  _rbt_right (set_color m a v b) = _rbt_right (m b).
Proof. prove_read. Qed.

Lemma parent_set_color (m : memory) (a b : nat) (v : Color) :
  _rbt_parent (set_color m a v b) = _rbt_parent (m b).
Proof. prove_read. Qed.

Lemma color_set_color (m : memory) (a b : nat) (v : Color) :
  _rbt_color (set_color m a v b) = if Nat.eqb b a then v else _rbt_color (m b).
Proof. prove_read. Qed.

Lemma next_set_color (m : memory) (a b : nat) (v : Color) :
  _rbt_next (set_color m a v b) = _rbt_next (m b).
Proof. prove_read. Qed.

Lemma prev_set_color (m : memory) (a b : nat) (v : Color) :
  _rbt_prev (set_color m a v b) = _rbt_prev (m b).
Proof. prove_read. Qed.

Lemma left_set_next (m : memory) (a b : nat) (v : ptr) :
  _rbt_left (set_next m a v b) = _rbt_left (m b).
Proof. prove_read. Qed.

Lemma right_set_next (m : memory) (a b : nat) (v : ptr) :
  _rbt_right (set_next m a v b) = _rbt_right (m b).
Proof. prove_read. Qed.

Lemma parent_set_next (m : memory) (a b : nat) (v : ptr) :
  _rbt_parent (set_next m a v b) = _rbt_parent (m b).
Proof. prove_read. Qed.

Lemma color_set_next (m : memory) (a b : nat) (v : ptr) :
  _rbt_color (set_next m a v b) = _rbt_color (m b).
Proof. prove_read. Qed.

Lemma next_set_next (m : memory) (a b : nat) (v : ptr) :
  _rbt_next (set_next m a v b) = if Nat.eqb b a then v else _rbt_next (m b).
Proof. prove_read. Qed.

Lemma prev_set_next (m : memory) (a b : nat) (v : ptr) :
  _rbt_prev (set_next m a v b) = _rbt_prev (m b).
Proof. prove_read. Qed.

Lemma left_set_prev (m : memory) (a b : nat) (v : ptr) :
  _rbt_left (set_prev m a v b) = _rbt_left (m b).
Proof. prove_read. Qed.

Lemma right_set_prev (m : memory) (a b : nat) (v : ptr) :
  _rbt_right (set_prev m a v b) = _rbt_right (m b).
Proof. prove_read. Qed.

Lemma parent_set_prev (m : memory) (a b : nat) (v : ptr) :
  _rbt_parent (set_prev m a v b) = _rbt_parent (m b).
Proof. prove_read. Qed.

Lemma color_set_prev (m : memory) (a b : nat) (v : ptr) :
  _rbt_color (set_prev m a v b) = _rbt_color (m b).
Proof. prove_read. Qed.

Lemma next_set_prev (m : memory) (a b : nat) (v : ptr) :
  _rbt_next (set_prev m a v b) = _rbt_next (m b).
Proof. prove_read. Qed.

Lemma prev_set_prev (m : memory) (a b : nat) (v : ptr) :
  _rbt_prev (set_prev m a v b) = if Nat.eqb b a then v else _rbt_prev (m b).
Proof. prove_read. Qed.


#[global] Hint Rewrite left_set_left right_set_left parent_set_left color_set_left next_set_left prev_set_left left_set_right right_set_right parent_set_right color_set_right next_set_right prev_set_right left_set_parent right_set_parent parent_set_parent color_set_parent next_set_parent prev_set_parent left_set_color right_set_color parent_set_color color_set_color next_set_color prev_set_color left_set_next right_set_next parent_set_next color_set_next next_set_next prev_set_next left_set_prev right_set_prev parent_set_prev color_set_prev next_set_prev prev_set_prev : rbmem.

Lemma left_set_parent_if (m : memory) (p : ptr) (b : nat) (v : ptr) :
  _rbt_left (set_parent_if m p v b) = _rbt_left (m b).
Proof. destruct p; simpl; [apply left_set_parent|reflexivity]. Qed.

Lemma right_set_parent_if (m : memory) (p : ptr) (b : nat) (v : ptr) :
  _rbt_right (set_parent_if m p v b) = _rbt_right (m b).
Proof. destruct p; simpl; [apply right_set_parent|reflexivity]. Qed.

Lemma parent_set_parent_if (m : memory) (p : ptr) (b : nat) (v : ptr) :
  _rbt_parent (set_parent_if m p v b) =
  match p with
  | Some a => if Nat.eqb b a then v else _rbt_parent (m b)
  | None => _rbt_parent (m b)
  end.
Proof. destruct p; simpl; [apply parent_set_parent|reflexivity]. Qed.

Lemma color_set_parent_if (m : memory) (p : ptr) (b : nat) (v : ptr) :
  _rbt_color (set_parent_if m p v b) = _rbt_color (m b).
Proof. destruct p; simpl; [apply color_set_parent|reflexivity]. Qed.

Lemma next_set_parent_if (m : memory) (p : ptr) (b : nat) (v : ptr) :
  _rbt_next (set_parent_if m p v b) = _rbt_next (m b).
Proof. destruct p; simpl; [apply next_set_parent|reflexivity]. Qed.

Lemma prev_set_parent_if (m : memory) (p : ptr) (b : nat) (v : ptr) :
  _rbt_prev (set_parent_if m p v b) = _rbt_prev (m b).
Proof. destruct p; simpl; [apply prev_set_parent|reflexivity]. Qed.

Lemma left_set_next_if (m : memory) (p : ptr) (b : nat) (v : ptr) :
  _rbt_left (set_next_if m p v b) = _rbt_left (m b).
Proof. destruct p; simpl; [apply left_set_next|reflexivity]. Qed.

Lemma right_set_next_if (m : memory) (p : ptr) (b : nat) (v : ptr) :
  _rbt_right (set_next_if m p v b) = _rbt_right (m b).
Proof. destruct p; simpl; [apply right_set_next|reflexivity]. Qed.

Lemma parent_set_next_if (m : memory) (p : ptr) (b : nat) (v : ptr) :
  _rbt_parent (set_next_if m p v b) = _rbt_parent (m b).
Proof. destruct p; simpl; [apply parent_set_next|reflexivity]. Qed.

Lemma color_set_next_if (m : memory) (p : ptr) (b : nat) (v : ptr) :
  _rbt_color (set_next_if m p v b) = _rbt_color (m b).
Proof. destruct p; simpl; [apply color_set_next|reflexivity]. Qed.

Lemma next_set_next_if (m : memory) (p : ptr) (b : nat) (v : ptr) :
  _rbt_next (set_next_if m p v b) =
  match p with
  | Some a => if Nat.eqb b a then v else _rbt_next (m b)
  | None => _rbt_next (m b)
  end.
Proof. destruct p; simpl; [apply next_set_next|reflexivity]. Qed.

Lemma prev_set_next_if (m : memory) (p : ptr) (b : nat) (v : ptr) :
  _rbt_prev (set_next_if m p v b) = _rbt_prev (m b).
Proof. destruct p; simpl; [apply prev_set_next|reflexivity]. Qed.

Lemma left_set_prev_if (m : memory) (p : ptr) (b : nat) (v : ptr) :
  _rbt_left (set_prev_if m p v b) = _rbt_left (m b).
Proof. destruct p; simpl; [apply left_set_prev|reflexivity]. Qed.

Lemma right_set_prev_if (m : memory) (p : ptr) (b : nat) (v : ptr) :
  _rbt_right (set_prev_if m p v b) = _rbt_right (m b).
Proof. destruct p; simpl; [apply right_set_prev|reflexivity]. Qed.

Lemma parent_set_prev_if (m : memory) (p : ptr) (b : nat) (v : ptr) :
  _rbt_parent (set_prev_if m p v b) = _rbt_parent (m b).
Proof. destruct p; simpl; [apply parent_set_prev|reflexivity]. Qed.

Lemma color_set_prev_if (m : memory) (p : ptr) (b : nat) (v : ptr) :
  _rbt_color (set_prev_if m p v b) = _rbt_color (m b).
Proof. destruct p; simpl; [apply color_set_prev|reflexivity]. Qed.

Lemma next_set_prev_if (m : memory) (p : ptr) (b : nat) (v : ptr) :
  _rbt_next (set_prev_if m p v b) = _rbt_next (m b).
Proof. destruct p; simpl; [apply next_set_prev|reflexivity]. Qed.

Lemma prev_set_prev_if (m : memory) (p : ptr) (b : nat) (v : ptr) :
  _rbt_prev (set_prev_if m p v b) =
  match p with
  | Some a => if Nat.eqb b a then v else _rbt_prev (m b)
  | None => _rbt_prev (m b)
  end.
Proof. destruct p; simpl; [apply prev_set_prev|reflexivity]. Qed.


#[global] Hint Rewrite left_set_parent_if right_set_parent_if parent_set_parent_if color_set_parent_if next_set_parent_if prev_set_parent_if left_set_next_if right_set_next_if parent_set_next_if color_set_next_if next_set_next_if prev_set_next_if left_set_prev_if right_set_prev_if parent_set_prev_if color_set_prev_if next_set_prev_if prev_set_prev_if : rbmem.

End RBMem.

(** ** Red-black tree: [swap_nodes] and the color fields *)

Module RBColors.

Import RB RBMem.


Section Colors.

Variable K : Type.
Variable cmp : K -> K -> bool.
Variable key : nat -> K.
Variable multiple : bool.





End Colors.

End RBColors.

(** ** Lists of node names without repetition *)

Module NoDupFacts.

Definition disj (l1 l2 : list nat) : Prop :=
  forall z, In z l1 -> In z l2 -> False.

Lemma NoDup_app_iff (l1 l2 : list nat) :
  NoDup (l1 ++ l2) <-> NoDup l1 /\ NoDup l2 /\ disj l1 l2.
Proof.
  unfold disj. induction l1 as [|a l1 IH]; simpl.
  - split; [intros H; repeat split; auto; constructor|tauto].
  - rewrite !NoDup_cons_iff, IH, in_app_iff. split.
    + intros (Hn & H1 & H2 & H3). repeat split; auto.
      intros z [->|Hz] Hz2; eauto.
    + intros ((Hn & H1) & H2 & H3). repeat split; eauto.
      intros [H|H]; eauto.
Qed.

Lemma disj_nil_r l : disj l [] <-> True.
Proof. unfold disj; simpl; tauto. Qed.
Lemma disj_nil_l l : disj [] l <-> True.
Proof. unfold disj; simpl; tauto. Qed.
Lemma disj_cons_r l x l' : disj l (x :: l') <-> ~ In x l /\ disj l l'.
Proof.
  unfold disj; simpl. split.
  - intros H. split; [intros Hx; eapply H; eauto|intros z Hz Hz'; eapply H; eauto].
  - intros (H1 & H2) z Hz [->|Hz']; eauto.
Qed.
Lemma disj_cons_l l x l' : disj (x :: l') l <-> ~ In x l /\ disj l' l.
Proof.
  unfold disj; simpl. split.
  - intros H. split; [intros Hx; eapply H; eauto|intros z Hz Hz'; eapply H; eauto].
  - intros (H1 & H2) z [->|Hz] Hz'; eauto.
Qed.
Lemma disj_app_r l l1 l2 : disj l (l1 ++ l2) <-> disj l l1 /\ disj l l2.
Proof.
  unfold disj. split.
  - intros H; split; intros z Hz Hz'; eapply H; eauto; rewrite in_app_iff; auto.
  - intros (H1 & H2) z Hz Hz'. rewrite in_app_iff in Hz'. destruct Hz'; eauto.
Qed.
Lemma disj_app_l l l1 l2 : disj (l1 ++ l2) l <-> disj l1 l /\ disj l2 l.
Proof.
  unfold disj. split.
  - intros H; split; intros z Hz Hz'; eapply H; eauto; rewrite in_app_iff; auto.
  - intros (H1 & H2) z Hz Hz'. rewrite in_app_iff in Hz. destruct Hz; eauto.
Qed.

Lemma not_in_cons (x y : nat) l : ~ In x (y :: l) <-> x <> y /\ ~ In x l.
Proof. simpl. split; [intros H; split; intros H'; apply H; auto|intros (H1 & H2) [H|H]; auto]. Qed.
Lemma not_in_app (x : nat) l1 l2 : ~ In x (l1 ++ l2) <-> ~ In x l1 /\ ~ In x l2.
Proof. rewrite in_app_iff. tauto. Qed.
Lemma not_in_nil (x : nat) : ~ In x [] <-> True.
Proof. simpl; tauto. Qed.

Lemma disj_l l1 l2 z : disj l1 l2 -> In z l1 -> ~ In z l2.
Proof. unfold disj; eauto. Qed.
Lemma disj_r l1 l2 z : disj l1 l2 -> In z l2 -> ~ In z l1.
Proof. unfold disj; eauto. Qed.
Lemma in_neq (l : list nat) x z : In z l -> ~ In x l -> z <> x.
Proof. intros H1 H2 ->; auto. Qed.
Lemma in_neq' (l : list nat) x z : In z l -> ~ In x l -> x <> z.
Proof. intros H1 H2 ->; auto. Qed.

End NoDupFacts.

Import NoDupFacts.

Ltac nd_norm H :=
  repeat first
    [ rewrite NoDup_app_iff in H
    | rewrite NoDup_cons_iff in H
    | rewrite disj_cons_r in H
    | rewrite disj_cons_l in H
    | rewrite disj_app_r in H
    | rewrite disj_app_l in H
    | rewrite disj_nil_r in H
    | rewrite disj_nil_l in H
    | rewrite not_in_cons in H
    | rewrite not_in_app in H
    | rewrite not_in_nil in H ].

Import RB RBMem RBSpec NoDupFacts.

Ltac split_ands :=
  repeat match goal with
         | H : _ /\ _ |- _ => destruct H
         end.

Ltac nd H := nd_norm H; split_ands.

(** ** Trees, contexts and the memory *)

Module Shape.

(** The structural part of a node record. *)
Definition same_node (n n' : Node) : Prop :=
  _rbt_left n = _rbt_left n' /\ _rbt_right n = _rbt_right n' /\
  _rbt_parent n = _rbt_parent n' /\ _rbt_color n = _rbt_color n'.

Lemma same_node_refl n : same_node n n.
Proof. repeat split. Qed.

Lemma shape_frame (m m' : memory) (t : tree) :
  forall par,
    (forall x, In x (ids t) -> same_node (m' x) (m x)) ->
    shape m par t -> shape m' par t.
Proof.
  induction t as [|c l IHl x r IHr]; simpl; intros par Hs H; [exact I|].
  destruct H as (Hl & Hr & Hp & Hc & Sl & Sr).
  destruct (Hs x) as (E1 & E2 & E3 & E4); [rewrite in_app_iff; simpl; auto|].
  rewrite E1, E2, E3, E4. repeat split; auto.
  - apply IHl; auto. intros y Hy. apply Hs. rewrite in_app_iff; auto.
  - apply IHr; auto. intros y Hy. apply Hs. rewrite in_app_iff; simpl; auto.
Qed.

(** Hanging a tree below another parent link. *)
Lemma shape_reparent (m m' : memory) (t : tree) (par par' : ptr) :
  shape m par t ->
  (forall x, rootp t = Some x ->
             _rbt_left (m' x) = _rbt_left (m x) /\
             _rbt_right (m' x) = _rbt_right (m x) /\
             _rbt_parent (m' x) = par' /\
             _rbt_color (m' x) = _rbt_color (m x)) ->
  (forall x, In x (ids t) -> rootp t <> Some x -> same_node (m' x) (m x)) ->
  NoDup (ids t) ->
  shape m' par' t.
Proof.
  destruct t as [|c l x r]; simpl; [auto|].
  intros (Hl & Hr & Hp & Hc & Sl & Sr) Hroot Hs Hnd.
  destruct (Hroot x eq_refl) as (E1 & E2 & E3 & E4).
  rewrite E1, E2, E3, E4. nd Hnd.
  repeat split; auto.
  - eapply shape_frame; [|exact Sl]. intros y Hy. apply Hs.
    + rewrite in_app_iff; auto.
    + intros [= ->]. auto.
  - eapply shape_frame; [|exact Sr]. intros y Hy. apply Hs.
    + rewrite in_app_iff; simpl; auto.
    + intros [= ->]. auto.
Qed.

Lemma fshape_frame (m m' : memory) (f : frame) (par hole : ptr) :
  (forall x, In x (fids f) -> same_node (m' x) (m x)) ->
  fshape m par f hole -> fshape m' par f hole.
Proof.
  intros Hs. destruct f as [c x r|c l x]; simpl;
    intros (Hl & Hr & Hp & Hc & S);
    (destruct (Hs x) as (E1 & E2 & E3 & E4); [simpl; auto|]);
    rewrite E1, E2, E3, E4; repeat split; auto;
    (eapply shape_frame; [|exact S]); intros y Hy; apply Hs; simpl; auto.
Qed.

Lemma cshape_frame (m m' : memory) (k : context) :
  forall hole,
    (forall x, In x (cids k) -> same_node (m' x) (m x)) ->
    cshape m k hole -> cshape m' k hole.
Proof.
  induction k as [|f k IH]; simpl; intros hole Hs H; [exact I|].
  destruct H as (Hf & Hk). split.
  - eapply fshape_frame; [|exact Hf]. intros x Hx. apply Hs.
    simpl in Hx. rewrite in_app_iff. tauto.
  - apply IH; auto. intros x Hx. apply Hs. rewrite in_app_iff; auto.
Qed.

Lemma rootp_plug (s : tree) (k : context) :
  rootp (plug s k) = croot k (rootp s).
Proof.
  revert s. induction k as [|f k IH]; intros s; simpl; [reflexivity|].
  rewrite IH. destruct f; reflexivity.
Qed.

Lemma ids_plug_perm (s : tree) (k : context) :
  Permutation (ids (plug s k)) (ids s ++ cids k).
Proof.
  revert s. induction k as [|f k IH]; intros s; cbn [plug cids].
  - now rewrite app_nil_r.
  - rewrite IH. rewrite app_assoc. apply Permutation_app_tail.
    destruct f as [c x r|c l x]; unfold fids; simpl.
    + reflexivity.
    + rewrite Permutation_app_comm. simpl. apply Permutation_middle.
Qed.

Lemma in_ids_plug (s : tree) (k : context) (n : nat) :
  In n (ids (plug s k)) <-> In n (ids s) \/ In n (cids k).
Proof.
  rewrite <- in_app_iff. split; apply Permutation_in;
    [|symmetry]; apply ids_plug_perm.
Qed.

Lemma NoDup_ids_plug (s : tree) (k : context) :
  NoDup (ids (plug s k)) <-> NoDup (ids s ++ cids k).
Proof.
  split; apply Permutation_NoDup; [|symmetry]; apply ids_plug_perm.
Qed.

Lemma shape_fill (m : memory) (par : ptr) (f : frame) (s : tree) :
  shape m par (fill f s) <->
  shape m (Some (fid f)) s /\ fshape m par f (rootp s).
Proof.
  destruct f; simpl; tauto.
Qed.

Lemma cpar_fill_plug (f : frame) (s : tree) : rootp (fill f s) = Some (fid f).
Proof. destruct f; reflexivity. Qed.

Lemma shape_plug (m : memory) (s : tree) (k : context) :
  shape m None (plug s k) <-> shape m (cpar k) s /\ cshape m k (rootp s).
Proof.
  revert s. induction k as [|f k IH]; intros s; simpl; [tauto|].
  rewrite IH, shape_fill, cpar_fill_plug. tauto.
Qed.

Lemma Rep_plug (st : RBTree) (s : tree) (k : context) :
  Rep st (plug s k) <-> RepZ st s k.
Proof.
  unfold Rep, RepZ. rewrite rootp_plug, shape_plug, NoDup_ids_plug. tauto.
Qed.

Lemma shape_root_parent (m : memory) (par : ptr) (t : tree) (r : nat) :
  shape m par t -> rootp t = Some r -> _rbt_parent (m r) = par.
Proof.
  destruct t; simpl; [discriminate|]. intros (_ & _ & H & _) [= <-]. exact H.
Qed.

Lemma rootp_in (t : tree) (x : nat) : rootp t = Some x -> In x (ids t).
Proof.
  destruct t; simpl; [discriminate|]. intros [= ->].
  rewrite in_app_iff; simpl; auto.
Qed.

Lemma cpar_in (k : context) (x : nat) : cpar k = Some x -> In x (cids k).
Proof.
  destruct k as [|f k]; simpl; [discriminate|]. intros [= <-]. auto.
Qed.

Lemma fid_in (f : frame) : In (fid f) (fids f).
Proof. simpl; auto. Qed.

(** *** Linked nodes *)

Lemma linked_from_in (m : memory) (p : ptr) (n : nat) :
  linked_from m p n ->
  forall par t, shape m par t -> rootp t = p -> In n (ids t).
Proof.
  induction 1 as [x|x n _ IH|x n _ IH]; intros par t Hs Hr;
    destruct t as [|c l y r]; simpl in *; try discriminate;
    injection Hr as ->; destruct Hs as (Hl & Hr & _ & _ & Sl & Sr);
    rewrite in_app_iff; simpl.
  - auto.
  - left. eapply IH; eauto.
  - right; right. eapply IH; eauto.
Qed.

Lemma in_linked_from (m : memory) (t : tree) :
  forall par n, shape m par t -> In n (ids t) -> linked_from m (rootp t) n.
Proof.
  induction t as [|c l IHl x r IHr]; simpl; intros par n Hs Hn; [contradiction|].
  destruct Hs as (Hl & Hr & _ & _ & Sl & Sr).
  rewrite in_app_iff in Hn; simpl in Hn. destruct Hn as [Hn|[->|Hn]].
  - apply linked_left. rewrite Hl. eapply IHl; eauto.
  - apply linked_here.
  - apply linked_right. rewrite Hr. eapply IHr; eauto.
Qed.

(** The number of nodes on the longest path from the root down. *)
Fixpoint height (t : tree) : nat :=
  match t with
  | E => 0
  | T _ l _ r => S (Nat.max (height l) (height r))
  end.

Lemma height_le_size (t : tree) : height t <= length (ids t).
Proof.
  induction t as [|c l IHl x r IHr]; cbn [height ids length]; [lia|].
  rewrite length_app. cbn [length]. lia.
Qed.

Lemma height_fill (f : frame) (s : tree) : S (height s) <= height (fill f s).
Proof. destruct f; cbn [fill height]; lia. Qed.

Lemma height_fill_mono (f : frame) (s s' : tree) :
  height s <= height s' -> height (fill f s) <= height (fill f s').
Proof. destruct f; cbn [fill height]; lia. Qed.

Lemma height_plug_mono (k : context) :
  forall s s', height s <= height s' -> height (plug s k) <= height (plug s' k).
Proof.
  induction k as [|f k IH]; intros s s' H; cbn [plug]; [exact H|].
  apply IH. now apply height_fill_mono.
Qed.

(** A subtree at depth [length k] leaves that much room above it. *)
Lemma height_plug (k : context) :
  forall s, length k + height s <= height (plug s k).
Proof.
  induction k as [|f k IH]; intros s; cbn [plug length]; [lia|].
  specialize (IH (fill f s)). pose proof (height_fill f s). lia.
Qed.

Lemma linked_iff (st : RBTree) (t : tree) (n : nat) :
  Rep st t -> (linked st n <-> In n (ids t)).
Proof.
  intros (Hr & Hs & _). unfold linked. rewrite Hr. split.
  - intros H. eapply linked_from_in; eauto.
  - eapply in_linked_from; eauto.
Qed.

End Shape.

Import RB RBMem RBSpec NoDupFacts Shape.

(** ** Tactics for reading an updated memory *)

Ltac nd_contra :=
  match goal with
  | H : ~ In ?x ?l, H' : In ?x ?l |- _ => exact (H H')
  | H : disj ?l1 ?l2, H1 : In ?x ?l1, H2 : In ?x ?l2 |- _ => exact (H _ H1 H2)
  | H : ?x <> ?x |- _ => exact (H eq_refl)
  | H : In _ [] |- _ => exact H
  | H : Some _ = None |- _ => discriminate H
  | H : None = Some _ |- _ => discriminate H
  | H : ?p <> ?q, H' : ?p = ?q |- _ => exact (H H')
  | H : Some ?a <> Some ?a |- _ => exact (H eq_refl)
  end.

Ltac unify_roots :=
  repeat match goal with
         | H : None = Some _ |- _ => discriminate H
         | H : Some _ = None |- _ => discriminate H
         | H : Some ?a = Some ?a |- _ => clear H
         | H : Some ?a = Some ?b |- _ =>
             injection H as H; first [subst a | subst b]
         | H : ?p = Some ?a, H' : ?p = Some ?b |- _ =>
             first [ constr_eq a b; fail 1
                   | rewrite H in H'; injection H' as H';
                     first [subst a | subst b] ]
         | H : ?p = Some _, H' : ?p = None |- _ =>
             rewrite H in H'; discriminate H'
         end.

Ltac root_facts :=
  unify_roots;
  repeat match goal with
         | H : rootp ?t = Some ?r |- _ =>
             lazymatch goal with
             | _ : In r (ids t) |- _ => fail
             | _ => pose proof (rootp_in _ _ H)
             end
         end.

Ltac eqb_cases :=
  repeat match goal with
         | |- context [Nat.eqb ?a ?a] => rewrite (Nat.eqb_refl a)
         | |- context [Nat.eqb ?a ?b] =>
             let e := fresh "e" in
             destruct (Nat.eqb_spec a b) as [e|e];
             [first [subst a | subst b]; try solve [exfalso; nd_contra]|]
         | |- context [match rootp ?t with _ => _ end] =>
             let Hr := fresh "Hr" in
             destruct (rootp t) eqn:Hr; root_facts
         | |- context [ptr_eqb (rootp ?t) _] =>
             let Hr := fresh "Hr" in
             destruct (rootp t) eqn:Hr; root_facts; cbn [ptr_eqb]
         | |- context [ptr_eqb _ (rootp ?t)] =>
             let Hr := fresh "Hr" in
             destruct (rootp t) eqn:Hr; root_facts; cbn [ptr_eqb]
         end.

Ltac use_fields :=
  repeat match goal with
         | H : _rbt_left (?m ?x) = _ |- context [_rbt_left (?m ?x)] => rewrite H
         | H : _rbt_right (?m ?x) = _ |- context [_rbt_right (?m ?x)] => rewrite H
         | H : _rbt_parent (?m ?x) = _ |- context [_rbt_parent (?m ?x)] => rewrite H
         | H : _rbt_color (?m ?x) = _ |- context [_rbt_color (?m ?x)] => rewrite H
         end.

Ltac mem_norm :=
  repeat first
    [ progress autorewrite with rbmem
    | progress use_fields
    | progress cbn [deref bind mem root with_mem ptr_eqb rootp cpar croot
                    set_parent_if set_next_if set_prev_if fid]
    | progress eqb_cases ].

Ltac mem_auto := mem_norm; auto.

Ltac frame_tac :=
  let z := fresh "z" in
  let Hz := fresh "Hz" in
  intros z Hz; unfold same_node; repeat split; mem_auto.

Lemma disj_sym l1 l2 : disj l1 l2 -> disj l2 l1.
Proof. unfold disj; eauto. Qed.

Ltac nd_atom :=
  first [ assumption
        | exact I
        | apply not_eq_sym; assumption
        | apply disj_sym; assumption
        | constructor ].

Ltac nd_goal :=
  cbn [ids cids fids fid fsib app];
  repeat first
    [ rewrite NoDup_app_iff
    | rewrite NoDup_cons_iff
    | rewrite disj_cons_r
    | rewrite disj_cons_l
    | rewrite disj_app_r
    | rewrite disj_app_l
    | rewrite disj_nil_r
    | rewrite disj_nil_l
    | rewrite not_in_cons
    | rewrite not_in_app
    | rewrite not_in_nil ];
  repeat split; try nd_atom.

(** [shape] of a subtree that was not touched, or only hung below another
    parent. *)
Ltac shape_tac :=
  eapply shape_reparent;
  [ eassumption
  | let r := fresh "r" in
    let Hr := fresh "Hr" in
    intros r Hr; root_facts; repeat split; mem_auto;
    try solve [eapply shape_root_parent; [|eassumption]; eassumption]
  | let z := fresh "z" in
    let Hz := fresh "Hz" in
    let Hzr := fresh "Hzr" in
    intros z Hz Hzr; unfold same_node; repeat split; mem_auto
  | assumption ].

Ltac cshape_tac :=
  eapply cshape_frame; [|eassumption];
  let z := fresh "z" in
  let Hz := fresh "Hz" in
  intros z Hz; unfold same_node; repeat split; mem_auto.

Module Rotate.

Ltac open_context k Hk :=
  let f := fresh "f" in
  let k' := fresh "k" in
  destruct k as [|f k'];
  [ | cbn [cshape] in Hk;
      let Hf := fresh "Hf" in
      destruct Hk as (Hf & Hk);
      let cp := fresh "cp" in
      let p := fresh "p" in
      let sib := fresh "sib" in
      destruct f as [cp p sib|cp sib p]; cbn [fshape] in Hf;
      let Hpl := fresh "Hpl" in
      let Hpr := fresh "Hpr" in
      let Hpp := fresh "Hpp" in
      let Hpc := fresh "Hpc" in
      let Ssib := fresh "Ssib" in
      destruct Hf as (Hpl & Hpr & Hpp & Hpc & Ssib) ].

Ltac finish_rep :=
  (eexists; split; [reflexivity|]);
  unfold RepZ; cbn [mem root with_mem];
  (split; [first [reflexivity | assumption]|]);
  (split; [|split]);
  [ cbn [shape rootp]; repeat split; try solve [mem_auto]; shape_tac
  | cbn [cshape fshape rootp cpar fid]; repeat split; try solve [mem_auto];
    first [shape_tac | cshape_tac]
  | nd_goal ].

Lemma rotate_left_spec (st : RBTree) c a x c' b y d (k : context) :
  Rep st (plug (T c a x (T c' b y d)) k) ->
  exists st',
    rotate_left st x = Ok st' /\
    Rep st' (plug (T c' (T c a x b) y d) k).
Proof.
  setoid_rewrite Rep_plug.
  intros (Hroot & Hs & Hk & Hnd).
  cbn [shape] in Hs. destruct Hs as (Hxl & Hxr & Hxp & Hxc & Sa & Hyl & Hyr & Hyp & Hyc & Sb & Sd).
  open_context k Hk;
    cbn [ids cids fids fid fsib app rootp cpar croot] in *; nd Hnd;
    unfold rotate_left; mem_norm.
  all: finish_rep.
Qed.

Lemma rotate_right_spec (st : RBTree) c a x c' b y d (k : context) :
  Rep st (plug (T c' (T c a x b) y d) k) ->
  exists st',
    rotate_right st y = Ok st' /\
    Rep st' (plug (T c a x (T c' b y d)) k).
Proof.
  setoid_rewrite Rep_plug.
  intros (Hroot & Hs & Hk & Hnd).
  cbn [shape] in Hs. destruct Hs as (Hyl & Hyr & Hyp & Hyc & (Hxl & Hxr & Hxp & Hxc & Sa & Sb) & Sd).
  open_context k Hk;
    cbn [ids cids fids fid fsib app rootp cpar croot] in *; nd Hnd;
    unfold rotate_right; mem_norm.
  all: finish_rep.
Qed.

Lemma recolor_spec (st : RBTree) c c' l x r (k : context) :
  Rep st (plug (T c l x r) k) ->
  Rep (with_mem st (set_color (mem st) x c')) (plug (T c' l x r) k).
Proof.
  rewrite !Rep_plug.
  intros (Hroot & Hs & Hk & Hnd).
  cbn [shape] in Hs. destruct Hs as (Hxl & Hxr & Hxp & Hxc & Sl & Sr).
  cbn [ids cids fids fid fsib app rootp cpar croot] in *.
  pose proof Hnd as Hnd'. nd Hnd.
  unfold RepZ; cbn [mem root with_mem rootp].
  split; [assumption|]. split; [|split; [|assumption]].
  - cbn [shape rootp]; repeat split; try solve [mem_auto]; shape_tac.
  - cshape_tac.
Qed.

Lemma read_node (st : RBTree) c l x r (k : context) :
  Rep st (plug (T c l x r) k) ->
  _rbt_left (mem st x) = rootp l /\
  _rbt_right (mem st x) = rootp r /\
  _rbt_parent (mem st x) = cpar k /\
  _rbt_color (mem st x) = c.
Proof.
  rewrite Rep_plug. intros (_ & Hs & _). cbn [shape] in Hs. tauto.
Qed.

End Rotate.

Import RB RBMem RBSpec NoDupFacts Shape.

(** ** The red-black invariants on trees and contexts *)

Module Inv.

Lemma color_cases (c : Color) : c = RED \/ c = BLACK.
Proof. destruct c; auto. Qed.

Lemma cvalid_plug (k : context) :
  forall s h c,
    balanced s -> no_red_red s -> bh s = h -> col s = c -> cvalid k h c ->
    rbtree (plug s k).
Proof.
  induction k as [|f k IH]; intros s h c Hb Hn Hh Hc Hk; cbn [plug cvalid] in *.
  - subst. repeat split; auto.
  - destruct Hk as (Hb' & Hn' & Hh' & Hcol & Hk).
    eapply IH; [| | reflexivity | reflexivity |].
    + destruct f; simpl in *; intuition congruence.
    + destruct f; simpl in *; intuition (subst; auto).
    + destruct f; simpl in *; subst; try rewrite Hh'; auto.
Qed.

Lemma rbtree_plug_inv (k : context) :
  forall s, rbtree (plug s k) ->
            balanced s /\ no_red_red s /\ cvalid k (bh s) (col s).
Proof.
  induction k as [|f k IH]; intros s H; cbn [plug cvalid] in *.
  - destruct H as (Hc & Hn & Hb). auto.
  - destruct (IH _ H) as (Hb & Hn & Hk).
    destruct f as [c x r|c l x]; simpl in *.
    + destruct Hb as (Hbh & Hbs & Hbr). destruct Hn as (Hcol & Hns & Hnr).
      repeat split; auto; try tauto.
    + destruct Hb as (Hbh & Hbl & Hbs). destruct Hn as (Hcol & Hnl & Hns).
      repeat split; auto; try tauto. rewrite <- Hbh. exact Hk.
Qed.

Lemma cvalid_black (k : context) (h : nat) (c : Color) :
  cvalid k h c -> cvalid k h BLACK.
Proof.
  destruct k as [|f k]; cbn [cvalid]; [auto|].
  intros (Hb & Hn & Hh & Hcol & Hk). repeat split; auto.
  apply Hcol; auto.
Qed.

(** A context whose hole holds a RED node: as [cvalid], except that the
    parent of the hole may be RED as well. *)
Definition cvalid_red (k : context) (h : nat) : Prop :=
  match k with
  | [] => False
  | f :: k' =>
      balanced (fsib f) /\ no_red_red (fsib f) /\ bh (fsib f) = h /\
      (fcol f = RED -> col (fsib f) = BLACK) /\
      cvalid k' (h + blk (fcol f)) (fcol f)
  end.

Lemma cvalid_red_of_cvalid (k : context) (h : nat) (c : Color) :
  k <> [] -> cvalid k h c -> cvalid_red k h.
Proof.
  destruct k as [|f k]; [congruence|]. cbn [cvalid cvalid_red].
  intros _ (Hb & Hn & Hh & Hcol & Hk). repeat split; auto.
  intros Hf. apply Hcol; auto.
Qed.

Lemma cvalid_of_cvalid_red (f : frame) (k : context) (h : nat) :
  fcol f = BLACK -> cvalid_red (f :: k) h -> cvalid (f :: k) h RED.
Proof.
  cbn [cvalid cvalid_red]. intros Hf (Hb & Hn & Hh & Hcol & Hk).
  repeat split; auto; congruence.
Qed.

Lemma black_bh_zero (t : tree) :
  balanced t -> no_red_red t -> bh t = 0 -> col t = BLACK -> t = E.
Proof.
  destruct t as [|c l x r]; simpl; [auto|].
  intros _ _ Hh Hc. subst. simpl in Hh. lia.
Qed.

Lemma red_bh_zero (c : Color) (l : tree) (x : nat) (r : tree) :
  balanced (T c l x r) -> no_red_red (T c l x r) -> bh (T c l x r) = 0 ->
  c = RED /\ l = E /\ r = E.
Proof.
  simpl. intros (Hh & Hbl & Hbr) (Hcol & Hnl & Hnr) H0.
  destruct c; simpl in H0; [|lia].
  destruct (Hcol eq_refl) as (Hl & Hr).
  split; [reflexivity|]. split; apply black_bh_zero; auto; lia.
Qed.

End Inv.

Import RB RBMem RBSpec NoDupFacts Shape Rotate Inv.

(** ** Reading and recoloring around the hole of a context *)

Module Frames.

Definition recolor_frame (f : frame) (c : Color) : frame :=
  match f with
  | FL _ x r => FL c x r
  | FR _ l x => FR c l x
  end.

Definition set_fsib (f : frame) (t : tree) : frame :=
  match f with
  | FL c x _ => FL c x t
  | FR c _ x => FR c t x
  end.

Definition is_FL (f : frame) : bool :=
  match f with
  | FL _ _ _ => true
  | FR _ _ _ => false
  end.

Lemma read_frame (st : RBTree) (s : tree) (f : frame) (k : context) :
  Rep st (plug s (f :: k)) ->
  _rbt_color (mem st (fid f)) = fcol f /\
  _rbt_parent (mem st (fid f)) = cpar k /\
  _rbt_left (mem st (fid f)) = (if is_FL f then rootp s else rootp (fsib f)) /\
  _rbt_right (mem st (fid f)) = (if is_FL f then rootp (fsib f) else rootp s).
Proof.
  intros H. destruct f as [c x r|c l x]; cbn [plug fill] in H;
    apply read_node in H; simpl; tauto.
Qed.

Lemma recolor_frame_spec (st : RBTree) (s : tree) (f : frame) (k : context) (c : Color) :
  Rep st (plug s (f :: k)) ->
  Rep (with_mem st (set_color (mem st) (fid f) c)) (plug s (recolor_frame f c :: k)).
Proof.
  intros H. destruct f as [c0 x r|c0 l x]; cbn [plug fill] in H;
    apply recolor_spec with (c' := c) in H; exact H.
Qed.

Lemma recolor_sibling_spec (st : RBTree) (s : tree) (f : frame) (k : context)
  (c cu : Color) (ul : tree) (ux : nat) (ur : tree) :
  fsib f = T cu ul ux ur ->
  Rep st (plug s (f :: k)) ->
  Rep (with_mem st (set_color (mem st) ux c)) (plug s (set_fsib f (T c ul ux ur) :: k)).
Proof.
  intros Hu H. destruct f as [c0 x r|c0 l x]; simpl in Hu; subst.
  - apply (recolor_spec st cu c ul ux ur (FR c0 s x :: k)). exact H.
  - apply (recolor_spec st cu c ul ux ur (FL c0 x s :: k)). exact H.
Qed.

Lemma read_sibling (st : RBTree) (s : tree) (f : frame) (k : context)
  (cu : Color) (ul : tree) (ux : nat) (ur : tree) :
  fsib f = T cu ul ux ur ->
  Rep st (plug s (f :: k)) ->
  _rbt_color (mem st ux) = cu.
Proof.
  intros Hu H. destruct f as [c0 x r|c0 l x]; simpl in Hu; subst.
  - apply (read_node st cu ul ux ur (FR c0 s x :: k)). exact H.
  - apply (read_node st cu ul ux ur (FL c0 x s :: k)). exact H.
Qed.

Lemma hole_not_sibling (st : RBTree) (s : tree) (f : frame) (k : context) (x : nat) :
  Rep st (plug s (f :: k)) -> rootp s = Some x ->
  rootp (fsib f) <> Some x.
Proof.
  rewrite Rep_plug. intros (_ & _ & _ & Hnd) Hx Hs.
  apply rootp_in in Hx. apply rootp_in in Hs.
  cbn [cids] in Hnd. unfold fids in Hnd. nd Hnd.
  match goal with H : disj (ids s) (ids (fsib f)) |- _ => exact (H _ Hx Hs) end.
Qed.

Lemma is_left_child (st : RBTree) (s : tree) (f : frame) (k : context) (x : nat) :
  Rep st (plug s (f :: k)) -> rootp s = Some x ->
  ptr_eqb (_rbt_left (mem st (fid f))) (Some x) = is_FL f.
Proof.
  intros H Hx. pose proof (hole_not_sibling _ _ _ _ _ H Hx) as Hne.
  destruct (read_frame _ _ _ _ H) as (_ & _ & Hl & _). rewrite Hl.
  destruct f; simpl in *.
  - rewrite Hx. apply ptr_eqb_refl.
  - destruct (ptr_eqb_spec (rootp l) (Some x)); congruence.
Qed.

Lemma is_right_child (st : RBTree) (s : tree) (f : frame) (k : context) (x : nat) :
  Rep st (plug s (f :: k)) -> rootp s = Some x ->
  ptr_eqb (_rbt_right (mem st (fid f))) (Some x) = negb (is_FL f).
Proof.
  intros H Hx. pose proof (hole_not_sibling _ _ _ _ _ H Hx) as Hne.
  destruct (read_frame _ _ _ _ H) as (_ & _ & _ & Hr). rewrite Hr.
  destruct f; simpl in *.
  - destruct (ptr_eqb_spec (rootp r) (Some x)); congruence.
  - rewrite Hx. apply ptr_eqb_refl.
Qed.

Lemma read_hole_parent (st : RBTree) (s : tree) (k : context) (x : nat) :
  Rep st (plug s k) -> rootp s = Some x -> _rbt_parent (mem st x) = cpar k.
Proof.
  rewrite Rep_plug. intros (_ & Hs & _) Hx.
  eapply shape_root_parent; eauto.
Qed.

Lemma get_uncle_spec (st : RBTree) (s : tree) (f1 f2 : frame) (k : context) (x : nat) :
  Rep st (plug s (f1 :: f2 :: k)) -> rootp s = Some x ->
  get_uncle (mem st) x = Ok (rootp (fsib f2)).
Proof.
  intros H Hx. unfold get_uncle.
  rewrite (read_hole_parent _ _ _ _ H Hx). cbn [cpar deref bind].
  destruct (read_frame _ _ _ _ H) as (_ & Hp & _). rewrite Hp. cbn [cpar deref bind].
  assert (H' : Rep st (plug (fill f1 s) (f2 :: k))) by exact H.
  rewrite (is_left_child _ _ _ _ (fid f1) H') by (destruct f1; reflexivity).
  destruct (read_frame _ _ _ _ H') as (_ & _ & Hl & Hr).
  rewrite Hl, Hr. destruct f2; reflexivity.
Qed.

End Frames.

Import RB RBMem RBSpec NoDupFacts Shape Rotate Inv Frames.

(** ** [fixup_after_insert] *)

Module InsertFixup.

Lemma ids_plug_congr (k : context) :
  forall t t', ids t = ids t' -> ids (plug t k) = ids (plug t' k).
Proof.
  induction k as [|f k IH]; intros t t' H; cbn [plug]; [exact H|].
  apply IH. destruct f; simpl; congruence.
Qed.

Lemma ids_recolor_frame (s : tree) (f : frame) (c : Color) (k : context) :
  ids (plug s (recolor_frame f c :: k)) = ids (plug s (f :: k)).
Proof. cbn [plug]. apply ids_plug_congr. destruct f; reflexivity. Qed.

Lemma Rep_with_mem (st : RBTree) (t : tree) :
  Rep (with_mem st (mem st)) t <-> Rep st t.
Proof. unfold Rep; simpl; tauto. Qed.

(** The hole holds a RED node with BLACK children; its parent may be RED. *)
Definition red_inv (s : tree) (k : context) : Prop :=
  col s = RED /\ balanced s /\ no_red_red s /\ cvalid_red k (bh s).

(** The loop has stopped: the parent is BLACK, or it is RED and the uncle is
    BLACK or absent. *)
Definition stop (k : context) : Prop :=
  match k with
  | f1 :: k1 =>
      fcol f1 = BLACK \/
      (fcol f1 = RED /\
       match k1 with
       | f2 :: _ => col (fsib f2) = BLACK
       | [] => False
       end)
  | [] => False
  end.

Definition loop_post (st : RBTree) (t0 : tree) (m' : memory) (res : option nat) : Prop :=
  match res with
  | None => exists t', Rep (with_mem st m') t' /\ rbtree t' /\ ids t' = ids t0
  | Some x' =>
      exists s' k',
        rootp s' = Some x' /\ Rep (with_mem st m') (plug s' k') /\
        red_inv s' k' /\ ids (plug s' k') = ids t0 /\ stop k'
  end.

Lemma loop_eq (fuel : nat) (m : memory) (node : nat) :
  fixup_after_insert_loop fuel m node =
  (parent <- deref (_rbt_parent (m node)) ;;
   match _rbt_color (m parent) with
   | BLACK => Ok (m, Some node)
   | RED =>
       uncle <- get_uncle m node ;;
       match uncle with
       | None => Ok (m, Some node)
       | Some u =>
           match _rbt_color (m u) with
           | BLACK => Ok (m, Some node)
           | RED =>
               let m := set_color m parent BLACK in
               let m := set_color m u BLACK in
               grandparent <- deref (_rbt_parent (m parent)) ;;
               match _rbt_parent (m grandparent) with
               | Some _ =>
                   let m := set_color m grandparent RED in
                   match fuel with
                   | 0 => Err OutOfFuel
                   | S fuel' => fixup_after_insert_loop fuel' m grandparent
                   end
               | None => Ok (m, None)
               end
           end
       end
   end).
Proof. destruct fuel; reflexivity. Qed.

Lemma loop_spec (n : nat) :
  forall k, length k <= n ->
  forall fuel st s x,
    n <= fuel -> rootp s = Some x -> Rep st (plug s k) -> red_inv s k ->
    exists m' res,
      fixup_after_insert_loop fuel (mem st) x = Ok (m', res) /\
      loop_post st (plug s k) m' res.
Proof.
  induction n as [|n IH]; intros k Hlen fuel st s x Hfuel Hx HR Hinv.
  { destruct k; [|simpl in Hlen; lia]. destruct Hinv as (_ & _ & _ & []). }
  destruct k as [|f1 k1]; [destruct Hinv as (_ & _ & _ & [])|].
  pose proof Hinv as Hinv0.
  destruct Hinv as (Hcol & Hbal & Hnrr & Hcv).
  cbn [cvalid_red] in Hcv. destruct Hcv as (Hb1 & Hn1 & Hh1 & Hc1 & Hk1).
  rewrite loop_eq.
  rewrite (read_hole_parent _ _ _ _ HR Hx). cbn [cpar deref bind].
  destruct (read_frame _ _ _ _ HR) as (Hpc & Hpp & _). rewrite Hpc.
  destruct (fcol f1) eqn:Hf1.
  2:{ (* BLACK parent *)
      exists (mem st), (Some x). split; [reflexivity|].
      exists s, (f1 :: k1). rewrite Rep_with_mem.
      split; [exact Hx|]. split; [exact HR|]. split; [exact Hinv0|].
      split; [reflexivity|]. simpl. auto. }
  (* RED parent: there is a BLACK grandparent *)
  destruct k1 as [|f2 k2]; [simpl in Hk1; discriminate|].
  cbn [cvalid] in Hk1. destruct Hk1 as (Hb2 & Hn2 & Hh2 & Hc2 & Hk2).
  assert (Hf2 : fcol f2 = BLACK).
  { destruct (fcol f2); [destruct (Hc2 eq_refl); discriminate|reflexivity]. }
  rewrite (get_uncle_spec _ _ _ _ _ _ HR Hx). cbn [bind].
  assert (HR' : Rep st (plug (fill f1 s) (f2 :: k2))) by exact HR.
  destruct (fsib f2) as [|cu ul ux ur] eqn:Hu; cbn [rootp].
  { exists (mem st), (Some x). split; [reflexivity|].
    exists s, (f1 :: f2 :: k2). rewrite Rep_with_mem.
    split; [exact Hx|]. split; [exact HR|]. split; [exact Hinv0|].
    split; [reflexivity|]. simpl. right. rewrite Hu. auto. }
  rewrite (read_sibling _ _ _ _ _ _ _ _ Hu HR').
  destruct cu.
  2:{ exists (mem st), (Some x). split; [reflexivity|].
      exists s, (f1 :: f2 :: k2). rewrite Rep_with_mem.
      split; [exact Hx|]. split; [exact HR|]. split; [exact Hinv0|].
      split; [reflexivity|]. simpl. right. rewrite Hu. auto. }
  (* RED uncle: recolor *)
  cbv zeta.
  pose proof (recolor_frame_spec _ _ _ _ BLACK HR) as HR1.
  set (f1' := recolor_frame f1 BLACK) in *.
  assert (HR1' : Rep (with_mem st (set_color (mem st) (fid f1) BLACK))
                     (plug (fill f1' s) (f2 :: k2))) by exact HR1.
  pose proof (recolor_sibling_spec _ _ _ _ BLACK _ _ _ _ Hu HR1') as HR2.
  set (f2' := set_fsib f2 (T BLACK ul ux ur)) in *.
  cbn [mem with_mem] in HR2.
  set (m2 := set_color (set_color (mem st) (fid f1) BLACK) ux BLACK) in *.
  assert (Hfid1 : fid f1' = fid f1) by (destruct f1; reflexivity).
  assert (Hfid2 : fid f2' = fid f2) by (destruct f2; reflexivity).
  assert (HR2a : Rep (with_mem (with_mem st (set_color (mem st) (fid f1) BLACK)) m2)
                     (plug s (f1' :: f2' :: k2))) by exact HR2.
  destruct (read_frame _ _ _ _ HR2a) as (_ & Hpp2 & _).
  cbn [mem with_mem] in Hpp2. rewrite Hfid1 in Hpp2. rewrite Hpp2.
  cbn [cpar deref bind]. rewrite Hfid2.
  destruct (read_frame _ _ _ _ HR2) as (_ & Hgp & _).
  cbn [mem with_mem] in Hgp. rewrite Hfid2 in Hgp. rewrite Hgp.
  assert (Hids : ids (plug s (f1' :: f2' :: k2)) = ids (plug s (f1 :: f2 :: k2))).
  { cbn [plug]. apply ids_plug_congr.
    unfold f1', f2'. destruct f1, f2; simpl in *; subst; reflexivity. }
  assert (Hbhs : bh (fill f1' s) = bh s + 1).
  { unfold f1'. destruct f1; simpl in *; lia. }
  assert (Hbal1 : balanced (fill f1' s)).
  { unfold f1'. destruct f1; simpl in *; repeat split; auto; congruence. }
  assert (Hcol1 : col (fill f1' s) = BLACK).
  { unfold f1'. destruct f1; reflexivity. }
  assert (Hnrr1 : no_red_red (fill f1' s)).
  { unfold f1'. destruct f1; simpl in *; repeat split; auto; discriminate. }
  simpl in Hn2, Hb2, Hh2. destruct Hb2 as (Hbu & Hbul & Hbur).
  destruct Hn2 as (_ & Hnul & Hnur).
  destruct k2 as [|f3 k3]; cbn [cpar].
  - (* the grandparent is the root *)
    exists m2, None. split; [reflexivity|].
    exists (plug s (f1' :: f2' :: [])). split; [exact HR2a|]. split; [|exact Hids].
    apply (cvalid_plug [] (fill f2' (fill f1' s)) (bh s + 1 + 1) BLACK).
    + unfold f2'. destruct f2; simpl in *; repeat split; auto; lia.
    + unfold f2'. destruct f2; simpl in *; repeat split; auto; congruence.
    + unfold f2'. destruct f2; simpl in *; subst; simpl; lia.
    + unfold f2'. destruct f2; simpl in *; subst; reflexivity.
    + reflexivity.
  - (* go on from the grandparent *)
    cbv zeta.
    pose proof (recolor_frame_spec _ _ _ _ RED HR2) as HR3.
    cbn [mem with_mem] in HR3. rewrite Hfid2 in HR3.
    set (f2'' := recolor_frame f2' RED) in *.
    destruct fuel as [|fuel']; [lia|].
    assert (Hx3 : rootp (fill f2'' (fill f1' s)) = Some (fid f2)).
    { unfold f2'', f2'. destruct f2; reflexivity. }
    destruct (IH (f3 :: k3) ltac:(simpl in *; lia) fuel' _ _ _
                 ltac:(lia) Hx3 HR3) as (m' & res & Hloop & Hpost).
    { unfold red_inv. split; [|split; [|split]].
      - unfold f2'', f2'. destruct f2; reflexivity.
      - unfold f2'', f2'. destruct f2; simpl in *; repeat split; auto; lia.
      - unfold f2'', f2'. destruct f2; simpl in *; repeat split; auto; congruence.
      - apply cvalid_red_of_cvalid with (c := BLACK); [discriminate|].
        replace (bh (fill f2'' (fill f1' s))) with (bh s + 0 + blk (fcol f2)).
        + rewrite Hf2 in Hk2 |- *. exact Hk2.
        + rewrite Hf2. unfold f2'', f2'. destruct f2; simpl in *; lia. }
    exists m', res. split; [exact Hloop|].
    assert (Hids3 : ids (plug (fill f2'' (fill f1' s)) (f3 :: k3))
                    = ids (plug s (f1 :: f2 :: f3 :: k3))).
    { rewrite <- Hids.
      exact (ids_recolor_frame (fill f1' s) f2' RED (f3 :: k3)). }
    destruct res as [x'|]; cbn [loop_post] in *.
    + destruct Hpost as (s' & k' & H1 & H2 & H3 & H4 & H5).
      exists s', k'. split; [exact H1|]. split; [exact H2|].
      split; [exact H3|]. split; [|exact H5]. rewrite H4. exact Hids3.
    + destruct Hpost as (t' & H1 & H2 & H3).
      exists t'. split; [exact H1|]. split; [exact H2|].
      rewrite H3. exact Hids3.
Qed.


Ltac ids_eq :=
  cbn [plug fill]; apply ids_plug_congr; cbn [ids];
  repeat (rewrite <- app_assoc; cbn [app]); reflexivity.

Lemma fixup_after_insert_spec (fuel : nat) (st : RBTree) (s : tree) (k : context)
  (x : nat) :
  length k <= fuel -> rootp s = Some x -> Rep st (plug s k) -> red_inv s k ->
  exists st' t',
    fixup_after_insert fuel st x = Ok st' /\
    Rep st' t' /\ rbtree t' /\ ids t' = ids (plug s k).
Proof.
  intros Hfuel Hx HR Hinv.
  destruct (loop_spec (length k) k (le_n _) fuel st s x Hfuel Hx HR Hinv)
    as (m' & res & Hloop & Hpost).
  unfold fixup_after_insert. rewrite Hloop. cbn [bind].
  destruct res as [x'|]; cbn [loop_post] in Hpost.
  2:{ destruct Hpost as (t' & H1 & H2 & H3). exists (with_mem st m'), t'. auto. }
  destruct Hpost as (s' & k' & Hx' & HR' & Hinv' & Hids & Hstop).
  clear Hloop HR Hinv Hx. 
  set (st1 := with_mem st m') in *.
  change m' with (mem st1).
  destruct k' as [|f1 k1]; [destruct Hstop|].
  destruct Hinv' as (Hcol & Hbal & Hnrr & Hcv).
  cbn [cvalid_red] in Hcv. destruct Hcv as (Hb1 & Hn1 & Hh1 & Hc1 & Hk1).
  rewrite (read_hole_parent _ _ _ _ HR' Hx'). cbn [cpar deref bind].
  destruct (read_frame _ _ _ _ HR') as (Hpc & Hpp & _). rewrite Hpc.
  cbn [stop] in Hstop. destruct Hstop as [Hf1|(Hf1 & Hstop)]; rewrite Hf1.
  { (* BLACK parent *)
    exists st1, (plug s' (f1 :: k1)). split; [reflexivity|]. split; [exact HR'|].
    split; [|exact Hids].
    apply cvalid_plug with (h := bh s') (c := RED); auto.
    cbn [cvalid]. repeat split; auto; congruence. }
  destruct k1 as [|f2 k2]; [destruct Hstop|].
  rewrite Hf1 in Hk1. cbn [cvalid] in Hk1.
  destruct Hk1 as (Hb2 & Hn2 & Hh2 & Hc2 & Hk2).
  assert (Hf2 : fcol f2 = BLACK).
  { destruct (fcol f2); [destruct (Hc2 eq_refl); discriminate|reflexivity]. }
  rewrite Hf2 in Hk2. cbn [blk] in Hk2, Hh2.
  rewrite Hpp. cbn [cpar deref bind].
  assert (HR2 : Rep st1 (plug (fill f1 s') (f2 :: k2))) by exact HR'.
  rewrite (is_left_child _ _ _ _ (fid f1) HR2) by (destruct f1; reflexivity).
  rewrite (is_right_child _ _ _ _ _ HR' Hx').
  rewrite (is_left_child _ _ _ _ _ HR' Hx').
  destruct s' as [|cs l x0 r]; [discriminate|].
  simpl in Hcol, Hx'. subst cs. injection Hx' as ->.
  simpl in Hbal, Hnrr. destruct Hbal as (Hbh & Hbl & Hbr).
  destruct Hnrr as (Hcr & Hnl & Hnr). pose proof (Hc1 Hf1) as Hcs1.
  destruct (Hcr eq_refl) as (Hcl & Hcrr).
  simpl in Hh1, Hh2.
  destruct f2 as [cg g u|cg u g]; destruct f1 as [cp p pr|cp pl p];
    simpl in Hf1, Hf2, Hb1, Hn1, Hh1, Hb2, Hn2, Hh2, Hcs1, Hstop; subst cp cg;
    cbn [is_FL negb fid].
  - (* straight, on the left *)
    pose proof (recolor_spec st1 RED BLACK (T RED l x' r) p pr (FL BLACK g u :: k2) HR')
      as H1. cbn [bind].
    destruct (rotate_right_spec _ BLACK (T RED l x' r) p BLACK pr g u k2 H1)
      as (st2 & Hrot & H2).
    rewrite Hrot. cbn [bind].
    pose proof (recolor_spec st2 BLACK RED pr g u (FR BLACK (T RED l x' r) p :: k2) H2)
      as H3.
    eexists _, _. split; [reflexivity|]. split; [exact H3|]. split.
    + apply (cvalid_plug k2 (T BLACK (T RED l x' r) p (T RED pr g u)) (bh l + 1) BLACK);
        auto; simpl; repeat split; auto; try congruence; try lia.
      match goal with |- cvalid _ ?h _ => replace h with (bh l + 0 + 0 + 1) by lia end.
      exact Hk2.
    + rewrite <- Hids. ids_eq.
  - (* folded, on the left *)
    destruct (rotate_left_spec st1 RED pl p RED l x' r (FL BLACK g u :: k2) HR')
      as (st2 & Hrot & H1).
    rewrite Hrot. cbn [bind].
    pose proof (recolor_spec st2 RED BLACK (T RED pl p l) x' r (FL BLACK g u :: k2) H1)
      as H2.
    destruct (rotate_right_spec _ BLACK (T RED pl p l) x' BLACK r g u k2 H2)
      as (st3 & Hrot2 & H3).
    rewrite Hrot2. cbn [bind].
    pose proof (recolor_spec st3 BLACK RED r g u (FR BLACK (T RED pl p l) x' :: k2) H3)
      as H4.
    eexists _, _. split; [reflexivity|]. split; [exact H4|]. split.
    + apply (cvalid_plug k2 (T BLACK (T RED pl p l) x' (T RED r g u)) (bh l + 1) BLACK);
        auto; simpl; repeat split; auto; try congruence; try lia.
      match goal with |- cvalid _ ?h _ => replace h with (bh l + 0 + 0 + 1) by lia end.
      exact Hk2.
    + rewrite <- Hids. ids_eq.
  - (* folded, on the right *)
    destruct (rotate_right_spec st1 RED l x' RED r p pr (FR BLACK u g :: k2) HR')
      as (st2 & Hrot & H1).
    rewrite Hrot. cbn [bind].
    pose proof (recolor_spec st2 RED BLACK l x' (T RED r p pr) (FR BLACK u g :: k2) H1)
      as H2.
    destruct (rotate_left_spec _ BLACK u g BLACK l x' (T RED r p pr) k2 H2)
      as (st3 & Hrot2 & H3).
    rewrite Hrot2. cbn [bind].
    pose proof (recolor_spec st3 BLACK RED u g l (FL BLACK x' (T RED r p pr) :: k2) H3)
      as H4.
    eexists _, _. split; [reflexivity|]. split; [exact H4|]. split.
    + apply (cvalid_plug k2 (T BLACK (T RED u g l) x' (T RED r p pr)) (bh l + 1) BLACK);
        auto; simpl; repeat split; auto; try congruence; try lia.
      match goal with |- cvalid _ ?h _ => replace h with (bh l + 0 + 0 + 1) by lia end.
      exact Hk2.
    + rewrite <- Hids. ids_eq.
  - (* straight, on the right *)
    pose proof (recolor_spec st1 RED BLACK pl p (T RED l x' r) (FR BLACK u g :: k2) HR')
      as H1. cbn [bind].
    destruct (rotate_left_spec _ BLACK u g BLACK pl p (T RED l x' r) k2 H1)
      as (st2 & Hrot & H2).
    rewrite Hrot. cbn [bind].
    pose proof (recolor_spec st2 BLACK RED u g pl (FL BLACK p (T RED l x' r) :: k2) H2)
      as H3.
    eexists _, _. split; [reflexivity|]. split; [exact H3|]. split.
    + apply (cvalid_plug k2 (T BLACK (T RED u g pl) p (T RED l x' r)) (bh l + 1) BLACK);
        auto; simpl; repeat split; auto; try congruence; try lia.
      match goal with |- cvalid _ ?h _ => replace h with (bh l + 0 + 0 + 1) by lia end.
      exact Hk2.
    + rewrite <- Hids. ids_eq.
Qed.

End InsertFixup.

Import RB RBMem RBSpec NoDupFacts Shape Rotate Inv Frames InsertFixup.

(** ** [insert_leaf_base] *)

Module InsertLeaf.

(** The equality chain only touches [_rbt_next] and [_rbt_prev]. *)
Lemma same_node_equality_list_insert_after (multiple : bool) (m : memory)
  (node : nat) (p : ptr) (z : nat) :
  same_node (equality_list_insert_after multiple m node p z) (m z).
Proof.
  unfold equality_list_insert_after, same_node.
  destruct multiple; [|repeat split].
  destruct p; repeat split; autorewrite with rbmem; reflexivity.
Qed.

Lemma same_node_equality_list_insert_before (multiple : bool) (m : memory)
  (node : nat) (p : ptr) (z : nat) :
  same_node (equality_list_insert_before multiple m node p z) (m z).
Proof.
  unfold equality_list_insert_before, same_node.
  destruct multiple; [|repeat split].
  destruct p; repeat split; autorewrite with rbmem; reflexivity.
Qed.

Lemma same_node_equality_list_delete_node (multiple : bool) (m : memory)
  (node : nat) (z : nat) :
  same_node (equality_list_delete_node multiple m node z) (m z).
Proof.
  unfold equality_list_delete_node, same_node.
  destruct multiple; repeat split; autorewrite with rbmem; reflexivity.
Qed.

Lemma same_node_equality_list_swap (K : Type) (cmp : K -> K -> bool)
  (key : nat -> K) (multiple : bool) (m : memory) (n1 n2 : nat) (z : nat) :
  same_node (equality_list_swap_if_necessary cmp key multiple m n1 n2 z) (m z).
Proof.
  unfold equality_list_swap_if_necessary, same_node.
  repeat match goal with
         | |- context [if ?b then _ else _] => destruct b
         end; repeat split; autorewrite with rbmem; reflexivity.
Qed.

Section Insert.

Variable K : Type.
Variable cmp : K -> K -> bool.
Variable key : nat -> K.
Variable multiple : bool.

Lemma Rep_same (st : RBTree) (m' : memory) (t : tree) :
  Rep st t ->
  (forall z, In z (ids t) -> same_node (m' z) (mem st z)) ->
  Rep (mkTree (root st) m') t.
Proof.
  intros (Hr & Hs & Hnd) Hsame. repeat split; auto.
  eapply shape_frame; eauto.
Qed.

Variable node : nat.

(** The path that the descent of [insert_leaf_base] takes through [s]. *)
Fixpoint descend (s : tree) (k : context) : context :=
  match s with
  | E => k
  | T c l x r =>
      if cmp (key x) (key node)
      then descend r (FR c l x :: k)
      else descend l (FL c x r :: k)
  end.

Lemma plug_descend (s : tree) : forall k, plug E (descend s k) = plug s k.
Proof.
  induction s as [|c l IHl x r IHr]; intros k; simpl; [reflexivity|].
  destruct (cmp (key x) (key node)); [rewrite IHr|rewrite IHl]; reflexivity.
Qed.

Lemma descend_dir (s : tree) :
  forall k, s <> E ->
  exists f k', descend s k = f :: k' /\
               is_FL f = negb (cmp (key (fid f)) (key node)).
Proof.
  induction s as [|c l IHl x r IHr]; intros k Hs; [congruence|]. simpl.
  destruct (cmp (key x) (key node)) eqn:Hc.
  - destruct r as [|cr rl rx rr]; [|apply IHr; discriminate].
    simpl. eexists _, _. split; [reflexivity|]. simpl. now rewrite Hc.
  - destruct l as [|cl ll lx lr]; [|apply IHl; discriminate].
    simpl. eexists _, _. split; [reflexivity|]. simpl. now rewrite Hc.
Qed.

Lemma insert_descend_spec (s : tree) :
  forall par fuel m k p0,
    shape m par s -> height s <= fuel ->
    insert_descend cmp key fuel m node p0 (rootp s)
    = Ok (match s with E => p0 | T _ _ _ _ => cpar (descend s k) end).
Proof.
  induction s as [|c l IHl x r IHr]; intros par fuel m k p0 Hs Hfuel.
  - destruct fuel; reflexivity.
  - cbn [height] in Hfuel.
    destruct fuel as [|fuel]; [lia|].
    simpl in Hs. destruct Hs as (Hl & Hr & _ & _ & Sl & Sr).
    cbn [rootp insert_descend descend].
    destruct (cmp (key x) (key node)).
    + rewrite Hr. rewrite (IHr (Some x) fuel m (FR c l x :: k) (Some x) Sr) by lia.
      destruct r; reflexivity.
    + rewrite Hl. rewrite (IHl (Some x) fuel m (FL c x r :: k) (Some x) Sl) by lia.
      destruct l; reflexivity.
Qed.

Lemma length_context (k : context) : length k <= length (cids k).
Proof.
  induction k as [|f k IH]; simpl; [lia|]. rewrite length_app. lia.
Qed.

Lemma length_context_plug (s : tree) (k : context) :
  length k <= length (ids (plug s k)).
Proof.
  rewrite (Permutation_length (ids_plug_perm s k)), length_app.
  pose proof (length_context k). lia.
Qed.

(** Linking a RED leaf into the hole of a context. *)
Lemma link_leaf_spec (st : RBTree) (f : frame) (k : context) :
  Rep st (plug E (f :: k)) ->
  ~ In node (ids (plug E (f :: k))) ->
  let m0 := set_left (set_right (mem st) node None) node None in
  let m1 := set_color (set_parent m0 node (Some (fid f))) node RED in
  let m2 := if is_FL f then set_left m1 (fid f) (Some node)
            else set_right m1 (fid f) (Some node) in
  Rep (mkTree (root st) m2) (plug (T RED E node E) (f :: k)).
Proof.
  rewrite in_ids_plug. setoid_rewrite Rep_plug.
  intros (Hroot & Hs & Hk & Hnd) Hnode.
  cbn [cshape] in Hk. destruct Hk as (Hf & Hk).
  cbn [ids cids app] in Hnd, Hnode. unfold fids in Hnd, Hnode.
  assert (Hnode' : ~ In node (fid f :: ids (fsib f) ++ cids k)).
  { intros H. apply Hnode. right. rewrite in_app_iff. simpl in *. tauto. }
  clear Hnode. nd_norm Hnode'. nd Hnd. split_ands.
  destruct f as [cp p sib|cp sib p]; cbn [fshape fid fsib is_FL] in *;
    destruct Hf as (Hpl & Hpr & Hpp & Hpc & Ssib);
    unfold RepZ; cbn [mem root croot rootp cpar fid];
    (split; [assumption|]); (split; [|split]).
  all: try solve [cbn [shape rootp]; repeat split; mem_auto].
  all: try solve [nd_goal].
  all: cbn [cshape fshape rootp cpar fid]; repeat split; try solve [mem_auto];
    first [shape_tac | cshape_tac].
Qed.


Lemma length_ids_plug (s : tree) (k : context) :
  length (ids s) <= length (ids (plug s k)).
Proof.
  rewrite (Permutation_length (ids_plug_perm s k)), length_app. lia.
Qed.

(** What a successful linking and fix-up gives. *)
Lemma link_and_fixup (fuel : nat) (st : RBTree) (f : frame) (k : context)
  (m3 : memory) :
  Rep st (plug E (f :: k)) ->
  rbtree (plug E (f :: k)) ->
  ~ In node (ids (plug E (f :: k))) ->
  length (f :: k) <= fuel ->
  (let m0 := set_left (set_right (mem st) node None) node None in
   let m1 := set_color (set_parent m0 node (Some (fid f))) node RED in
   let m2 := if is_FL f then set_left m1 (fid f) (Some node)
             else set_right m1 (fid f) (Some node) in
   forall z, same_node (m3 z) (m2 z)) ->
  exists st' t',
    fixup_after_insert fuel (mkTree (root st) m3) node = Ok st' /\
    Rep st' t' /\ rbtree t' /\
    ids t' = ids (plug (T RED E node E) (f :: k)).
Proof.
  intros HR Hrb Hnode Hfuel Hsame.
  pose proof (link_leaf_spec st f k HR Hnode) as HL. cbv zeta in HL, Hsame.
  apply Rep_same with (m' := m3) in HL; [|intros z _; apply Hsame].
  cbn [root] in HL.
  apply fixup_after_insert_spec with (s := T RED E node E) (k := f :: k); auto.
  apply rbtree_plug_inv in Hrb. destruct Hrb as (_ & _ & Hcv).
    split; [reflexivity|]. split; [simpl; auto|]. split; [simpl; auto|].
    apply cvalid_red_of_cvalid with (c := BLACK); [discriminate|exact Hcv].
Qed.

Hypothesis cmp_asym : asymmetric cmp.

Lemma insert_leaf_spec (fuel : nat) (st : RBTree) (s : tree) (k : context) :
  Rep st (plug s k) -> rbtree (plug s k) ->
  ~ In node (ids (plug s k)) -> s <> E ->
  height (plug s k) <= fuel ->
  exists st' t',
    insert_leaf cmp key multiple fuel st node (rootp s) = Ok st' /\
    Rep st' t' /\ rbtree t' /\
    (ids t' = ids (plug (T RED E node E) (descend s k)) \/
     (multiple = false /\ t' = plug s k /\
      exists p, In p (ids (plug s k)) /\
                cmp (key node) (key p) = false /\ cmp (key p) (key node) = false)).
Proof.
  intros HR Hrb Hnode Hs Hfuel.
  unfold insert_leaf, insert_leaf_base.
  set (m0 := set_left (set_right (mem st) node None) node None).
  assert (HR0 : Rep (mkTree (root st) m0) (plug s k)).
  { apply Rep_same; [exact HR|]. intros z Hz. unfold m0, same_node.
    assert (z <> node) by (intros ->; auto).
    repeat split; mem_auto. }
  pose proof HR0 as HR0'. rewrite Rep_plug in HR0'.
  destruct HR0' as (_ & Hsh & _). cbn [mem] in Hsh.
  rewrite (insert_descend_spec s (cpar k) fuel m0 k (rootp s) Hsh)
    by (pose proof (height_plug k s); lia).
  destruct (descend_dir s k Hs) as (f & k' & Hd & Hdir).
  replace (match s with E => rootp s | T _ _ _ _ => cpar (descend s k) end)
    with (Some (fid f)) by (destruct s; [congruence|rewrite Hd; reflexivity]).
  cbn [bind]. rewrite Hd.
  pose proof (plug_descend s k) as Hpd. rewrite Hd in Hpd.
  rewrite <- Hpd in HR, Hrb, Hnode, Hfuel.
  assert (Hdepth : length (f :: k') <= fuel).
  { pose proof (height_plug (f :: k') E). lia. }
  clear Hfuel. rename Hdepth into Hfuel.
  destruct (cmp (key node) (key (fid f))) eqn:Hc1.
  { (* smaller than the parent *)
    rewrite (cmp_asym _ _ Hc1) in Hdir. simpl in Hdir.
    destruct (link_and_fixup fuel st f k'
                (equality_list_insert_after multiple
                   (set_left (set_color (set_parent m0 node (Some (fid f))) node RED)
                      (fid f) (Some node)) node None)
                HR Hrb Hnode Hfuel) as (st' & t' & H1 & H2 & H3 & H4).
    { cbv zeta. rewrite Hdir. intros z. apply same_node_equality_list_insert_after. }
    exists st', t'. auto. }
  destruct (cmp (key (fid f)) (key node)) eqn:Hc2.
  { (* greater than the parent *)
    simpl in Hdir.
    destruct (link_and_fixup fuel st f k'
                (equality_list_insert_after multiple
                   (set_right (set_color (set_parent m0 node (Some (fid f))) node RED)
                      (fid f) (Some node)) node None)
                HR Hrb Hnode Hfuel) as (st' & t' & H1 & H2 & H3 & H4).
    { cbv zeta. rewrite Hdir. intros z. apply same_node_equality_list_insert_after. }
    exists st', t'. auto. }
  simpl in Hdir. destruct multiple eqn:Hmult; cbn [negb].
  - (* equal to the parent, duplicates admitted *)
    destruct (link_and_fixup fuel st f k'
                (equality_list_insert_before true
                   (set_left (set_color (set_parent m0 node (Some (fid f))) node RED)
                      (fid f) (Some node)) node (Some (fid f)))
                HR Hrb Hnode Hfuel) as (st' & t' & H1 & H2 & H3 & H4).
    { cbv zeta. rewrite Hdir. intros z.
      apply same_node_equality_list_insert_before. }
    exists st', t'. auto.
  - (* equal to the parent, duplicates refused *)
    eexists _, (plug s k). split; [reflexivity|]. rewrite <- Hpd.
    split; [|split; [exact Hrb|right; split; [reflexivity|split; [reflexivity|]]]].
    2:{ exists (fid f). split; [|split; assumption].
        apply in_ids_plug. right. cbn [cids]. apply in_or_app. left. apply fid_in. }
    apply Rep_same; [exact HR|]. intros z Hz. unfold m0, same_node.
    assert (z <> node) by (intros ->; auto).
    repeat split; mem_auto.
Qed.

(** The first node of an empty tree. *)
Lemma insert_empty_spec (fuel : nat) (st : RBTree) :
  Rep st E ->
  exists st',
    insert cmp key multiple fuel st node = Ok st' /\
    Rep st' (T BLACK E node E).
Proof.
  intros (Hr & _ & _). simpl in Hr.
  unfold insert, insert_leaf, insert_leaf_base. rewrite Hr.
  destruct fuel; cbn [insert_descend bind];
    (eexists; split; [reflexivity|]);
    (split; [reflexivity|]); (split; [|repeat constructor; simpl; tauto]);
    cbn [mem shape rootp];
    pose proof (same_node_equality_list_insert_after multiple
                  (set_color (set_parent (set_left (set_right (mem st) node None) node None)
                                node None) node BLACK) node None node) as (E1 & E2 & E3 & E4);
    rewrite E1, E2, E3, E4; repeat split; mem_auto.
Qed.

End Insert.

End InsertLeaf.

Import RB RBMem RBSpec NoDupFacts Shape Rotate Inv Frames InsertFixup InsertLeaf.

(** ** The order of the keys along the in-order sequence *)

Module Ordering.

Section Order.

Variable K : Type.
Variable cmp : K -> K -> bool.
Variable key : nat -> K.

(** [cmp] is a strict weak ordering. *)
Definition strict_weak_order : Prop :=
  (forall a, cmp a a = false) /\
  (forall a b c, cmp a b = true -> cmp b c = true -> cmp a c = true) /\
  (forall a b c, cmp a c = true -> cmp a b = true \/ cmp b c = true).

(** Node [a] may stand before node [b]: the key of [b] is not smaller. *)
Definition le (a b : nat) : Prop := cmp (key b) (key a) = false.

(** The key sequence of the nodes [l] never decreases. *)
Definition nondecreasing (l : list nat) : Prop := Sorted le l.

(** The nodes before and after the hole of a context, in in-order. *)
Fixpoint cleft (k : context) : list nat :=
  match k with
  | [] => []
  | FL _ _ _ :: k' => cleft k'
  | FR _ l x :: k' => cleft k' ++ ids l ++ [x]
  end.

Fixpoint cright (k : context) : list nat :=
  match k with
  | [] => []
  | FL _ x r :: k' => x :: ids r ++ cright k'
  | FR _ _ _ :: k' => cright k'
  end.

Lemma ids_plug (k : context) :
  forall s, ids (plug s k) = cleft k ++ ids s ++ cright k.
Proof.
  induction k as [|f k IH]; intros s; cbn [plug cleft cright].
  - now rewrite app_nil_r.
  - rewrite IH. destruct f; cbn [fill ids].
    + now rewrite <- !app_assoc.
    + rewrite <- !app_assoc. cbn [app]. reflexivity.
Qed.

Lemma StronglySorted_app (R : nat -> nat -> Prop) (a b : list nat) :
  StronglySorted R (a ++ b) <->
  StronglySorted R a /\ StronglySorted R b /\
  (forall x y, In x a -> In y b -> R x y).
Proof.
  induction a as [|x a IH]; cbn [app].
  - split.
    + intros H. repeat split; [constructor | exact H | intros ? ? []].
    + intros (_ & H & _). exact H.
  - split.
    + intros H. inversion H as [|? ? Hs Hall]; subst.
      apply IH in Hs. destruct Hs as (Ha & Hb & Hab).
      rewrite Forall_forall in Hall.
      repeat split.
      * constructor; [exact Ha|]. rewrite Forall_forall.
        intros z Hz. apply Hall, in_or_app. now left.
      * exact Hb.
      * intros z y [<-|Hz] Hy.
        -- apply Hall, in_or_app. now right.
        -- now apply Hab.
    + intros (Ha & Hb & Hab). inversion Ha as [|? ? Hs Hall]; subst.
      rewrite Forall_forall in Hall.
      constructor.
      * apply IH. repeat split; [exact Hs | exact Hb |].
        intros z y Hz Hy. apply Hab; [now right | exact Hy].
      * rewrite Forall_forall. intros z Hz.
        apply in_app_or in Hz. destruct Hz as [Hz|Hz].
        -- now apply Hall.
        -- apply Hab; [now left | exact Hz].
Qed.

Lemma StronglySorted_cons_iff (R : nat -> nat -> Prop) (x : nat) (l : list nat) :
  StronglySorted R (x :: l) <-> StronglySorted R l /\ (forall y, In y l -> R x y).
Proof.
  split.
  - intros H. inversion H as [|? ? Hs Hall]; subst.
    rewrite Forall_forall in Hall. now split.
  - intros (Hs & Hall). constructor; [exact Hs|].
    now rewrite Forall_forall.
Qed.

Hypothesis cmp_swo : strict_weak_order.

Lemma cmp_asym : asymmetric cmp.
Proof.
  destruct cmp_swo as (Hirr & Htr & _).
  intros a b Hab. destruct (cmp b a) eqn:Hba; [|reflexivity].
  rewrite <- (Hirr a). symmetry. now apply Htr with b.
Qed.

Lemma le_trans (a b c : nat) : le a b -> le b c -> le a c.
Proof.
  destruct cmp_swo as (_ & _ & Hneg).
  unfold le. intros Hab Hbc.
  destruct (cmp (key c) (key a)) eqn:Hca; [|reflexivity].
  destruct (Hneg _ (key b) _ Hca) as [H|H]; congruence.
Qed.

Lemma lt_le (a b : nat) : cmp (key a) (key b) = true -> le a b.
Proof. intros H. unfold le. now apply cmp_asym. Qed.

Lemma nondecreasing_strongly (l : list nat) :
  nondecreasing l <-> StronglySorted le l.
Proof.
  split.
  - apply Sorted_StronglySorted. intros a b c. apply le_trans.
  - apply StronglySorted_Sorted.
Qed.

Variable node : nat.

(** Putting [node] in the hole reached by the descent keeps the order when
    [node] fits between the two sides of the starting context. *)
Lemma descend_sorted (s : tree) :
  forall k,
    StronglySorted le (ids (plug s k)) ->
    (forall y, In y (cleft k) -> le y node) ->
    (forall y, In y (cright k) -> le node y) ->
    StronglySorted le (ids (plug (T RED E node E) (descend K cmp key node s k))).
Proof.
  induction s as [|c l IHl x r IHr]; intros k Hs Hl Hr.
  - cbn [descend]. rewrite ids_plug in *. cbn [ids app] in *.
    apply StronglySorted_app in Hs. destruct Hs as (Ha & Hb & Hab).
    apply StronglySorted_app. split; [exact Ha|]. split.
    + apply StronglySorted_cons_iff. split; [exact Hb | exact Hr].
    + intros y z Hy [<-|Hz]; [now apply Hl | now apply Hab].
  - cbn [descend]. destruct (cmp (key x) (key node)) eqn:Hx.
    + apply IHr.
      * exact Hs.
      * cbn [cleft]. intros y Hy.
        rewrite ids_plug in Hs. cbn [ids] in Hs.
        apply StronglySorted_app in Hs. destruct Hs as (_ & Hs & Hab).
        apply StronglySorted_app in Hs. destruct Hs as (Hs & _ & Hcr).
        apply StronglySorted_app in Hs. destruct Hs as (_ & _ & Hlx).
        rewrite !in_app_iff in Hy. destruct Hy as [Hy|[Hy|[<-|[]]]].
        -- apply Hl, Hy.
        -- apply le_trans with x; [|now apply lt_le].
           apply Hlx; [exact Hy | now left].
        -- now apply lt_le.
      * exact Hr.
    + apply IHl.
      * exact Hs.
      * exact Hl.
      * cbn [cright]. intros y Hy.
        rewrite ids_plug in Hs. cbn [ids] in Hs.
        apply StronglySorted_app in Hs. destruct Hs as (_ & Hs & Hab).
        apply StronglySorted_app in Hs. destruct Hs as (Hs & _ & Hcr).
        apply StronglySorted_app in Hs. destruct Hs as (_ & Hs & _).
        apply StronglySorted_cons_iff in Hs. destruct Hs as (_ & Hxr).
        destruct Hy as [<-|Hy]; [exact Hx|].
        apply in_app_or in Hy. destruct Hy as [Hy|Hy].
        -- apply le_trans with x; [exact Hx | now apply Hxr].
        -- apply Hr, Hy.
Qed.

End Order.

Arguments strict_weak_order {K} cmp.
Arguments le {K} cmp key a b.
Arguments nondecreasing {K} cmp key l.
Arguments le_trans {K cmp key} cmp_swo a b c.
Arguments lt_le {K cmp key} cmp_swo a b.
Arguments nondecreasing_strongly {K cmp key} cmp_swo l.
Arguments cmp_asym {K cmp} cmp_swo.
Arguments descend_sorted {K cmp key} cmp_swo node s k.

End Ordering.

Import RB RBMem RBSpec NoDupFacts Shape Rotate Inv Frames InsertFixup InsertLeaf Ordering.

(** ** Insertion with a hint *)

Module HintedInsert.

Lemma plug_app (k1 k2 : context) :
  forall s, plug s (k1 ++ k2) = plug (plug s k1) k2.
Proof.
  induction k1 as [|f k1 IH]; intros s; cbn [app plug]; [reflexivity|apply IH].
Qed.

(** A node of a tree is the root of a subtree in some context. *)
Lemma in_ids_split (t : tree) (x : nat) :
  In x (ids t) -> exists c l r k, t = plug (T c l x r) k.
Proof.
  induction t as [|c l IHl y r IHr]; cbn [ids]; [intros []|].
  intros H. apply in_app_or in H. destruct H as [H|[<-|H]].
  - destruct (IHl H) as (c' & l' & r' & k & ->).
    exists c', l', r', (k ++ [FL c y r]). now rewrite plug_app.
  - now exists c, l, r, [].
  - destruct (IHr H) as (c' & l' & r' & k & ->).
    exists c', l', r', (k ++ [FR c l y]). now rewrite plug_app.
Qed.


Section Hint.

Variable K : Type.
Variable cmp : K -> K -> bool.
Variable key : nat -> K.
Variable multiple : bool.
Variable node : nat.


Hypothesis cmp_swo : strict_weak_order cmp.

Lemma perm_insert_descend (s : tree) (k : context) :
  Permutation (node :: ids (plug s k))
    (ids (plug (T RED E node E) (descend K cmp key node s k))).
Proof.
  rewrite <- (plug_descend K cmp key node s k).
  rewrite !ids_plug_perm. cbn [ids app]. reflexivity.
Qed.



End Hint.

Lemma ltb_strict_weak_order : strict_weak_order Nat.ltb.
Proof.
  repeat split.
  - intros a. apply Nat.ltb_irrefl.
  - intros a b c H1 H2. apply Nat.ltb_lt in H1, H2. apply Nat.ltb_lt. lia.
  - intros a b c H. apply Nat.ltb_lt in H. rewrite !Nat.ltb_lt. lia.
Qed.






End HintedInsert.

Import RB RBMem RBSpec NoDupFacts Shape.

(** ** Three nodes with equal keys *)

Module EqualKeys.

Lemma node_eta (n : Node) :
  n = mkNode (_rbt_left n) (_rbt_right n) (_rbt_parent n) (_rbt_color n)
        (_rbt_next n) (_rbt_prev n).
Proof. now destruct n. Qed.

Section Three.

Variable K : Type.
Variable cmp : K -> K -> bool.
Variable key : nat -> K.
Variables a b c : nat.

Hypothesis Hab : a <> b.
Hypothesis Hac : a <> c.
Hypothesis Hbc : b <> c.
Hypothesis Heq :
  forall x y, In x [a; b; c] -> In y [a; b; c] -> cmp (key x) (key y) = false.

Lemma Eab : Nat.eqb a b = false. Proof. now apply Nat.eqb_neq. Qed.
Lemma Eba : Nat.eqb b a = false. Proof. apply Nat.eqb_neq; congruence. Qed.
Lemma Eac : Nat.eqb a c = false. Proof. now apply Nat.eqb_neq. Qed.
Lemma Eca : Nat.eqb c a = false. Proof. apply Nat.eqb_neq; congruence. Qed.
Lemma Ebc : Nat.eqb b c = false. Proof. now apply Nat.eqb_neq. Qed.
Lemma Ecb : Nat.eqb c b = false. Proof. apply Nat.eqb_neq; congruence. Qed.

Lemma Heq' (x y : nat) :
  (x = a \/ x = b \/ x = c) -> (y = a \/ y = b \/ y = c) ->
  cmp (key x) (key y) = false.
Proof. intros Hx Hy. apply Heq; cbn; intuition auto. Qed.

Ltac keys :=
  repeat match goal with
         | |- context [cmp (key ?x) (key ?y)] =>
             rewrite (Heq' x y) by auto
         end.

Ltac sym :=
  repeat first
    [ progress cbn [bind deref ptr_eqb mem root with_mem is_null negb
                    set_parent_if set_next_if set_prev_if
                    _rbt_left _rbt_right _rbt_parent _rbt_color _rbt_next _rbt_prev]
    | progress autorewrite with rbmem
    | rewrite Nat.eqb_refl
    | rewrite Eab | rewrite Eba | rewrite Eac | rewrite Eca | rewrite Ebc | rewrite Ecb
    | progress keys
    | match goal with
      | H : mem ?t ?x = mkNode _ _ _ _ _ _ |- context [mem ?t ?x] => rewrite H
      end ].

Ltac node_fields :=
  match goal with
  | |- ?n = _ => rewrite (node_eta n)
  end; sym; try reflexivity.

Lemma insert_first (fuel : nat) (m : memory) :
  exists t1,
    insert cmp key true fuel (mkTree None m) a = Ok t1 /\
    root t1 = Some a /\
    mem t1 a = mkNode None None None BLACK None None.
Proof.
  eexists. split; [|split].
  - unfold insert, insert_leaf, insert_leaf_base.
    cbn [root mem]. destruct fuel; cbn [insert_descend bind]; reflexivity.
  - reflexivity.
  - unfold equality_list_insert_after. node_fields.
Qed.

Lemma insert_second (fuel : nat) (t1 : RBTree) :
  root t1 = Some a ->
  mem t1 a = mkNode None None None BLACK None None ->
  exists t2,
    insert cmp key true (S fuel) t1 b = Ok t2 /\
    root t2 = Some a /\
    mem t2 a = mkNode (Some b) None None BLACK (Some b) None /\
    mem t2 b = mkNode None None (Some a) RED None (Some a).
Proof.
  intros Hr Ha.
  eexists. split; [|split; [|split]].
  - unfold insert, insert_leaf, insert_leaf_base. rewrite Hr.
    cbn [insert_descend]. sym.
    destruct fuel; cbn [insert_descend bind].
    all: sym.
    all: unfold equality_list_insert_before, fixup_after_insert.
    all: rewrite InsertFixup.loop_eq; sym.
    all: reflexivity.
  - reflexivity.
  - unfold equality_list_insert_before. node_fields.
  - unfold equality_list_insert_before. node_fields.
Qed.

Lemma insert_third (fuel : nat) (t2 : RBTree) :
  root t2 = Some a ->
  mem t2 a = mkNode (Some b) None None BLACK (Some b) None ->
  mem t2 b = mkNode None None (Some a) RED None (Some a) ->
  exists t3,
    insert cmp key true (S (S fuel)) t2 c = Ok t3 /\
    root t3 = Some b /\
    mem t3 a = mkNode None None (Some b) RED (Some b) None /\
    mem t3 b = mkNode (Some c) (Some a) None BLACK (Some c) (Some a) /\
    mem t3 c = mkNode None None (Some b) RED None (Some b).
Proof.
  intros Hr Ha Hb.
  eexists. split; [|split; [|split; [|split]]].
  - unfold insert, insert_leaf, insert_leaf_base. rewrite Hr.
    cbn [insert_descend]. sym.
    destruct fuel; cbn [insert_descend bind].
    all: sym.
    all: unfold equality_list_insert_before, fixup_after_insert.
    all: rewrite InsertFixup.loop_eq; sym.
    all: unfold get_uncle; sym.
    all: unfold rotate_right; sym.
    all: reflexivity.
  - reflexivity.
  - unfold equality_list_insert_before, rotate_right. sym. node_fields.
  - unfold equality_list_insert_before, rotate_right. sym. node_fields.
  - unfold equality_list_insert_before, rotate_right. sym. node_fields.
Qed.

Lemma find_in_chain (fuel : nat) (t3 : RBTree) (x : nat) :
  root t3 = Some b ->
  mem t3 a = mkNode None None (Some b) RED (Some b) None ->
  mem t3 b = mkNode (Some c) (Some a) None BLACK (Some c) (Some a) ->
  mem t3 c = mkNode None None (Some b) RED None (Some b) ->
  In x [a; b; c] ->
  find cmp key true (S fuel) t3 (key x) = Ok (Some a).
Proof.
  intros Hr Ha Hb Hc Hx. unfold find. rewrite Hr.
  assert (Hx' : x = a \/ x = b \/ x = c) by (cbn in Hx; intuition auto).
  cbn [find_loop]. sym. unfold equality_list_find_first.
  cbn [equality_list_find_first_loop]. sym.
  destruct fuel; cbn [equality_list_find_first_loop]; sym; reflexivity.
Qed.

Lemma iterate_chain (fuel : nat) (t3 : RBTree) :
  root t3 = Some b ->
  mem t3 a = mkNode None None (Some b) RED (Some b) None ->
  mem t3 b = mkNode (Some c) (Some a) None BLACK (Some c) (Some a) ->
  mem t3 c = mkNode None None (Some b) RED None (Some b) ->
  iterate (S (S (S fuel))) t3 = Ok [c; b; a].
Proof.
  intros Hr Ha Hb Hc. unfold iterate, begin, get_smallest. rewrite Hr.
  cbn [leftmost]. sym. cbn [leftmost]. sym.
  cbn [iterate_from]. unfold step_forward. sym.
  cbn [skip_up_right leftmost]. sym.
  cbn [skip_up_right]. sym.
  destruct fuel; cbn [iterate_from skip_up_right]; sym; reflexivity.
Qed.

Lemma splice_after_parent (m : memory) (node p : nat) :
  node <> p -> _rbt_next (m p) <> Some node ->
  let m' := equality_list_insert_before true m node (Some p) in
  _rbt_prev (m' node) = Some p /\
  _rbt_next (m' p) = Some node /\
  _rbt_next (m' node) = _rbt_next (m p) /\
  (forall q, _rbt_next (m p) = Some q -> _rbt_prev (m' q) = Some node).
Proof.
  intros Hn Hq. cbn zeta. unfold equality_list_insert_before.
  assert (E1 : Nat.eqb node p = false) by now apply Nat.eqb_neq.
  assert (E2 : Nat.eqb p node = false) by (apply Nat.eqb_neq; congruence).
  autorewrite with rbmem. rewrite ?Nat.eqb_refl, ?E1, ?E2.
  destruct (_rbt_next (m p)) as [q|]; cbn [set_prev_if];
    autorewrite with rbmem; rewrite ?Nat.eqb_refl, ?E1, ?E2.
  - assert (E3 : Nat.eqb node q = false) by (apply Nat.eqb_neq; congruence).
    rewrite E3. repeat split. intros q' [= <-].
    autorewrite with rbmem. now rewrite Nat.eqb_refl.
  - repeat split. discriminate.
Qed.

(** C7 (amended).  MULTIPLE enabled; [a], [b], [c] are three different
    nodes whose keys are mutually equal, inserted in this order into an
    empty tree.  All three inserts return; [find] with any of the three keys
    answers [a], the head of the chain [a], [b], [c] that the [_rbt_next] and
    [_rbt_prev] links form; forward iteration meets the nodes in the order
    [c], [b], [a], the reverse of the insertion order; and the left-biased
    insert at an equal position, through [equality_list_insert_before],
    splices the new node into the chain right after the equal parent. *)
Theorem three_equal_keys (fuel : nat) (m : memory) :
  exists t1 t2 t3,
    insert cmp key true (3 + fuel) (mkTree None m) a = Ok t1 /\
    insert cmp key true (3 + fuel) t1 b = Ok t2 /\
    insert cmp key true (3 + fuel) t2 c = Ok t3 /\
    (forall x, In x [a; b; c] ->
               find cmp key true (3 + fuel) t3 (key x) = Ok (Some a)) /\
    (_rbt_prev (mem t3 a) = None /\ _rbt_next (mem t3 a) = Some b /\
     _rbt_prev (mem t3 b) = Some a /\ _rbt_next (mem t3 b) = Some c /\
     _rbt_prev (mem t3 c) = Some b /\ _rbt_next (mem t3 c) = None) /\
    iterate (3 + fuel) t3 = Ok [c; b; a] /\
    (_rbt_next (mem t2 a) = Some b /\ _rbt_prev (mem t2 b) = Some a) /\
    (forall m' node p, node <> p -> _rbt_next (m' p) <> Some node ->
       let m'' := equality_list_insert_before true m' node (Some p) in
       _rbt_prev (m'' node) = Some p /\
       _rbt_next (m'' p) = Some node /\
       _rbt_next (m'' node) = _rbt_next (m' p) /\
       (forall q, _rbt_next (m' p) = Some q -> _rbt_prev (m'' q) = Some node)).
Proof.
  destruct (insert_first (3 + fuel) m) as (t1 & H1 & Hr1 & Ha1).
  destruct (insert_second (2 + fuel) t1 Hr1 Ha1) as (t2 & H2 & Hr2 & Ha2 & Hb2).
  destruct (insert_third (1 + fuel) t2 Hr2 Ha2 Hb2)
    as (t3 & H3 & Hr3 & Ha3 & Hb3 & Hc3).
  exists t1, t2, t3.
  split; [exact H1|]. split; [exact H2|]. split; [exact H3|].
  split; [intros x Hx; now apply find_in_chain|].
  split; [rewrite Ha3, Hb3, Hc3; cbn; repeat split|].
  split; [now apply iterate_chain|].
  split; [rewrite Ha2, Hb2; cbn; repeat split|].
  apply splice_after_parent.
Qed.

End Three.

Lemma three_equal_keys_witness :
  exists t1 t2 t3,
    insert Nat.ltb Scenario.key_div10 true 3 Scenario.rb_empty 50 = Ok t1 /\
    insert Nat.ltb Scenario.key_div10 true 3 t1 51 = Ok t2 /\
    insert Nat.ltb Scenario.key_div10 true 3 t2 52 = Ok t3 /\
    find Nat.ltb Scenario.key_div10 true 3 t3 5 = Ok (Some 50) /\
    iterate 3 t3 = Ok [52; 51; 50].
Proof.
  destruct (three_equal_keys nat Nat.ltb Scenario.key_div10 50 51 52) with (fuel := 0)
    (m := mem Scenario.rb_empty)
    as (t1 & t2 & t3 & H1 & H2 & H3 & Hf & _ & Hi & _).
  - lia.
  - lia.
  - lia.
  - intros x y [<-|[<-|[<-|[]]]] [<-|[<-|[<-|[]]]]; reflexivity.
  - exists t1, t2, t3. repeat split; try assumption.
    apply (Hf 50). now left.
Defined.

End EqualKeys.

Import RB RBMem RBSpec NoDupFacts Shape Rotate Frames Ordering HintedInsert IT.

(** ** The overlap query of the interval tree *)

Module Query.

(** The first element of a list as a link. *)
Definition first_of (l : list nat) : ptr :=
  match l with
  | [] => None
  | x :: _ => Some x
  end.

(** The states of the walk over a tree with a focus. *)
Inductive astate : Type :=
| ADown (s : tree) (k : context)
| AAt (c : Color) (l : tree) (x : nat) (r : tree) (k : context)
| AAfter (c : Color) (l : tree) (x : nat) (r : tree) (k : context)
| AUp (s : tree) (k : context).

Definition whole (a : astate) : tree :=
  match a with
  | ADown s k => plug s k
  | AAt c l x r k => plug (T c l x r) k
  | AAfter c l x r k => plug (T c l x r) k
  | AUp s k => plug s k
  end.

Definition phase_of (a : astate) : option phase :=
  match a with
  | ADown s _ => option_map Down (rootp s)
  | AAt _ _ x _ _ => Some (At x)
  | AAfter _ _ x _ _ => Some (After x)
  | AUp s _ => option_map Up (rootp s)
  end.

(** The nodes that the walk has still before it, in order. *)
Definition remaining (a : astate) : list nat :=
  match a with
  | ADown s k => ids s ++ cright k
  | AAt _ _ x r k => x :: ids r ++ cright k
  | AAfter _ _ _ r k => ids r ++ cright k
  | AUp _ k => cright k
  end.

(** A bound on the steps that the walk still takes. *)
Fixpoint cweight (k : context) : nat :=
  match k with
  | [] => 0
  | FL _ _ r :: k' => 5 * length (ids r) + 4 + cweight k'
  | FR _ _ _ :: k' => 1 + cweight k'
  end.

Definition weight (a : astate) : nat :=
  match a with
  | ADown s k => 5 * length (ids s) + cweight k + 1
  | AAt _ _ _ r k => 5 * length (ids r) + 3 + cweight k + 1
  | AAfter _ _ _ r k => 5 * length (ids r) + 2 + cweight k + 1
  | AUp _ k => cweight k + 1
  end.

Lemma cweight_bound (k : context) :
  forall s, 5 * length (ids s) + cweight k <= 5 * length (ids (plug s k)).
Proof.
  induction k as [|[c x r|c l x] k IH]; intros s; cbn [plug cweight fill].
  - lia.
  - specialize (IH (T c s x r)). cbn [ids] in IH.
    rewrite length_app in IH. cbn [length] in IH. lia.
  - specialize (IH (T c l x s)). cbn [ids] in IH.
    rewrite length_app in IH. cbn [length] in IH. lia.
Qed.

Lemma weight_bound (a : astate) :
  weight a <= 5 * length (ids (whole a)) + 1.
Proof.
  destruct a; cbn [weight whole].
  - pose proof (cweight_bound k s). lia.
  - pose proof (cweight_bound k (T c l x r)) as H. cbn [ids] in H.
    rewrite length_app in H. cbn [length] in H. lia.
  - pose proof (cweight_bound k (T c l x r)) as H. cbn [ids] in H.
    rewrite length_app in H. cbn [length] in H. lia.
  - pose proof (cweight_bound k s). lia.
Qed.

Section Walk.

Variable get_lower : nat -> Z.
Variable get_upper : nat -> Z.
Variable t : IntervalTree.
Variable q : Z * Z.

Definition ov (n : nat) : bool := overlaps get_lower get_upper n q.

(** The nodes are in the order of their lower ends. *)
Definition by_lower (a b : nat) : Prop := (get_lower a <= get_lower b)%Z.

(** [_it_max_upper] of the root of every subtree bounds the upper ends of
    the subtree. *)
Fixpoint maxima_ok (s : tree) : Prop :=
  match s with
  | E => True
  | T _ l x r =>
      (forall y, In y (ids s) -> (get_upper y <= _it_max_upper t x)%Z) /\
      maxima_ok l /\ maxima_ok r
  end.

Lemma maxima_ok_plug (k : context) :
  forall s, maxima_ok (plug s k) -> maxima_ok s.
Proof.
  induction k as [|f k IH]; intros s H; cbn [plug] in H; [exact H|].
  apply IH in H. destruct f; cbn [fill maxima_ok] in H; tauto.
Qed.

Lemma filter_none (l : list nat) :
  (forall y, In y l -> ov y = false) -> filter ov l = [].
Proof.
  induction l as [|x l IH]; intros H; [reflexivity|].
  cbn [filter]. rewrite (H x) by now left.
  apply IH. intros y Hy. apply H. now right.
Qed.

Lemma no_overlap_below (s : tree) (x : nat) :
  maxima_ok s -> rootp s = Some x ->
  Z.ltb (fst q) (_it_max_upper t x) = false ->
  filter ov (ids s) = [].
Proof.
  intros Hm Hx Hlt. destruct s as [|c l y r]; [reflexivity|].
  injection Hx as ->. destruct Hm as (Hm & _).
  apply filter_none. intros z Hz. specialize (Hm z Hz).
  unfold ov, overlaps. apply Z.ltb_ge in Hlt.
  apply andb_false_iff. right. apply Z.ltb_ge. lia.
Qed.

Lemma no_overlap_after (x : nat) (l : list nat) :
  (forall y, In y l -> by_lower x y) ->
  Z.ltb (get_lower x) (snd q) = false ->
  filter ov l = [].
Proof.
  intros Hs Hlt. apply filter_none. intros y Hy. specialize (Hs y Hy).
  unfold by_lower in Hs. apply Z.ltb_ge in Hlt.
  unfold ov, overlaps. apply andb_false_iff. left. apply Z.ltb_ge. lia.
Qed.

Variable tr : tree.

Hypothesis HR : Rep (base t) tr.
Hypothesis Hsorted : StronglySorted by_lower (ids tr).
Hypothesis Hmax : maxima_ok tr.

(** The answer [r] of a walk that starts in the state [a]: the first
    overlapping node among those that remain, found at its place in the
    tree. *)
Definition hit_spec (a : astate) (r : ptr) : Prop :=
  match r with
  | None => filter ov (remaining a) = []
  | Some y =>
      exists c l r' k,
        plug (T c l y r') k = tr /\
        filter ov (remaining a) = y :: filter ov (ids r' ++ cright k)
  end.

Lemma hit_spec_transfer (a a' : astate) (r : ptr) :
  filter ov (remaining a) = filter ov (remaining a') ->
  hit_spec a' r -> hit_spec a r.
Proof.
  intros Hf. destruct r as [y|]; cbn [hit_spec].
  - intros (c & l & r' & k & Hp & H). exists c, l, r', k. now rewrite Hf.
  - now rewrite Hf.
Qed.

Lemma after_focus (c : Color) (l : tree) (x : nat) (r : tree) (k : context) :
  plug (T c l x r) k = tr ->
  forall y, In y (ids r ++ cright k) -> by_lower x y.
Proof.
  intros Hp y Hy. pose proof Hsorted as Hs. rewrite <- Hp, ids_plug in Hs.
  cbn [ids] in Hs.
  apply StronglySorted_app in Hs. destruct Hs as (_ & Hs & _).
  rewrite <- app_assoc in Hs.
  apply StronglySorted_app in Hs. destruct Hs as (_ & Hs & _).
  cbn [app] in Hs.
  apply StronglySorted_cons_iff in Hs. destruct Hs as (_ & Hs).
  now apply Hs.
Qed.

Ltac walk_step IH a' ph' :=
  let r := fresh "r" in
  let Hl := fresh "Hl" in
  let Hh := fresh "Hh" in
  let Hp := fresh "Hp" in
  assert (Hp : phase_of a' = Some ph')
    by (cbn [phase_of option_map rootp];
        repeat match goal with H : rootp _ = _ |- _ => rewrite H end;
        reflexivity);
  destruct (IH a' ph' ltac:(assumption) Hp
              ltac:(cbn [weight cweight ids length] in *;
                    rewrite ?length_app in *; cbn [length] in *; lia))
    as (r & Hl & Hh);
  exists r; split; [exact Hl|].

Lemma walk_spec (fuel : nat) :
  forall a ph,
    whole a = tr -> phase_of a = Some ph -> weight a <= fuel ->
    exists r,
      find_next_overlapping_loop get_lower get_upper fuel t q ph = Ok r /\
      hit_spec a r.
Proof.
  induction fuel as [|fuel IH]; intros a ph Hw Hph Hle.
  - destruct a; cbn [weight] in Hle; lia.
  - pose proof HR as HR'. rewrite <- Hw in HR'.
    destruct a as [s k|c l x r k|c l x r k|s k]; cbn [whole] in *;
      cbn [phase_of] in Hph.
    + (* coming down to the root of [s] *)
      destruct s as [|c l x r]; [discriminate|].
      injection Hph as <-. cbn [find_next_overlapping_loop].
      destruct (read_node _ _ _ _ _ _ HR') as (Hl & _). rewrite Hl.
      assert (Hm : maxima_ok l).
      { pose proof Hmax as Hm. rewrite <- Hw in Hm.
        apply maxima_ok_plug in Hm. cbn [maxima_ok] in Hm. tauto. }
      destruct (rootp l) as [lx|] eqn:Hlx.
      * destruct (Z.ltb (fst q) (_it_max_upper t lx)) eqn:Hlt.
        -- walk_step IH (ADown l (FL c x r :: k)) (Down lx).
           revert Hh. apply hit_spec_transfer.
           cbn [remaining cright ids]. now rewrite <- app_assoc.
        -- walk_step IH (AAt c l x r k) (At x).
           revert Hh. apply hit_spec_transfer.
           cbn [remaining ids]. rewrite <- app_assoc, filter_app.
           now rewrite (no_overlap_below l lx Hm Hlx Hlt).
      * destruct l; [|discriminate].
        walk_step IH (AAt c E x r k) (At x).
        revert Hh. apply hit_spec_transfer. reflexivity.
    + (* standing on [x] *)
      injection Hph as <-. cbn [find_next_overlapping_loop].
      destruct (overlaps get_lower get_upper x q) eqn:Hov.
      * exists (Some x). split; [reflexivity|].
        exists c, l, r, k. split; [exact Hw|].
        cbn [remaining filter]. unfold ov at 1. now rewrite Hov.
      * walk_step IH (AAfter c l x r k) (After x).
        revert Hh. apply hit_spec_transfer.
        cbn [remaining filter]. unfold ov at 1. now rewrite Hov.
    + (* [x] is behind *)
      injection Hph as <-. cbn [find_next_overlapping_loop].
      destruct (read_node _ _ _ _ _ _ HR') as (_ & Hr & _). rewrite Hr.
      destruct (rootp r) as [rx|] eqn:Hrx.
      * destruct (Z.ltb (get_lower x) (snd q)) eqn:Hlt.
        -- walk_step IH (ADown r (FR c l x :: k)) (Down rx).
           revert Hh. apply hit_spec_transfer. reflexivity.
        -- walk_step IH (AUp (T c l x r) k) (Up x).
           revert Hh. apply hit_spec_transfer. cbn [remaining].
           rewrite (no_overlap_after x (ids r ++ cright k)
                      (after_focus c l x r k Hw) Hlt).
           symmetry. apply (no_overlap_after x); [|exact Hlt].
           intros y Hy. apply (after_focus c l x r k Hw).
           apply in_or_app. now right.
      * destruct r; [|discriminate].
        walk_step IH (AUp (T c l x E) k) (Up x).
        revert Hh. apply hit_spec_transfer. reflexivity.
    + (* climbing from the root of [s] *)
      destruct (rootp s) as [x|] eqn:Hx; [|discriminate].
      injection Hph as <-. cbn [find_next_overlapping_loop].
      rewrite (read_hole_parent _ _ _ _ HR' Hx).
      destruct k as [|f k]; cbn [cpar].
      * exists None. split; reflexivity.
      * rewrite (is_right_child _ _ _ _ _ HR' Hx).
        destruct f as [c p r|c l p]; cbn [is_FL negb fid].
        -- destruct (Z.leb (snd q) (get_lower p)) eqn:Hge.
           ++ walk_step IH (AUp (T c s p r) k) (Up p).
              revert Hh. apply hit_spec_transfer. cbn [remaining cright].
              assert (Hlt : Z.ltb (get_lower p) (snd q) = false).
              { apply Z.ltb_ge. now apply Z.leb_le. }
              rewrite (no_overlap_after p (p :: ids r ++ cright k)); [|
                intros y [<-|Hy];
                [unfold by_lower; lia | now apply (after_focus c s p r k Hw)]
                | exact Hlt].
              symmetry. apply (no_overlap_after p); [|exact Hlt].
              intros y Hy. apply (after_focus c s p r k Hw).
              apply in_or_app. now right.
           ++ walk_step IH (AAt c s p r k) (At p).
              revert Hh. apply hit_spec_transfer. reflexivity.
        -- walk_step IH (AUp (T c l p s) k) (Up p).
           revert Hh. apply hit_spec_transfer. reflexivity.
Qed.

Lemma emitted_spec (fuel : nat) :
  5 * length (ids tr) + 1 <= fuel ->
  forall steps c l x r k,
    plug (T c l x r) k = tr ->
    length (filter ov (ids r ++ cright k)) < steps ->
    emitted get_lower get_upper steps fuel t q (Some x)
    = Ok (x :: filter ov (ids r ++ cright k)).
Proof.
  intros Hfuel. induction steps as [|steps IH]; intros c l x r k Hp Hlen; [lia|].
  cbn [emitted]. unfold find_next_overlapping.
  destruct (walk_spec fuel (AAfter c l x r k) (After x) Hp eq_refl) as (y & Hl & Hh).
  { pose proof (weight_bound (AAfter c l x r k)) as Hb. cbn [whole] in Hb.
    rewrite Hp in Hb. lia. }
  rewrite Hl. cbn [bind]. destruct y as [y|]; cbn [hit_spec remaining] in Hh.
  - destruct Hh as (c' & l' & r' & k' & Hp' & Hf).
    rewrite Hf in Hlen |- *. cbn [length] in Hlen.
    rewrite (IH c' l' y r' k' Hp') by lia. reflexivity.
  - rewrite Hh. destruct steps; reflexivity.
Qed.

Lemma query_spec (fuel : nat) :
  5 * length (ids tr) + 1 <= fuel ->
  query get_lower get_upper fuel t q = Ok (filter ov (ids tr)).
Proof.
  intros Hfuel. unfold query. destruct HR as (Hroot & _). rewrite Hroot.
  destruct (rootp tr) as [x|] eqn:Hx.
  - unfold find_next_overlapping.
    destruct (walk_spec fuel (ADown tr []) (Down x) eq_refl) as (y & Hl & Hh).
    { cbn [phase_of]. now rewrite Hx. }
    { pose proof (weight_bound (ADown tr [])) as Hb. cbn [whole plug] in Hb. lia. }
    rewrite Hl. cbn [bind].
    destruct y as [y|]; cbn [hit_spec remaining cright] in Hh;
      rewrite app_nil_r in Hh.
    + destruct Hh as (c' & l' & r' & k' & Hp' & Hf). rewrite Hf.
      apply (emitted_spec fuel Hfuel fuel c' l' y r' k' Hp').
      pose proof (filter_length_le ov (ids tr)) as Hlen.
      rewrite Hf in Hlen. cbn [length] in Hlen. lia.
    + rewrite Hh. destruct fuel; reflexivity.
  - destruct tr; [reflexivity|discriminate].
Qed.

End Walk.

Lemma strongly_sorted_filter (R : nat -> nat -> Prop) (f : nat -> bool) (l : list nat) :
  StronglySorted R l -> StronglySorted R (filter f l).
Proof.
  induction l as [|x l IH]; intros H; [constructor|].
  apply StronglySorted_cons_iff in H. destruct H as (Hs & Hx).
  cbn [filter]. destruct (f x); [|now apply IH].
  apply StronglySorted_cons_iff. split; [now apply IH|].
  intros y Hy. apply filter_In in Hy. now apply Hx.
Qed.

(** C4.  In an interval tree whose nodes are in the order of their lower
    ends and whose [_it_max_upper] fields bound the upper ends of their
    subtrees, [query(q)] with [q = [c,d)] returns, and the sequence it emits
    is the in-order sequence of the linked nodes restricted to the nodes
    [[a,b)] with [a < d] and [c < b]: every such node is emitted, once, no
    other node is, and the lower ends never decrease along the sequence. *)
Theorem query_emits_overlapping (get_lower get_upper : nat -> Z)
  (t : IntervalTree) (q : Z * Z) (tr : tree) (fuel : nat) :
  Rep (base t) tr ->
  StronglySorted (by_lower get_lower) (ids tr) ->
  maxima_ok get_upper t tr ->
  5 * length (ids tr) + 1 <= fuel ->
  exists out,
    query get_lower get_upper fuel t q = Ok out /\
    out = filter (fun n => overlaps get_lower get_upper n q) (ids tr) /\
    (forall n, In n out <->
               linked (base t) n /\
               (get_lower n < snd q)%Z /\ (fst q < get_upper n)%Z) /\
    NoDup out /\
    StronglySorted (by_lower get_lower) out.
Proof.
  intros HR Hs Hm Hfuel.
  exists (filter (fun n => overlaps get_lower get_upper n q) (ids tr)).
  split; [|split; [|split; [|split]]].
  - apply (query_spec get_lower get_upper t q tr HR Hs Hm fuel Hfuel).
  - reflexivity.
  - intros n. rewrite filter_In, (linked_iff _ _ n HR).
    unfold overlaps. rewrite andb_true_iff, !Z.ltb_lt. reflexivity.
  - apply NoDup_filter. apply HR.
  - now apply strongly_sorted_filter.
Qed.

(** The intervals [[1,5)], [[3,7)], [[6,9)], [[10,12)] of the nodes 1, 2, 3
    and 4: node 2 is the root, nodes 1 and 3 are its children and node 4 is
    the right child of node 3. *)
Definition four_lower (n : nat) : Z :=
  match n with 1 => 1%Z | 2 => 3%Z | 3 => 6%Z | _ => 10%Z end.

Definition four_upper (n : nat) : Z :=
  match n with 1 => 5%Z | 2 => 7%Z | 3 => 9%Z | _ => 12%Z end.

Definition four_intervals : IntervalTree :=
  mkITree
    (mkTree (Some 2)
       (fun x =>
          match x with
          | 1 => mkNode None None (Some 2) BLACK None None
          | 2 => mkNode (Some 1) (Some 3) None BLACK None None
          | 3 => mkNode None (Some 4) (Some 2) BLACK None None
          | 4 => mkNode None None (Some 3) RED None None
          | _ => Scenario.rb_blank
          end))
    (fun x => match x with 1 => 5%Z | _ => 12%Z end).

Definition four_intervals_tree : tree :=
  T BLACK (T BLACK E 1 E) 2 (T BLACK E 3 (T RED E 4 E)).

Lemma query_emits_overlapping_witness :
  exists out,
    query four_lower four_upper 21 four_intervals (4, 6)%Z = Ok out /\
    out = [1; 2] /\
    (forall n, In n out <->
               linked (base four_intervals) n /\
               (four_lower n < 6)%Z /\ (4 < four_upper n)%Z) /\
    NoDup out /\
    StronglySorted (by_lower four_lower) out.
Proof.
  apply (query_emits_overlapping four_lower four_upper four_intervals (4, 6)%Z
           four_intervals_tree 21).
  - split; [reflexivity|]. split.
    + cbn. repeat split.
    + cbn. repeat constructor; cbn; intuition lia.
  - repeat constructor; unfold by_lower; cbn; lia.
  - cbn. repeat split; intros y Hy; intuition (subst; cbn; lia).
  - cbn. lia.
Defined.

End Query.

Import RB RBMem RBSpec NoDupFacts Shape Rotate Inv Frames InsertFixup InsertLeaf.

(** ** Swapping a node with one of its children *)

Module SwapNeighbors.

Ltac finish_repz :=
  unfold RepZ; cbn [mem root with_mem];
  (split; [first [reflexivity | assumption]|]);
  (split; [|split]);
  [ cbn [shape rootp]; repeat split; try solve [mem_auto]; shape_tac
  | cbn [cshape fshape rootp cpar fid]; repeat split; try solve [mem_auto];
    first [shape_tac | cshape_tac]
  | nd_goal ].

Lemma swap_neighbors_right (st : RBTree) c1 l n1 c2 a n2 b (k : context) :
  Rep st (plug (T c1 l n1 (T c2 a n2 b)) k) ->
  Rep (swap_neighbors st n1 n2) (plug (T c2 l n2 (T c1 a n1 b)) k).
Proof.
  rewrite !Rep_plug.
  intros (Hroot & Hs & Hk & Hnd).
  cbn [shape] in Hs.
  destruct Hs as (H1l & H1r & H1p & H1c & Sl & H2l & H2r & H2p & H2c & Sa & Sb).
  open_context k Hk;
    cbn [ids cids fids fid fsib app rootp cpar croot] in *; nd Hnd;
    unfold swap_neighbors; mem_norm.
  all: finish_repz.
Qed.

Lemma swap_neighbors_left (st : RBTree) c1 r n1 c2 a n2 b (k : context) :
  Rep st (plug (T c1 (T c2 a n2 b) n1 r) k) ->
  Rep (swap_neighbors st n1 n2) (plug (T c2 (T c1 a n1 b) n2 r) k).
Proof.
  rewrite !Rep_plug.
  intros (Hroot & Hs & Hk & Hnd).
  cbn [shape] in Hs.
  destruct Hs as (H1l & H1r & H1p & H1c & (H2l & H2r & H2p & H2c & Sa & Sb) & Sr).
  open_context k Hk;
    cbn [ids cids fids fid fsib app rootp cpar croot] in *; nd Hnd;
    unfold swap_neighbors; mem_norm.
  all: finish_repz.
Qed.

Section SwapNodes.

Variable K : Type.
Variable cmp : K -> K -> bool.
Variable key : nat -> K.
Variable multiple : bool.

Lemma Rep_equality_list_swap (st : RBTree) (t : tree) (n1 n2 : nat) :
  Rep st t ->
  Rep (with_mem st (equality_list_swap_if_necessary cmp key multiple (mem st) n1 n2)) t.
Proof.
  intros H. apply Rep_same; [exact H|].
  intros z _. apply same_node_equality_list_swap.
Qed.

Lemma color_equality_list_swap_read (m : memory) (n1 n2 z : nat) :
  _rbt_color (equality_list_swap_if_necessary cmp key multiple m n1 n2 z)
  = _rbt_color (m z).
Proof. apply same_node_equality_list_swap. Qed.

Lemma not_parent (st : RBTree) (s : tree) (k : context) (x y : nat) :
  Rep st (plug s k) -> rootp s = Some x -> In y (ids s) ->
  ptr_eqb (_rbt_parent (mem st x)) (Some y) = false.
Proof.
  intros HR Hx Hy. rewrite (read_hole_parent _ _ _ _ HR Hx).
  destruct (ptr_eqb_spec (cpar k) (Some y)) as [Hp|]; [|reflexivity].
  apply cpar_in in Hp. apply Rep_plug in HR. destruct HR as (_ & _ & _ & Hnd).
  apply NoDup_app_iff in Hnd. destruct Hnd as (_ & _ & Hd).
  exfalso. exact (Hd _ Hy Hp).
Qed.

Lemma swap_nodes_right (st : RBTree) c1 l n1 c2 a n2 b (k : context) (sc : bool) :
  Rep st (plug (T c1 l n1 (T c2 a n2 b)) k) ->
  Rep (swap_nodes cmp key multiple st n1 n2 sc)
      (plug (T (if sc then c2 else c1) l n2 (T (if sc then c1 else c2) a n1 b)) k).
Proof.
  intros HR. unfold swap_nodes.
  rewrite (not_parent st _ k n1 n2 HR eq_refl)
    by (cbn [ids]; rewrite in_app_iff; cbn [In]; rewrite in_app_iff; cbn [In]; auto).
  destruct (read_node _ _ _ _ _ (FR c1 l n1 :: k) HR) as (_ & _ & Hp & _).
  cbn [cpar fid] in Hp. rewrite Hp, ptr_eqb_refl.
  apply swap_neighbors_right in HR.
  apply (Rep_equality_list_swap _ _ n1 n2) in HR.
  destruct sc; cbn [negb]; [exact HR|].
  rewrite !color_equality_list_swap_read.
  destruct (read_node _ _ _ _ _ _ HR) as (_ & _ & _ & Hc2).
  destruct (read_node _ _ _ _ _ (FR c2 l n2 :: k) HR) as (_ & _ & _ & Hc1).
  cbn [mem with_mem] in Hc1, Hc2.
  rewrite !color_equality_list_swap_read in Hc1, Hc2. rewrite Hc1, Hc2.
  apply (recolor_spec _ _ c2 _ _ _ (FR c2 l n2 :: k)) in HR.
  apply (recolor_spec _ _ c1 _ _ _ k) in HR.
  exact HR.
Qed.

Lemma swap_nodes_left (st : RBTree) c1 r n1 c2 a n2 b (k : context) (sc : bool) :
  Rep st (plug (T c1 (T c2 a n2 b) n1 r) k) ->
  Rep (swap_nodes cmp key multiple st n1 n2 sc)
      (plug (T (if sc then c2 else c1) (T (if sc then c1 else c2) a n1 b) n2 r) k).
Proof.
  intros HR. unfold swap_nodes.
  rewrite (not_parent st _ k n1 n2 HR eq_refl)
    by (cbn [ids]; rewrite !in_app_iff; cbn [In]; auto).
  destruct (read_node _ _ _ _ _ (FL c1 n1 r :: k) HR) as (_ & _ & Hp & _).
  cbn [cpar fid] in Hp. rewrite Hp, ptr_eqb_refl.
  apply swap_neighbors_left in HR.
  apply (Rep_equality_list_swap _ _ n1 n2) in HR.
  destruct sc; cbn [negb]; [exact HR|].
  rewrite !color_equality_list_swap_read.
  destruct (read_node _ _ _ _ _ _ HR) as (_ & _ & _ & Hc2).
  destruct (read_node _ _ _ _ _ (FL c2 n2 r :: k) HR) as (_ & _ & _ & Hc1).
  cbn [mem with_mem] in Hc1, Hc2.
  rewrite !color_equality_list_swap_read in Hc1, Hc2. rewrite Hc1, Hc2.
  apply (recolor_spec _ _ c2 _ _ _ (FL c2 n2 r :: k)) in HR.
  apply (recolor_spec _ _ c1 _ _ _ k) in HR.
  exact HR.
Qed.

End SwapNodes.

End SwapNeighbors.

Import RB RBMem RBSpec NoDupFacts Shape Rotate Inv Frames InsertFixup InsertLeaf
  HintedInsert SwapNeighbors.

(** ** Swapping a node with a node further down *)

Module SwapUnrelated.

(** A context that hangs below the parent link [top]. *)
Definition cpar_in (top : ptr) (k : context) : ptr :=
  match k with
  | [] => top
  | f :: _ => Some (fid f)
  end.

Fixpoint cshape_in (m : memory) (top : ptr) (k : context) (hole : ptr) : Prop :=
  match k with
  | [] => True
  | f :: k' => fshape m (cpar_in top k') f hole /\ cshape_in m top k' (Some (fid f))
  end.

Lemma cids_app (k1 k2 : context) : cids (k1 ++ k2) = cids k1 ++ cids k2.
Proof.
  induction k1 as [|f k1 IH]; cbn [app cids]; [reflexivity|].
  now rewrite IH, app_assoc.
Qed.

Lemma croot_app (k1 : context) (f : frame) (k2 : context) :
  forall hole, croot (k1 ++ f :: k2) hole = croot k2 (Some (fid f)).
Proof.
  induction k1 as [|g k1 IH]; intros hole; cbn [app croot]; [reflexivity|apply IH].
Qed.

Lemma cpar_app (k1 : context) (f : frame) (k2 : context) :
  cpar (k1 ++ f :: k2) = cpar_in (Some (fid f)) k1.
Proof. destruct k1; reflexivity. Qed.

Lemma cshape_app (m : memory) (k1 : context) (f : frame) (k2 : context) :
  forall hole,
    cshape m (k1 ++ f :: k2) hole <->
    cshape_in m (Some (fid f)) k1 hole /\
    fshape m (cpar k2) f (croot k1 hole) /\
    cshape m k2 (Some (fid f)).
Proof.
  induction k1 as [|g k1 IH]; intros hole; cbn [app cshape cshape_in croot].
  - tauto.
  - rewrite IH, cpar_app. tauto.
Qed.

(** The root link of a context that is not empty is one of its nodes. *)
Lemma croot_in (k : context) :
  forall hole z, k <> [] -> croot k hole = Some z -> In z (cids k).
Proof.
  induction k as [|f k IH]; intros hole z Hne Hz; [congruence|].
  cbn [croot] in Hz. cbn [cids]. apply in_or_app.
  destruct k as [|g k].
  - cbn [croot] in Hz. injection Hz as <-. left. apply fid_in.
  - right. eapply IH; [discriminate|exact Hz].
Qed.

Lemma croot_some (k : context) :
  forall x, exists z, croot k (Some x) = Some z.
Proof.
  induction k as [|f k IH]; intros x; cbn [croot]; [now exists x|apply IH].
Qed.

Lemma croot_hole (k : context) (hole hole' : ptr) :
  k <> [] -> croot k hole = croot k hole'.
Proof. destruct k; [congruence|reflexivity]. Qed.

(** A context whose nodes keep their child links and colors, and whose
    outermost node gets the parent link [top']. *)
Lemma cshape_in_retop (m m' : memory) (top top' : ptr) (kk : context) :
  forall hole,
    NoDup (cids kk) ->
    cshape_in m top kk hole ->
    (forall z, In z (cids kk) ->
               _rbt_left (m' z) = _rbt_left (m z) /\
               _rbt_right (m' z) = _rbt_right (m z) /\
               _rbt_color (m' z) = _rbt_color (m z)) ->
    (forall z, In z (cids kk) -> croot kk hole <> Some z ->
               _rbt_parent (m' z) = _rbt_parent (m z)) ->
    (forall z, kk <> [] -> croot kk hole = Some z -> _rbt_parent (m' z) = top') ->
    cshape_in m' top' kk hole.
Proof.
  induction kk as [|f kk IH]; intros hole Hnd Hs Hlrc Hp Htop; [exact I|].
  cbn [cshape_in] in *. destruct Hs as (Hf & Hs).
  cbn [cids] in Hnd. apply NoDup_app_iff in Hnd. destruct Hnd as (Hndf & Hndk & Hd).
  assert (Hroot : forall z, croot (f :: kk) hole = Some z ->
                            (kk = [] /\ z = fid f) \/ In z (cids kk)).
  { intros z Hz. cbn [croot] in Hz. destruct kk as [|g kk'].
    - left. cbn [croot] in Hz. injection Hz as <-. now split.
    - right. eapply croot_in; [discriminate|exact Hz]. }
  split.
  - assert (Hsib : forall z, In z (ids (fsib f)) -> same_node (m' z) (m z)).
    { intros z Hz. assert (Hz' : In z (cids (f :: kk))).
      { cbn [cids]. apply in_or_app. left. now right. }
      destruct (Hlrc z Hz') as (Hl & Hr & Hc).
      unfold same_node. repeat split; auto.
      apply Hp; [exact Hz'|]. intros Hcr.
      destruct (Hroot z Hcr) as [(_ & ->)|Hin].
      - unfold fids in Hndf. apply NoDup_cons_iff in Hndf. tauto.
      - apply (Hd z); [now right|exact Hin]. }
    assert (Hzf : In (fid f) (cids (f :: kk))).
    { cbn [cids]. apply in_or_app. left. apply fid_in. }
    destruct (Hlrc _ Hzf) as (Hl & Hr & Hc).
    assert (Hpar : _rbt_parent (m' (fid f)) = cpar_in top' kk).
    { destruct kk as [|g kk'].
      - cbn [cpar_in]. apply Htop; [discriminate|reflexivity].
      - cbn [cpar_in]. rewrite Hp; [|exact Hzf|].
        + destruct f; cbn [fshape cpar_in fid] in *; tauto.
        + intros Hcr. destruct (Hroot _ Hcr) as [(Hnil & _)|Hin]; [discriminate|].
          apply (Hd (fid f)); [apply fid_in|exact Hin]. }
    destruct f as [c x r|c l x]; cbn [fshape fid fsib] in *;
      rewrite Hl, Hr, Hc, Hpar;
      destruct Hf as (Hfl & Hfr & Hfp & Hfc & Hfs);
      repeat split; auto; eapply shape_frame; eauto.
  - apply IH.
    + exact Hndk.
    + exact Hs.
    + intros z Hz. apply Hlrc. cbn [cids]. apply in_or_app. now right.
    + intros z Hz Hcr. apply Hp; [cbn [cids]; apply in_or_app; now right|].
      exact Hcr.
    + intros z Hne Hcr. apply Htop; [discriminate|exact Hcr].
Qed.

(** *** The links after [swap_unrelated_nodes] *)

Lemma ptr_neqb (p q : ptr) : p <> q -> ptr_eqb p q = false.
Proof. intros H. destruct (ptr_eqb_spec p q); [contradiction|reflexivity]. Qed.

Lemma parent_set_parent_if_ptr (m : memory) (p : ptr) (b : nat) (v : ptr) :
  _rbt_parent (set_parent_if m p v b) =
  if ptr_eqb p (Some b) then v else _rbt_parent (m b).
Proof.
  destruct p as [a|]; cbn [set_parent_if ptr_eqb]; [|reflexivity].
  rewrite parent_set_parent, Nat.eqb_sym. reflexivity.
Qed.

Create Rewrite HintDb rbptr.

#[global] Hint Rewrite left_set_left right_set_left parent_set_left color_set_left
  left_set_right right_set_right parent_set_right color_set_right
  left_set_parent right_set_parent parent_set_parent color_set_parent
  left_set_color right_set_color parent_set_color color_set_color
  left_set_parent_if right_set_parent_if color_set_parent_if
  parent_set_parent_if_ptr : rbptr.

Ltac decide_eqb :=
  repeat match goal with
         | |- context [Nat.eqb ?a ?a] => rewrite (Nat.eqb_refl a)
         | |- context [ptr_eqb ?a ?a] => rewrite (ptr_eqb_refl a)
         | H : ?p <> ?q |- context [ptr_eqb ?p ?q] => rewrite (ptr_neqb p q H)
         | H : ?a <> ?b |- context [Nat.eqb ?a ?b] =>
             rewrite (proj2 (Nat.eqb_neq a b) H)
         | H : ?b <> ?a |- context [Nat.eqb ?a ?b] =>
             rewrite (proj2 (Nat.eqb_neq a b) (not_eq_sym H))
         end.

Ltac use_fields_in st :=
  repeat match goal with
         | H : _rbt_left (mem st ?x) = _ |- context [_rbt_left (mem st ?x)] => rewrite H
         | H : _rbt_right (mem st ?x) = _ |- context [_rbt_right (mem st ?x)] => rewrite H
         | H : _rbt_parent (mem st ?x) = _ |- context [_rbt_parent (mem st ?x)] => rewrite H
         end.

Ltac pnorm st :=
  repeat first
    [ progress autorewrite with rbptr
    | progress use_fields_in st
    | progress decide_eqb
    | progress cbn [mem root with_mem] ].

Section Links.

Variable st : RBTree.
Variables n1 n2 p2 : nat.
Variables L1 R1 L2 R2 P1 Rp : ptr.

Hypothesis H12 : n1 <> n2.
Hypothesis Hp1 : p2 <> n1.
Hypothesis Hp2 : p2 <> n2.
Hypothesis F1l : _rbt_left (mem st n1) = L1.
Hypothesis F1r : _rbt_right (mem st n1) = R1.
Hypothesis F1p : _rbt_parent (mem st n1) = P1.
Hypothesis F2l : _rbt_left (mem st n2) = L2.
Hypothesis F2r : _rbt_right (mem st n2) = R2.
Hypothesis F2p : _rbt_parent (mem st n2) = Some p2.
Hypothesis Fpr : _rbt_right (mem st p2) = Rp.
Hypothesis HL1a : L1 <> Some n1.
Hypothesis HL1b : L1 <> Some n2.
Hypothesis HL2a : L2 <> Some n1.
Hypothesis HL2b : L2 <> Some n2.
Hypothesis HR1a : R1 <> Some n1.
Hypothesis HR1b : R1 <> Some n2.
Hypothesis HR2a : R2 <> Some n1.
Hypothesis HR2b : R2 <> Some n2.
Hypothesis HRp : Rp <> Some n2.

(** The links that both shapes of the parent of [n1] share. *)
Definition swapped_links : memory :=
  set_left
    (set_parent
       (set_parent
          (set_parent_if
             (set_parent_if
                (set_right
                   (set_right
                      (set_parent_if
                         (set_parent_if
                            (set_left (set_left (mem st) n1 L2) n2 L1)
                            L2 (Some n1))
                         L1 (Some n2))
                      n1 R2)
                   n2 R1)
                R2 (Some n1))
             R1 (Some n2))
          n1 (Some p2))
       n2 P1)
    p2 (Some n1).

Lemma swap_unrelated_at_root :
  P1 = None ->
  swap_unrelated_nodes st n1 n2 = mkTree (Some n2) swapped_links.
Proof.
  intros HP. unfold swap_unrelated_nodes. cbv zeta.
  pnorm st. rewrite HP. cbv iota beta. pnorm st.
  unfold swapped_links. rewrite HP. reflexivity.
Qed.

Lemma swap_unrelated_below_left (p1 : nat) (Rq : ptr) :
  P1 = Some p1 -> p1 <> n1 -> p1 <> n2 ->
  _rbt_right (mem st p1) = Rq -> Rq <> Some n1 ->
  swap_unrelated_nodes st n1 n2
  = mkTree (root st) (set_left swapped_links p1 (Some n2)).
Proof.
  intros HP Hq1 Hq2 Fq HRq. unfold swap_unrelated_nodes. cbv zeta.
  pnorm st. rewrite HP. cbv iota beta. pnorm st.
  unfold swapped_links. rewrite HP. reflexivity.
Qed.

Lemma swap_unrelated_below_right (p1 : nat) :
  P1 = Some p1 -> p1 <> n1 -> p1 <> n2 ->
  _rbt_right (mem st p1) = Some n1 ->
  swap_unrelated_nodes st n1 n2
  = mkTree (root st) (set_right swapped_links p1 (Some n2)).
Proof.
  intros HP Hq1 Hq2 Fq. unfold swap_unrelated_nodes. cbv zeta.
  pnorm st. rewrite HP. cbv iota beta. pnorm st.
  unfold swapped_links. rewrite HP. reflexivity.
Qed.

End Links.

(** *** The tree after [swap_unrelated_nodes] *)

Lemma rootp_notin (t : tree) (x : nat) : ~ In x (ids t) -> rootp t <> Some x.
Proof. intros H E. apply H. now apply rootp_in. Qed.

Lemma cpar_in_nonempty (top top' : ptr) (k : context) :
  k <> [] -> cpar_in top k = cpar_in top' k.
Proof. destruct k; [congruence|reflexivity]. Qed.

Ltac mem_neq :=
  first [ assumption
        | apply not_eq_sym; assumption
        | let E := fresh in intro E; subst; solve [nd_contra]
        | let E := fresh in intro E; apply rootp_in in E; solve [nd_contra]
        | let E := fresh in intro E; injection E as E; subst; solve [nd_contra] ].

Ltac decide_mem :=
  repeat match goal with
         | |- context [Nat.eqb ?a ?a] => rewrite (Nat.eqb_refl a)
         | |- context [ptr_eqb ?a ?a] => rewrite (ptr_eqb_refl a)
         | H : rootp ?t = Some ?z |- context [ptr_eqb (rootp ?t) (Some ?z)] =>
             rewrite H, ptr_eqb_refl
         | |- context [ptr_eqb (Some ?a) (Some ?b)] =>
             change (ptr_eqb (Some a) (Some b)) with (Nat.eqb a b)
         | |- context [ptr_eqb None (Some ?b)] =>
             change (ptr_eqb None (Some b)) with false
         | |- context [Nat.eqb ?a ?b] =>
             rewrite (proj2 (Nat.eqb_neq a b)) by mem_neq
         | |- context [ptr_eqb (rootp ?t) (Some ?z)] =>
             rewrite (ptr_neqb (rootp t) (Some z)) by mem_neq
         end.

Ltac side := first [reflexivity | assumption | mem_neq].

Ltac rd :=
  unfold swapped_links;
  repeat first
    [ progress autorewrite with rbptr
    | progress use_fields
    | progress decide_mem
    | progress cbn [mem root with_mem] ].

Ltac rd_auto := rd; auto.

(** The proof obligations of an untouched or re-hung subtree. *)
Ltac shape_rd :=
  eapply shape_reparent;
  [ eassumption
  | let r := fresh "r" in
    let Hr := fresh "Hr" in
    intros r Hr; pose proof (rootp_in _ _ Hr); repeat split; rd_auto;
    try solve [eapply shape_root_parent; [|eassumption]; eassumption]
  | let z := fresh "z" in
    let Hz := fresh "Hz" in
    let Hzr := fresh "Hzr" in
    intros z Hz Hzr; unfold same_node; repeat split; rd_auto
  | assumption ].

Ltac cshape_rd :=
  eapply cshape_frame; [|eassumption];
  let z := fresh "z" in
  let Hz := fresh "Hz" in
  intros z Hz; unfold same_node; repeat split; rd_auto.

Ltac near_inner :=
  cbn [cshape_in fshape cpar_in fid]; repeat split;
  try solve [rd_auto]; shape_rd.

Ltac far_inner Hin Hrt :=
  cbn [cshape_in fshape fid]; split;
  [ repeat split; try solve [rd_auto]; shape_rd
  | eapply cshape_in_retop; [| exact Hin | | |];
    [ assumption
    | let z := fresh "z" in
      let Hz := fresh "Hz" in
      intros z Hz; repeat split; rd_auto
    | let z := fresh "z" in
      let Hz := fresh "Hz" in
      let Hzr := fresh "Hzr" in
      intros z Hz Hzr; rewrite Hrt in Hzr;
      match type of Hrt with
      | _ = Some ?r => assert (r <> z) by (intro; subst; apply Hzr; reflexivity)
      end; rd_auto
    | let z := fresh "z" in
      let Hz := fresh "Hz" in
      let Hzr := fresh "Hzr" in
      intros z Hz Hzr; rewrite Hrt in Hzr; injection Hzr as <-; rd_auto ] ].

Ltac swap_goals inner :=
  split; [first [reflexivity | assumption]|];
  split; [repeat split; try solve [rd_auto]; shape_rd|];
  split; [|nd_goal];
  split; [inner|];
  split; [cbn [fshape]; repeat split; try solve [rd_auto]; shape_rd|];
  cbn [cshape fshape cpar fid]; repeat split; try solve [rd_auto];
  first [shape_rd | cshape_rd].

Lemma swap_unrelated_spec (st : RBTree) c1 l n1 c2 a n2 b cp p2 sib
  (kk k : context) :
  Rep st (plug (T c2 a n2 b) ((FL cp p2 sib :: kk) ++ FR c1 l n1 :: k)) ->
  Rep (swap_unrelated_nodes st n1 n2)
      (plug (T c1 a n1 b) ((FL cp p2 sib :: kk) ++ FR c2 l n2 :: k)).
Proof.
  rewrite !Rep_plug. unfold RepZ.
  rewrite !cshape_app, !croot_app, !cpar_app, !cids_app.
  intros (Hroot & Hs & (Hin & Hf1 & Hk) & Hnd).
  cbn [shape cpar_in rootp fid croot] in *.
  destruct Hs as (H2l & H2r & H2p & H2c & Sa & Sb).
  cbn [fshape] in Hf1. destruct Hf1 as (H1l & H1r & H1p & H1c & Sl).
  cbn [cshape_in fshape fid] in Hin.
  destruct Hin as ((Hpl & Hpr & Hpp & Hpc & Ssib) & Hin).
  destruct (croot_some kk p2) as (rt & Hrt). rewrite Hrt in *.
  assert (Hcase : (kk = [] /\ rt = p2) \/ (kk <> [] /\ In rt (cids kk))).
  { destruct kk as [|g kk'].
    - left. cbn [croot] in Hrt. injection Hrt as <-. now split.
    - right. split; [discriminate|].
      eapply croot_in; [discriminate|exact Hrt]. }
  cbn [ids cids fids fid fsib app] in Hnd.
  destruct Hcase as [(-> & ->)|(Hne & Hrtin)].
  - (* the successor is the left child of the right child *)
    open_context k Hk;
      cbn [ids cids fids fid fsib app rootp cpar croot cpar_in] in *; nd Hnd.
    + rewrite (swap_unrelated_at_root st n1 n2 p2 (rootp l) (Some p2) (rootp a)
                 (rootp b) None (rootp sib)) by side.
      swap_goals ltac:(near_inner).
    + rewrite (swap_unrelated_below_left st n1 n2 p2 (rootp l) (Some p2) (rootp a)
                 (rootp b) (Some p) (rootp sib)) with (p1 := p) (Rq := rootp sib0)
        by side.
      swap_goals ltac:(near_inner).
    + rewrite (swap_unrelated_below_right st n1 n2 p2 (rootp l) (Some p2) (rootp a)
                 (rootp b) (Some p) (rootp sib)) with (p1 := p) by side.
      swap_goals ltac:(near_inner).
  - (* the successor is further down *)
    rewrite (cpar_in_nonempty (Some n1) (Some n2) kk Hne) in Hpp.
    open_context k Hk;
      cbn [ids cids fids fid fsib app rootp cpar croot cpar_in] in *; nd Hnd.
    + rewrite (swap_unrelated_at_root st n1 n2 p2 (rootp l) (Some rt) (rootp a)
                 (rootp b) None (rootp sib)) by side.
      swap_goals ltac:(far_inner Hin Hrt).
    + rewrite (swap_unrelated_below_left st n1 n2 p2 (rootp l) (Some rt) (rootp a)
                 (rootp b) (Some p) (rootp sib)) with (p1 := p) (Rq := rootp sib0)
        by side.
      swap_goals ltac:(far_inner Hin Hrt).
    + rewrite (swap_unrelated_below_right st n1 n2 p2 (rootp l) (Some rt) (rootp a)
                 (rootp b) (Some p) (rootp sib)) with (p1 := p) by side.
      swap_goals ltac:(far_inner Hin Hrt).
Qed.


Section SwapNodes.

Variable K : Type.
Variable cmp : K -> K -> bool.
Variable key : nat -> K.
Variable multiple : bool.

Lemma swap_nodes_far (st : RBTree) c1 l n1 c2 a n2 b cp p2 sib
  (kk k : context) (sc : bool) :
  Rep st (plug (T c2 a n2 b) ((FL cp p2 sib :: kk) ++ FR c1 l n1 :: k)) ->
  Rep (swap_nodes cmp key multiple st n1 n2 sc)
      (plug (T (if sc then c1 else c2) a n1 b)
            ((FL cp p2 sib :: kk) ++ FR (if sc then c2 else c1) l n2 :: k)).
Proof.
  intros HR. unfold swap_nodes.
  assert (Hp21 : p2 <> n1).
  { pose proof HR as H. apply Rep_plug in H. destruct H as (_ & _ & _ & Hnd).
    rewrite cids_app in Hnd. cbn [ids cids fids fid fsib app] in Hnd.
    nd Hnd. assumption. }
  pose proof HR as HR1. rewrite plug_app in HR1. cbn [plug fill] in HR1.
  rewrite (not_parent st _ k n1 n2 HR1 eq_refl).
  2:{ cbn [ids]. rewrite !in_app_iff. cbn [In]. rewrite in_ids_plug.
      cbn [ids]. rewrite !in_app_iff. cbn [In]. auto 10. }
  destruct (read_node _ _ _ _ _ _ HR) as (_ & _ & Hp & _).
  rewrite cpar_app in Hp. cbn [cpar_in fid] in Hp. rewrite Hp.
  cbn [ptr_eqb]. rewrite (proj2 (Nat.eqb_neq p2 n1) Hp21).
  clear HR1 Hp. apply swap_unrelated_spec in HR.
  apply (Rep_equality_list_swap K cmp key multiple _ _ n1 n2) in HR.
  destruct sc; cbn [negb]; [exact HR|].
  rewrite !(color_equality_list_swap_read K cmp key multiple).
  destruct (read_node _ _ _ _ _ _ HR) as (_ & _ & _ & Hc1).
  pose proof HR as HR2. rewrite plug_app in HR2. cbn [plug fill] in HR2.
  destruct (read_node _ _ _ _ _ _ HR2) as (_ & _ & _ & Hc2).
  cbn [mem with_mem] in Hc1, Hc2.
  rewrite !(color_equality_list_swap_read K cmp key multiple) in Hc1, Hc2.
  rewrite Hc1, Hc2. clear HR2.
  apply (recolor_spec _ _ c2) in HR.
  rewrite plug_app in HR. cbn [plug fill] in HR.
  apply (recolor_spec _ _ c1) in HR.
  rewrite plug_app. cbn [plug fill]. exact HR.
Qed.

End SwapNodes.

End SwapUnrelated.

Import RB RBMem RBSpec NoDupFacts Shape Rotate Inv Frames InsertFixup InsertLeaf
  HintedInsert SwapNeighbors SwapUnrelated.

(** ** [swap_nodes] on the pairs that [remove_to_leaf] passes *)

Module Exchange.


Section SwapNodes.

Variable K : Type.
Variable cmp : K -> K -> bool.
Variable key : nat -> K.
Variable multiple : bool.


End SwapNodes.





End Exchange.

Import RB RBMem RBSpec NoDupFacts Shape Rotate Inv Frames InsertFixup InsertLeaf.

(** ** The fix-up after a deletion *)

Module DeleteFixup.

(** The subtree [s] is one BLACK node short: the context [f :: k] takes a
    BLACK-rooted subtree of black height [h + 1], and [s] has black height
    [h]. *)
Definition del_inv (s : tree) (f : frame) (k : context) (h : nat) : Prop :=
  balanced s /\ no_red_red s /\ bh s = h /\ col s = BLACK /\
  cvalid (f :: k) (h + 1) BLACK.

Definition nephews_black (sib : tree) : Prop :=
  match sib with
  | E => True
  | T _ l _ r => col l = BLACK /\ col r = BLACK
  end.

(** Case 3 applies: parent, sibling and nephews are BLACK. *)
Definition propagates (f : frame) : Prop :=
  fcol f = BLACK /\ col (fsib f) = BLACK /\ nephews_black (fsib f).

Lemma color_eqb_eq (c c' : Color) : color_eqb c c' = true <-> c = c'.
Proof. destruct c, c'; cbn; split; intros; congruence. Qed.

Lemma nephew_black_spec (st : RBTree) (t : tree) (k : context) :
  Rep st (plug t k) ->
  nephew_black (mem st) (rootp t) = color_eqb (col t) BLACK.
Proof.
  intros H. destruct t as [|c l x r]; [reflexivity|].
  cbn [rootp nephew_black col].
  destruct (read_node _ _ _ _ _ _ H) as (_ & _ & _ & ->). reflexivity.
Qed.

(** The sibling of a subtree that is one BLACK node short exists. *)
Lemma sibling_exists (s : tree) (f : frame) (k : context) (h : nat) :
  del_inv s f k h -> exists cs sl sx sr, fsib f = T cs sl sx sr.
Proof.
  intros (_ & _ & _ & _ & Hc). cbn [cvalid] in Hc.
  destruct Hc as (_ & _ & Hbh & _).
  destruct (fsib f) as [|cs sl sx sr]; [cbn in Hbh; lia|].
  now exists cs, sl, sx, sr.
Qed.

(** The test of the loop of [fixup_after_delete]. *)
Lemma propagates_test (st : RBTree) (s : tree) (f : frame) (k : context)
  cs sl sx sr :
  Rep st (plug s (f :: k)) -> fsib f = T cs sl sx sr ->
  color_eqb (_rbt_color (mem st (fid f))) BLACK
  && color_eqb (_rbt_color (mem st sx)) BLACK
  && nephew_black (mem st) (_rbt_left (mem st sx))
  && nephew_black (mem st) (_rbt_right (mem st sx))
  = color_eqb (fcol f) BLACK && color_eqb cs BLACK
    && color_eqb (col sl) BLACK && color_eqb (col sr) BLACK.
Proof.
  intros HR Hs.
  destruct (read_frame _ _ _ _ HR) as (-> & _).
  set (g := if is_FL f then FR (fcol f) s (fid f) else FL (fcol f) (fid f) s).
  assert (HS : Rep st (plug (T cs sl sx sr) (g :: k))).
  { subst g. destruct f; cbn [fsib] in Hs; subst; exact HR. }
  destruct (read_node _ _ _ _ _ _ HS) as (Hl & Hr & _ & Hc).
  rewrite Hl, Hr, Hc.
  rewrite (nephew_black_spec st sl (FL cs sx sr :: g :: k) HS).
  rewrite (nephew_black_spec st sr (FR cs sl sx :: g :: k) HS).
  reflexivity.
Qed.

Lemma propagates_iff (f : frame) cs sl sx sr :
  fsib f = T cs sl sx sr ->
  color_eqb (fcol f) BLACK && color_eqb cs BLACK
  && color_eqb (col sl) BLACK && color_eqb (col sr) BLACK = true
  <-> propagates f.
Proof.
  intros Hs. unfold propagates. rewrite Hs. cbn [col nephews_black].
  rewrite !andb_true_iff, !color_eqb_eq. tauto.
Qed.

Lemma delete_loop_eq (fuel : nat) (m : memory) (parent : nat) (dl : bool) :
  fixup_after_delete_loop fuel m parent dl =
  (sibling <- deref (if dl then _rbt_right (m parent) else _rbt_left (m parent)) ;;
   if color_eqb (_rbt_color (m parent)) BLACK
      && color_eqb (_rbt_color (m sibling)) BLACK
      && nephew_black m (_rbt_left (m sibling))
      && nephew_black m (_rbt_right (m sibling))
   then
     let m := set_color m sibling RED in
     match _rbt_parent (m parent) with
     | None => Ok (m, None)
     | Some pp =>
         match fuel with
         | 0 => Err OutOfFuel
         | S fuel' =>
             fixup_after_delete_loop fuel' m pp
               (ptr_eqb (_rbt_left (m pp)) (Some parent))
         end
     end
   else Ok (m, Some (parent, dl, sibling))).
Proof. destruct fuel; reflexivity. Qed.

Definition delete_loop_post (st : RBTree) (t0 : tree) (m' : memory)
  (res : option (nat * bool * nat)) : Prop :=
  match res with
  | None => exists t', Rep (with_mem st m') t' /\ rbtree t' /\ ids t' = ids t0
  | Some (p, dl, sx) =>
      exists s f k h,
        Rep (with_mem st m') (plug s (f :: k)) /\ del_inv s f k h /\
        p = fid f /\ dl = is_FL f /\ rootp (fsib f) = Some sx /\
        ~ propagates f /\ ids (plug s (f :: k)) = ids t0
  end.

Lemma read_sibling_link (st : RBTree) (s : tree) (f : frame) (k : context) :
  Rep st (plug s (f :: k)) ->
  (if is_FL f then _rbt_right (mem st (fid f)) else _rbt_left (mem st (fid f)))
  = rootp (fsib f).
Proof.
  intros HR. destruct (read_frame _ _ _ _ HR) as (_ & _ & Hl & Hr).
  destruct (is_FL f); assumption.
Qed.

(** Case 3: the subtree below the parent, with the sibling RED, is a good
    BLACK-rooted subtree, one BLACK node short in its turn. *)
Lemma propagate_subtree (s : tree) (f : frame) (k : context) (h : nat)
  cs sl sx sr :
  del_inv s f k h -> propagates f -> fsib f = T cs sl sx sr ->
  let s' := fill (set_fsib f (T RED sl sx sr)) s in
  balanced s' /\ no_red_red s' /\ bh s' = h + 1 /\ col s' = BLACK /\
  cvalid k (h + 1 + 1) BLACK /\ ids s' = ids (fill f s).
Proof.
  intros (Hb & Hn & Hh & Hc & Hcv) (Hfc & Hsc & Hnb) Hs.
  cbn [cvalid] in Hcv. destruct Hcv as (Hsb & Hsn & Hsh & _ & Hk).
  rewrite Hs in *. cbn [col nephews_black balanced no_red_red bh blk] in *.
  subst cs. rewrite Hfc in Hk. cbn [blk] in *.
  destruct f as [c x r|c l x]; cbn [fsib fcol set_fsib fill] in *; subst;
    cbn [balanced no_red_red bh blk col ids]; repeat split; auto; try tauto;
    try lia.
Qed.

Lemma delete_loop_spec (k : context) :
  forall s f fuel st h,
    length k <= fuel -> Rep st (plug s (f :: k)) -> del_inv s f k h ->
    exists m' res,
      fixup_after_delete_loop fuel (mem st) (fid f) (is_FL f) = Ok (m', res) /\
      delete_loop_post st (plug s (f :: k)) m' res.
Proof.
  induction k as [|g k IH]; intros s f fuel st h Hfuel HR Hinv;
    destruct (sibling_exists _ _ _ _ Hinv) as (cs & sl & sx & sr & Hs);
    rewrite delete_loop_eq, (read_sibling_link _ _ _ _ HR), Hs;
    cbn [rootp deref bind];
    rewrite (propagates_test _ _ _ _ _ _ _ _ HR Hs);
    destruct (color_eqb (fcol f) BLACK && color_eqb cs BLACK
              && color_eqb (col sl) BLACK && color_eqb (col sr) BLACK) eqn:Hp.
  - (* case 3 at the root *)
    apply (propagates_iff f _ _ _ _ Hs) in Hp.
    pose proof (recolor_sibling_spec _ _ _ _ RED _ _ _ _ Hs HR) as HR1.
    destruct (read_frame _ _ _ _ HR1) as (_ & Hpar & _).
    replace (fid (set_fsib f (T RED sl sx sr))) with (fid f) in Hpar
      by (destruct f; reflexivity).
    cbn [mem with_mem cpar] in Hpar. cbv zeta. rewrite Hpar.
    eexists _, None. split; [reflexivity|].
    destruct (propagate_subtree _ _ _ _ _ _ _ _ Hinv Hp Hs)
      as (Hb & Hn & Hh & Hc & _ & Hids).
    eexists. split; [exact HR1|]. split.
    + cbn [plug]. repeat split; assumption.
    + cbn [plug]. exact Hids.
  - (* stuck *)
    exists (mem st), (Some (fid f, is_FL f, sx)). split; [reflexivity|].
    exists s, f, [], h. rewrite Rep_with_mem.
    split; [exact HR|]. split; [exact Hinv|].
    split; [reflexivity|]. split; [reflexivity|].
    split; [rewrite Hs; reflexivity|]. split; [|reflexivity].
    intros Hpr. apply (propagates_iff f _ _ _ _ Hs) in Hpr. congruence.
  - (* case 3 below the root *)
    apply (propagates_iff f _ _ _ _ Hs) in Hp.
    pose proof (recolor_sibling_spec _ _ _ _ RED _ _ _ _ Hs HR) as HR1.
    destruct (read_frame _ _ _ _ HR1) as (_ & Hpar & _).
    replace (fid (set_fsib f (T RED sl sx sr))) with (fid f) in Hpar
      by (destruct f; reflexivity).
    cbn [mem with_mem cpar] in Hpar. cbv zeta. rewrite Hpar.
    destruct fuel as [|fuel]; [cbn [length] in Hfuel; lia|].
    destruct (propagate_subtree _ _ _ _ _ _ _ _ Hinv Hp Hs)
      as (Hb & Hn & Hh & Hc & Hcv & Hids).
    set (s' := fill (set_fsib f (T RED sl sx sr)) s) in *.
    assert (HR2 : Rep (with_mem st (set_color (mem st) sx RED)) (plug s' (g :: k)))
      by exact HR1.
    assert (Hroot : rootp s' = Some (fid f)) by (subst s'; destruct f; reflexivity).
    pose proof (is_left_child _ _ _ _ _ HR2 Hroot) as Hlc.
    cbn [mem with_mem] in Hlc. rewrite Hlc.
    destruct (IH s' g fuel _ (h + 1) ltac:(cbn [length] in Hfuel; lia) HR2)
      as (m' & res & Hloop & Hpost).
    { unfold del_inv. auto. }
    exists m', res. split; [exact Hloop|].
    assert (Hids' : ids (plug s' (g :: k)) = ids (plug s (f :: g :: k))).
    { cbn [plug]. apply ids_plug_congr. apply ids_plug_congr with (k := [g]).
      exact Hids. }
    destruct res as [((p & dl) & sx')|]; cbn [delete_loop_post] in *.
    + destruct Hpost as (s2 & f2 & k2 & h2 & H1 & H2 & H3 & H4 & H5 & H6 & H7).
      exists s2, f2, k2, h2.
      split; [exact H1|]. split; [exact H2|]. split; [exact H3|].
      split; [exact H4|]. split; [exact H5|]. split; [exact H6|].
      rewrite H7. exact Hids'.
    + destruct Hpost as (t' & H1 & H2 & H3). exists t'.
      split; [exact H1|]. split; [exact H2|]. rewrite H3. exact Hids'.
  - (* stuck *)
    exists (mem st), (Some (fid f, is_FL f, sx)). split; [reflexivity|].
    exists s, f, (g :: k), h. rewrite Rep_with_mem.
    split; [exact HR|]. split; [exact Hinv|].
    split; [reflexivity|]. split; [reflexivity|].
    split; [rewrite Hs; reflexivity|]. split; [|reflexivity].
    intros Hpr. apply (propagates_iff f _ _ _ _ Hs) in Hpr. congruence.
Qed.

End DeleteFixup.

Import RB RBMem RBSpec NoDupFacts Shape Rotate Inv Frames InsertFixup InsertLeaf
  DeleteFixup.

(** ** Cases 2, 4, 5 and 6 of the fix-up after a deletion *)

Module DeleteCases.

Lemma with_mem_twice (st : RBTree) (m m' : memory) :
  with_mem (with_mem st m) m' = with_mem st m'.
Proof. reflexivity. Qed.

Lemma rootp_node (t : tree) (x : nat) :
  rootp t = Some x -> exists c l r, t = T c l x r.
Proof.
  destruct t as [|c l y r]; [discriminate|].
  intros [= ->]. now exists c, l, r.
Qed.

Lemma black_node (t : tree) (n : nat) :
  bh t = S n -> col t = BLACK -> exists l x r, t = T BLACK l x r.
Proof.
  destruct t as [|c l x r]; [discriminate|].
  cbn [col]. intros _ ->. now exists l, x, r.
Qed.

(** Case 2: after the rotation the sibling is BLACK and the parent RED. *)
Lemma case2_spec (st : RBTree) (s : tree) (f : frame) (k : context) (h sx : nat) :
  Rep st (plug s (f :: k)) -> del_inv s f k h -> ~ propagates f ->
  rootp (fsib f) = Some sx ->
  exists st' f' k' sx',
    fixup_after_delete_case2 st (fid f) (is_FL f) sx = Ok (st', sx') /\
    Rep st' (plug s (f' :: k')) /\ del_inv s f' k' h /\
    fid f' = fid f /\ is_FL f' = is_FL f /\
    rootp (fsib f') = Some sx' /\ col (fsib f') = BLACK /\ ~ propagates f' /\
    ids (plug s (f' :: k')) = ids (plug s (f :: k)).
Proof.
  intros HR Hinv Hnp Hsx.
  destruct (rootp_node _ _ Hsx) as (cs & sl & sr & Hs).
  unfold fixup_after_delete_case2.
  rewrite (read_sibling _ _ _ _ _ _ _ _ Hs HR).
  destruct cs; cbn [color_eqb].
  - (* the sibling is RED *)
    destruct Hinv as (Hb & Hn & Hh & Hc & Hcv).
    cbn [cvalid] in Hcv. destruct Hcv as (Hsb & Hsn & Hsh & Hfc & Hk).
    rewrite Hs in Hsb, Hsn, Hsh, Hfc.
    cbn [balanced no_red_red bh blk col] in Hsb, Hsn, Hsh, Hfc.
    destruct Hsb as (Hbal & Hslb & Hsrb).
    destruct Hsn as (Hred & Hsln & Hsrn). destruct (Hred eq_refl) as (Hslc & Hsrc).
    assert (Hfcol : fcol f = BLACK).
    { destruct (fcol f); [|reflexivity]. destruct (Hfc eq_refl). discriminate. }
    rewrite Hfcol in Hk. cbn [blk] in Hk.
    destruct (black_node sl h ltac:(lia) Hslc) as (sll & slx & slr & ->).
    destruct (black_node sr h ltac:(lia) Hsrc) as (srl & srx & srr & ->).
    pose proof (recolor_sibling_spec _ _ _ _ BLACK _ _ _ _ Hs HR) as HR1.
    pose proof (recolor_frame_spec _ _ _ _ RED HR1) as HR2.
    rewrite with_mem_twice in HR2. cbn [mem with_mem] in HR2.
    replace (fid (set_fsib f (T BLACK (T BLACK sll slx slr) sx (T BLACK srl srx srr))))
      with (fid f) in HR2 by (destruct f; reflexivity).
    destruct f as [cp p sib|cp sib p]; cbn [fsib fid is_FL fcol] in *; subst sib;
      cbn [set_fsib recolor_frame plug fill] in HR2.
    + destruct (rotate_left_spec _ _ _ _ _ _ _ _ _ HR2) as (st' & Hrot & HR3).
      cbv zeta. rewrite Hrot. cbn [bind].
      destruct (read_node _ _ _ _ _ (FL BLACK sx (T BLACK srl srx srr) :: k) HR3)
        as (_ & Hr & _).
      rewrite Hr. cbn [rootp deref bind].
      exists st', (FL RED p (T BLACK sll slx slr)),
        (FL BLACK sx (T BLACK srl srx srr) :: k), slx.
      split; [reflexivity|]. split; [exact HR3|].
      split; [|split; [reflexivity|split; [reflexivity|split;
               [reflexivity|split; [reflexivity|split]]]]].
      * unfold del_inv. cbn [cvalid fsib fcol blk col bh balanced no_red_red] in *.
        repeat split; auto; try lia; try tauto; try discriminate.
        replace (h + 1 + 0 + 1) with (h + 1 + 1) by lia. exact Hk.
      * intros (Hx & _). discriminate.
      * ids_eq.
    + destruct (rotate_right_spec _ _ _ _ _ _ _ _ _ HR2) as (st' & Hrot & HR3).
      cbv zeta. rewrite Hrot. cbn [bind].
      destruct (read_node _ _ _ _ _ (FR BLACK (T BLACK sll slx slr) sx :: k) HR3)
        as (Hl & _).
      rewrite Hl. cbn [rootp deref bind].
      exists st', (FR RED (T BLACK srl srx srr) p),
        (FR BLACK (T BLACK sll slx slr) sx :: k), srx.
      split; [reflexivity|]. split; [exact HR3|].
      split; [|split; [reflexivity|split; [reflexivity|split;
               [reflexivity|split; [reflexivity|split]]]]].
      * unfold del_inv. cbn [cvalid fsib fcol blk col bh balanced no_red_red] in *.
        repeat split; auto; try lia; try tauto; try discriminate.
        replace (h + 1 + 0 + 1) with (h + 1 + 1) by lia. exact Hk.
      * intros (Hx & _). discriminate.
      * ids_eq.
  - (* the sibling is BLACK *)
    exists st, f, k, sx. split; [reflexivity|].
    split; [exact HR|]. split; [exact Hinv|].
    split; [reflexivity|]. split; [reflexivity|]. split; [exact Hsx|].
    split; [now rewrite Hs|]. split; [exact Hnp|reflexivity].
Qed.

(** Case 6 with the deficit on the left: the sibling [y] is BLACK and its
    right child [o] is RED. *)
Lemma case6_left (st : RBTree) cp s p a y b o d (k : context) :
  Rep st (plug (T cp s p (T BLACK a y (T RED b o d))) k) ->
  exists st',
    (t <- rotate_left st p ;;
     outer <- deref (_rbt_right (swap_colors_of (mem t) p y y)) ;;
     Ok (with_mem t (set_color (swap_colors_of (mem t) p y) outer BLACK)))
    = Ok st' /\
    Rep st' (plug (T cp (T BLACK s p a) y (T BLACK b o d)) k).
Proof.
  intros HR.
  destruct (rotate_left_spec _ _ _ _ _ _ _ _ _ HR) as (st1 & Hrot & HR1).
  rewrite Hrot. cbn [bind]. cbv zeta. unfold swap_colors_of.
  destruct (read_node _ _ _ _ _ _ HR1) as (_ & _ & _ & Hcy).
  destruct (read_node _ _ _ _ _ (FL BLACK y (T RED b o d) :: k) HR1)
    as (_ & _ & _ & Hcp).
  rewrite Hcy, Hcp.
  pose proof (recolor_spec _ _ BLACK _ _ _ (FL BLACK y (T RED b o d) :: k) HR1)
    as HR2.
  pose proof (recolor_spec _ _ cp _ _ _ k HR2) as HR3.
  rewrite with_mem_twice in HR3. cbn [mem with_mem] in HR3.
  destruct (read_node _ _ _ _ _ _ HR3) as (_ & Hr & _).
  cbn [mem with_mem] in Hr. rewrite Hr. cbn [rootp deref bind].
  pose proof (recolor_spec _ _ BLACK _ _ _ (FR cp (T BLACK s p a) y :: k) HR3)
    as HR4.
  rewrite with_mem_twice in HR4. cbn [mem with_mem] in HR4.
  eexists. split; [reflexivity|]. exact HR4.
Qed.

(** Case 6 with the deficit on the right: the sibling [y] is BLACK and its
    left child [o] is RED. *)
Lemma case6_right (st : RBTree) cp s p a y b o d (k : context) :
  Rep st (plug (T cp (T BLACK (T RED d o b) y a) p s) k) ->
  exists st',
    (t <- rotate_right st p ;;
     outer <- deref (_rbt_left (swap_colors_of (mem t) p y y)) ;;
     Ok (with_mem t (set_color (swap_colors_of (mem t) p y) outer BLACK)))
    = Ok st' /\
    Rep st' (plug (T cp (T BLACK d o b) y (T BLACK a p s)) k).
Proof.
  intros HR.
  destruct (rotate_right_spec _ _ _ _ _ _ _ _ _ HR) as (st1 & Hrot & HR1).
  rewrite Hrot. cbn [bind]. cbv zeta. unfold swap_colors_of.
  destruct (read_node _ _ _ _ _ _ HR1) as (_ & _ & _ & Hcy).
  destruct (read_node _ _ _ _ _ (FR BLACK (T RED d o b) y :: k) HR1)
    as (_ & _ & _ & Hcp).
  rewrite Hcy, Hcp.
  pose proof (recolor_spec _ _ BLACK _ _ _ (FR BLACK (T RED d o b) y :: k) HR1)
    as HR2.
  pose proof (recolor_spec _ _ cp _ _ _ k HR2) as HR3.
  rewrite with_mem_twice in HR3. cbn [mem with_mem] in HR3.
  destruct (read_node _ _ _ _ _ _ HR3) as (Hl & _).
  cbn [mem with_mem] in Hl. rewrite Hl. cbn [rootp deref bind].
  pose proof (recolor_spec _ _ BLACK _ _ _ (FL cp y (T BLACK a p s) :: k) HR3)
    as HR4.
  rewrite with_mem_twice in HR4. cbn [mem with_mem] in HR4.
  eexists. split; [reflexivity|]. exact HR4.
Qed.

(** Case 5 with the deficit on the left: the left child [x] of the BLACK
    sibling [y] is RED; it is rotated above [y]. *)
Lemma case5_left (st : RBTree) cp s p a x b y d (k : context) :
  Rep st (plug (T cp s p (T BLACK (T RED a x b) y d)) k) ->
  exists st',
    (t <- rotate_right st y ;;
     s' <- deref (_rbt_parent (set_color (mem t) y RED y)) ;;
     Ok (with_mem t (set_color (set_color (mem t) y RED) s' BLACK), s'))
    = Ok (st', x) /\
    Rep st' (plug (T cp s p (T BLACK a x (T RED b y d))) k).
Proof.
  intros HR.
  destruct (rotate_right_spec st RED a x BLACK b y d (FR cp s p :: k) HR)
    as (st1 & Hrot & HR1).
  rewrite Hrot. cbn [bind]. cbv zeta.
  pose proof (recolor_spec _ _ RED _ _ _ (FR RED a x :: FR cp s p :: k) HR1)
    as HR2.
  destruct (read_node _ _ _ _ _ _ HR2) as (_ & _ & Hp & _).
  cbn [mem with_mem cpar fid] in Hp. rewrite Hp. cbn [deref bind].
  pose proof (recolor_spec _ _ BLACK _ _ _ (FR cp s p :: k) HR2) as HR3.
  rewrite with_mem_twice in HR3. cbn [mem with_mem] in HR3.
  eexists. split; [reflexivity|]. exact HR3.
Qed.

Lemma case5_right (st : RBTree) cp s p a x b y d (k : context) :
  Rep st (plug (T cp (T BLACK d y (T RED b x a)) p s) k) ->
  exists st',
    (t <- rotate_left st y ;;
     s' <- deref (_rbt_parent (set_color (mem t) y RED y)) ;;
     Ok (with_mem t (set_color (set_color (mem t) y RED) s' BLACK), s'))
    = Ok (st', x) /\
    Rep st' (plug (T cp (T BLACK (T RED d y b) x a) p s) k).
Proof.
  intros HR.
  destruct (rotate_left_spec st BLACK d y RED b x a (FL cp p s :: k) HR)
    as (st1 & Hrot & HR1).
  rewrite Hrot. cbn [bind]. cbv zeta.
  pose proof (recolor_spec _ _ RED _ _ _ (FL RED x a :: FL cp p s :: k) HR1)
    as HR2.
  destruct (read_node _ _ _ _ _ _ HR2) as (_ & _ & Hp & _).
  cbn [mem with_mem cpar fid] in Hp. rewrite Hp. cbn [deref bind].
  pose proof (recolor_spec _ _ BLACK _ _ _ (FL cp p s :: k) HR2) as HR3.
  rewrite with_mem_twice in HR3. cbn [mem with_mem] in HR3.
  eexists. split; [reflexivity|]. exact HR3.
Qed.

Lemma nephew_tests (st : RBTree) (s : tree) (f : frame) (k : context)
  cs sl sx sr :
  Rep st (plug s (f :: k)) -> fsib f = T cs sl sx sr ->
  _rbt_color (mem st sx) = cs /\
  nephew_black (mem st) (_rbt_left (mem st sx)) = color_eqb (col sl) BLACK /\
  nephew_black (mem st) (_rbt_right (mem st sx)) = color_eqb (col sr) BLACK.
Proof.
  intros HR Hs.
  set (g := if is_FL f then FR (fcol f) s (fid f) else FL (fcol f) (fid f) s).
  assert (HS : Rep st (plug (T cs sl sx sr) (g :: k))).
  { subst g. destruct f; cbn [fsib] in Hs; subst; exact HR. }
  destruct (read_node _ _ _ _ _ _ HS) as (Hl & Hr & _ & Hc).
  rewrite Hl, Hr, Hc.
  rewrite (nephew_black_spec st sl (FL cs sx sr :: g :: k) HS).
  rewrite (nephew_black_spec st sr (FR cs sl sx :: g :: k) HS).
  repeat split.
Qed.

Lemma red_node (t : tree) : col t = RED -> exists l x r, t = T RED l x r.
Proof.
  destruct t as [|c l x r]; [discriminate|].
  cbn [col]. intros ->. now exists l, x, r.
Qed.

Ltac rb_goal :=
  cbn [balanced no_red_red bh blk col] in *;
  repeat match goal with
         | H : ?c = ?c -> _ |- _ => specialize (H eq_refl)
         | H : _ /\ _ |- _ => destruct H
         end;
  repeat split; auto; try lia; try discriminate; try congruence.

Lemma case456_spec (st : RBTree) (s : tree) (f : frame) (k : context) (h sx : nat) :
  Rep st (plug s (f :: k)) -> del_inv s f k h ->
  rootp (fsib f) = Some sx -> col (fsib f) = BLACK -> ~ propagates f ->
  exists st' t',
    fixup_after_delete_case456 st (fid f) (is_FL f) sx = Ok st' /\
    Rep st' t' /\ rbtree t' /\ ids t' = ids (plug s (f :: k)).
Proof.
  intros HR Hinv Hsx Hcol Hnp.
  destruct (rootp_node _ _ Hsx) as (cs & sl & sr & Hs).
  rewrite Hs in Hcol. cbn [col] in Hcol. subst cs.
  destruct (nephew_tests _ _ _ _ _ _ _ _ HR Hs) as (Tc & Tl & Tr).
  unfold fixup_after_delete_case456. cbv zeta. rewrite Tc, Tl, Tr.
  destruct Hinv as (Hb & Hn & Hh & Hc & Hcv).
  cbn [cvalid] in Hcv. destruct Hcv as (Hsb & Hsn & Hsh & _ & Hk).
  rewrite Hs in Hsb, Hsn, Hsh.
  cbn [color_eqb andb].
  destruct (col sl) eqn:Hcl; destruct (col sr) eqn:Hcr; cbn [color_eqb andb].
  - (* both nephews RED: case 6 *)
    destruct (red_node _ Hcl) as (a & x & b & ->).
    destruct (red_node _ Hcr) as (b' & o & d & ->).
    destruct f as [cp p sib|cp sib p]; cbn [fsib fid is_FL fcol] in *; subst sib;
      cbn [plug fill] in HR.
    + destruct (case6_left _ _ _ _ _ _ _ _ _ _ HR) as (st' & Hrun & HR').
      cbn [bind]. rewrite Hrun.
      eexists _, _. split; [reflexivity|]. split; [exact HR'|]. split.
      * apply (cvalid_plug k _ (h + 1 + blk cp) cp); [| | | |exact Hk]; rb_goal.
      * ids_eq.
    + destruct (case6_right _ _ _ _ _ _ _ _ _ _ HR) as (st' & Hrun & HR').
      cbn [bind]. rewrite Hrun.
      eexists _, _. split; [reflexivity|]. split; [exact HR'|]. split.
      * apply (cvalid_plug k _ (h + 1 + blk cp) cp); [| | | |exact Hk]; rb_goal.
      * ids_eq.
  - (* left nephew RED, right nephew BLACK *)
    destruct (red_node _ Hcl) as (a & x & b & ->).
    destruct f as [cp p sib|cp sib p]; cbn [fsib fid is_FL fcol] in *; subst sib;
      cbn [plug fill] in HR.
    + destruct (case5_left _ _ _ _ _ _ _ _ _ _ HR) as (st1 & Hrun1 & HR1).
      rewrite Hrun1. cbn [bind].
      destruct (case6_left _ _ _ _ _ _ _ _ _ _ HR1) as (st' & Hrun & HR').
      rewrite Hrun.
      eexists _, _. split; [reflexivity|]. split; [exact HR'|]. split.
      * apply (cvalid_plug k _ (h + 1 + blk cp) cp); [| | | |exact Hk]; rb_goal.
      * ids_eq.
    + cbn [bind].
      destruct (case6_right _ _ _ _ _ _ _ _ _ _ HR) as (st' & Hrun & HR').
      rewrite Hrun.
      eexists _, _. split; [reflexivity|]. split; [exact HR'|]. split.
      * apply (cvalid_plug k _ (h + 1 + blk cp) cp); [| | | |exact Hk]; rb_goal.
      * ids_eq.
  - (* left nephew BLACK, right nephew RED *)
    destruct (red_node _ Hcr) as (b & o & d & ->).
    destruct f as [cp p sib|cp sib p]; cbn [fsib fid is_FL fcol] in *; subst sib;
      cbn [plug fill] in HR.
    + cbn [bind].
      destruct (case6_left _ _ _ _ _ _ _ _ _ _ HR) as (st' & Hrun & HR').
      rewrite Hrun.
      eexists _, _. split; [reflexivity|]. split; [exact HR'|]. split.
      * apply (cvalid_plug k _ (h + 1 + blk cp) cp); [| | | |exact Hk]; rb_goal.
      * ids_eq.
    + destruct (case5_right _ _ _ _ _ _ _ _ _ _ HR) as (st1 & Hrun1 & HR1).
      rewrite Hrun1. cbn [bind].
      destruct (case6_right _ _ _ _ _ _ _ _ _ _ HR1) as (st' & Hrun & HR').
      rewrite Hrun.
      eexists _, _. split; [reflexivity|]. split; [exact HR'|]. split.
      * apply (cvalid_plug k _ (h + 1 + blk cp) cp); [| | | |exact Hk]; rb_goal.
      * ids_eq.
  - (* both nephews BLACK: case 4 *)
    assert (Hfc : fcol f = RED).
    { destruct (fcol f) eqn:Hfc; [reflexivity|]. exfalso. apply Hnp.
      unfold propagates. rewrite Hs. cbn [col nephews_black]. auto. }
    rewrite Hfc in Hk. cbn [blk] in Hk. apply cvalid_black in Hk.
    pose proof (recolor_frame_spec _ _ _ _ BLACK HR) as HR1.
    assert (Hs1 : fsib (recolor_frame f BLACK) = T BLACK sl sx sr)
      by (destruct f; exact Hs).
    pose proof (recolor_sibling_spec _ _ _ _ RED _ _ _ _ Hs1 HR1) as HR2.
    rewrite with_mem_twice in HR2. cbn [mem with_mem] in HR2.
    eexists _, _. split; [reflexivity|]. split; [exact HR2|]. split.
    + destruct f as [cp p sib|cp sib p]; cbn [fsib fid is_FL fcol] in *;
        subst sib; cbn [set_fsib recolor_frame plug fill];
        (apply (cvalid_plug k _ (h + 1 + 0) BLACK); [| | | |exact Hk]; rb_goal).
    + destruct f as [cp p sib|cp sib p]; cbn [fsib fid is_FL fcol] in *;
        subst sib; cbn [set_fsib recolor_frame]; ids_eq.
Qed.

Lemma fixup_after_delete_spec (fuel : nat) (st : RBTree) (s : tree) (f : frame)
  (k : context) (h : nat) :
  length k <= fuel -> Rep st (plug s (f :: k)) -> del_inv s f k h ->
  exists st' t',
    fixup_after_delete fuel st (fid f) (is_FL f) = Ok st' /\
    Rep st' t' /\ rbtree t' /\ ids t' = ids (plug s (f :: k)).
Proof.
  intros Hfuel HR Hinv. unfold fixup_after_delete.
  destruct (delete_loop_spec k s f fuel st h Hfuel HR Hinv)
    as (m' & res & Hloop & Hpost).
  rewrite Hloop. cbn [bind].
  destruct res as [((p & dl) & sx)|]; cbn [delete_loop_post] in Hpost.
  - destruct Hpost as (s1 & f1 & k1 & h1 & HR1 & Hinv1 & -> & -> & Hsx & Hnp & Hids).
    destruct (case2_spec _ _ _ _ _ _ HR1 Hinv1 Hnp Hsx)
      as (st2 & f2 & k2 & sx2 & Hrun2 & HR2 & Hinv2 & Hfid & Hfl & Hsx2 & Hcol2
          & Hnp2 & Hids2).
    rewrite Hrun2. cbn [bind].
    destruct (case456_spec _ _ _ _ _ _ HR2 Hinv2 Hsx2 Hcol2 Hnp2)
      as (st' & t' & Hrun & HR' & Hrb & Hids').
    rewrite Hfid, Hfl in Hrun. rewrite Hrun.
    exists st', t'. split; [reflexivity|]. split; [exact HR'|].
    split; [exact Hrb|]. congruence.
  - destruct Hpost as (t' & HR' & Hrb & Hids).
    exists (with_mem st m'), t'.
    split; [reflexivity|]. split; [exact HR'|]. split; [exact Hrb|exact Hids].
Qed.

End DeleteCases.

Import RB RBMem RBSpec NoDupFacts Shape Rotate Inv Frames InsertFixup InsertLeaf
  Ordering HintedInsert SwapNeighbors SwapUnrelated DeleteFixup DeleteCases.

(** ** The links of the equality chains

    The operations on the tree structure write the child links, the parent
    link and the color; the operations on the equality chains read and
    write [_rbt_next] and [_rbt_prev] only. *)

Module Links.

(** Two memories with the same chain links. *)
Definition links_eq (m m' : memory) : Prop :=
  forall z, _rbt_next (m z) = _rbt_next (m' z) /\
            _rbt_prev (m z) = _rbt_prev (m' z).

Lemma links_eq_refl (m : memory) : links_eq m m.
Proof. intros z. now split. Qed.

Lemma links_eq_sym (m m' : memory) : links_eq m m' -> links_eq m' m.
Proof. intros H z. destruct (H z). now split. Qed.

Lemma links_eq_trans (m1 m2 m3 : memory) :
  links_eq m1 m2 -> links_eq m2 m3 -> links_eq m1 m3.
Proof.
  intros H1 H2 z. destruct (H1 z), (H2 z). split; congruence.
Qed.

(** Closes [links_eq m' m] when [m'] is [m] after writes to the links of the
    tree structure. *)
Ltac links_frame :=
  let z := fresh "z" in
  intros z; cbn [mem with_mem root]; split; autorewrite with rbmem; reflexivity.

Lemma rotate_left_links (t t' : RBTree) (p : nat) :
  rotate_left t p = Ok t' -> links_eq (mem t') (mem t).
Proof.
  unfold rotate_left. destruct (_rbt_right (mem t p)) as [rc|]; [|discriminate].
  cbn [deref bind]. intros [= <-].
  repeat match goal with
         | |- context [match ?x with _ => _ end] => destruct x
         end; links_frame.
Qed.

Lemma rotate_right_links (t t' : RBTree) (p : nat) :
  rotate_right t p = Ok t' -> links_eq (mem t') (mem t).
Proof.
  unfold rotate_right. destruct (_rbt_left (mem t p)) as [lc|]; [|discriminate].
  cbn [deref bind]. intros [= <-].
  repeat match goal with
         | |- context [match ?x with _ => _ end] => destruct x
         end; links_frame.
Qed.

Lemma set_color_links (m : memory) (x : nat) (c : Color) :
  links_eq (set_color m x c) m.
Proof. links_frame. Qed.

(** Inversion of a successful [bind]. *)
Lemma bind_ok {A B : Type} (r : result A) (k : A -> result B) (b : B) :
  bind r k = Ok b -> exists a, r = Ok a /\ k a = Ok b.
Proof. destruct r as [a|e]; [|discriminate]. intros H. now exists a. Qed.

Lemma fixup_after_insert_loop_links :
  forall fuel m node m' res,
    fixup_after_insert_loop fuel m node = Ok (m', res) -> links_eq m' m.
Proof.
  induction fuel as [|fuel IH]; intros m node m' res H; cbn [fixup_after_insert_loop] in H;
    apply bind_ok in H; destruct H as (parent & _ & H);
    (destruct (_rbt_color (m parent)); [|injection H as <- _; apply links_eq_refl]);
    apply bind_ok in H; destruct H as (uncle & _ & H);
    (destruct uncle as [u|]; [|injection H as <- _; apply links_eq_refl]);
    (destruct (_rbt_color (m u)); [|injection H as <- _; apply links_eq_refl]);
    apply bind_ok in H; destruct H as (gp & _ & H);
    match type of H with
    | match ?x with _ => _ end = _ => destruct x
    end; try discriminate.
  - injection H as <- _. links_frame.
  - apply IH in H. eapply links_eq_trans; [exact H|]. links_frame.
  - injection H as <- _. links_frame.
Qed.

Lemma with_mem_links (t : RBTree) (m : memory) :
  links_eq (mem (with_mem t m)) m.
Proof. apply links_eq_refl. Qed.

Lemma fixup_after_insert_links (fuel : nat) (t t' : RBTree) (node : nat) :
  fixup_after_insert fuel t node = Ok t' -> links_eq (mem t') (mem t).
Proof.
  unfold fixup_after_insert. intros H.
  apply bind_ok in H. destruct H as ((m & res) & Hloop & H).
  apply fixup_after_insert_loop_links in Hloop.
  destruct res as [n|]; [|injection H as <-; exact Hloop].
  apply bind_ok in H. destruct H as (parent & _ & H).
  destruct (_rbt_color (m parent)); [|injection H as <-; exact Hloop].
  apply bind_ok in H. destruct H as (gp & _ & H).
  apply bind_ok in H. destruct H as (t1 & H1 & H). injection H as <-.
  eapply links_eq_trans; [apply set_color_links|].
  eapply links_eq_trans; [|exact Hloop].
  destruct (ptr_eqb (_rbt_left (m gp)) (Some parent)).
  - apply bind_ok in H1. destruct H1 as (t2 & H2 & H1).
    apply rotate_right_links in H1. eapply links_eq_trans; [exact H1|].
    destruct (ptr_eqb (_rbt_right (m parent)) (Some n)).
    + apply bind_ok in H2. destruct H2 as (t3 & H3 & H2). injection H2 as <-.
      apply rotate_left_links in H3.
      eapply links_eq_trans; [apply set_color_links|exact H3].
    + injection H2 as <-. apply set_color_links.
  - apply bind_ok in H1. destruct H1 as (t2 & H2 & H1).
    apply rotate_left_links in H1. eapply links_eq_trans; [exact H1|].
    destruct (ptr_eqb (_rbt_left (m parent)) (Some n)).
    + apply bind_ok in H2. destruct H2 as (t3 & H3 & H2). injection H2 as <-.
      apply rotate_right_links in H3.
      eapply links_eq_trans; [apply set_color_links|exact H3].
    + injection H2 as <-. apply set_color_links.
Qed.

Lemma fixup_after_delete_loop_links :
  forall fuel m parent dl m' res,
    fixup_after_delete_loop fuel m parent dl = Ok (m', res) -> links_eq m' m.
Proof.
  induction fuel as [|fuel IH]; intros m parent dl m' res H;
    cbn [fixup_after_delete_loop] in H;
    apply bind_ok in H; destruct H as (sibling & _ & H);
    match type of H with
    | (if ?b then _ else _) = _ => destruct b
    end; try (injection H as <- _; apply links_eq_refl);
    match type of H with
    | match ?x with _ => _ end = _ => destruct x
    end; try discriminate.
  - injection H as <- _. links_frame.
  - apply IH in H. eapply links_eq_trans; [exact H|]. links_frame.
  - injection H as <- _. links_frame.
Qed.

Lemma fixup_after_delete_case2_links (t t' : RBTree) (parent : nat) (dl : bool)
  (sibling s : nat) :
  fixup_after_delete_case2 t parent dl sibling = Ok (t', s) ->
  links_eq (mem t') (mem t).
Proof.
  unfold fixup_after_delete_case2.
  destruct (color_eqb (_rbt_color (mem t sibling)) RED);
    [|intros [= <- _]; apply links_eq_refl].
  destruct dl; intros H; apply bind_ok in H; destruct H as (t1 & H1 & H);
    apply bind_ok in H; destruct H as (s1 & _ & H); injection H as <- _;
    [apply rotate_left_links in H1|apply rotate_right_links in H1];
    (eapply links_eq_trans; [exact H1|]); links_frame.
Qed.

Lemma swap_colors_of_links (m : memory) (a b : nat) :
  links_eq (swap_colors_of m a b) m.
Proof. unfold swap_colors_of. links_frame. Qed.

Lemma fixup_after_delete_case456_links (t t' : RBTree) (parent : nat) (dl : bool)
  (sibling : nat) :
  fixup_after_delete_case456 t parent dl sibling = Ok t' ->
  links_eq (mem t') (mem t).
Proof.
  unfold fixup_after_delete_case456.
  match goal with
  | |- (if ?b then _ else _) = _ -> _ => destruct b
  end; [intros [= <-]; links_frame|].
  destruct dl; intros H; apply bind_ok in H; destruct H as ((t1 & s1) & H1 & H);
    apply bind_ok in H; destruct H as (t2 & H2 & H);
    apply bind_ok in H; destruct H as (outer & _ & H); injection H as <-;
    [apply rotate_left_links in H2|apply rotate_right_links in H2];
    (eapply links_eq_trans; [apply set_color_links|]);
    (eapply links_eq_trans; [apply swap_colors_of_links|]);
    (eapply links_eq_trans; [exact H2|]);
    match type of H1 with
    | (if ?b then _ else _) = _ => destruct b
    end; try (injection H1 as <- _; apply links_eq_refl);
    apply bind_ok in H1; destruct H1 as (t3 & H3 & H1);
    apply bind_ok in H1; destruct H1 as (s3 & _ & H1); injection H1 as <- _;
    [apply rotate_right_links in H3|apply rotate_left_links in H3];
    (eapply links_eq_trans; [|exact H3]); links_frame.
Qed.

Lemma fixup_after_delete_links (fuel : nat) (t t' : RBTree) (parent : nat)
  (dl : bool) :
  fixup_after_delete fuel t parent dl = Ok t' -> links_eq (mem t') (mem t).
Proof.
  unfold fixup_after_delete. intros H.
  apply bind_ok in H. destruct H as ((m & res) & Hloop & H).
  apply fixup_after_delete_loop_links in Hloop.
  destruct res as [[[p d] s]|]; [|injection H as <-; exact Hloop].
  apply bind_ok in H. destruct H as ((t1 & s1) & H1 & H).
  apply fixup_after_delete_case2_links in H1.
  apply fixup_after_delete_case456_links in H.
  eapply links_eq_trans; [exact H|]. eapply links_eq_trans; [exact H1|exact Hloop].
Qed.

Lemma swap_neighbors_links (t : RBTree) (p c : nat) :
  links_eq (mem (swap_neighbors t p c)) (mem t).
Proof.
  unfold swap_neighbors. cbv zeta.
  repeat match goal with
         | |- context [match ?x with _ => _ end] => destruct x
         end; links_frame.
Qed.

Lemma swap_unrelated_nodes_links (t : RBTree) (n1 n2 : nat) :
  links_eq (mem (swap_unrelated_nodes t n1 n2)) (mem t).
Proof.
  unfold swap_unrelated_nodes. cbv zeta.
  repeat match goal with
         | |- context [match ?x with _ => _ end] => destruct x
         end; links_frame.
Qed.

End Links.

Import RB RBMem RBSpec NoDupFacts Shape Rotate Inv Frames InsertFixup InsertLeaf
  Ordering HintedInsert SwapNeighbors SwapUnrelated DeleteFixup DeleteCases Links.

(** ** The equality chains *)

Module Chains.

Section Chain.

Variable K : Type.
Variable cmp : K -> K -> bool.
Variable key : nat -> K.

(** The keys [a] and [b] are equivalent: neither is below the other. *)
Definition equivalent (a b : K) : Prop :=
  cmp a b = false /\ cmp b a = false.

(** The chains among the nodes [l]: [_rbt_next] and [_rbt_prev] are inverse
    to each other, lead from nodes of [l] to nodes of [l] with an equivalent
    key, and [_rbt_next] leads down the rank [rk], so that no chain runs in
    a circle. *)
Definition chain_inv (m : memory) (l : list nat) (rk : nat -> nat) : Prop :=
  forall n, In n l ->
    (forall x, _rbt_next (m n) = Some x ->
       In x l /\ _rbt_prev (m x) = Some n /\
       equivalent (key n) (key x) /\ rk x < rk n) /\
    (forall x, _rbt_prev (m n) = Some x ->
       In x l /\ _rbt_next (m x) = Some n).

Lemma chain_inv_frame (m m' : memory) (l l' : list nat) (rk : nat -> nat) :
  chain_inv m l rk -> links_eq m' m -> (forall z, In z l' <-> In z l) ->
  chain_inv m' l' rk.
Proof.
  intros H Hl Hin n Hn. apply Hin in Hn. destruct (H n Hn) as (H1 & H2).
  destruct (Hl n) as (En & Ep). rewrite En, Ep. split.
  - intros x Hx. destruct (H1 x Hx) as (Hi & Hp & He & Hr).
    destruct (Hl x) as (_ & Epx). rewrite Epx. rewrite Hin. auto.
  - intros x Hx. destruct (H2 x Hx) as (Hi & Hnx).
    destruct (Hl x) as (Enx & _). rewrite Enx. rewrite Hin. auto.
Qed.

(** A node of the chains has itself neither as successor nor as
    predecessor. *)
Lemma chain_next_neq (m : memory) (l : list nat) (rk : nat -> nat) (n x : nat) :
  chain_inv m l rk -> In n l -> _rbt_next (m n) = Some x -> x <> n.
Proof.
  intros H Hn Hx ->. destruct (H n Hn) as (H1 & _).
  destruct (H1 n Hx) as (_ & _ & _ & Hr). lia.
Qed.

Lemma chain_prev_neq (m : memory) (l : list nat) (rk : nat -> nat) (n x : nat) :
  chain_inv m l rk -> In n l -> _rbt_prev (m n) = Some x -> x <> n.
Proof.
  intros H Hn Hx ->. destruct (H n Hn) as (_ & H2).
  destruct (H2 n Hx) as (_ & Hnx).
  exact (chain_next_neq m l rk n n H Hn Hnx eq_refl).
Qed.

(** *** A node that enters without neighbours *)

Lemma chain_insert_alone (m : memory) (l : list nat) (rk : nat -> nat) (node : nat) :
  chain_inv m l rk -> ~ In node l ->
  chain_inv (equality_list_insert_after true m node None) (node :: l) rk.
Proof.
  intros H Hnode n Hn. unfold equality_list_insert_after.
  autorewrite with rbmem.
  destruct (Nat.eqb_spec n node) as [->|Hne].
  - split; intros x Hx; discriminate.
  - destruct Hn as [Hn|Hn]; [congruence|].
    destruct (H n Hn) as (H1 & H2). split.
    + intros x Hx. destruct (H1 x Hx) as (Hi & Hp & He & Hr).
      autorewrite with rbmem.
      destruct (Nat.eqb_spec x node) as [->|_]; [contradiction|].
      split; [now right|]. auto.
    + intros x Hx. destruct (H2 x Hx) as (Hi & Hnx).
      autorewrite with rbmem.
      destruct (Nat.eqb_spec x node) as [->|_]; [contradiction|].
      split; [now right|]. auto.
Qed.

Hypothesis cmp_swo : strict_weak_order cmp.

Lemma equivalent_sym (a b : K) : equivalent a b -> equivalent b a.
Proof. intros (H1 & H2). now split. Qed.

Lemma equivalent_trans (a b c : K) :
  equivalent a b -> equivalent b c -> equivalent a c.
Proof.
  destruct cmp_swo as (_ & _ & Hneg).
  intros (H1 & H2) (H3 & H4). split.
  - destruct (cmp a c) eqn:H; [|reflexivity].
    destruct (Hneg a b c H); congruence.
  - destruct (cmp c a) eqn:H; [|reflexivity].
    destruct (Hneg c b a H); congruence.
Qed.

Lemma equivalent_refl (a : K) : equivalent a a.
Proof. split; apply (proj1 cmp_swo). Qed.

(** Decides the tests [Nat.eqb a b] of the goal. *)
Ltac eqb_split :=
  repeat match goal with
         | |- context [Nat.eqb ?a ?b] =>
             destruct (Nat.eqb_spec a b); [subst|]
         end.

(** What the invariant [H] says about the link [Hx] that leaves the node of
    [Hn]. *)
Ltac chain_at H Hn Hx :=
  lazymatch type of Hx with
  | _rbt_next (_ ?n) = Some ?x =>
      let H1 := fresh "H" in
      destruct (H n Hn) as (H1 & _);
      destruct (H1 x Hx) as (? & ? & ? & ?); clear H1
  | _rbt_prev (_ ?n) = Some ?x =>
      let H2 := fresh "H" in
      destruct (H n Hn) as (_ & H2);
      destruct (H2 x Hx) as (? & ?); clear H2
  end.

Ltac chain_fin :=
  repeat match goal with
         | |- _ /\ _ => split
         end;
  first [ congruence
        | lia
        | solve [cbn [In]; auto]
        | solve [eauto using equivalent_sym, equivalent_trans]
        | exfalso; congruence
        | idtac ].

(** *** A node that enters behind an equivalent node *)

Lemma chain_insert_before (m : memory) (l : list nat) (rk : nat -> nat)
  (node p : nat) :
  chain_inv m l rk -> ~ In node l -> In p l ->
  equivalent (key node) (key p) ->
  exists rk',
    chain_inv (equality_list_insert_before true m node (Some p)) (node :: l) rk'.
Proof.
  intros H Hnode Hp Heq.
  exists (fun z => if Nat.eqb z node then 2 * rk p + 1 else 2 * rk z + 2).
  assert (Hpn : p <> node) by (intros ->; contradiction).
  unfold equality_list_insert_before. cbv zeta.
  destruct (H p Hp) as (Hp1 & Hp2).
  replace (_rbt_next (set_prev (set_next m node (_rbt_next (m p))) node (Some p) p))
    with (_rbt_next (m p))
    by (autorewrite with rbmem; apply Nat.eqb_neq in Hpn; now rewrite Hpn).
  destruct (_rbt_next (m p)) as [ox|] eqn:Hox; cbn [set_prev_if].
  - (* the node enters between [p] and [ox] *)
    destruct (Hp1 ox eq_refl) as (Hoxl & Hoxp & Hoxe & Hoxr).
    assert (Hoxn : ox <> node) by (intros ->; contradiction).
    assert (Hoxp' : ox <> p) by (intros ->; lia).
    intros n Hn.
    split; intros x; autorewrite with rbmem; eqb_split; intros Hx;
      try discriminate; try (injection Hx as <-);
      try (destruct Hn as [Hn|Hn]; [congruence|]; chain_at H Hn Hx);
      chain_fin.
  - (* [p] is the last node of its chain *)
    intros n Hn.
    split; intros x; autorewrite with rbmem; eqb_split; intros Hx;
      try discriminate; try (injection Hx as <-);
      try (destruct Hn as [Hn|Hn]; [congruence|]; chain_at H Hn Hx);
      chain_fin.
Qed.

(** *** A node that enters in front of an equivalent node *)

Lemma chain_insert_after (m : memory) (l : list nat) (rk : nat -> nat)
  (node s : nat) :
  chain_inv m l rk -> ~ In node l -> In s l ->
  equivalent (key node) (key s) ->
  exists rk',
    chain_inv (equality_list_insert_after true m node (Some s)) (node :: l) rk'.
Proof.
  intros H Hnode Hs Heq.
  exists (fun z => if Nat.eqb z node then 2 * rk s + 3 else 2 * rk z + 2).
  assert (Hsn : s <> node) by (intros ->; contradiction).
  unfold equality_list_insert_after. cbv zeta.
  destruct (H s Hs) as (Hs1 & Hs2).
  replace (_rbt_prev (set_next (set_prev m node (_rbt_prev (m s))) node (Some s) s))
    with (_rbt_prev (m s))
    by (autorewrite with rbmem; apply Nat.eqb_neq in Hsn; now rewrite Hsn).
  destruct (_rbt_prev (m s)) as [pv|] eqn:Hpv; cbn [set_next_if].
  - (* the node enters between [pv] and [s] *)
    destruct (Hs2 pv eq_refl) as (Hpvl & Hpvn).
    destruct (H pv Hpvl) as (Hpv1 & _).
    destruct (Hpv1 s Hpvn) as (_ & _ & Hpve & Hpvr). clear Hpv1.
    assert (Hpvne : pv <> node) by (intros ->; contradiction).
    assert (Hpvs : pv <> s) by (intros ->; lia).
    intros n Hn.
    split; intros x; autorewrite with rbmem; eqb_split; intros Hx;
      try discriminate; try (injection Hx as <-);
      try (destruct Hn as [Hn|Hn]; [congruence|]; chain_at H Hn Hx);
      chain_fin.
  - (* [s] is the first node of its chain *)
    intros n Hn.
    split; intros x; autorewrite with rbmem; eqb_split; intros Hx;
      try discriminate; try (injection Hx as <-);
      try (destruct Hn as [Hn|Hn]; [congruence|]; chain_at H Hn Hx);
      chain_fin.
Qed.

(** *** A node that leaves *)

Lemma chain_delete (m : memory) (l l' : list nat) (rk : nat -> nat) (node : nat) :
  chain_inv m l rk -> In node l ->
  (forall z, In z l' <-> In z l /\ z <> node) ->
  chain_inv (equality_list_delete_node true m node) l' rk.
Proof.
  intros H Hnode Hl'.
  unfold equality_list_delete_node. cbv zeta.
  destruct (H node Hnode) as (Hn1 & Hn2).
  assert (Hpn : _rbt_prev (set_prev_if m (_rbt_next (m node)) (_rbt_prev (m node)) node)
                = _rbt_prev (m node)).
  { destruct (_rbt_next (m node)) as [ox|] eqn:Hox; cbn [set_prev_if]; [|reflexivity].
    autorewrite with rbmem.
    destruct (Nat.eqb_spec node ox) as [<-|]; [|reflexivity].
    destruct (Hn1 node eq_refl) as (_ & _ & _ & Hr). lia. }
  assert (Hnn : _rbt_next (set_prev_if m (_rbt_next (m node)) (_rbt_prev (m node)) node)
                = _rbt_next (m node)).
  { destruct (_rbt_next (m node)) as [ox|] eqn:Hox; cbn [set_prev_if]; [|exact Hox].
    autorewrite with rbmem. exact Hox. }
  rewrite Hpn, Hnn. clear Hpn Hnn.
  destruct (_rbt_next (m node)) as [ox|] eqn:Hox;
    destruct (_rbt_prev (m node)) as [pv|] eqn:Hpv;
    cbn [set_prev_if set_next_if];
    try (destruct (Hn1 ox eq_refl) as (Hoxl & Hoxp & Hoxe & Hoxr));
    try (destruct (Hn2 pv eq_refl) as (Hpvl & Hpvn);
         destruct (H pv Hpvl) as (Hpv1 & _);
         destruct (Hpv1 node Hpvn) as (_ & _ & Hpve & Hpvr); clear Hpv1);
    intros n Hn; apply Hl' in Hn; destruct Hn as (Hn & Hne);
    (split; intros x; autorewrite with rbmem; eqb_split; intros Hx;
     try discriminate; try (injection Hx as <-);
     try chain_at H Hn Hx;
     rewrite ?Hl'; chain_fin).
Qed.

(** *** Two nodes that exchange their places *)

(** Rewrites the tests [Nat.eqb a b] whose outcome the context knows. *)
Ltac eqb_known :=
  repeat match goal with
         | |- context [Nat.eqb ?a ?a] => rewrite (Nat.eqb_refl a)
         | Hne : ?a <> ?b |- context [Nat.eqb ?a ?b] =>
             rewrite (proj2 (Nat.eqb_neq a b) Hne)
         | Hne : ?a <> ?b |- context [Nat.eqb ?b ?a] =>
             rewrite (proj2 (Nat.eqb_neq b a) (not_eq_sym Hne))
         end.

Ltac simp_links :=
  repeat first [ progress autorewrite with rbmem
               | progress eqb_known
               | progress cbn [set_prev_if set_next_if]
               | match goal with
                 | E : _rbt_next (?m ?a) = _ |- context [_rbt_next (?m ?a)] =>
                     rewrite E
                 | E : _rbt_prev (?m ?a) = _ |- context [_rbt_prev (?m ?a)] =>
                     rewrite E
                 end ].

Definition exchange (n1 n2 z : nat) : nat :=
  if Nat.eqb z n1 then n2 else if Nat.eqb z n2 then n1 else z.

Lemma chain_swap (m : memory) (l : list nat) (rk : nat -> nat) (n1 n2 : nat) :
  chain_inv m l rk -> In n1 l -> In n2 l -> n1 <> n2 ->
  exists rk',
    chain_inv (equality_list_swap_if_necessary cmp key true m n1 n2) l rk'.
Proof.
  intros H H1 H2 Hne.
  unfold equality_list_swap_if_necessary. cbv zeta.
  destruct (cmp (key n1) (key n2) || cmp (key n2) (key n1)) eqn:Hc;
    [exists rk; exact H|].
  apply orb_false_elim in Hc.
  assert (He : equivalent (key n1) (key n2)) by exact Hc. clear Hc.
  exists (fun z => rk (exchange n1 n2 z)). unfold exchange.
  destruct (H n1 H1) as (Hx1 & Hp1). destruct (H n2 H2) as (Hx2 & Hp2).
  destruct (ptr_eqb_spec (_rbt_next (m n1)) (Some n2)) as [E1|E1].
  { (* [n1] stands before [n2] *)
    destruct (Hx1 n2 E1) as (_ & E1' & _ & Hr12).
    rewrite E1 in *. clear Hx1 Hp2.
    destruct (_rbt_next (m n2)) as [x2|] eqn:Ex2;
      destruct (_rbt_prev (m n1)) as [p1|] eqn:Ep1;
      try (destruct (Hx2 x2 eq_refl) as (Hx2l & Hx2p & Hx2e & Hx2r);
           assert (x2 <> n2) by (intros ->; lia);
           assert (x2 <> n1) by (intros ->; lia));
      try (destruct (Hp1 p1 eq_refl) as (Hp1l & Hp1n);
           destruct (H p1 Hp1l) as (Hp1' & _);
           destruct (Hp1' n1 Hp1n) as (_ & _ & Hp1e & Hp1r); clear Hp1';
           assert (p1 <> n1) by (intros ->; lia);
           assert (p1 <> n2) by (intros ->; lia));
      simp_links;
      intros n Hn;
      (split; intros x; simp_links; eqb_split; intros Hx;
       try discriminate; try (injection Hx as <-);
       try chain_at H Hn Hx; eqb_split; chain_fin). }
  destruct (ptr_eqb_spec (_rbt_next (m n2)) (Some n1)) as [E2|E2].
  { (* [n2] stands before [n1] *)
    destruct (Hx2 n1 E2) as (_ & E2' & _ & Hr21).
    rewrite E2 in *. clear Hx2 Hp1.
    destruct (_rbt_next (m n1)) as [x1|] eqn:Ex1;
      destruct (_rbt_prev (m n2)) as [p2|] eqn:Ep2;
      try (destruct (Hx1 x1 eq_refl) as (Hx1l & Hx1p & Hx1e & Hx1r);
           assert (x1 <> n1) by (intros ->; lia);
           assert (x1 <> n2) by (intros ->; lia));
      try (destruct (Hp2 p2 eq_refl) as (Hp2l & Hp2n);
           destruct (H p2 Hp2l) as (Hp2' & _);
           destruct (Hp2' n2 Hp2n) as (_ & _ & Hp2e & Hp2r); clear Hp2';
           assert (p2 <> n2) by (intros ->; lia);
           assert (p2 <> n1) by (intros ->; lia));
      simp_links;
      intros n Hn;
      (split; intros x; simp_links; eqb_split; intros Hx;
       try discriminate; try (injection Hx as <-);
       try chain_at H Hn Hx; eqb_split; chain_fin). }
  (* the two nodes are no neighbours *)
  destruct (_rbt_next (m n1)) as [x1|] eqn:Ex1;
    destruct (_rbt_prev (m n1)) as [p1|] eqn:Ep1;
    destruct (_rbt_next (m n2)) as [x2|] eqn:Ex2;
    destruct (_rbt_prev (m n2)) as [p2|] eqn:Ep2;
    try (destruct (Hx1 x1 eq_refl) as (Hx1l & Hx1p & Hx1e & Hx1r);
         assert (x1 <> n1) by (intros ->; lia);
         assert (x1 <> n2) by congruence);
    try (destruct (Hx2 x2 eq_refl) as (Hx2l & Hx2p & Hx2e & Hx2r);
         assert (x2 <> n2) by (intros ->; lia);
         assert (x2 <> n1) by congruence);
    try (destruct (Hp1 p1 eq_refl) as (Hp1l & Hp1n);
         destruct (H p1 Hp1l) as (Hp1' & _);
         destruct (Hp1' n1 Hp1n) as (_ & _ & Hp1e & Hp1r); clear Hp1';
         assert (p1 <> n1) by (intros ->; lia);
         assert (p1 <> n2) by congruence);
    try (destruct (Hp2 p2 eq_refl) as (Hp2l & Hp2n);
         destruct (H p2 Hp2l) as (Hp2' & _);
         destruct (Hp2' n2 Hp2n) as (_ & _ & Hp2e & Hp2r); clear Hp2';
         assert (p2 <> n2) by (intros ->; lia);
         assert (p2 <> n1) by congruence);
    clear Hx1 Hx2 Hp1 Hp2;
    simp_links;
    intros n Hn;
    (split; intros x; simp_links; eqb_split; intros Hx;
     try discriminate; try (injection Hx as <-);
     try chain_at H Hn Hx; eqb_split; chain_fin).
Qed.

(** *** Walking along a chain *)

Lemma filter_length_lt (f g : nat -> bool) (l : list nat) (p : nat) :
  (forall z, f z = true -> g z = true) ->
  In p l -> g p = true -> f p = false ->
  length (filter f l) < length (filter g l).
Proof.
  intros Hfg Hp Hgp Hfp.
  assert (Hle : forall l', length (filter f l') <= length (filter g l')).
  { induction l' as [|a l' IH]; cbn [filter]; [lia|].
    destruct (f a) eqn:Hfa.
    - rewrite (Hfg a Hfa). cbn [length]. lia.
    - destruct (g a); cbn [length]; lia. }
  induction l as [|a l IH]; [contradiction|]. cbn [filter].
  destruct Hp as [->|Hp].
  - rewrite Hgp, Hfp. cbn [length]. specialize (Hle l). lia.
  - specialize (IH Hp). destruct (f a) eqn:Hfa.
    + rewrite (Hfg a Hfa). cbn [length]. lia.
    + destruct (g a); cbn [length]; lia.
Qed.

Lemma filter_length_le (f : nat -> bool) (l : list nat) :
  length (filter f l) <= length l.
Proof.
  induction l as [|a l IH]; cbn [filter]; [lia|].
  destruct (f a); cbn [length]; lia.
Qed.

(** The nodes of [l] above and below the rank of [c]. *)
Definition above (rk : nat -> nat) (l : list nat) (c : nat) : nat :=
  length (filter (fun z => Nat.ltb (rk c) (rk z)) l).

Definition below (rk : nat -> nat) (l : list nat) (c : nat) : nat :=
  length (filter (fun z => Nat.ltb (rk z) (rk c)) l).

Lemma above_lt (rk : nat -> nat) (l : list nat) (c p : nat) :
  In p l -> rk c < rk p -> above rk l p < above rk l c.
Proof.
  intros Hp Hr. unfold above. apply filter_length_lt with (p := p).
  - intros z Hz. apply Nat.ltb_lt in Hz. apply Nat.ltb_lt. lia.
  - exact Hp.
  - apply Nat.ltb_lt. exact Hr.
  - apply Nat.ltb_irrefl.
Qed.

Lemma below_lt (rk : nat -> nat) (l : list nat) (c x : nat) :
  In x l -> rk x < rk c -> below rk l x < below rk l c.
Proof.
  intros Hx Hr. unfold below. apply filter_length_lt with (p := x).
  - intros z Hz. apply Nat.ltb_lt in Hz. apply Nat.ltb_lt. lia.
  - exact Hx.
  - apply Nat.ltb_lt. exact Hr.
  - apply Nat.ltb_irrefl.
Qed.

Lemma prev_rank (m : memory) (l : list nat) (rk : nat -> nat) (c p : nat) :
  chain_inv m l rk -> In c l -> _rbt_prev (m c) = Some p ->
  In p l /\ _rbt_next (m p) = Some c /\ equivalent (key c) (key p) /\ rk c < rk p.
Proof.
  intros H Hc Hp. destruct (H c Hc) as (_ & H2).
  destruct (H2 p Hp) as (Hpl & Hn). destruct (H p Hpl) as (H1 & _).
  destruct (H1 c Hn) as (_ & _ & He & Hr).
  split; [exact Hpl|]. split; [exact Hn|]. split; [now apply equivalent_sym|exact Hr].
Qed.

(** The walk of [equality_list_find_first] ends at the head of the chain. *)
Lemma find_first_loop_spec (m : memory) (l : list nat) (rk : nat -> nat) :
  chain_inv m l rk ->
  forall fuel c,
    In c l -> above rk l c <= fuel ->
    exists h,
      equality_list_find_first_loop fuel m c = Ok h /\
      In h l /\ _rbt_prev (m h) = None /\ equivalent (key c) (key h).
Proof.
  intros H. induction fuel as [|fuel IH]; intros c Hc Hfuel.
  - cbn [equality_list_find_first_loop].
    destruct (_rbt_prev (m c)) as [p|] eqn:Hp.
    + destruct (prev_rank m l rk c p H Hc Hp) as (Hpl & _ & _ & Hr).
      pose proof (above_lt rk l c p Hpl Hr). lia.
    + exists c. repeat split; auto; apply (proj1 cmp_swo).
  - cbn [equality_list_find_first_loop].
    destruct (_rbt_prev (m c)) as [p|] eqn:Hp.
    + destruct (prev_rank m l rk c p H Hc Hp) as (Hpl & _ & He & Hr).
      pose proof (above_lt rk l c p Hpl Hr).
      destruct (IH p Hpl ltac:(lia)) as (h & Hh & Hhl & Hhp & Hhe).
      exists h. split; [exact Hh|]. split; [exact Hhl|]. split; [exact Hhp|].
      exact (equivalent_trans _ _ _ He Hhe).
    + exists c. repeat split; auto; apply (proj1 cmp_swo).
Qed.

Lemma verify_prev_spec (m : memory) (l : list nat) (rk : nat -> nat) (node : nat) :
  chain_inv m l rk ->
  forall fuel cur,
    In cur l -> rk node <= rk cur -> above rk l cur <= fuel ->
    equality_list_verify_prev fuel m node cur = Ok true.
Proof.
  intros H. induction fuel as [|fuel IH]; intros cur Hc Hrk Hfuel;
    cbn [equality_list_verify_prev];
    (destruct (_rbt_prev (m cur)) as [p|] eqn:Hp; [|reflexivity]);
    destruct (prev_rank m l rk cur p H Hc Hp) as (Hpl & Hn & _ & Hr);
    pose proof (above_lt rk l cur p Hpl Hr);
    rewrite Hn, ptr_eqb_refl; cbn [negb];
    (destruct (Nat.eqb_spec p node) as [->|_]; [lia|]).
  - lia.
  - apply IH; [exact Hpl|lia|lia].
Qed.

Lemma verify_next_spec (m : memory) (l : list nat) (rk : nat -> nat) (node : nat) :
  chain_inv m l rk ->
  forall fuel cur,
    In cur l -> rk cur <= rk node -> below rk l cur <= fuel ->
    equality_list_verify_next fuel m node cur = Ok true.
Proof.
  intros H. induction fuel as [|fuel IH]; intros cur Hc Hrk Hfuel;
    cbn [equality_list_verify_next];
    (destruct (_rbt_next (m cur)) as [x|] eqn:Hx; [|reflexivity]);
    destruct (H cur Hc) as (H1 & _);
    destruct (H1 x Hx) as (Hxl & Hpx & _ & Hr);
    pose proof (below_lt rk l cur x Hxl Hr);
    rewrite Hpx, ptr_eqb_refl; cbn [negb];
    (destruct (Nat.eqb_spec x node) as [->|_]; [lia|]).
  - lia.
  - apply IH; [exact Hxl|lia|lia].
Qed.

End Chain.

Arguments equivalent {K} cmp a b.
Arguments chain_inv {K} cmp key m l rk.

(** The chains are in order when the tree keeps them at all. *)
Definition chains_ok {K : Type} (cmp : K -> K -> bool) (key : nat -> K)
  (multiple : bool) (m : memory) (l : list nat) : Prop :=
  multiple = true -> exists rk, chain_inv cmp key m l rk.

Lemma chains_ok_frame {K : Type} (cmp : K -> K -> bool) (key : nat -> K)
  (multiple : bool) (m m' : memory) (l l' : list nat) :
  chains_ok cmp key multiple m l -> links_eq m' m ->
  (forall z, In z l' <-> In z l) ->
  chains_ok cmp key multiple m' l'.
Proof.
  intros H Hl Hin Hm. destruct (H Hm) as (rk & Hrk).
  exists rk. exact (chain_inv_frame K cmp key m m' l l' rk Hrk Hl Hin).
Qed.

Section Steps.

Variable K : Type.
Variable cmp : K -> K -> bool.
Variable key : nat -> K.
Variable multiple : bool.

Hypothesis cmp_swo : strict_weak_order cmp.

Lemma chains_ok_nil (m : memory) : chains_ok cmp key multiple m [].
Proof. intros _. exists (fun _ => 0). intros n []. Qed.

Lemma chains_insert_alone (m : memory) (l l' : list nat) (node : nat) :
  chains_ok cmp key multiple m l -> ~ In node l ->
  (forall z, In z l' <-> z = node \/ In z l) ->
  chains_ok cmp key multiple (equality_list_insert_after multiple m node None) l'.
Proof.
  intros H Hnode Hl' Hm. destruct (H Hm) as (rk & Hrk). subst multiple.
  exists rk. apply chain_inv_frame with (m := equality_list_insert_after true m node None)
    (l := node :: l).
  - now apply chain_insert_alone.
  - apply links_eq_refl.
  - intros z. rewrite Hl'. cbn [In]. split; intros [?|?]; auto.
Qed.

Lemma chains_insert_before (m : memory) (l l' : list nat) (node p : nat) :
  chains_ok cmp key multiple m l -> ~ In node l -> In p l ->
  equivalent cmp (key node) (key p) ->
  (forall z, In z l' <-> z = node \/ In z l) ->
  chains_ok cmp key multiple (equality_list_insert_before multiple m node (Some p)) l'.
Proof.
  intros H Hnode Hp He Hl' Hm. destruct (H Hm) as (rk & Hrk). subst multiple.
  destruct (chain_insert_before K cmp key cmp_swo m l rk node p Hrk Hnode Hp He)
    as (rk' & Hrk').
  exists rk'. apply chain_inv_frame with
    (m := equality_list_insert_before true m node (Some p)) (l := node :: l).
  - exact Hrk'.
  - apply links_eq_refl.
  - intros z. rewrite Hl'. cbn [In]. split; intros [?|?]; auto.
Qed.

Lemma chains_insert_after (m : memory) (l l' : list nat) (node s : nat) :
  chains_ok cmp key multiple m l -> ~ In node l -> In s l ->
  equivalent cmp (key node) (key s) ->
  (forall z, In z l' <-> z = node \/ In z l) ->
  chains_ok cmp key multiple (equality_list_insert_after multiple m node (Some s)) l'.
Proof.
  intros H Hnode Hs He Hl' Hm. destruct (H Hm) as (rk & Hrk). subst multiple.
  destruct (chain_insert_after K cmp key cmp_swo m l rk node s Hrk Hnode Hs He)
    as (rk' & Hrk').
  exists rk'. apply chain_inv_frame with
    (m := equality_list_insert_after true m node (Some s)) (l := node :: l).
  - exact Hrk'.
  - apply links_eq_refl.
  - intros z. rewrite Hl'. cbn [In]. split; intros [?|?]; auto.
Qed.

Lemma chains_delete (m : memory) (l l' : list nat) (node : nat) :
  chains_ok cmp key multiple m l -> In node l ->
  (forall z, In z l' <-> In z l /\ z <> node) ->
  chains_ok cmp key multiple (equality_list_delete_node multiple m node) l'.
Proof.
  intros H Hnode Hl' Hm. destruct (H Hm) as (rk & Hrk). subst multiple.
  exists rk. now apply (chain_delete K cmp key cmp_swo m l l' rk node).
Qed.

Lemma chains_swap (m : memory) (l : list nat) (n1 n2 : nat) :
  chains_ok cmp key multiple m l -> In n1 l -> In n2 l -> n1 <> n2 ->
  chains_ok cmp key multiple (equality_list_swap_if_necessary cmp key multiple m n1 n2) l.
Proof.
  intros H H1 H2 Hne Hm. destruct (H Hm) as (rk & Hrk). subst multiple.
  exact (chain_swap K cmp key cmp_swo m l rk n1 n2 Hrk H1 H2 Hne).
Qed.

(** [swap_nodes] keeps the chains in order. *)
Lemma swap_nodes_chains (t : RBTree) (l : list nat) (n1 n2 : nat) (sc : bool) :
  chains_ok cmp key multiple (mem t) l -> In n1 l -> In n2 l -> n1 <> n2 ->
  chains_ok cmp key multiple (mem (swap_nodes cmp key multiple t n1 n2 sc)) l.
Proof.
  intros H H1 H2 Hne. unfold swap_nodes. cbv zeta. cbn [mem with_mem].
  match goal with
  | |- chains_ok _ _ _ (if negb sc then ?a else ?b) _ =>
      assert (Hb : chains_ok cmp key multiple b l)
  end.
  { apply chains_swap; auto.
    repeat match goal with
           | |- context [if ?c then _ else _] => destruct c
           end;
      (eapply chains_ok_frame; [exact H| |intros z; reflexivity]).
    - apply swap_neighbors_links.
    - apply swap_neighbors_links.
    - apply swap_unrelated_nodes_links. }
  destruct sc; cbn [negb]; [exact Hb|].
  eapply chains_ok_frame; [exact Hb| |intros z; reflexivity].
  intros z. split; autorewrite with rbmem; reflexivity.
Qed.

End Steps.

End Chains.

Import RB RBMem RBSpec NoDupFacts Shape Rotate Inv Frames InsertFixup InsertLeaf
  HintedInsert SwapNeighbors SwapUnrelated DeleteFixup DeleteCases Links Chains.

(** ** Removal *)

Module Remove.

(** Cutting the subtree below a child link. *)
Lemma drop_left (st : RBTree) (s : tree) cp p sib (k : context) :
  Rep st (plug s (FL cp p sib :: k)) ->
  Rep (with_mem st (set_left (mem st) p None)) (plug E (FL cp p sib :: k)).
Proof.
  rewrite !Rep_plug.
  intros (Hroot & Hs & Hk & Hnd).
  cbn [cshape] in Hk. destruct Hk as (Hf & Hk).
  cbn [fshape] in Hf. destruct Hf as (Hpl & Hpr & Hpp & Hpc & Ssib).
  cbn [ids cids fids fid fsib app rootp cpar croot] in *. nd Hnd.
  unfold RepZ; cbn [mem root with_mem shape ids app croot rootp].
  split; [assumption|]. split; [exact I|]. split.
  - cbn [cshape fshape rootp cpar fid]; repeat split; try solve [mem_auto];
      first [shape_tac | cshape_tac].
  - nd_goal.
Qed.

Lemma drop_right (st : RBTree) (s : tree) cp sib p (k : context) :
  Rep st (plug s (FR cp sib p :: k)) ->
  Rep (with_mem st (set_right (mem st) p None)) (plug E (FR cp sib p :: k)).
Proof.
  rewrite !Rep_plug.
  intros (Hroot & Hs & Hk & Hnd).
  cbn [cshape] in Hk. destruct Hk as (Hf & Hk).
  cbn [fshape] in Hf. destruct Hf as (Hpl & Hpr & Hpp & Hpc & Ssib).
  cbn [ids cids fids fid fsib app rootp cpar croot] in *. nd Hnd.
  unfold RepZ; cbn [mem root with_mem shape ids app croot rootp].
  split; [assumption|]. split; [exact I|]. split.
  - cbn [cshape fshape rootp cpar fid]; repeat split; try solve [mem_auto];
      first [shape_tac | cshape_tac].
  - nd_goal.
Qed.

(** *** The red-black conditions do not look at the node names *)

Fixpoint sk (t : tree) : tree :=
  match t with
  | E => E
  | T c l _ r => T c (sk l) 0 (sk r)
  end.

Definition skf (f : frame) : frame :=
  match f with
  | FL c _ r => FL c 0 (sk r)
  | FR c l _ => FR c (sk l) 0
  end.

Lemma sk_plug (k : context) : forall s, sk (plug s k) = plug (sk s) (map skf k).
Proof.
  induction k as [|f k IH]; intros s; cbn [plug map]; [reflexivity|].
  rewrite IH. destruct f; reflexivity.
Qed.

Lemma bh_sk (t : tree) : bh (sk t) = bh t.
Proof. induction t as [|c l IHl x r IHr]; cbn [sk bh]; congruence. Qed.

Lemma col_sk (t : tree) : col (sk t) = col t.
Proof. destruct t; reflexivity. Qed.

Lemma balanced_sk (t : tree) : balanced (sk t) <-> balanced t.
Proof.
  induction t as [|c l IHl x r IHr]; cbn [sk balanced]; [tauto|].
  rewrite !bh_sk, IHl, IHr. tauto.
Qed.

Lemma no_red_red_sk (t : tree) : no_red_red (sk t) <-> no_red_red t.
Proof.
  induction t as [|c l IHl x r IHr]; cbn [sk no_red_red]; [tauto|].
  rewrite !col_sk, IHl, IHr. tauto.
Qed.

Lemma rbtree_sk (t t' : tree) : sk t = sk t' -> rbtree t -> rbtree t'.
Proof.
  unfold rbtree. intros Hsk.
  rewrite <- (col_sk t), <- (no_red_red_sk t), <- (balanced_sk t), Hsk.
  rewrite col_sk, no_red_red_sk, balanced_sk. tauto.
Qed.

Lemma length_ids_sk (t : tree) : length (ids (sk t)) = length (ids t).
Proof.
  induction t as [|c l IHl x r IHr]; cbn [sk ids]; [reflexivity|].
  rewrite !length_app. cbn [length]. congruence.
Qed.

Lemma length_ids_skel (t t' : tree) :
  sk t = sk t' -> length (ids t) = length (ids t').
Proof. intros H. now rewrite <- (length_ids_sk t), H, length_ids_sk. Qed.

Lemma height_sk (t : tree) : height (sk t) = height t.
Proof. induction t as [|c l IHl x r IHr]; cbn [sk height]; congruence. Qed.

Lemma height_skel (t t' : tree) : sk t = sk t' -> height t = height t'.
Proof. intros H. now rewrite <- (height_sk t), H, height_sk. Qed.

(** *** The in-order sequence around the hole of a context *)

Lemma cleft_app (k1 k2 : context) :
  Ordering.cleft (k1 ++ k2) = Ordering.cleft k2 ++ Ordering.cleft k1.
Proof.
  induction k1 as [|f k1 IH]; cbn [app Ordering.cleft].
  - now rewrite app_nil_r.
  - destruct f; rewrite IH; [reflexivity|now rewrite <- app_assoc].
Qed.

Lemma cright_app (k1 k2 : context) :
  Ordering.cright (k1 ++ k2) = Ordering.cright k1 ++ Ordering.cright k2.
Proof.
  induction k1 as [|f k1 IH]; cbn [app Ordering.cright]; [reflexivity|].
  destruct f; rewrite IH; [|reflexivity].
  cbn [app]. now rewrite <- app_assoc.
Qed.

(** Only the names in a subtree matter for the names of the whole tree. *)
Lemma ids_plug_same (s s' : tree) (k : context) :
  ids s = ids s' -> ids (plug s k) = ids (plug s' k).
Proof. intros H. now rewrite !Ordering.ids_plug, H. Qed.

(** *** The smallest node of a subtree *)

Lemma leftmost_spec (st : RBTree) (s : tree) :
  forall K fuel,
    s <> E -> Rep st (plug s K) -> height s <= S fuel ->
    exists x c2 n2 b KK,
      rootp s = Some x /\
      leftmost fuel (mem st) x = Ok n2 /\
      s = plug (T c2 E n2 b) KK /\
      (KK = [] \/ exists cp p2 sib KK', KK = FL cp p2 sib :: KK') /\
      Ordering.cleft KK = [].
Proof.
  induction s as [|cs sl IHl sx sr _]; intros K fuel Hne HR Hfuel; [congruence|].
  destruct (read_node _ _ _ _ _ _ HR) as (Hl & _).
  destruct sl as [|cl sll slx slr].
  - exists sx, cs, sx, sr, []. split; [reflexivity|]. split.
    + destruct fuel; cbn [leftmost]; now rewrite Hl.
    + split; [reflexivity|]. split; [now left|reflexivity].
  - cbn [height] in Hfuel.
    destruct fuel as [|fuel]; [lia|].
    destruct (IHl (FL cs sx sr :: K) fuel ltac:(discriminate) HR)
      as (x & c2 & n2 & b & KK & Hx & Hlm & Hpl & HKK & Hcl).
    { cbn [height]. lia. }
    exists sx, c2, n2, b, (KK ++ [FL cs sx sr]). split; [reflexivity|]. split.
    + cbn [leftmost]. rewrite Hl. cbn [rootp] in *. injection Hx as <-. exact Hlm.
    + split.
      * rewrite plug_app. cbn [plug fill]. now rewrite <- Hpl.
      * split.
        -- right. destruct HKK as [->|(cp & p2 & sib & KK' & ->)].
           ++ now exists cs, sx, sr, [].
           ++ now exists cp, p2, sib, (KK' ++ [FL cs sx sr]).
        -- rewrite cleft_app, Hcl. reflexivity.
Qed.

(** Taking one name out of an in-order sequence. *)
Definition without (node : nat) (l l' : list nat) : Prop :=
  exists l1 l2, l = l1 ++ node :: l2 /\ l' = l1 ++ l2.

Lemma without_in (node : nat) (l l' : list nat) :
  without node l l' -> NoDup l ->
  forall x, In x l' <-> In x l /\ x <> node.
Proof.
  intros (l1 & l2 & -> & ->) Hnd x.
  apply NoDup_remove_2 in Hnd.
  rewrite !in_app_iff in *. cbn [In]. split.
  - intros H. split; [tauto|]. intros ->. tauto.
  - intros ([H|[H|H]] & Hx); [tauto|congruence|tauto].
Qed.

Lemma without_plug (node : nat) c r (k : context) :
  without node (ids (plug (T c E node r) k)) (ids (plug r k)).
Proof.
  exists (Ordering.cleft k), (ids r ++ Ordering.cright k).
  rewrite !Ordering.ids_plug. cbn [ids app]. auto.
Qed.

(** Two trees with the same nodes. *)
Ltac same_nodes :=
  let z := fresh "z" in
  intros z; rewrite ?plug_app;
  repeat first [ rewrite in_ids_plug
               | rewrite in_app_iff
               | progress cbn [plug fill ids cids fids fid fsib app In] ];
  tauto.

Section Removal.

Variable K : Type.
Variable cmp : K -> K -> bool.
Variable key : nat -> K.
Variable multiple : bool.

(** The step from the memory [m] with the nodes [l] to the memory [m'] with
    the nodes [l'] keeps the equality chains in order. *)
Definition keeps_chains (m m' : memory) (l l' : list nat) : Prop :=
  Ordering.strict_weak_order cmp ->
  chains_ok cmp key multiple m l -> chains_ok cmp key multiple m' l'.

Lemma keeps_trans (m1 m2 m3 : memory) (l1 l2 l3 : list nat) :
  keeps_chains m1 m2 l1 l2 -> keeps_chains m2 m3 l2 l3 ->
  keeps_chains m1 m3 l1 l3.
Proof. intros H1 H2 Hswo H. apply H2; [exact Hswo|]. now apply H1. Qed.

Lemma keeps_frame (m m' : memory) (l l' : list nat) :
  links_eq m' m -> (forall z, In z l' <-> In z l) -> keeps_chains m m' l l'.
Proof. intros Hl Hin _ H. exact (chains_ok_frame cmp key multiple m m' l l' H Hl Hin). Qed.

Lemma keeps_delete (m m1 m' : memory) (l l' : list nat) (node : nat) :
  links_eq m1 m ->
  links_eq m' (equality_list_delete_node multiple m1 node) ->
  NoDup l -> without node l l' ->
  keeps_chains m m' l l'.
Proof.
  intros H1 H' Hnd Hw Hswo H.
  apply chains_ok_frame with
    (m := equality_list_delete_node multiple m1 node) (l := l');
    [|exact H'|intros z; reflexivity].
  apply (chains_delete K cmp key multiple Hswo m1 l l' node).
  - exact (chains_ok_frame cmp key multiple m m1 l l H H1 (fun z => iff_refl _)).
  - destruct Hw as (l1 & l2 & -> & _). apply in_or_app. right. now left.
  - exact (without_in node l l' Hw Hnd).
Qed.

Lemma keeps_swap (t : RBTree) (l l' : list nat) (n1 n2 : nat) (sc : bool) :
  In n1 l -> In n2 l -> n1 <> n2 -> (forall z, In z l' <-> In z l) ->
  keeps_chains (mem t) (mem (swap_nodes cmp key multiple t n1 n2 sc)) l l'.
Proof.
  intros H1 H2 Hne Hin Hswo H.
  apply chains_ok_frame with
    (m := mem (swap_nodes cmp key multiple t n1 n2 sc)) (l := l);
    [|apply links_eq_refl|exact Hin].
  now apply swap_nodes_chains.
Qed.

Lemma Rep_equality_list_delete (st : RBTree) (t : tree) (node : nat) :
  Rep st t ->
  Rep (with_mem st (equality_list_delete_node multiple (mem st) node)) t.
Proof.
  intros H. apply Rep_same; [exact H|].
  intros z _. apply same_node_equality_list_delete_node.
Qed.

Lemma remove_pseudo_leaf_spec (fuel : nat) (st : RBTree) c1 node r1 (k1 : context) :
  Rep st (plug (T c1 E node r1) k1) -> rbtree (plug (T c1 E node r1) k1) ->
  length k1 <= fuel ->
  exists st' t',
    remove_pseudo_leaf cmp key multiple fuel st node = Ok st' /\
    Rep st' t' /\ rbtree t' /\ ids t' = ids (plug r1 k1) /\
    keeps_chains (mem st) (mem st') (ids (plug (T c1 E node r1) k1)) (ids t').
Proof.
  intros HR Hrb Hfuel.
  assert (Hnd : NoDup (ids (plug (T c1 E node r1) k1)))
    by now destruct HR as (_ & _ & Hnd).
  pose proof (without_plug node c1 r1 k1) as Hw.
  destruct (rbtree_plug_inv _ _ Hrb) as (Hbal & Hnrr & Hcv).
  cbn [balanced no_red_red bh blk col] in Hbal, Hnrr, Hcv.
  destruct Hbal as (Hbh & _ & Hbr). destruct Hnrr as (Hred & _ & Hnr).
  unfold remove_pseudo_leaf. cbv zeta.
  destruct (read_node _ _ _ _ _ _ HR) as (_ & Hr & Hp & Hc).
  rewrite Hr.
  destruct r1 as [|cr rl rx rr]; cbn [rootp].
  - (* [node] is a leaf *)
    rewrite Hp. destruct k1 as [|f k']; cbn [cpar].
    + exists (mkTree None (mem st)), E. split; [reflexivity|]. split.
      * repeat split. constructor.
      * split; [repeat split|]. split; [reflexivity|].
        intros _ _. apply chains_ok_nil.
    + rewrite (is_left_child _ _ _ _ _ HR eq_refl).
      assert (Hdrop : exists m1,
                 m1 = (if is_FL f then set_left (mem st) (fid f) None
                       else set_right (mem st) (fid f) None) /\
                 Rep (with_mem st m1) (plug E (f :: k')) /\
                 _rbt_parent (m1 node) = _rbt_parent (mem st node) /\
                 _rbt_color (m1 node) = _rbt_color (mem st node) /\
                 links_eq m1 (mem st)).
      { eexists. split; [reflexivity|].
        destruct f as [cp p sib|cp sib p]; cbn [is_FL fid].
        - split; [apply (drop_left _ _ _ _ _ _ HR)|].
          repeat split; autorewrite with rbmem; reflexivity.
        - split; [apply (drop_right _ _ _ _ _ _ HR)|].
          repeat split; autorewrite with rbmem; reflexivity. }
      destruct Hdrop as (m1 & <- & HR1 & Hp1 & Hc1 & Hl1).
      apply (Rep_equality_list_delete _ _ node) in HR1.
      rewrite with_mem_twice in HR1. cbn [mem with_mem] in HR1.
      destruct (same_node_equality_list_delete_node multiple m1 node node)
        as (_ & _ & Sp & Sc).
      rewrite Sc, Hc1, Hc.
      destruct c1.
      * eexists _, _. split; [reflexivity|]. split; [exact HR1|].
        split; [|split; [reflexivity|]].
        -- apply (cvalid_plug (f :: k') E 0 BLACK); try reflexivity; try exact I.
           cbn [bh blk] in Hcv. exact (cvalid_black _ _ _ Hcv).
        -- cbn [mem with_mem].
           exact (keeps_delete _ m1 _ _ _ node Hl1 (links_eq_refl _) Hnd Hw).
      * rewrite Sp, Hp1, Hp. cbn [cpar deref bind].
        destruct (fixup_after_delete_spec fuel _ E f k' 0
                    ltac:(cbn [length] in Hfuel; lia) HR1)
          as (st' & t' & Hrun & HR' & Hrb' & Hids).
        { unfold del_inv. cbn [bh blk] in Hcv.
          split; [exact I|]. split; [exact I|]. split; [reflexivity|].
          split; [reflexivity|]. exact Hcv. }
        exists st', t'. split; [exact Hrun|]. split; [exact HR'|].
        split; [exact Hrb'|]. split; [exact Hids|].
        rewrite Hids.
        apply fixup_after_delete_links in Hrun. cbn [mem with_mem] in Hrun.
        exact (keeps_delete _ m1 _ _ _ node Hl1 Hrun Hnd Hw).
  - (* [node] has a RED leaf as right child *)
    cbn [bh] in Hbh.
    destruct (red_bh_zero cr rl rx rr Hbr Hnr ltac:(cbn [bh]; lia))
      as (-> & -> & ->).
    assert (Hc1 : c1 = BLACK).
    { destruct c1; [|reflexivity]. destruct (Hred eq_refl). discriminate. }
    clear Hc. subst c1. cbn [blk] in Hcv.
    pose proof (swap_nodes_right K cmp key multiple _ _ _ _ _ _ _ _ _ true HR)
      as HR1.
    cbn iota in HR1.
    apply (recolor_spec _ _ BLACK) in HR1.
    apply (drop_right _ _ _ _ _ _ : _ -> Rep _ (plug E (FR BLACK E rx :: k1)))
      in HR1.
    apply (Rep_equality_list_delete _ _ node) in HR1.
    rewrite !with_mem_twice in HR1. cbn [mem with_mem] in HR1.
    eexists _, _. split; [reflexivity|]. split; [exact HR1|].
    cbn [plug fill]. split; [|split; [now apply ids_plug_same|]].
    + apply (cvalid_plug k1 _ 1 BLACK); try reflexivity; try exact Hcv.
      * cbn. auto.
      * cbn. repeat split; discriminate.
    + rewrite (ids_plug_same (T BLACK E rx E) (T RED E rx E) k1 eq_refl).
      cbn [mem with_mem].
      eapply keeps_trans.
      * apply (keeps_swap st (ids (plug (T BLACK E node (T RED E rx E)) k1))
                 (ids (plug (T BLACK E node (T RED E rx E)) k1)) node rx true).
        -- apply in_ids_plug. left. cbn [ids app In]. auto.
        -- apply in_ids_plug. left. cbn [ids app In]. auto.
        -- intros ->. apply Rep_plug in HR. destruct HR as (_ & _ & _ & Hnd').
           cbn [ids app] in Hnd'. nd Hnd'. nd_contra.
        -- intros z. reflexivity.
      * apply keeps_delete with
          (m1 := set_right (set_color (mem (swap_nodes cmp key multiple st node rx true))
                              rx BLACK) rx None) (node := node).
        -- intros z. split; autorewrite with rbmem; reflexivity.
        -- apply links_eq_refl.
        -- exact Hnd.
        -- exact Hw.
Qed.

Lemma child_not_node (st : RBTree) c l node r (k : context) (x : nat) :
  Rep st (plug (T c l node r) k) -> In x (ids l) \/ In x (ids r) ->
  Nat.eqb x node = false.
Proof.
  intros HR Hx. apply Nat.eqb_neq. intros ->.
  apply Rep_plug in HR. destruct HR as (_ & _ & _ & Hnd).
  cbn [ids] in Hnd. nd Hnd. destruct Hx; nd_contra.
Qed.

(** The tree after the exchange of [node] with its neighbour in order has
    the colors of the tree before at the same places. *)
Lemma pseudo_leaf_ready (fuel : nat) (st : RBTree) (tr : tree) c1 node r1
  (k1 : context) :
  Rep st (plug (T c1 E node r1) k1) ->
  sk tr = sk (plug (T c1 E node r1) k1) -> rbtree tr ->
  height tr <= S fuel ->
  exists st' t',
    remove_pseudo_leaf cmp key multiple fuel st node = Ok st' /\
    Rep st' t' /\ rbtree t' /\ ids t' = ids (plug r1 k1) /\
    keeps_chains (mem st) (mem st') (ids (plug (T c1 E node r1) k1)) (ids t').
Proof.
  intros HR Hsk Hrb Hfuel.
  apply remove_pseudo_leaf_spec with (c1 := c1) (r1 := r1) (k1 := k1).
  - exact HR.
  - exact (rbtree_sk _ _ Hsk Hrb).
  - rewrite (height_skel _ _ Hsk) in Hfuel.
    pose proof (height_plug k1 (T c1 E node r1)). cbn [height] in H. lia.
Qed.

Lemma pseudo_leaf_done (fuel : nat) (st : RBTree) (tr : tree) c1 node r1
  (k1 : context) :
  Rep st (plug (T c1 E node r1) k1) ->
  sk tr = sk (plug (T c1 E node r1) k1) -> rbtree tr ->
  height tr <= S fuel ->
  without node (ids tr) (ids (plug r1 k1)) ->
  exists st' t',
    remove_pseudo_leaf cmp key multiple fuel st node = Ok st' /\
    Rep st' t' /\ rbtree t' /\ without node (ids tr) (ids t') /\
    keeps_chains (mem st) (mem st') (ids (plug (T c1 E node r1) k1)) (ids t').
Proof.
  intros HR Hsk Hrb Hfuel Hw.
  destruct (pseudo_leaf_ready fuel st tr c1 node r1 k1 HR Hsk Hrb Hfuel)
    as (st' & t' & Hrun & HR' & Hrb' & Hids & Hch).
  exists st', t'. rewrite Hids in *. auto.
Qed.

(** The removal after the exchange of [node] and [child] in the tree. *)
Lemma swap_then_remove (fuel : nat) (st : RBTree) (tr : tree) c1 node r1
  (k1 : context) (child : nat) (sc : bool) :
  Rep st tr -> In node (ids tr) -> In child (ids tr) -> child <> node ->
  (forall z, In z (ids (plug (T c1 E node r1) k1)) <-> In z (ids tr)) ->
  Rep (swap_nodes cmp key multiple st node child sc) (plug (T c1 E node r1) k1) ->
  sk tr = sk (plug (T c1 E node r1) k1) -> rbtree tr ->
  height tr <= S fuel ->
  without node (ids tr) (ids (plug r1 k1)) ->
  exists st' t',
    remove_pseudo_leaf cmp key multiple fuel
      (swap_nodes cmp key multiple st node child sc) node = Ok st' /\
    Rep st' t' /\ rbtree t' /\ without node (ids tr) (ids t') /\
    keeps_chains (mem st) (mem st') (ids tr) (ids t').
Proof.
  intros HR Hnode Hchild Hne Hsame HR1 Hsk Hrb Hfuel Hw.
  destruct (pseudo_leaf_done fuel _ tr c1 node r1 k1 HR1 Hsk Hrb Hfuel Hw)
    as (st' & t' & Hrun & HR' & Hrb' & Hw' & Hch).
  exists st', t'. split; [exact Hrun|]. split; [exact HR'|].
  split; [exact Hrb'|]. split; [exact Hw'|].
  eapply keeps_trans; [|exact Hch].
  apply keeps_swap; auto.
Qed.

Lemma remove_spec (fuel : nat) (st : RBTree) (tr : tree) (node : nat) :
  Rep st tr -> rbtree tr -> In node (ids tr) -> height tr <= S fuel ->
  exists st' t',
    remove cmp key multiple fuel st node = Ok st' /\ Rep st' t' /\ rbtree t' /\
    without node (ids tr) (ids t') /\
    keeps_chains (mem st) (mem st') (ids tr) (ids t').
Proof.
  intros HR Hrb Hin Hfuel.
  destruct (in_ids_split _ _ Hin) as (c & l & r & k & Htr).
  pose proof HR as HR0.
  rewrite Htr in HR.
  assert (Hinv : balanced (T c l node r) /\ no_red_red (T c l node r)).
  { rewrite Htr in Hrb. destruct (rbtree_plug_inv _ _ Hrb) as (H1 & H2 & _).
    now split. }
  destruct Hinv as (Hbal & Hnrr).
  unfold remove, remove_to_leaf. cbv zeta.
  destruct (read_node _ _ _ _ _ _ HR) as (Hl & Hr & _).
  rewrite Hl, Hr.
  destruct l as [|cl la lx lb].
  - (* no left child *)
    assert (Hw : without node (ids tr) (ids (plug r k))).
    { rewrite Htr. apply without_plug. }
    cbn [rootp].
    destruct (rootp r); cbn [bind]; rewrite Nat.eqb_refl;
      (destruct (pseudo_leaf_done fuel st tr c node r k HR) as
          (st' & t' & Hrun & HR' & Hrb' & Hw' & Hch);
       [now rewrite Htr|exact Hrb|exact Hfuel|exact Hw|];
       exists st', t'; rewrite <- Htr in Hch; auto).
  - destruct r as [|cr ra rx rb].
    + (* only a left child *)
      cbn [rootp bind].
      cbn [balanced no_red_red bh] in Hbal, Hnrr.
      destruct Hbal as (Hbh & Hbl & _). destruct Hnrr as (_ & Hnl & _).
      destruct (red_bh_zero cl la lx lb Hbl Hnl ltac:(cbn [bh]; lia))
        as (-> & -> & ->).
      pose proof (child_not_node _ _ _ _ _ _ lx HR
                    ltac:(left; cbn [ids app In]; auto)) as Hlx.
      rewrite Hlx. apply Nat.eqb_neq in Hlx.
      pose proof (swap_nodes_left K cmp key multiple _ _ _ _ _ _ _ _ _ false HR)
        as HR1.
      cbn iota in HR1.
      apply (swap_then_remove fuel st tr RED node E (FL c lx E :: k) lx false);
        auto.
      * rewrite Htr. apply in_ids_plug. left. cbn [ids app In]. auto.
      * rewrite Htr. same_nodes.
      * rewrite Htr, !sk_plug. reflexivity.
      * exists (Ordering.cleft k ++ [lx]), (Ordering.cright k).
        rewrite Htr, !Ordering.ids_plug.
        cbn [ids app Ordering.cleft Ordering.cright].
        rewrite <- !app_assoc. cbn [app]. auto.
    + (* two children *)
      destruct (leftmost_spec st (T cr ra rx rb) (FR c (T cl la lx lb) node :: k)
                  fuel ltac:(discriminate) HR)
        as (x & c2 & n2 & b & KK & Hx & Hlm & Hpl & HKK & Hcl).
      { rewrite Htr in Hfuel.
        pose proof (height_plug k (T c (T cl la lx lb) node (T cr ra rx rb))) as Hh.
        cbn [height] in Hh |- *. lia. }
      cbn [rootp] in Hx |- *. injection Hx as <-. rewrite Hlm. cbn [bind].
      assert (Hn2 : In n2 (ids (T cr ra rx rb))).
      { rewrite Hpl. apply in_ids_plug. left. cbn [ids app In]. auto. }
      pose proof (child_not_node _ _ _ _ _ _ n2 HR ltac:(right; exact Hn2)) as Hn2'.
      rewrite Hn2'. apply Nat.eqb_neq in Hn2'.
      assert (Hn2t : In n2 (ids tr)).
      { rewrite Htr. apply in_ids_plug. left. cbn [ids].
        apply in_or_app. right. right. exact Hn2. }
      rewrite Hpl in HR, Htr.
      assert (Hw : without node (ids tr)
                     (ids (plug b (KK ++ FR c (T cl la lx lb) n2 :: k)))).
      { exists (Ordering.cleft k ++ ids (T cl la lx lb)),
               (n2 :: ids b ++ Ordering.cright KK ++ Ordering.cright k).
        rewrite Htr, !Ordering.ids_plug, cleft_app, cright_app, Hcl.
        cbn [ids app Ordering.cleft Ordering.cright].
        rewrite Ordering.ids_plug, Hcl.
        cbn [ids app]. rewrite <- !app_assoc. cbn [app].
        rewrite <- !app_assoc. cbn [app]. auto. }
      destruct HKK as [->|(cp & p2 & sib & KK' & ->)].
      * cbn [plug app] in HR, Htr, Hw.
        pose proof (swap_nodes_right K cmp key multiple _ _ _ _ _ _ _ _ _ false HR)
          as HR1.
        cbn iota in HR1.
        apply (swap_then_remove fuel st tr c2 node b
                 (FR c (T cl la lx lb) n2 :: k) n2 false); auto.
        -- rewrite Htr. same_nodes.
        -- rewrite Htr, !sk_plug. reflexivity.
      * assert (HRa : Rep st (plug (T c2 E n2 b)
                                ((FL cp p2 sib :: KK') ++
                                 FR c (T cl la lx lb) node :: k))).
        { rewrite plug_app. exact HR. }
        pose proof (swap_nodes_far K cmp key multiple _ _ _ _ _ _ _ _ _ _ _ _ _
                      false HRa) as HR1.
        cbn iota in HR1.
        apply (swap_then_remove fuel st tr c2 node b
                 ((FL cp p2 sib :: KK') ++ FR c (T cl la lx lb) n2 :: k)
                 n2 false HR0); auto.
        -- rewrite Htr. same_nodes.
        -- rewrite Htr, !sk_plug. cbn [sk]. rewrite !sk_plug, !map_app.
           cbn [map skf]. rewrite plug_app. reflexivity.
Qed.

End Removal.

End Remove.

Import RB RBMem RBSpec NoDupFacts Shape Rotate Inv Frames InsertFixup InsertLeaf
  HintedInsert DeleteFixup DeleteCases Remove.

(** ** More fuel does not change a result *)

Module Fuel.

Lemma fixup_after_insert_loop_mono (fuel : nat) :
  forall fuel' m node r,
    fuel <= fuel' ->
    fixup_after_insert_loop fuel m node = Ok r ->
    fixup_after_insert_loop fuel' m node = Ok r.
Proof.
  induction fuel as [|fuel IH]; intros fuel' m node r Hle H;
    rewrite loop_eq in H |- *; unfold bind in H |- *.
  all: repeat match type of H with
         | (match ?x with _ => _ end) = _ => destruct x eqn:?; try discriminate H
         end; try exact H.
  all: cbv zeta in H |- *.
  all: repeat match type of H with
         | (match ?x with _ => _ end) = _ => destruct x eqn:?; try discriminate H
         end; try exact H.
  destruct fuel' as [|fuel']; [lia|]. apply IH; [lia|exact H].
Qed.

Lemma fixup_after_insert_mono (fuel fuel' : nat) (t : RBTree) (node : nat)
  (r : RBTree) :
  fuel <= fuel' ->
  fixup_after_insert fuel t node = Ok r -> fixup_after_insert fuel' t node = Ok r.
Proof.
  intros Hle H. unfold fixup_after_insert in *.
  destruct (fixup_after_insert_loop fuel (mem t) node) as [x|] eqn:E;
    [|discriminate H].
  rewrite (fixup_after_insert_loop_mono _ _ _ _ _ Hle E). exact H.
Qed.

Lemma leftmost_mono (fuel : nat) :
  forall fuel' m x r,
    fuel <= fuel' -> leftmost fuel m x = Ok r -> leftmost fuel' m x = Ok r.
Proof.
  induction fuel as [|fuel IH]; intros fuel' m x r Hle H.
  - cbn [leftmost] in H. destruct (_rbt_left (m x)) eqn:E; [discriminate H|].
    destruct fuel'; cbn [leftmost]; rewrite E; exact H.
  - destruct fuel' as [|fuel']; [lia|]. cbn [leftmost] in H |- *.
    destruct (_rbt_left (m x)); [|exact H]. apply IH; [lia|exact H].
Qed.

Lemma fixup_after_delete_loop_mono (fuel : nat) :
  forall fuel' m parent dl r,
    fuel <= fuel' ->
    fixup_after_delete_loop fuel m parent dl = Ok r ->
    fixup_after_delete_loop fuel' m parent dl = Ok r.
Proof.
  induction fuel as [|fuel IH]; intros fuel' m parent dl r Hle H;
    rewrite delete_loop_eq in H |- *; unfold bind in H |- *.
  all: repeat match type of H with
         | (match ?x with _ => _ end) = _ => destruct x eqn:?; try discriminate H
         | (if ?b then _ else _) = _ => destruct b eqn:?
         end; try exact H.
  all: cbv zeta in H |- *.
  all: repeat match type of H with
         | (match ?x with _ => _ end) = _ => destruct x eqn:?; try discriminate H
         end; try exact H.
  destruct fuel' as [|fuel']; [lia|]. apply IH; [lia|exact H].
Qed.

Lemma fixup_after_delete_mono (fuel fuel' : nat) (t : RBTree) (parent : nat)
  (dl : bool) (r : RBTree) :
  fuel <= fuel' ->
  fixup_after_delete fuel t parent dl = Ok r ->
  fixup_after_delete fuel' t parent dl = Ok r.
Proof.
  intros Hle H. unfold fixup_after_delete in *.
  destruct (fixup_after_delete_loop fuel (mem t) parent dl) as [x|] eqn:E;
    [|discriminate H].
  rewrite (fixup_after_delete_loop_mono _ _ _ _ _ _ Hle E). exact H.
Qed.

Section Mono.

Variable K : Type.
Variable cmp : K -> K -> bool.
Variable key : nat -> K.
Variable multiple : bool.

Lemma insert_descend_mono (fuel : nat) :
  forall fuel' m node parent cur r,
    fuel <= fuel' ->
    insert_descend cmp key fuel m node parent cur = Ok r ->
    insert_descend cmp key fuel' m node parent cur = Ok r.
Proof.
  induction fuel as [|fuel IH]; intros fuel' m node parent cur r Hle H;
    destruct cur as [c|]; cbn [insert_descend] in H;
    try discriminate H.
  - destruct fuel'; exact H.
  - destruct fuel' as [|fuel']; [lia|]. cbn [insert_descend].
    destruct (cmp (key c) (key node)); apply IH; auto; lia.
  - destruct fuel'; exact H.
Qed.

Lemma insert_mono (fuel fuel' : nat) (t : RBTree) (node : nat) (r : RBTree) :
  fuel <= fuel' ->
  insert cmp key multiple fuel t node = Ok r ->
  insert cmp key multiple fuel' t node = Ok r.
Proof.
  intros Hle H. unfold insert, insert_leaf, insert_leaf_base in *.
  cbv zeta in H |- *.
  match type of H with
  | context [insert_descend cmp key fuel ?m ?n ?p ?c] =>
      destruct (insert_descend cmp key fuel m n p c) as [x|] eqn:E;
      [|discriminate H];
      rewrite (insert_descend_mono _ _ _ _ _ _ _ Hle E)
  end.
  cbn [bind] in H |- *.
  destruct x as [p|]; [|exact H].
  repeat match type of H with
         | (if ?b then _ else _) = _ => destruct b eqn:?
         end;
    first [exact H | apply (fixup_after_insert_mono _ _ _ _ _ Hle H)].
Qed.

Lemma remove_pseudo_leaf_mono (fuel fuel' : nat) (t : RBTree) (node : nat)
  (r : RBTree) :
  fuel <= fuel' ->
  remove_pseudo_leaf cmp key multiple fuel t node = Ok r ->
  remove_pseudo_leaf cmp key multiple fuel' t node = Ok r.
Proof.
  intros Hle H. unfold remove_pseudo_leaf in *. cbv zeta in H |- *.
  repeat match type of H with
         | (match ?x with _ => _ end) = _ => destruct x eqn:?; try discriminate H
         end; try exact H.
  unfold bind in H |- *.
  repeat match type of H with
         | (match ?x with _ => _ end) = _ => destruct x eqn:?; try discriminate H
         end; try exact H.
  apply (fixup_after_delete_mono _ _ _ _ _ _ Hle H).
Qed.

Lemma remove_mono (fuel fuel' : nat) (t : RBTree) (node : nat) (r : RBTree) :
  fuel <= fuel' ->
  remove cmp key multiple fuel t node = Ok r ->
  remove cmp key multiple fuel' t node = Ok r.
Proof.
  intros Hle H. unfold remove, remove_to_leaf in *. cbv zeta in H |- *.
  destruct (_rbt_right (mem t node)) as [rc|]; destruct (_rbt_left (mem t node));
    try (destruct (leftmost fuel (mem t) rc) as [x|] eqn:E; [|discriminate H];
         rewrite (leftmost_mono _ _ _ _ _ Hle E));
    cbn [bind] in H |- *;
    apply (remove_pseudo_leaf_mono _ _ _ _ _ Hle H).
Qed.

End Mono.

End Fuel.

Import RB RBMem RBSpec NoDupFacts Shape Rotate Inv Frames InsertFixup InsertLeaf
  HintedInsert DeleteFixup DeleteCases Remove Fuel.

(** ** The invariants of the red-black tree *)

Module Invariants.

Lemma black_height_shape (m : memory) (t : tree) :
  forall par, shape m par t -> balanced t -> black_height m (rootp t) (bh t).
Proof.
  induction t as [|c l IHl x r IHr]; intros par Hs Hb; cbn [rootp bh].
  - constructor.
  - cbn [shape] in Hs. destruct Hs as (Hl & Hr & _ & Hc & Sl & Sr).
    cbn [balanced] in Hb. destruct Hb as (Hh & Hbl & Hbr).
    rewrite <- Hc. constructor.
    + rewrite Hl. eapply IHl; eauto.
    + rewrite Hr, Hh. eapply IHr; eauto.
Qed.

Lemma node_ok_of_rep (st : RBTree) c l n r (k : context) :
  Rep st (plug (T c l n r) k) -> rbtree (plug (T c l n r) k) ->
  node_ok (mem st) n.
Proof.
  intros HR Hrb.
  destruct (rbtree_plug_inv _ _ Hrb) as (Hbal & Hnrr & _).
  destruct (read_node _ _ _ _ _ _ HR) as (Hl & Hr & _ & Hc).
  cbn [balanced no_red_red] in Hbal, Hnrr.
  destruct Hbal as (Hh & Hbl & Hbr). destruct Hnrr as (Hred & _ & _).
  assert (Hchild : forall ch, child_of (mem st) n ch ->
                     _rbt_parent (mem st ch) = Some n /\
                     (c = RED -> _rbt_color (mem st ch) = BLACK)).
  { intros ch [Hch|Hch].
    - rewrite Hl in Hch. destruct (rootp_node _ _ Hch) as (cl & ll & lr & ->).
      destruct (read_node _ _ _ _ _ (FL c n r :: k) HR) as (_ & _ & Hp & Hcc).
      split; [exact Hp|]. intros Hcr. rewrite Hcc.
      destruct (Hred Hcr) as (Hx & _). exact Hx.
    - rewrite Hr in Hch. destruct (rootp_node _ _ Hch) as (cr & rl & rr & ->).
      destruct (read_node _ _ _ _ _ (FR c l n :: k) HR) as (_ & _ & Hp & Hcc).
      split; [exact Hp|]. intros Hcr. rewrite Hcc.
      destruct (Hred Hcr) as (_ & Hx). exact Hx. }
  apply Rep_plug in HR. destruct HR as (_ & Hs & _).
  cbn [shape] in Hs. destruct Hs as (_ & _ & _ & _ & Sl & Sr).
  unfold node_ok. rewrite Hc, Hl, Hr. split; [|split; [|split]].
  - destruct c; auto.
  - intros Hcr ch Hch. now apply Hchild.
  - exists (bh l). split.
    + eapply black_height_shape; eauto.
    + rewrite Hh. eapply black_height_shape; eauto.
  - intros ch Hch. now apply Hchild.
Qed.

Lemma tree_ok_of_rep (st : RBTree) (t : tree) :
  Rep st t -> rbtree t -> tree_ok st.
Proof.
  intros HR Hrb. split.
  - intros n Hn. apply (linked_iff _ _ n HR) in Hn.
    destruct (in_ids_split _ _ Hn) as (c & l & r & k & ->).
    eapply node_ok_of_rep; eauto.
  - intros r Hr. destruct HR as (Hroot & HRs).
    rewrite Hroot in Hr. destruct (rootp_node _ _ Hr) as (c & l & rr & ->).
    destruct Hrb as (Hc & _). cbn [col] in Hc. subst c.
    destruct (read_node st BLACK l r rr [] (conj Hroot HRs)) as (_ & _ & _ & Hc).
    exact Hc.
Qed.

Section Ops.

Variable K : Type.
Variable cmp : K -> K -> bool.
Variable key : nat -> K.
Variable multiple : bool.

Hypothesis cmp_asym : asymmetric cmp.

Lemma insert_spec (fuel : nat) (st : RBTree) (tr : tree) (node : nat) :
  Rep st tr -> rbtree tr -> ~ In node (ids tr) -> height tr <= fuel ->
  exists st' t',
    insert cmp key multiple fuel st node = Ok st' /\ Rep st' t' /\ rbtree t'.
Proof.
  intros HR Hrb Hn Hfuel. destruct tr as [|c l x r].
  - destruct (insert_empty_spec K cmp key multiple node fuel st HR) as (st' & Hi & HR').
    exists st', (T BLACK E node E). split; [exact Hi|]. split; [exact HR'|].
    repeat split; auto.
  - destruct (insert_leaf_spec K cmp key multiple node cmp_asym fuel st
                (T c l x r) [] HR Hrb Hn ltac:(discriminate) Hfuel)
      as (st' & t' & Hi & HR' & Hrb' & _).
    exists st', t'. split; [|split; assumption].
    unfold insert. destruct HR as (Hroot & _). rewrite Hroot. exact Hi.
Qed.

(** Every tree that the calls build holds a red-black tree. *)
Lemma built_rep (st : RBTree) :
  built cmp key multiple st -> exists t, Rep st t /\ rbtree t.
Proof.
  induction 1 as [m|st st' fuel node Hb IH Hn Hi|st st' fuel node Hb IH Hn Hi].
  - exists E. split.
    + repeat split. constructor.
    + repeat split.
  - destruct IH as (t & HR & Hrb).
    rewrite (linked_iff _ _ node HR) in Hn.
    destruct (insert_spec (Nat.max fuel (height t)) st t node HR Hrb Hn
                (Nat.le_max_r _ _)) as (st2 & t' & Hi2 & HR' & Hrb').
    rewrite (insert_mono K cmp key multiple _ _ _ _ _ (Nat.le_max_l _ _) Hi) in Hi2.
    injection Hi2 as <-. now exists t'.
  - destruct IH as (t & HR & Hrb).
    rewrite (linked_iff _ _ node HR) in Hn.
    destruct (remove_spec K cmp key multiple (Nat.max fuel (height t))
                st t node HR Hrb Hn ltac:(lia))
      as (st2 & t' & Hi2 & HR' & Hrb' & _).
    rewrite (remove_mono K cmp key multiple _ _ _ _ _ (Nat.le_max_l _ _) Hi) in Hi2.
    injection Hi2 as <-. now exists t'.
Qed.

(** C1.  [cmp] is asymmetric, and the tree [st] is built from an empty tree
    by calls of [insert] on nodes that are not linked and of [remove] on
    nodes that are linked.  Then every linked node has the color RED or
    BLACK, a RED node has only BLACK children, the BLACK nodes on all paths
    down its left subtree are as many as on all paths down its right
    subtree, its children have it as parent, and the root is BLACK.
    Moreover the next call returns: with enough fuel [insert] of a node that
    is not linked and [remove] of a linked node yield a tree. *)
Theorem rb_invariants_hold (st : RBTree) :
  built cmp key multiple st ->
  tree_ok st /\
  exists n, forall fuel node,
    n <= fuel ->
    (~ linked st node -> exists st', insert cmp key multiple fuel st node = Ok st') /\
    (linked st node -> exists st', remove cmp key multiple fuel st node = Ok st').
Proof.
  intros Hb. destruct (built_rep st Hb) as (t & HR & Hrb). split.
  - exact (tree_ok_of_rep st t HR Hrb).
  - exists (height t). intros fuel node Hfuel. split; intros Hn.
    + rewrite (linked_iff _ _ node HR) in Hn.
      destruct (insert_spec fuel st t node HR Hrb Hn Hfuel) as (st' & _ & Hi & _).
      now exists st'.
    + rewrite (linked_iff _ _ node HR) in Hn.
      destruct (remove_spec K cmp key multiple fuel st t node HR Hrb Hn ltac:(lia))
        as (st' & _ & Hi & _).
      now exists st'.
Qed.

End Ops.

Lemma ltb_asymmetric : asymmetric Nat.ltb.
Proof.
  intros a b H. apply Nat.ltb_lt in H. apply Nat.ltb_ge. lia.
Qed.

Lemma nothing_linked_in_empty (m : memory) (n : nat) : ~ linked (mkTree None m) n.
Proof. unfold linked. cbn [root mem]. intros H. inversion H. Qed.

End Invariants.

Import RB RBMem RBSpec NoDupFacts Shape Rotate Inv Frames InsertFixup InsertLeaf
  Ordering HintedInsert DeleteFixup DeleteCases Links Chains Remove Fuel Invariants.

(** ** Which nodes a tree holds, and in which order *)

Module Contents.

Lemma without_sorted (R : nat -> nat -> Prop) (node : nat) (l l' : list nat) :
  without node l l' -> StronglySorted R l -> StronglySorted R l'.
Proof.
  intros (l1 & l2 & -> & ->) H.
  apply StronglySorted_app in H. destruct H as (H1 & H2 & H12).
  apply StronglySorted_cons_iff in H2. destruct H2 as (H2 & _).
  apply StronglySorted_app. split; [exact H1|]. split; [exact H2|].
  intros x y Hx Hy. apply H12; [exact Hx|now right].
Qed.

Lemma without_length (node : nat) (l l' : list nat) :
  without node l l' -> length l = S (length l').
Proof.
  intros (l1 & l2 & -> & ->). rewrite !length_app. cbn [length]. lia.
Qed.

Section Ops.

Variable K : Type.
Variable cmp : K -> K -> bool.
Variable key : nat -> K.
Variable multiple : bool.

Hypothesis cmp_swo : strict_weak_order cmp.

(** The tree object holds a red-black tree whose keys never decrease along
    the in-order sequence, with its equality chains in order. *)
Definition holds (st : RBTree) (t : tree) : Prop :=
  Rep st t /\ rbtree t /\ StronglySorted (le cmp key) (ids t) /\
  chains_ok cmp key multiple (mem st) (ids t).

(** What [insert] does to the equality chains. *)
Lemma insert_chains (fuel : nat) (st st' : RBTree) (s : tree) (node : nat)
  (l' : list nat) :
  Rep st s -> ~ In node (ids s) -> height s <= fuel ->
  insert cmp key multiple fuel st node = Ok st' ->
  chains_ok cmp key multiple (mem st) (ids s) ->
  (forall z, In z l' <-> z = node \/ In z (ids s)) ->
  chains_ok cmp key multiple (mem st') l'.
Proof.
  intros HR Hnode Hfuel Hi Hch Hl'.
  unfold insert, insert_leaf, insert_leaf_base in Hi. cbv zeta in Hi.
  pose proof HR as (Hroot & Hsh & _). rewrite Hroot in Hi.
  set (m0 := set_left (set_right (mem st) node None) node None) in *.
  assert (Hsh0 : shape m0 None s).
  { eapply shape_frame; [|exact Hsh]. intros z Hz. unfold m0, same_node.
    assert (z <> node) by (intros ->; auto).
    repeat split; mem_auto. }
  rewrite (insert_descend_spec K cmp key node s None fuel m0 [] (rootp s) Hsh0 Hfuel)
    in Hi.
  cbn [bind] in Hi.
  assert (Hframe : forall m1, links_eq m1 (mem st) ->
                     chains_ok cmp key multiple m1 (ids s)).
  { intros m1 H1. exact (chains_ok_frame cmp key multiple _ m1 _ _ Hch H1
                           (fun z => iff_refl _)). }
  destruct s as [|c l x r].
  - cbn [rootp] in Hi. injection Hi as <-. cbn [mem].
    apply (chains_insert_alone K cmp key multiple _ (ids E)); auto.
    apply Hframe. unfold m0. intros z. split; autorewrite with rbmem; reflexivity.
  - destruct (descend_dir K cmp key node (T c l x r) [] ltac:(discriminate))
      as (f & k' & Hd & Hdir).
    rewrite Hd in Hi. cbn [cpar] in Hi.
    assert (Hp : In (fid f) (ids (T c l x r))).
    { pose proof (plug_descend K cmp key node (T c l x r) []) as Hpd.
      rewrite Hd in Hpd. change (plug (T c l x r) []) with (T c l x r) in Hpd.
      rewrite <- Hpd.
      apply in_ids_plug. right. cbn [cids]. apply in_or_app. left. apply fid_in. }
    destruct (cmp (key node) (key (fid f))) eqn:Hc1.
    { apply fixup_after_insert_links in Hi. cbn [mem] in Hi.
      eapply chains_ok_frame; [|exact Hi|intros z; reflexivity].
      apply (chains_insert_alone K cmp key multiple _ (ids (T c l x r))); auto.
      apply Hframe. unfold m0. intros z. split; autorewrite with rbmem; reflexivity. }
    destruct (cmp (key (fid f)) (key node)) eqn:Hc2.
    { apply fixup_after_insert_links in Hi. cbn [mem] in Hi.
      eapply chains_ok_frame; [|exact Hi|intros z; reflexivity].
      apply (chains_insert_alone K cmp key multiple _ (ids (T c l x r))); auto.
      apply Hframe. unfold m0. intros z. split; autorewrite with rbmem; reflexivity. }
    destruct multiple eqn:Hm; cbn [negb] in Hi.
    + apply fixup_after_insert_links in Hi. cbn [mem] in Hi.
      eapply chains_ok_frame; [|exact Hi|intros z; reflexivity].
      apply (chains_insert_before K cmp key true cmp_swo _ (ids (T c l x r)));
        auto; [|now split].
      apply Hframe. unfold m0. intros z. split; autorewrite with rbmem; reflexivity.
    + intros Hf. discriminate.
Qed.

Lemma insert_contents (fuel : nat) (st : RBTree) (tr : tree) (node : nat) :
  holds st tr -> ~ In node (ids tr) -> height tr <= fuel ->
  exists st' t',
    insert cmp key multiple fuel st node = Ok st' /\ holds st' t' /\
    (Permutation (ids t') (node :: ids tr) \/
     (multiple = false /\ t' = tr /\
      exists p, In p (ids tr) /\ equivalent cmp (key node) (key p))).
Proof.
  intros (HR & Hrb & Hso & Hch) Hn Hfuel. destruct tr as [|c l x r].
  - destruct (insert_empty_spec K cmp key multiple node fuel st HR) as (st' & Hi & HR').
    exists st', (T BLACK E node E). split; [exact Hi|]. split.
    + split; [exact HR'|]. split; [repeat split; auto|].
      split; [cbn [ids app]; repeat constructor|].
      apply (insert_chains fuel st st' E node _ HR Hn Hfuel Hi Hch).
      intros z. cbn [ids app In].
      split; [intros [->|[]]; now left|intros [->|[]]; now left].
    + left. reflexivity.
  - destruct (insert_leaf_spec K cmp key multiple node (cmp_asym cmp_swo) fuel st
                (T c l x r) [] HR Hrb Hn ltac:(discriminate) Hfuel)
      as (st' & t' & Hi & HR' & Hrb' & Ht').
    assert (Hi' : insert cmp key multiple fuel st node = Ok st').
    { unfold insert. destruct HR as (Hroot & _). rewrite Hroot. exact Hi. }
    exists st', t'. split; [exact Hi'|].
    destruct Ht' as [Hids|(Hm & -> & p & Hp & Hc1 & Hc2)].
    + assert (Hperm : Permutation (ids t') (node :: ids (T c l x r))).
      { rewrite Hids. symmetry.
        apply (perm_insert_descend K cmp key node (T c l x r) []). }
      split; [|left; exact Hperm].
      split; [exact HR'|]. split; [exact Hrb'|]. split.
      * rewrite Hids.
        apply (descend_sorted cmp_swo); [exact Hso|intros y []|intros y []].
      * apply (insert_chains fuel st st' (T c l x r) node _ HR Hn Hfuel Hi' Hch).
        intros z. split.
        -- intros Hz. apply (Permutation_in _ Hperm) in Hz.
           destruct Hz as [<-|Hz]; auto.
        -- intros Hz. apply (Permutation_in _ (Permutation_sym Hperm)).
           destruct Hz as [->|Hz]; [now left|now right].
    + split.
      * split; [exact HR'|]. split; [exact Hrb'|]. split; [exact Hso|].
        intros Hf. congruence.
      * right. split; [exact Hm|]. split; [reflexivity|].
        exists p. split; [exact Hp|]. split; assumption.
Qed.

Lemma remove_contents (fuel : nat) (st : RBTree) (tr : tree) (node : nat) :
  holds st tr -> In node (ids tr) -> height tr <= S fuel ->
  exists st' t',
    remove cmp key multiple fuel st node = Ok st' /\ holds st' t' /\
    without node (ids tr) (ids t').
Proof.
  intros (HR & Hrb & Hso & Hch) Hn Hfuel.
  destruct (remove_spec K cmp key multiple fuel st tr node HR Hrb Hn Hfuel)
    as (st' & t' & Hi & HR' & Hrb' & Hw & Hk).
  exists st', t'. split; [exact Hi|]. split; [|exact Hw].
  split; [exact HR'|]. split; [exact Hrb'|].
  split; [exact (without_sorted _ _ _ _ Hw Hso)|].
  exact (Hk cmp_swo Hch).
Qed.

(** What one call does to a tree that holds [t]. *)
Lemma insert_holds (fuel : nat) (st st' : RBTree) (t : tree) (node : nat) :
  holds st t -> ~ linked st node ->
  insert cmp key multiple fuel st node = Ok st' ->
  exists t', holds st' t' /\
    (Permutation (ids t') (node :: ids t) \/
     (multiple = false /\ t' = t /\
      exists p, In p (ids t) /\ equivalent cmp (key node) (key p))).
Proof.
  intros Hh Hn Hi. pose proof Hh as (HR & _).
  rewrite (linked_iff _ _ node HR) in Hn.
  destruct (insert_contents (Nat.max fuel (height t)) st t node Hh Hn
              (Nat.le_max_r _ _)) as (st2 & t' & Hi2 & Hh' & Hc).
  rewrite (insert_mono K cmp key multiple _ _ _ _ _ (Nat.le_max_l _ _) Hi) in Hi2.
  injection Hi2 as <-. now exists t'.
Qed.

Lemma remove_holds (fuel : nat) (st st' : RBTree) (t : tree) (node : nat) :
  holds st t -> linked st node ->
  remove cmp key multiple fuel st node = Ok st' ->
  exists t', holds st' t' /\ without node (ids t) (ids t').
Proof.
  intros Hh Hn Hi. pose proof Hh as (HR & _).
  rewrite (linked_iff _ _ node HR) in Hn.
  destruct (remove_contents (Nat.max fuel (height t)) st t node Hh Hn
              ltac:(lia)) as (st2 & t' & Hi2 & Hh' & Hc).
  rewrite (remove_mono K cmp key multiple _ _ _ _ _ (Nat.le_max_l _ _) Hi) in Hi2.
  injection Hi2 as <-. now exists t'.
Qed.

(** Every tree that the calls build holds a red-black tree in key order. *)
Lemma built_holds (st : RBTree) :
  built cmp key multiple st -> exists t, holds st t.
Proof.
  induction 1 as [m|st st' fuel node Hb IH Hn Hi|st st' fuel node Hb IH Hn Hi].
  - exists E. split; [|split; [|split]].
    + repeat split. constructor.
    + repeat split.
    + constructor.
    + apply chains_ok_nil.
  - destruct IH as (t & Hh).
    destruct (insert_holds fuel st st' t node Hh Hn Hi) as (t' & Hh' & _).
    now exists t'.
  - destruct IH as (t & Hh).
    destruct (remove_holds fuel st st' t node Hh Hn Hi) as (t' & Hh' & _).
    now exists t'.
Qed.

Lemma insert_linked (fuel : nat) (st st' : RBTree) (t : tree) (node : nat) :
  holds st t -> ~ linked st node ->
  insert cmp key multiple fuel st node = Ok st' ->
  (forall x, linked st' x -> x = node \/ linked st x) /\
  (forall x, linked st x -> linked st' x) /\
  (multiple = true \/
   (forall p, linked st p -> ~ equivalent cmp (key node) (key p)) ->
   linked st' node).
Proof.
  intros Hh Hn Hi.
  destruct (insert_holds fuel st st' t node Hh Hn Hi) as (t' & Hh' & Hc).
  destruct Hh as (HR & _). destruct Hh' as (HR' & _).
  destruct Hc as [Hp|(Hm & -> & p & Hp & He)].
  - split; [|split].
    + intros x Hx. apply (linked_iff _ _ x HR') in Hx.
      apply (Permutation_in _ Hp) in Hx. destruct Hx as [<-|Hx]; [now left|].
      right. now apply (linked_iff _ _ x HR).
    + intros x Hx. apply (linked_iff _ _ x HR').
      apply (Permutation_in _ (Permutation_sym Hp)). right.
      now apply (linked_iff _ _ x HR).
    + intros _. apply (linked_iff _ _ node HR').
      apply (Permutation_in _ (Permutation_sym Hp)). now left.
  - split; [|split].
    + intros x Hx. right. apply (linked_iff _ _ x HR).
      now apply (linked_iff _ _ x HR').
    + intros x Hx. apply (linked_iff _ _ x HR').
      now apply (linked_iff _ _ x HR).
    + intros [Ht|Hno]; [congruence|].
      exfalso. apply (Hno p); [|exact He]. now apply (linked_iff _ _ p HR).
Qed.

Lemma remove_linked (fuel : nat) (st st' : RBTree) (t : tree) (node : nat) :
  holds st t -> linked st node ->
  remove cmp key multiple fuel st node = Ok st' ->
  forall x, linked st' x <-> linked st x /\ x <> node.
Proof.
  intros Hh Hn Hr.
  destruct (remove_holds fuel st st' t node Hh Hn Hr) as (t' & (HR' & _) & Hw).
  destruct Hh as (HR & _). intros x.
  rewrite (linked_iff _ _ x HR'), (linked_iff _ _ x HR).
  apply without_in; [exact Hw|]. now destruct HR as (_ & _ & Hnd).
Qed.

(** [insert] on a built tree returns, links the new node and nothing else,
    and unlinks nothing.  The node is linked whenever duplicates are
    admitted, and also when no linked node has an equivalent key. *)
Theorem insert_links_node (st : RBTree) (node : nat) :
  built cmp key multiple st -> ~ linked st node ->
  exists n, forall fuel, n <= fuel ->
    exists st',
      insert cmp key multiple fuel st node = Ok st' /\
      (forall x, linked st' x -> x = node \/ linked st x) /\
      (forall x, linked st x -> linked st' x) /\
      (multiple = true \/
       (forall p, linked st p -> ~ equivalent cmp (key node) (key p)) ->
       linked st' node).
Proof.
  intros Hb Hn. destruct (built_holds st Hb) as (t & Hh).
  exists (height t). intros fuel Hfuel.
  pose proof Hh as (HR & _).
  pose proof Hn as Hn'. rewrite (linked_iff _ _ node HR) in Hn'.
  destruct (insert_contents fuel st t node Hh Hn' Hfuel) as (st' & t' & Hi & _).
  exists st'. split; [exact Hi|].
  exact (insert_linked fuel st st' t node Hh Hn Hi).
Qed.

(** [remove] of a linked node of a built tree returns and unlinks the node
    and nothing else. *)
Theorem remove_unlinks_node (st : RBTree) (node : nat) :
  built cmp key multiple st -> linked st node ->
  exists n, forall fuel, n <= fuel ->
    exists st',
      remove cmp key multiple fuel st node = Ok st' /\
      forall x, linked st' x <-> linked st x /\ x <> node.
Proof.
  intros Hb Hn. destruct (built_holds st Hb) as (t & Hh).
  exists (height t). intros fuel Hfuel.
  pose proof Hh as (HR & _).
  pose proof Hn as Hn'. rewrite (linked_iff _ _ node HR) in Hn'.
  destruct (remove_contents fuel st t node Hh Hn' ltac:(lia))
    as (st' & t' & Hi & (HR' & _) & Hw).
  exists st'. split; [exact Hi|]. intros x.
  rewrite (linked_iff _ _ x HR'), (linked_iff _ _ x HR).
  apply without_in; [exact Hw|]. now destruct HR as (_ & _ & Hnd).
Qed.

(** Taking a node out and putting it back, as the deletion benchmark does,
    leaves the linked nodes as they were. *)
Theorem remove_then_insert (st : RBTree) (node : nat) :
  multiple = true ->
  built cmp key multiple st -> linked st node ->
  exists n, forall fuel, n <= fuel ->
    exists st1 st2,
      remove cmp key multiple fuel st node = Ok st1 /\
      insert cmp key multiple fuel st1 node = Ok st2 /\
      built cmp key multiple st2 /\ forall x, linked st2 x <-> linked st x.
Proof.
  intros Hm Hb Hn. destruct (built_holds st Hb) as (t & Hh).
  exists (length (ids t)). intros fuel Hfuel.
  pose proof Hh as (HR & _).
  pose proof Hn as Hn'. rewrite (linked_iff _ _ node HR) in Hn'.
  pose proof (height_le_size t) as Hht.
  destruct (remove_contents fuel st t node Hh Hn' ltac:(lia))
    as (st1 & t1 & Hr & Hh1 & Hw).
  assert (Hnd : NoDup (ids t)) by (destruct HR as (_ & _ & Hnd); exact Hnd).
  pose proof (without_in _ _ _ Hw Hnd) as Hin.
  pose proof (without_length _ _ _ Hw) as Hlen.
  assert (Hn1 : ~ In node (ids t1)) by (rewrite Hin; tauto).
  pose proof (height_le_size t1) as Hht1.
  destruct (insert_contents fuel st1 t1 node Hh1 Hn1 ltac:(lia))
    as (st2 & t2 & Hi & Hh2 & Hc).
  exists st1, st2. split; [exact Hr|]. split; [exact Hi|].
  pose proof Hh1 as (HR1 & _). pose proof Hh2 as (HR2 & _).
  split.
  { apply built_insert with (st := st1) (fuel := fuel) (node := node);
      [|now rewrite (linked_iff _ _ node HR1)|exact Hi].
    now apply built_remove with (st := st) (fuel := fuel) (node := node). }
  destruct Hc as [Hp|(Hf & _)]; [|congruence].
  intros x. rewrite (linked_iff _ _ x HR2), (linked_iff _ _ x HR).
  split.
  - intros Hx. apply (Permutation_in _ Hp) in Hx. destruct Hx as [Hx|Hx].
    + now subst x.
    + apply Hin in Hx. tauto.
  - intros Hx. apply (Permutation_in _ (Permutation_sym Hp)).
    destruct (Nat.eq_dec x node) as [->|Hne]; [now left|].
    right. apply Hin. tauto.
Qed.

(** Putting a node in and taking it out again leaves the linked nodes as
    they were. *)
Theorem insert_then_remove (st : RBTree) (node : nat) :
  built cmp key multiple st -> ~ linked st node ->
  multiple = true \/
  (forall p, linked st p -> ~ equivalent cmp (key node) (key p)) ->
  exists n, forall fuel, n <= fuel ->
    exists st1 st2,
      insert cmp key multiple fuel st node = Ok st1 /\
      remove cmp key multiple fuel st1 node = Ok st2 /\
      built cmp key multiple st2 /\ forall x, linked st2 x <-> linked st x.
Proof.
  intros Hb Hn Hadm. destruct (built_holds st Hb) as (t & Hh).
  exists (length (ids t)). intros fuel Hfuel.
  pose proof Hh as (HR & _).
  pose proof Hn as Hn'. rewrite (linked_iff _ _ node HR) in Hn'.
  pose proof (height_le_size t) as Hht.
  destruct (insert_contents fuel st t node Hh Hn' ltac:(lia))
    as (st1 & t1 & Hi & Hh1 & Hc).
  assert (Hp : Permutation (ids t1) (node :: ids t)).
  { destruct Hc as [Hp|(Hf & _ & p & Hp & He)]; [exact Hp|].
    destruct Hadm as [Ht|Hno]; [congruence|].
    exfalso. apply (Hno p); [|exact He]. now apply (linked_iff _ _ p HR). }
  pose proof Hh1 as (HR1 & _).
  assert (Hn1 : In node (ids t1))
    by (apply (Permutation_in _ (Permutation_sym Hp)); now left).
  pose proof (height_le_size t1) as Hht1.
  pose proof (Permutation_length Hp) as Hlen. cbn [length] in Hlen.
  destruct (remove_contents fuel st1 t1 node Hh1 Hn1 ltac:(lia))
    as (st2 & t2 & Hr & Hh2 & Hw).
  exists st1, st2. split; [exact Hi|]. split; [exact Hr|].
  pose proof Hh2 as (HR2 & _).
  split.
  { apply built_remove with (st := st1) (fuel := fuel) (node := node);
      [|now rewrite (linked_iff _ _ node HR1)|exact Hr].
    now apply built_insert with (st := st) (fuel := fuel) (node := node). }
  assert (Hnd1 : NoDup (ids t1)) by (destruct HR1 as (_ & _ & Hnd); exact Hnd).
  intros x. rewrite (linked_iff _ _ x HR2), (linked_iff _ _ x HR).
  rewrite (without_in _ _ _ Hw Hnd1 x). split.
  - intros (Hx & Hne). apply (Permutation_in _ Hp) in Hx.
    destruct Hx as [Hx|Hx]; [congruence|exact Hx].
  - intros Hx. split.
    + apply (Permutation_in _ (Permutation_sym Hp)). now right.
    + intros ->. contradiction.
Qed.

End Ops.

Arguments holds {K} cmp key multiple st t.

(** *** Trees built by a run of inserts *)

Lemma built_inserts (key : nat -> nat) (fuel : nat) (l : list nat) :
  forall st t,
    built Nat.ltb key true st -> (forall x, In x l -> ~ linked st x) -> NoDup l ->
    Scenario.rb_run key true fuel (map Scenario.Ins l) st = Ok t ->
    built Nat.ltb key true t /\ forall x, linked t x <-> In x l \/ linked st x.
Proof.
  induction l as [|a l IH]; intros st t Hb Hn Hnd Hrun; cbn [map Scenario.rb_run] in Hrun.
  - injection Hrun as <-. split; [exact Hb|]. intros x. cbn [In]. tauto.
  - destruct (insert Nat.ltb key true fuel st a) as [st1|e] eqn:Hi; [|discriminate].
    cbn [bind] in Hrun.
    destruct (built_holds nat Nat.ltb key true ltb_strict_weak_order st Hb) as (t0 & Hh).
    assert (Ha : ~ linked st a) by (apply Hn; now left).
    destruct (insert_linked nat Nat.ltb key true ltb_strict_weak_order
                fuel st st1 t0 a Hh Ha Hi) as (H1 & H2 & H3).
    inversion Hnd as [|? ? Hal Hnd']; subst.
    destruct (IH st1 t) as (Hbt & Hl).
    + now apply built_insert with (st := st) (fuel := fuel) (node := a).
    + intros x Hx Hlx. destruct (H1 x Hlx) as [->|Hlx']; [contradiction|].
      apply (Hn x); [now right|exact Hlx'].
    + exact Hnd'.
    + exact Hrun.
    + split; [exact Hbt|]. intros x. rewrite Hl. cbn [In]. split.
      * intros [Hx|Hx]; [tauto|]. destruct (H1 x Hx); [left; left; congruence|tauto].
      * intros [[<-|Hx]|Hx]; [right; apply H3; now left|tauto|right; now apply H2].
Qed.

Lemma built_inserts_empty (key : nat -> nat) (fuel : nat) (l : list nat) (t : RBTree) :
  NoDup l ->
  Scenario.rb_run key true fuel (map Scenario.Ins l) Scenario.rb_empty = Ok t ->
  built Nat.ltb key true t /\ forall x, linked t x <-> In x l.
Proof.
  intros Hnd Hrun.
  destruct (built_inserts key fuel l Scenario.rb_empty t) as (Hb & Hl).
  - apply built_empty.
  - intros x _. apply nothing_linked_in_empty.
  - exact Hnd.
  - exact Hrun.
  - split; [exact Hb|]. intros x. rewrite Hl. split; [|tauto].
    intros [H|H]; [exact H|]. now apply nothing_linked_in_empty in H.
Qed.

(** The tree with the nodes 5, 3 and 8, each its own key. *)
Lemma tree_538 :
  exists t,
    Scenario.rb_run Scenario.key_id true 100
      (map Scenario.Ins [5; 3; 8]) Scenario.rb_empty = Ok t /\
    built Nat.ltb Scenario.key_id true t /\
    forall x, linked t x <-> In x [5; 3; 8].
Proof.
  assert (F : (t <- Scenario.rb_run Scenario.key_id true 100
                 (map Scenario.Ins [5; 3; 8]) Scenario.rb_empty ;;
               Ok (root t)) = Ok (Some 5)).
  { vm_compute. reflexivity. }
  apply bind_ok_inv in F. destruct F as (t & Ht & _).
  exists t. split; [exact Ht|].
  apply (built_inserts_empty Scenario.key_id 100 [5; 3; 8] t); [|exact Ht].
  repeat constructor; cbn [In]; lia.
Qed.

Lemma bind_ok_inv2 {A B C : Type} (r : result A) (f : A -> result B)
  (g : B -> C) (v : C) :
  (x <- r ;; y <- f x ;; Ok (g y)) = Ok v ->
  exists x y, r = Ok x /\ f x = Ok y /\ g y = v.
Proof.
  destruct r as [x|e]; cbn [bind]; [|discriminate].
  destruct (f x) as [y|e] eqn:Hf; cbn [bind]; [|discriminate].
  intros H. exists x, y. repeat split; congruence.
Qed.

Lemma insert_links_node_witness :
  exists t,
    Scenario.rb_run Scenario.key_id true 100
      (map Scenario.Ins [5; 3; 8]) Scenario.rb_empty = Ok t /\
    exists n, forall fuel, n <= fuel ->
      exists t',
        insert Nat.ltb Scenario.key_id true fuel t 7 = Ok t' /\
        (forall x, linked t' x -> x = 7 \/ linked t x) /\
        (forall x, linked t x -> linked t' x) /\
        (true = true \/
         (forall p, linked t p ->
            ~ equivalent Nat.ltb (Scenario.key_id 7) (Scenario.key_id p)) ->
         linked t' 7).
Proof.
  destruct tree_538 as (t & Ht & Hb & Hl). exists t. split; [exact Ht|].
  assert (H7 : ~ linked t 7) by (rewrite Hl; cbn [In]; lia).
  exact (insert_links_node nat Nat.ltb Scenario.key_id true ltb_strict_weak_order
           t 7 Hb H7).
Defined.

Lemma remove_unlinks_node_witness :
  exists t,
    Scenario.rb_run Scenario.key_id true 100
      (map Scenario.Ins [5; 3; 8]) Scenario.rb_empty = Ok t /\
    exists n, forall fuel, n <= fuel ->
      exists t',
        remove Nat.ltb Scenario.key_id true fuel t 5 = Ok t' /\
        forall x, linked t' x <-> linked t x /\ x <> 5.
Proof.
  destruct tree_538 as (t & Ht & Hb & Hl). exists t. split; [exact Ht|].
  assert (H5 : linked t 5) by (rewrite Hl; cbn [In]; lia).
  exact (remove_unlinks_node nat Nat.ltb Scenario.key_id true ltb_strict_weak_order
           t 5 Hb H5).
Defined.

Lemma remove_then_insert_witness :
  exists t,
    Scenario.rb_run Scenario.key_id true 100
      (map Scenario.Ins [5; 3; 8]) Scenario.rb_empty = Ok t /\
    exists n, forall fuel, n <= fuel ->
      exists t1 t2,
        remove Nat.ltb Scenario.key_id true fuel t 5 = Ok t1 /\
        insert Nat.ltb Scenario.key_id true fuel t1 5 = Ok t2 /\
        built Nat.ltb Scenario.key_id true t2 /\
        forall x, linked t2 x <-> linked t x.
Proof.
  destruct tree_538 as (t & Ht & Hb & Hl). exists t. split; [exact Ht|].
  assert (H5 : linked t 5) by (rewrite Hl; cbn [In]; lia).
  exact (remove_then_insert nat Nat.ltb Scenario.key_id true ltb_strict_weak_order
           t 5 eq_refl Hb H5).
Defined.

Lemma insert_then_remove_witness :
  exists t,
    Scenario.rb_run Scenario.key_id true 100
      (map Scenario.Ins [5; 3; 8]) Scenario.rb_empty = Ok t /\
    exists n, forall fuel, n <= fuel ->
      exists t1 t2,
        insert Nat.ltb Scenario.key_id true fuel t 7 = Ok t1 /\
        remove Nat.ltb Scenario.key_id true fuel t1 7 = Ok t2 /\
        built Nat.ltb Scenario.key_id true t2 /\
        forall x, linked t2 x <-> linked t x.
Proof.
  destruct tree_538 as (t & Ht & Hb & Hl). exists t. split; [exact Ht|].
  assert (H7 : ~ linked t 7) by (rewrite Hl; cbn [In]; lia).
  exact (insert_then_remove nat Nat.ltb Scenario.key_id true ltb_strict_weak_order
           t 7 Hb H7 (or_introl eq_refl)).
Defined.

(** *** Trees built by a run of inserts and removes *)

(** The nodes that are linked after the run [ops] from a tree with the nodes
    [cur]; there is none when the run inserts a linked node or removes a
    node that is not linked. *)
Fixpoint linked_after (ops : list Scenario.op) (cur : list nat) : option (list nat) :=
  match ops with
  | [] => Some cur
  | Scenario.Ins x :: ops' =>
      if existsb (Nat.eqb x) cur then None else linked_after ops' (x :: cur)
  | Scenario.Rem x :: ops' =>
      if existsb (Nat.eqb x) cur
      then linked_after ops' (List.remove Nat.eq_dec x cur)
      else None
  end.

Lemma existsb_eqb_in (x : nat) (l : list nat) :
  existsb (Nat.eqb x) l = true <-> In x l.
Proof.
  rewrite existsb_exists. split.
  - intros (y & Hy & E). apply Nat.eqb_eq in E. now subst.
  - intros H. exists x. split; [exact H|apply Nat.eqb_refl].
Qed.

Lemma built_run (key : nat -> nat) (fuel : nat) (ops : list Scenario.op) :
  forall st t cur l,
    built Nat.ltb key true st -> (forall x, linked st x <-> In x cur) ->
    linked_after ops cur = Some l ->
    Scenario.rb_run key true fuel ops st = Ok t ->
    built Nat.ltb key true t /\ forall x, linked t x <-> In x l.
Proof.
  induction ops as [|[a|a] ops IH]; intros st t cur l Hb Hcur Hl Hrun;
    cbn [linked_after Scenario.rb_run] in Hl, Hrun.
  - injection Hl as <-. injection Hrun as <-. now split.
  - destruct (existsb (Nat.eqb a) cur) eqn:Ea; [discriminate|].
    assert (Ha : ~ linked st a).
    { rewrite Hcur, <- existsb_eqb_in, Ea. discriminate. }
    destruct (insert Nat.ltb key true fuel st a) as [st1|e] eqn:Hi; [|discriminate].
    cbn [bind] in Hrun.
    destruct (built_holds nat Nat.ltb key true ltb_strict_weak_order st Hb) as (t0 & Hh).
    destruct (insert_linked nat Nat.ltb key true ltb_strict_weak_order
                fuel st st1 t0 a Hh Ha Hi) as (H1 & H2 & H3).
    apply (IH st1 t (a :: cur) l); [| |exact Hl|exact Hrun].
    + now apply built_insert with (st := st) (fuel := fuel) (node := a).
    + intros x. cbn [In]. split.
      * intros Hx. destruct (H1 x Hx) as [->|Hx']; [now left|].
        right. now apply Hcur.
      * intros [<-|Hx]; [apply H3; now left|]. apply H2. now apply Hcur.
  - destruct (existsb (Nat.eqb a) cur) eqn:Ea; [|discriminate].
    assert (Ha : linked st a) by (apply Hcur; now apply existsb_eqb_in).
    destruct (remove Nat.ltb key true fuel st a) as [st1|e] eqn:Hr; [|discriminate].
    cbn [bind] in Hrun.
    destruct (built_holds nat Nat.ltb key true ltb_strict_weak_order st Hb) as (t0 & Hh).
    pose proof (remove_linked nat Nat.ltb key true ltb_strict_weak_order
                  fuel st st1 t0 a Hh Ha Hr) as H1.
    apply (IH st1 t (List.remove Nat.eq_dec a cur) l); [| |exact Hl|exact Hrun].
    + now apply built_remove with (st := st) (fuel := fuel) (node := a).
    + intros x. rewrite H1, Hcur. split.
      * intros (Hx & Hne). now apply in_in_remove.
      * intros Hx. apply in_remove in Hx. exact Hx.
Qed.

(** Six inserts and two removes: the insert of 3 and of 1 recolors, the
    remove of the BLACK leaf 15 rotates and recolors, and the remove of the
    root 5 exchanges it with node 7.  The tree is left with the BLACK root
    7 over the BLACK nodes 3 and 10, and with the RED leaf 1 below 3. *)
Lemma rb_invariants_hold_witness :
  exists st,
    Scenario.rb_run Scenario.key_id true 100
      (map Scenario.Ins [10; 5; 15; 3; 7; 1] ++ [Scenario.Rem 15; Scenario.Rem 5])
      Scenario.rb_empty = Ok st /\
    root st = Some 7 /\
    _rbt_color (mem st 1) = RED /\ _rbt_parent (mem st 1) = Some 3 /\
    tree_ok st /\
    exists n, forall fuel node,
      n <= fuel ->
      (~ linked st node ->
       exists st', insert Nat.ltb Scenario.key_id true fuel st node = Ok st') /\
      (linked st node ->
       exists st', remove Nat.ltb Scenario.key_id true fuel st node = Ok st').
Proof.
  assert (F : (t <- Scenario.rb_run Scenario.key_id true 100
                 (map Scenario.Ins [10; 5; 15; 3; 7; 1] ++
                  [Scenario.Rem 15; Scenario.Rem 5]) Scenario.rb_empty ;;
               Ok (root t, _rbt_color (mem t 1), _rbt_parent (mem t 1)))
              = Ok (Some 7, RED, Some 3)).
  { vm_compute. reflexivity. }
  apply bind_ok_inv in F. destruct F as (st & Hst & F). injection F as F1 F2 F3.
  exists st. split; [exact Hst|]. split; [exact F1|]. split; [exact F2|].
  split; [exact F3|].
  apply (rb_invariants_hold nat Nat.ltb Scenario.key_id true ltb_asymmetric st).
  apply (built_run Scenario.key_id 100
           (map Scenario.Ins [10; 5; 15; 3; 7; 1] ++ [Scenario.Rem 15; Scenario.Rem 5])
           Scenario.rb_empty st [] [1; 7; 3; 10]).
  - apply built_empty.
  - intros x. split; [intros H; now apply nothing_linked_in_empty in H|intros []].
  - reflexivity.
  - exact Hst.
Defined.

End Contents.

Import RB RBMem RBSpec NoDupFacts Shape Rotate Inv Frames InsertFixup InsertLeaf
  Ordering HintedInsert DeleteFixup DeleteCases Links Chains Remove Fuel Invariants Contents.

(** ** Iterators: [step_forward], [step_back], [begin] and the range loop *)

Module Iteration.

Definition last_error (l : list nat) : option nat := hd_error (rev l).

Lemma last_error_app (l : list nat) (x : nat) : last_error (l ++ [x]) = Some x.
Proof. unfold last_error. now rewrite rev_app_distr. Qed.

Lemma last_error_app_cons (l l' : list nat) (x : nat) :
  last_error (l ++ x :: l') = last_error (x :: l').
Proof.
  unfold last_error. rewrite rev_app_distr. cbn [rev].
  destruct (rev l' ++ [x]) eqn:H; [|reflexivity].
  now destruct (rev l').
Qed.

Lemma last_error_in (l : list nat) (x : nat) : last_error l = Some x -> In x l.
Proof.
  unfold last_error. intros H. apply in_rev.
  destruct (rev l); [discriminate|]. injection H as ->. now left.
Qed.

Lemma hd_error_in (l : list nat) (x : nat) : hd_error l = Some x -> In x l.
Proof. destruct l; [discriminate|]. intros [= ->]. now left. Qed.

(** A name splits a duplicate-free sequence in one way only. *)
Lemma split_unique (x : nat) (a b a' b' : list nat) :
  NoDup (a ++ x :: b) -> a ++ x :: b = a' ++ x :: b' -> a = a' /\ b = b'.
Proof.
  revert a'. induction a as [|y a IH]; intros a' Hnd Heq.
  - destruct a' as [|z a'].
    + cbn [app] in Heq. injection Heq as ->. now split.
    + cbn [app] in Heq, Hnd. injection Heq as <- ->.
      inversion Hnd as [|? ? Hx _]; subst. exfalso. apply Hx.
      apply in_or_app. right. now left.
  - destruct a' as [|z a'].
    + cbn [app] in Heq, Hnd. injection Heq as -> <-.
      inversion Hnd as [|? ? Hx _]; subst. exfalso. apply Hx.
      apply in_or_app. right. now left.
    + cbn [app] in Heq, Hnd. injection Heq as -> Heq.
      inversion Hnd as [|? ? _ Hnd']; subst.
      destruct (IH a' Hnd' Heq) as (-> & ->). now split.
Qed.

(** *** The largest node of a subtree *)

Lemma rightmost_spec (st : RBTree) (s : tree) :
  forall K fuel,
    s <> E -> Rep st (plug s K) -> length (ids s) <= fuel ->
    exists x c2 a n2 KK,
      rootp s = Some x /\
      rightmost fuel (mem st) x = Ok n2 /\
      s = plug (T c2 a n2 E) KK /\
      cright KK = [].
Proof.
  induction s as [|cs sl _ sx sr IHr]; intros K fuel Hne HR Hfuel; [congruence|].
  destruct (read_node _ _ _ _ _ _ HR) as (_ & Hr & _).
  destruct sr as [|cr srl srx srr].
  - exists sx, cs, sl, sx, []. split; [reflexivity|]. split.
    + destruct fuel; cbn [rightmost]; now rewrite Hr.
    + split; reflexivity.
  - cbn [ids] in Hfuel. rewrite !length_app in Hfuel. cbn [length] in Hfuel.
    rewrite !length_app in Hfuel. cbn [length] in Hfuel.
    destruct fuel as [|fuel]; [lia|].
    destruct (IHr (FR cs sl sx :: K) fuel ltac:(discriminate) HR)
      as (x & c2 & a & n2 & KK & Hx & Hrm & Hpl & Hcr).
    { cbn [ids]. rewrite !length_app. cbn [length]. lia. }
    exists sx, c2, a, n2, (KK ++ [FR cs sl sx]). split; [reflexivity|]. split.
    + cbn [rightmost]. rewrite Hr. cbn [rootp] in *. injection Hx as <-. exact Hrm.
    + split.
      * rewrite plug_app. cbn [plug fill]. now rewrite <- Hpl.
      * rewrite cright_app, Hcr. reflexivity.
Qed.

Lemma leftmost_hd (st : RBTree) (s : tree) (k : context) (fuel : nat) (x : nat) :
  Rep st (plug s k) -> rootp s = Some x -> length (ids s) <= fuel ->
  exists y, leftmost fuel (mem st) x = Ok y /\ hd_error (ids s) = Some y.
Proof.
  intros HR Hx Hfuel.
  destruct (leftmost_spec st s k fuel ltac:(intros ->; discriminate) HR
              ltac:(pose proof (height_le_size s); lia))
    as (x' & c2 & n2 & b & KK & Hx' & Hlm & Hpl & _ & Hcl).
  rewrite Hx in Hx'. injection Hx' as <-.
  exists n2. split; [exact Hlm|].
  rewrite Hpl, ids_plug, Hcl. reflexivity.
Qed.

Lemma rightmost_last (st : RBTree) (s : tree) (k : context) (fuel : nat) (x : nat) :
  Rep st (plug s k) -> rootp s = Some x -> length (ids s) <= fuel ->
  exists y, rightmost fuel (mem st) x = Ok y /\ last_error (ids s) = Some y.
Proof.
  intros HR Hx Hfuel.
  destruct (rightmost_spec st s k fuel ltac:(intros ->; discriminate) HR Hfuel)
    as (x' & c2 & a & n2 & KK & Hx' & Hrm & Hpl & Hcr).
  rewrite Hx in Hx'. injection Hx' as <-.
  exists n2. split; [exact Hrm|].
  rewrite Hpl, ids_plug, Hcr, app_nil_r. cbn [ids].
  rewrite !app_assoc. apply last_error_app.
Qed.

(** *** Climbing to the next and to the previous node *)

Lemma skip_up_right_spec (st : RBTree) (k : context) :
  forall s x fuel,
    Rep st (plug s k) -> rootp s = Some x -> length k <= fuel ->
    exists y, skip_up_right fuel (mem st) x = Ok y /\
              _rbt_parent (mem st y) = hd_error (cright k).
Proof.
  induction k as [|f k IH]; intros s x fuel HR Hx Hfuel.
  - exists x. pose proof (read_hole_parent _ _ _ _ HR Hx) as Hp.
    cbn [cpar] in Hp. split; [|exact Hp].
    destruct fuel; cbn [skip_up_right]; now rewrite Hp.
  - pose proof (read_hole_parent _ _ _ _ HR Hx) as Hp. cbn [cpar] in Hp.
    pose proof (is_right_child _ _ _ _ _ HR Hx) as Hrc.
    destruct f as [cp p sib|cp sib p]; cbn [fid is_FL negb] in *.
    + exists x. split; [|now rewrite Hp].
      destruct fuel; cbn [skip_up_right]; now rewrite Hp, Hrc.
    + cbn [length] in Hfuel. destruct fuel as [|fuel]; [lia|].
      cbn [skip_up_right]. rewrite Hp, Hrc. cbn [cright].
      apply (IH (T cp sib p s) p fuel); [exact HR|reflexivity|lia].
Qed.

Lemma skip_up_left_spec (st : RBTree) (k : context) :
  forall s x fuel,
    Rep st (plug s k) -> rootp s = Some x -> length k <= fuel ->
    exists y, skip_up_left fuel (mem st) x = Ok y /\
              _rbt_parent (mem st y) = last_error (cleft k).
Proof.
  induction k as [|f k IH]; intros s x fuel HR Hx Hfuel.
  - exists x. pose proof (read_hole_parent _ _ _ _ HR Hx) as Hp.
    cbn [cpar] in Hp. split; [|exact Hp].
    destruct fuel; cbn [skip_up_left]; now rewrite Hp.
  - pose proof (read_hole_parent _ _ _ _ HR Hx) as Hp. cbn [cpar] in Hp.
    pose proof (is_left_child _ _ _ _ _ HR Hx) as Hlc.
    destruct f as [cp p sib|cp sib p]; cbn [fid is_FL negb] in *.
    + cbn [length] in Hfuel. destruct fuel as [|fuel]; [lia|].
      cbn [skip_up_left]. rewrite Hp, Hlc. cbn [cleft].
      apply (IH (T cp s p sib) p fuel); [exact HR|reflexivity|lia].
    + exists x. split.
      * destruct fuel; cbn [skip_up_left]; now rewrite Hp, Hlc.
      * rewrite Hp. cbn [cleft]. rewrite !app_assoc. now rewrite last_error_app.
Qed.

(** *** One step of an iterator *)

Lemma step_forward_spec (st : RBTree) c l x r (k : context) (fuel : nat) :
  Rep st (plug (T c l x r) k) -> length (ids (plug (T c l x r) k)) <= fuel ->
  step_forward fuel (mem st) x = Ok (hd_error (ids r ++ cright k)).
Proof.
  intros HR Hfuel. unfold step_forward.
  destruct (read_node _ _ _ _ _ _ HR) as (_ & Hr & _). rewrite Hr.
  destruct r as [|cr rl rx rr]; cbn [rootp].
  - destruct (skip_up_right_spec st k (T c l x E) x fuel HR eq_refl)
      as (y & Hs & Hp).
    { pose proof (length_context_plug (T c l x E) k). lia. }
    rewrite Hs. cbn [bind ids app]. now rewrite Hp.
  - destruct (leftmost_hd st (T cr rl rx rr) (FR c l x :: k) fuel rx HR eq_refl)
      as (y & Hlm & Hhd).
    { pose proof (length_ids_plug (T cr rl rx rr) (FR c l x :: k)).
      cbn [plug fill] in H. lia. }
    rewrite Hlm. cbn [bind].
    destruct (ids (T cr rl rx rr)) as [|z zs]; [discriminate|].
    cbn [hd_error app] in *. now rewrite Hhd.
Qed.

Lemma step_back_spec (st : RBTree) c l x r (k : context) (fuel : nat) :
  Rep st (plug (T c l x r) k) -> length (ids (plug (T c l x r) k)) <= fuel ->
  step_back fuel (mem st) x = Ok (last_error (cleft k ++ ids l)).
Proof.
  intros HR Hfuel. unfold step_back.
  destruct (read_node _ _ _ _ _ _ HR) as (Hl & _). rewrite Hl.
  destruct l as [|cl ll lx lr]; cbn [rootp].
  - destruct (skip_up_left_spec st k (T c E x r) x fuel HR eq_refl)
      as (y & Hs & Hp).
    { pose proof (length_context_plug (T c E x r) k). lia. }
    rewrite Hs. cbn [bind ids]. now rewrite Hp, app_nil_r.
  - destruct (rightmost_last st (T cl ll lx lr) (FL c x r :: k) fuel lx HR eq_refl)
      as (y & Hrm & Hla).
    { pose proof (length_ids_plug (T cl ll lx lr) (FL c x r :: k)).
      cbn [plug fill] in H. lia. }
    rewrite Hrm. cbn [bind]. f_equal. rewrite <- Hla.
    cbn [ids]. rewrite app_assoc. now rewrite !last_error_app_cons.
Qed.

(** The step from a node leads to its neighbour in the in-order sequence. *)
Lemma step_forward_list (st : RBTree) (t : tree) (l1 l2 : list nat) (x fuel : nat) :
  Rep st t -> ids t = l1 ++ x :: l2 -> length (ids t) <= fuel ->
  step_forward fuel (mem st) x = Ok (hd_error l2).
Proof.
  intros HR Hids Hfuel.
  assert (Hin : In x (ids t)) by (rewrite Hids; apply in_or_app; right; now left).
  destruct (in_ids_split _ _ Hin) as (c & l & r & k & ->).
  rewrite (step_forward_spec st c l x r k fuel HR Hfuel).
  destruct HR as (_ & _ & Hnd). rewrite Hids in Hnd.
  rewrite ids_plug in Hids. cbn [ids] in Hids.
  rewrite <- app_assoc in Hids. cbn [app] in Hids.
  rewrite app_assoc in Hids. symmetry in Hids.
  destruct (split_unique x _ _ _ _ Hnd Hids) as (_ & ->). reflexivity.
Qed.

Lemma step_back_list (st : RBTree) (t : tree) (l1 l2 : list nat) (x fuel : nat) :
  Rep st t -> ids t = l1 ++ x :: l2 -> length (ids t) <= fuel ->
  step_back fuel (mem st) x = Ok (last_error l1).
Proof.
  intros HR Hids Hfuel.
  assert (Hin : In x (ids t)) by (rewrite Hids; apply in_or_app; right; now left).
  destruct (in_ids_split _ _ Hin) as (c & l & r & k & ->).
  rewrite (step_back_spec st c l x r k fuel HR Hfuel).
  destruct HR as (_ & _ & Hnd). rewrite Hids in Hnd.
  rewrite ids_plug in Hids. cbn [ids] in Hids.
  rewrite <- app_assoc in Hids. cbn [app] in Hids.
  rewrite app_assoc in Hids. symmetry in Hids.
  destruct (split_unique x _ _ _ _ Hnd Hids) as (-> & _). reflexivity.
Qed.

(** *** The range loop *)

Lemma iterate_from_spec (st : RBTree) (t : tree) (l2 : list nat) :
  forall l1 fuel,
    Rep st t -> ids t = l1 ++ l2 -> length (ids t) + length l2 <= fuel ->
    iterate_from fuel (mem st) (hd_error l2) = Ok l2.
Proof.
  induction l2 as [|x l2 IH]; intros l1 fuel HR Hids Hfuel.
  - destruct fuel; reflexivity.
  - cbn [length] in Hfuel. destruct fuel as [|fuel]; [lia|].
    cbn [hd_error iterate_from].
    rewrite (step_forward_list st t l1 l2 x (S fuel) HR Hids) by lia.
    cbn [bind].
    rewrite (IH (l1 ++ [x]) fuel HR); [reflexivity| |lia].
    rewrite <- app_assoc. exact Hids.
Qed.

Lemma get_smallest_spec (st : RBTree) (t : tree) (fuel : nat) :
  Rep st t -> length (ids t) <= fuel ->
  get_smallest fuel st = Ok (hd_error (ids t)).
Proof.
  intros HR Hfuel. unfold get_smallest.
  pose proof HR as (Hroot & _). rewrite Hroot.
  destruct t as [|c l x r]; cbn [rootp]; [reflexivity|].
  destruct (leftmost_hd st (T c l x r) [] fuel x HR eq_refl Hfuel) as (y & Hlm & Hhd).
  rewrite Hlm. cbn [bind]. now rewrite Hhd.
Qed.

Lemma get_largest_spec (st : RBTree) (t : tree) (fuel : nat) :
  Rep st t -> length (ids t) <= fuel ->
  get_largest fuel st = Ok (last_error (ids t)).
Proof.
  intros HR Hfuel. unfold get_largest.
  pose proof HR as (Hroot & _). rewrite Hroot.
  destruct t as [|c l x r]; cbn [rootp]; [reflexivity|].
  destruct (rightmost_last st (T c l x r) [] fuel x HR eq_refl Hfuel) as (y & Hrm & Hla).
  rewrite Hrm. cbn [bind]. now rewrite Hla.
Qed.

Lemma iterate_spec (st : RBTree) (t : tree) (fuel : nat) :
  Rep st t -> 2 * length (ids t) <= fuel ->
  iterate fuel st = Ok (ids t).
Proof.
  intros HR Hfuel. unfold iterate, begin.
  rewrite (get_smallest_spec st t fuel HR) by lia. cbn [bind].
  apply (iterate_from_spec st t (ids t) [] fuel HR eq_refl). lia.
Qed.

Lemma last_error_some (l : list nat) (x : nat) :
  last_error l = Some x -> exists l1, l = l1 ++ [x].
Proof.
  unfold last_error. intros H. destruct (rev l) as [|y r] eqn:Hr; [discriminate|].
  injection H as ->. exists (rev r).
  rewrite <- (rev_involutive l), Hr. reflexivity.
Qed.

Lemma last_error_none (l : list nat) : last_error l = None -> l = [].
Proof.
  unfold last_error. intros H. destruct (rev l) as [|y r] eqn:Hr; [|discriminate].
  rewrite <- (rev_involutive l), Hr. reflexivity.
Qed.

Section Built.

Variable K : Type.
Variable cmp : K -> K -> bool.
Variable key : nat -> K.
Variable multiple : bool.

Hypothesis cmp_swo : strict_weak_order cmp.

(** The range loop over a built tree visits every linked node once, in an
    order in which the keys never decrease; it needs no more fuel than twice
    the number of nodes. *)
Theorem iterate_in_order (st : RBTree) :
  built cmp key multiple st ->
  exists l,
    NoDup l /\ (forall x, In x l <-> linked st x) /\
    nondecreasing cmp key l /\
    forall fuel, 2 * length l <= fuel -> iterate fuel st = Ok l.
Proof.
  intros Hb. destruct (built_holds K cmp key multiple cmp_swo st Hb)
    as (t & HR & _ & Hso & _).
  exists (ids t). split; [now destruct HR as (_ & _ & Hnd)|].
  split; [intros x; symmetry; apply (linked_iff _ _ x HR)|].
  split; [now apply (nondecreasing_strongly cmp_swo)|].
  intros fuel Hfuel. now apply iterate_spec.
Qed.

(** [get_smallest] and [get_largest] answer null on a tree without nodes,
    and else a linked node below which, respectively above which, no linked
    node has its key. *)
Theorem smallest_and_largest (st : RBTree) :
  built cmp key multiple st ->
  exists n, forall fuel, n <= fuel ->
    exists lo hi,
      get_smallest fuel st = Ok lo /\ get_largest fuel st = Ok hi /\
      match lo with
      | None => forall x, ~ linked st x
      | Some a => linked st a /\ forall y, linked st y -> cmp (key y) (key a) = false
      end /\
      match hi with
      | None => forall x, ~ linked st x
      | Some b => linked st b /\ forall y, linked st y -> cmp (key b) (key y) = false
      end.
Proof.
  intros Hb. destruct (built_holds K cmp key multiple cmp_swo st Hb)
    as (t & HR & _ & Hso & _).
  exists (length (ids t)). intros fuel Hfuel.
  exists (hd_error (ids t)), (last_error (ids t)).
  split; [now apply get_smallest_spec|]. split; [now apply get_largest_spec|].
  split.
  - destruct (ids t) as [|a l] eqn:Hids; cbn [hd_error].
    + intros x Hx. apply (linked_iff _ _ x HR) in Hx. now rewrite Hids in Hx.
    + split; [apply (linked_iff _ _ a HR); rewrite Hids; now left|].
      intros y Hy. apply (linked_iff _ _ y HR) in Hy. rewrite Hids in Hy.
      apply StronglySorted_cons_iff in Hso. destruct Hso as (_ & Hall).
      destruct Hy as [<-|Hy]; [apply (proj1 cmp_swo)|exact (Hall y Hy)].
  - destruct (last_error (ids t)) as [b|] eqn:Hla.
    + destruct (last_error_some _ _ Hla) as (l1 & Hids).
      split; [apply (linked_iff _ _ b HR); rewrite Hids; apply in_or_app; right; now left|].
      intros y Hy. apply (linked_iff _ _ y HR) in Hy. rewrite Hids in Hy, Hso.
      apply StronglySorted_app in Hso. destruct Hso as (_ & _ & Hall).
      apply in_app_or in Hy. destruct Hy as [Hy|[<-|[]]].
      * apply (Hall y b Hy). now left.
      * apply (proj1 cmp_swo).
    + apply last_error_none in Hla.
      intros x Hx. apply (linked_iff _ _ x HR) in Hx. now rewrite Hla in Hx.
Qed.

(** From a linked node [step_forward] leads to a linked node whose key is
    not smaller and from which [step_back] leads back, or to the end when
    the node is the largest; and likewise for [step_back]. *)
Theorem steps_are_inverse (st : RBTree) (x : nat) :
  built cmp key multiple st -> linked st x ->
  exists n, forall fuel, n <= fuel ->
    exists nx pv,
      step_forward fuel (mem st) x = Ok nx /\ step_back fuel (mem st) x = Ok pv /\
      match nx with
      | Some y => linked st y /\ cmp (key y) (key x) = false /\
                  step_back fuel (mem st) y = Ok (Some x)
      | None => get_largest fuel st = Ok (Some x)
      end /\
      match pv with
      | Some y => linked st y /\ cmp (key x) (key y) = false /\
                  step_forward fuel (mem st) y = Ok (Some x)
      | None => get_smallest fuel st = Ok (Some x)
      end.
Proof.
  intros Hb Hx. destruct (built_holds K cmp key multiple cmp_swo st Hb)
    as (t & HR & _ & Hso & _).
  apply (linked_iff _ _ x HR) in Hx.
  destruct (in_split _ _ Hx) as (l1 & l2 & Hids).
  exists (length (ids t)). intros fuel Hfuel.
  exists (hd_error l2), (last_error l1).
  split; [now apply (step_forward_list st t l1 l2)|].
  split; [now apply (step_back_list st t l1 l2)|].
  rewrite Hids in Hso.
  apply StronglySorted_app in Hso. destruct Hso as (_ & Hso2 & Hso12).
  apply StronglySorted_cons_iff in Hso2. destruct Hso2 as (_ & Hx2).
  split.
  - destruct l2 as [|y l2']; cbn [hd_error].
    + rewrite (get_largest_spec st t fuel HR Hfuel), Hids.
      now rewrite last_error_app.
    + split; [apply (linked_iff _ _ y HR); rewrite Hids; apply in_or_app; right;
              right; now left|].
      split; [apply Hx2; now left|].
      rewrite (step_back_list st t (l1 ++ [x]) l2' y fuel HR); [|now rewrite <- app_assoc|exact Hfuel].
      now rewrite last_error_app.
  - destruct (last_error l1) as [y|] eqn:Hla.
    + destruct (last_error_some _ _ Hla) as (l0 & ->).
      split; [apply (linked_iff _ _ y HR); rewrite Hids; apply in_or_app; left;
              apply in_or_app; right; now left|].
      split; [apply (Hso12 y x); [apply in_or_app; right|]; now left|].
      rewrite (step_forward_list st t l0 (x :: l2) y fuel HR); [reflexivity| |exact Hfuel].
      now rewrite Hids, <- app_assoc.
    + apply last_error_none in Hla. subst l1.
      rewrite (get_smallest_spec st t fuel HR Hfuel), Hids. reflexivity.
Qed.

End Built.

Lemma tree_538_built :
  exists t,
    Scenario.rb_run Scenario.key_id true 100
      (map Scenario.Ins [5; 3; 8]) Scenario.rb_empty = Ok t /\
    built Nat.ltb Scenario.key_id true t /\ linked t 5.
Proof.
  destruct tree_538 as (t & Ht & Hb & Hl). exists t.
  split; [exact Ht|]. split; [exact Hb|]. apply Hl. now left.
Qed.

Lemma iterate_in_order_witness :
  exists t,
    Scenario.rb_run Scenario.key_id true 100
      (map Scenario.Ins [5; 3; 8]) Scenario.rb_empty = Ok t /\
    exists l,
      NoDup l /\ (forall x, In x l <-> linked t x) /\
      nondecreasing Nat.ltb Scenario.key_id l /\
      forall fuel, 2 * length l <= fuel -> iterate fuel t = Ok l.
Proof.
  destruct tree_538_built as (t & Ht & Hb & _). exists t. split; [exact Ht|].
  exact (iterate_in_order nat Nat.ltb Scenario.key_id true ltb_strict_weak_order t Hb).
Defined.

Lemma smallest_and_largest_witness :
  exists t,
    Scenario.rb_run Scenario.key_id true 100
      (map Scenario.Ins [5; 3; 8]) Scenario.rb_empty = Ok t /\
    exists n, forall fuel, n <= fuel ->
      exists lo hi,
        get_smallest fuel t = Ok lo /\ get_largest fuel t = Ok hi /\
        match lo with
        | None => forall x, ~ linked t x
        | Some a => linked t a /\
                    forall y, linked t y ->
                      Nat.ltb (Scenario.key_id y) (Scenario.key_id a) = false
        end /\
        match hi with
        | None => forall x, ~ linked t x
        | Some b => linked t b /\
                    forall y, linked t y ->
                      Nat.ltb (Scenario.key_id b) (Scenario.key_id y) = false
        end.
Proof.
  destruct tree_538_built as (t & Ht & Hb & _). exists t. split; [exact Ht|].
  exact (smallest_and_largest nat Nat.ltb Scenario.key_id true ltb_strict_weak_order t Hb).
Defined.

Lemma steps_are_inverse_witness :
  exists t,
    Scenario.rb_run Scenario.key_id true 100
      (map Scenario.Ins [5; 3; 8]) Scenario.rb_empty = Ok t /\
    exists n, forall fuel, n <= fuel ->
      exists nx pv,
        step_forward fuel (mem t) 5 = Ok nx /\ step_back fuel (mem t) 5 = Ok pv /\
        match nx with
        | Some y => linked t y /\
                    Nat.ltb (Scenario.key_id y) (Scenario.key_id 5) = false /\
                    step_back fuel (mem t) y = Ok (Some 5)
        | None => get_largest fuel t = Ok (Some 5)
        end /\
        match pv with
        | Some y => linked t y /\
                    Nat.ltb (Scenario.key_id 5) (Scenario.key_id y) = false /\
                    step_forward fuel (mem t) y = Ok (Some 5)
        | None => get_smallest fuel t = Ok (Some 5)
        end.
Proof.
  destruct tree_538_built as (t & Ht & Hb & H5). exists t. split; [exact Ht|].
  exact (steps_are_inverse nat Nat.ltb Scenario.key_id true ltb_strict_weak_order
           t 5 Hb H5).
Defined.

End Iteration.

Import RB RBMem RBSpec NoDupFacts Shape Rotate Inv Frames InsertFixup InsertLeaf
  Ordering HintedInsert DeleteFixup DeleteCases Links Chains Remove Fuel Invariants Contents
  Iteration.

(** ** Searching: [find] and [upper_bound] *)

Module Search.

Section Descent.

Variable K : Type.
Variable cmp : K -> K -> bool.
Variable key : nat -> K.
Variable multiple : bool.

Hypothesis cmp_swo : strict_weak_order cmp.

Variable query : K.

(** The node at which the descent of [find] stops, and the number of child
    links it follows. *)
Fixpoint hit (s : tree) : option nat :=
  match s with
  | E => None
  | T _ l x r =>
      if cmp query (key x) then hit l
      else if cmp (key x) query then hit r
      else Some x
  end.

Fixpoint hit_depth (s : tree) : nat :=
  match s with
  | E => 0
  | T _ l x r =>
      if cmp query (key x) then S (hit_depth l)
      else if cmp (key x) query then S (hit_depth r)
      else 0
  end.

Lemma hit_depth_height (s : tree) : hit_depth s <= height s.
Proof.
  induction s as [|c l IHl x r IHr]; cbn [hit_depth height]; [lia|].
  destruct (cmp query (key x)); [lia|]. destruct (cmp (key x) query); lia.
Qed.

Lemma hit_depth_le (s : tree) : hit_depth s <= length (ids s).
Proof.
  etransitivity; [apply hit_depth_height|apply height_le_size].
Qed.

Lemma hit_some (s : tree) (c : nat) :
  hit s = Some c -> In c (ids s) /\ equivalent cmp query (key c).
Proof.
  induction s as [|cs l IHl x r IHr]; cbn [hit ids]; [discriminate|].
  destruct (cmp query (key x)) eqn:H1.
  - intros H. destruct (IHl H). split; [apply in_or_app; now left|assumption].
  - destruct (cmp (key x) query) eqn:H2.
    + intros H. destruct (IHr H). split; [apply in_or_app; right; now right|assumption].
    + intros [= <-]. split; [apply in_or_app; right; now left|now split].
Qed.

Lemma sorted_node (c : Color) (l : tree) (x : nat) (r : tree) :
  StronglySorted (le cmp key) (ids (T c l x r)) ->
  StronglySorted (le cmp key) (ids l) /\ StronglySorted (le cmp key) (ids r) /\
  (forall y, In y (ids l) -> cmp (key x) (key y) = false) /\
  (forall y, In y (ids r) -> cmp (key y) (key x) = false).
Proof.
  cbn [ids]. intros H. apply StronglySorted_app in H. destruct H as (Hl & Hxr & Hlx).
  apply StronglySorted_cons_iff in Hxr. destruct Hxr as (Hr & Hx).
  split; [exact Hl|]. split; [exact Hr|]. split.
  - intros y Hy. apply (Hlx y x Hy). now left.
  - exact Hx.
Qed.

(** A key below [a] is below every key that is not below [a]. *)
Lemma below_trans (a b q : K) :
  cmp q a = true -> cmp b a = false -> cmp q b = true.
Proof.
  intros H1 H2. destruct (proj2 (proj2 cmp_swo) q b a H1) as [H|H]; congruence.
Qed.

Lemma above_trans (a b q : K) :
  cmp a q = true -> cmp a b = false -> cmp b q = true.
Proof.
  intros H1 H2. destruct (proj2 (proj2 cmp_swo) a b q H1) as [H|H]; congruence.
Qed.

Lemma hit_none (s : tree) :
  StronglySorted (le cmp key) (ids s) -> hit s = None ->
  forall x, In x (ids s) -> ~ equivalent cmp query (key x).
Proof.
  induction s as [|c l IHl x r IHr]; [intros _ _ y []|].
  intros Hso Hh y Hy (E1 & E2).
  destruct (sorted_node c l x r Hso) as (Hsl & Hsr & Hlx & Hxr).
  cbn [hit] in Hh. cbn [ids] in Hy.
  apply in_app_or in Hy.
  destruct (cmp query (key x)) eqn:H1.
  - destruct Hy as [Hy|[<-|Hy]].
    + exact (IHl Hsl Hh y Hy (conj E1 E2)).
    + congruence.
    + rewrite (below_trans _ _ _ H1 (Hxr y Hy)) in E1. discriminate.
  - destruct (cmp (key x) query) eqn:H2; [|discriminate].
    destruct Hy as [Hy|[<-|Hy]].
    + rewrite (above_trans _ _ _ H2 (Hlx y Hy)) in E2. discriminate.
    + congruence.
    + exact (IHr Hsr Hh y Hy (conj E1 E2)).
Qed.

Lemma find_loop_spec (m : memory) (s : tree) :
  forall par fuel,
    shape m par s -> hit_depth s <= fuel ->
    find_loop cmp key multiple fuel m query (rootp s) =
    match hit s with
    | None => Ok None
    | Some c =>
        f <- equality_list_find_first multiple (fuel - hit_depth s) m c ;;
        Ok (Some f)
    end.
Proof.
  induction s as [|c l IHl x r IHr]; intros par fuel Hs Hfuel.
  - destruct fuel; reflexivity.
  - cbn [shape] in Hs. destruct Hs as (Hl & Hr & _ & _ & Sl & Sr).
    cbn [hit hit_depth rootp] in *.
    destruct fuel as [|fuel]; cbn [find_loop].
    + destruct (cmp query (key x)); [lia|].
      destruct (cmp (key x) query); [lia|]. reflexivity.
    + destruct (cmp query (key x)).
      * rewrite Hl. apply (IHl (Some x)); [exact Sl|lia].
      * destruct (cmp (key x) query).
        -- rewrite Hr. apply (IHr (Some x)); [exact Sr|lia].
        -- now rewrite Nat.sub_0_r.
Qed.

(** The answer of [upper_bound] when the descent starts at [s] with the
    bound [bound]. *)
Fixpoint bound_of (s : tree) (bound : option nat) : option nat :=
  match s with
  | E => bound
  | T _ l x r =>
      if cmp query (key x) then bound_of l (Some x)
      else if cmp (key x) query then bound_of r bound
      else match rootp r with
           | Some y => Some y
           | None => bound
           end
  end.

Lemma upper_bound_loop_spec (m : memory) (s : tree) :
  forall par fuel bound,
    shape m par s -> height s <= fuel ->
    upper_bound_loop cmp key fuel m query (rootp s) bound = Ok (bound_of s bound).
Proof.
  induction s as [|c l IHl x r IHr]; intros par fuel bound Hs Hfuel.
  - destruct fuel; reflexivity.
  - cbn [shape] in Hs. destruct Hs as (Hl & Hr & _ & _ & Sl & Sr).
    cbn [height] in Hfuel.
    destruct fuel as [|fuel]; [lia|].
    cbn [bound_of rootp upper_bound_loop].
    destruct (cmp query (key x)).
    + rewrite Hl. apply (IHl (Some x)); [exact Sl|lia].
    + destruct (cmp (key x) query).
      * rewrite Hr. apply (IHr (Some x)); [exact Sr|lia].
      * rewrite Hr. destruct (rootp r); [reflexivity|].
        destruct fuel; reflexivity.
Qed.

(** The first node in order whose key is above the query. *)
Definition first_above (l : list nat) : option nat :=
  List.find (fun x => cmp query (key x)) l.

Lemma first_above_app (l1 l2 : list nat) :
  first_above (l1 ++ l2) =
  match first_above l1 with
  | Some y => Some y
  | None => first_above l2
  end.
Proof.
  unfold first_above. induction l1 as [|a l1 IH]; cbn [app List.find]; [reflexivity|].
  destruct (cmp query (key a)); [reflexivity|exact IH].
Qed.

Lemma first_above_cons (x : nat) (l : list nat) :
  first_above (x :: l) = if cmp query (key x) then Some x else first_above l.
Proof. reflexivity. Qed.

Lemma first_above_none (l : list nat) :
  (forall y, In y l -> cmp query (key y) = false) -> first_above l = None.
Proof.
  unfold first_above. induction l as [|a l IH]; intros H; cbn [List.find]; [reflexivity|].
  rewrite (H a) by now left. apply IH. intros y Hy. apply H. now right.
Qed.

Lemma bound_of_miss (s : tree) :
  forall bound,
    StronglySorted (le cmp key) (ids s) ->
    (forall x, In x (ids s) -> ~ equivalent cmp query (key x)) ->
    bound_of s bound =
    match first_above (ids s) with
    | Some y => Some y
    | None => bound
    end.
Proof.
  induction s as [|c l IHl x r IHr]; intros bound Hso Hmiss; [reflexivity|].
  destruct (sorted_node c l x r Hso) as (Hsl & Hsr & Hlx & Hxr).
  cbn [bound_of ids]. rewrite first_above_app.
  assert (Hml : forall y, In y (ids l) -> ~ equivalent cmp query (key y)).
  { intros y Hy. apply Hmiss. cbn [ids]. apply in_or_app. now left. }
  assert (Hmr : forall y, In y (ids r) -> ~ equivalent cmp query (key y)).
  { intros y Hy. apply Hmiss. cbn [ids]. apply in_or_app. right. now right. }
  destruct (cmp query (key x)) eqn:H1.
  - rewrite (IHl (Some x) Hsl Hml).
    rewrite first_above_cons, H1. now destruct (first_above (ids l)).
  - destruct (cmp (key x) query) eqn:H2.
    + rewrite (IHr bound Hsr Hmr).
      rewrite (first_above_none (ids l)).
      * rewrite first_above_cons, H1. reflexivity.
      * intros y Hy. destruct (cmp query (key y)) eqn:H3; [|reflexivity].
        rewrite (below_trans _ _ _ H3 (Hlx y Hy)) in H1. discriminate.
    + exfalso. apply (Hmiss x); [cbn [ids]; apply in_or_app; right; now left|].
      now split.
Qed.

Lemma first_above_some (l : list nat) (b : nat) :
  StronglySorted (le cmp key) l -> first_above l = Some b ->
  In b l /\ cmp query (key b) = true /\
  forall y, In y l -> cmp query (key y) = true -> cmp (key y) (key b) = false.
Proof.
  unfold first_above. induction l as [|a l IH]; cbn [List.find]; [discriminate|].
  intros Hso Hf. apply StronglySorted_cons_iff in Hso. destruct Hso as (Hso & Ha).
  destruct (cmp query (key a)) eqn:H1.
  - injection Hf as <-. split; [now left|]. split; [exact H1|].
    intros y [<-|Hy] _; [apply (proj1 cmp_swo)|exact (Ha y Hy)].
  - destruct (IH Hso Hf) as (Hb & Hq & Hmin).
    split; [now right|]. split; [exact Hq|].
    intros y [<-|Hy] Hqy; [congruence|now apply Hmin].
Qed.

Lemma first_above_none_inv (l : list nat) :
  first_above l = None -> forall y, In y l -> cmp query (key y) = false.
Proof.
  unfold first_above. intros H y Hy.
  destruct (cmp query (key y)) eqn:Hq; [|reflexivity].
  now rewrite (find_none _ _ H y Hy) in Hq.
Qed.

Lemma find_built (st : RBTree) :
  built cmp key multiple st ->
  exists n, forall fuel, n <= fuel ->
    exists r,
      find cmp key multiple fuel st query = Ok r /\
      match r with
      | None => forall x, linked st x -> ~ equivalent cmp query (key x)
      | Some f =>
          linked st f /\ equivalent cmp query (key f) /\
          (multiple = true -> _rbt_prev (mem st f) = None)
      end.
Proof.
  intros Hb.
  destruct (built_holds K cmp key multiple cmp_swo st Hb) as (t & HR & _ & Hso & Hch).
  exists (2 * length (ids t)). intros fuel Hfuel.
  pose proof HR as (Hroot & Hs & _).
  unfold find. rewrite Hroot.
  rewrite (find_loop_spec (mem st) t None fuel Hs)
    by (pose proof (hit_depth_le t); lia).
  destruct (hit t) as [c|] eqn:Hh.
  - destruct (hit_some t c Hh) as (Hc & He).
    unfold equality_list_find_first. destruct multiple eqn:Hm.
    + destruct (Hch eq_refl) as (rk & Hrk).
      destruct (find_first_loop_spec K cmp key cmp_swo (mem st) (ids t) rk Hrk
                  (fuel - hit_depth t) c Hc) as (h & Hrun & Hhl & Hhp & Hhe).
      { pose proof (hit_depth_le t).
        pose proof (filter_length_le (fun z => Nat.ltb (rk c) (rk z)) (ids t)).
        unfold above. lia. }
      rewrite Hrun. cbn [bind]. exists (Some h). split; [reflexivity|].
      split; [now apply (linked_iff _ _ h HR)|].
      split; [|now intros _].
      exact (equivalent_trans K cmp cmp_swo _ _ _ He Hhe).
    + cbn [bind]. exists (Some c). split; [reflexivity|].
      split; [now apply (linked_iff _ _ c HR)|]. split; [exact He|].
      intros Hf. discriminate.
  - exists None. split; [reflexivity|].
    intros x Hx. apply (hit_none t Hso Hh). now apply (linked_iff _ _ x HR).
Qed.

(** [find] on a built tree answers the end when no linked node has a key
    equivalent to the query, and else a linked node with such a key; with
    equality chains it is the head of its chain. *)
Theorem find_spec (st : RBTree) :
  built cmp key multiple st ->
  exists n, forall fuel, n <= fuel ->
    exists r,
      find cmp key multiple fuel st query = Ok r /\
      match r with
      | None => forall x, linked st x -> ~ equivalent cmp query (key x)
      | Some f =>
          linked st f /\ equivalent cmp query (key f) /\
          (multiple = true -> _rbt_prev (mem st f) = None)
      end.
Proof. exact (find_built st). Qed.

(** When no linked node has a key equivalent to the query, [upper_bound]
    on a built tree answers a linked node with the smallest key above the
    query, and the end when no key is above the query. *)
Theorem upper_bound_on_miss (st : RBTree) :
  built cmp key multiple st ->
  (forall x, linked st x -> ~ equivalent cmp query (key x)) ->
  exists n, forall fuel, n <= fuel ->
    exists r,
      upper_bound cmp key fuel st query = Ok r /\
      match r with
      | None => forall y, linked st y -> cmp query (key y) = false
      | Some b =>
          linked st b /\ cmp query (key b) = true /\
          forall y, linked st y -> cmp query (key y) = true ->
                    cmp (key y) (key b) = false
      end.
Proof.
  intros Hb Hmiss.
  destruct (built_holds K cmp key multiple cmp_swo st Hb) as (t & HR & _ & Hso & _).
  exists (length (ids t)). intros fuel Hfuel.
  exists (first_above (ids t)). split.
  - unfold upper_bound. pose proof HR as (Hroot & Hs & _). rewrite Hroot.
    rewrite (upper_bound_loop_spec (mem st) t None fuel None Hs)
      by (pose proof (height_le_size t); lia).
    rewrite bound_of_miss; [now destruct (first_above (ids t))|exact Hso|].
    intros x Hx. apply Hmiss. apply (linked_iff _ _ x HR). exact Hx.
  - destruct (first_above (ids t)) as [b|] eqn:Hf.
    + destruct (first_above_some _ b Hso Hf) as (Hin & Hq & Hmin).
      split; [now apply (linked_iff _ _ b HR)|]. split; [exact Hq|].
      intros y Hy. apply Hmin. now apply (linked_iff _ _ y HR).
    + intros y Hy. apply (first_above_none_inv _ Hf).
      now apply (linked_iff _ _ y HR).
Qed.

End Descent.

Lemma upper_bound_on_miss_witness :
  exists t,
    Scenario.rb_run Scenario.key_id true 100
      (map Scenario.Ins [5; 3; 8]) Scenario.rb_empty = Ok t /\
    exists n, forall fuel, n <= fuel ->
      exists r,
        upper_bound Nat.ltb Scenario.key_id fuel t 4 = Ok r /\
        match r with
        | None => forall y, linked t y -> Nat.ltb 4 (Scenario.key_id y) = false
        | Some b =>
            linked t b /\ Nat.ltb 4 (Scenario.key_id b) = true /\
            forall y, linked t y -> Nat.ltb 4 (Scenario.key_id y) = true ->
                      Nat.ltb (Scenario.key_id y) (Scenario.key_id b) = false
        end.
Proof.
  destruct tree_538 as (t & Ht & Hb & Hl). exists t. split; [exact Ht|].
  apply (upper_bound_on_miss nat Nat.ltb Scenario.key_id true ltb_strict_weak_order
           4 t Hb).
  intros x Hx (H1 & H2). apply Hl in Hx.
  destruct Hx as [<-|[<-|[<-|[]]]]; vm_compute in H1, H2; discriminate.
Defined.

Lemma find_spec_witness :
  exists t,
    Scenario.rb_run Scenario.key_id true 100
      (map Scenario.Ins [5; 3; 8]) Scenario.rb_empty = Ok t /\
    exists n, forall fuel, n <= fuel ->
      exists r,
        find Nat.ltb Scenario.key_id true fuel t 8 = Ok r /\
        match r with
        | None => forall x, linked t x -> ~ equivalent Nat.ltb 8 (Scenario.key_id x)
        | Some f =>
            linked t f /\ equivalent Nat.ltb 8 (Scenario.key_id f) /\
            (true = true -> _rbt_prev (mem t f) = None)
        end.
Proof.
  destruct tree_538 as (t & Ht & Hb & _). exists t. split; [exact Ht|].
  exact (find_spec nat Nat.ltb Scenario.key_id true ltb_strict_weak_order 8 t Hb).
Defined.

End Search.

Import RB RBMem RBSpec NoDupFacts Shape Rotate Inv Frames InsertFixup InsertLeaf
  Ordering HintedInsert DeleteFixup DeleteCases Links Chains Remove Fuel Invariants Contents
  Iteration Search.

(** ** The self-checks on the links, the colors and the order *)

Module Checks.

Lemma verify_black_root_spec (st : RBTree) (t : tree) :
  Rep st t -> rbtree t -> verify_black_root st = true.
Proof.
  intros HR (Hc & _). unfold verify_black_root.
  pose proof HR as (Hroot & _). rewrite Hroot.
  destruct t as [|c l x r]; cbn [rootp]; [reflexivity|].
  destruct (read_node st c l x r [] HR) as (_ & _ & _ & Hx).
  rewrite Hx. cbn [col] in Hc. now subst c.
Qed.

(** The black height as the [unsigned int] that the check computes. *)
Definition path_length (t : tree) : Z := (Z.of_nat (bh t) mod uint_max)%Z.

Lemma path_length_E : path_length E = 0%Z.
Proof. reflexivity. Qed.

Lemma path_length_black (l : tree) (x : nat) (r : tree) :
  path_length (T BLACK l x r) = ((path_length l + 1) mod uint_max)%Z.
Proof.
  unfold path_length. cbn [bh blk].
  rewrite Zplus_mod_idemp_l. f_equal. lia.
Qed.

Lemma path_length_red (l : tree) (x : nat) (r : tree) :
  path_length (T RED l x r) = path_length l.
Proof. unfold path_length. cbn [bh blk]. now rewrite Nat.add_0_r. Qed.

Lemma verify_black_paths_spec (m : memory) (s : tree) :
  forall par fuel c l x r,
    s = T c l x r -> shape m par s -> balanced s -> length (ids s) <= fuel ->
    verify_black_paths fuel m x = Ok (Some (path_length s)).
Proof.
  induction s as [|c0 l0 IHl x0 r0 IHr]; intros par fuel c l x r Hs; [discriminate|].
  injection Hs as -> -> -> ->. intros Hsh Hbal Hfuel.
  cbn [shape] in Hsh. destruct Hsh as (Hl & Hr & _ & Hc & Sl & Sr).
  cbn [balanced] in Hbal. destruct Hbal as (Hh & Hbl & Hbr).
  cbn [ids] in Hfuel. rewrite length_app in Hfuel. cbn [length] in Hfuel.
  destruct fuel as [|fuel]; [lia|]. cbn [verify_black_paths].
  rewrite Hl, Hr, Hc.
  assert (HL : match rootp l with
               | Some l0 => verify_black_paths fuel m l0
               | None => Ok (Some 0%Z)
               end = Ok (Some (path_length l))).
  { destruct l as [|cl ll lx lr]; [reflexivity|]. cbn [rootp].
    apply (IHl (Some x) fuel cl ll lx lr eq_refl Sl Hbl). lia. }
  assert (HRt : match rootp r with
                | Some r0 => verify_black_paths fuel m r0
                | None => Ok (Some 0%Z)
                end = Ok (Some (path_length r))).
  { destruct r as [|cr rl rx rr]; [reflexivity|]. cbn [rootp].
    apply (IHr (Some x) fuel cr rl rx rr eq_refl Sr Hbr). lia. }
  rewrite HL. cbn [bind]. rewrite HRt. cbn [bind].
  assert (Hp : path_length l = path_length r) by (unfold path_length; now rewrite Hh).
  rewrite Hp, Z.eqb_refl. cbn [negb].
  destruct c.
  - now rewrite path_length_red, Hp.
  - now rewrite path_length_black, Hp.
Qed.

Lemma is_red_root (m : memory) (par : ptr) (s : tree) :
  shape m par s -> is_red m (rootp s) = color_eqb (col s) RED.
Proof.
  destruct s as [|c l x r]; [reflexivity|].
  cbn [shape rootp is_red col]. intros (_ & _ & _ & -> & _). reflexivity.
Qed.

Lemma verify_red_black_spec (m : memory) (s : tree) :
  forall par fuel,
    shape m par s -> no_red_red s -> length (ids s) <= fuel ->
    verify_red_black fuel m (rootp s) = Ok true.
Proof.
  induction s as [|c l IHl x r IHr]; intros par fuel Hsh Hnrr Hfuel.
  - destruct fuel; reflexivity.
  - cbn [shape] in Hsh. destruct Hsh as (Hl & Hr & _ & Hc & Sl & Sr).
    cbn [no_red_red] in Hnrr. destruct Hnrr as (Hred & Hnl & Hnr).
    cbn [ids] in Hfuel. rewrite length_app in Hfuel. cbn [length] in Hfuel.
    destruct fuel as [|fuel]; [lia|]. cbn [rootp verify_red_black].
    rewrite Hl, Hr, Hc, (is_red_root m _ l Sl), (is_red_root m _ r Sr).
    assert (Hno : color_eqb c RED && color_eqb (col r) RED = false /\
                  color_eqb c RED && color_eqb (col l) RED = false).
    { destruct c; [|now split]. destruct (Hred eq_refl) as (-> & ->). now split. }
    destruct Hno as (-> & ->).
    rewrite (IHl (Some x) fuel Sl Hnl) by lia. cbn [bind].
    apply (IHr (Some x) fuel Sr Hnr). lia.
Qed.

(** Whatever the memory holds: when [verify_red_black] answers [true] for a
    link, no RED node that is reached from the link has a RED child. *)
Theorem verify_red_black_sound (m : memory) :
  forall fuel p,
    verify_red_black fuel m p = Ok true ->
    forall n, linked_from m p n -> _rbt_color (m n) = RED ->
    is_red m (_rbt_left (m n)) = false /\ is_red m (_rbt_right (m n)) = false.
Proof.
  induction fuel as [|fuel IH]; intros p Hv n Hn Hc.
  - destruct p; [discriminate|]. inversion Hn.
  - destruct p as [x|]; [|inversion Hn]. cbn [verify_red_black] in Hv.
    destruct (color_eqb (_rbt_color (m x)) RED && is_red m (_rbt_right (m x))) eqn:H1;
      [discriminate|].
    destruct (color_eqb (_rbt_color (m x)) RED && is_red m (_rbt_left (m x))) eqn:H2;
      [discriminate|].
    destruct (verify_red_black fuel m (_rbt_left (m x))) as [[|]|e] eqn:Hvl;
      cbn [bind] in Hv; try discriminate.
    inversion Hn as [y|y n' Hl|y n' Hr]; subst.
    + rewrite Hc in H1, H2. cbn [color_eqb andb] in H1, H2. now split.
    + exact (IH _ Hvl n Hl Hc).
    + exact (IH _ Hv n Hr Hc).
Qed.

(** *** The walks over the nodes *)

Lemma verify_tree_descend_spec (st : RBTree) (s : tree) :
  forall k fuel x,
    Rep st (plug s k) -> rootp s = Some x -> length (ids s) <= fuel ->
    exists y, verify_tree_descend fuel (mem st) x = Ok y /\
              hd_error (ids s) = Some y.
Proof.
  induction s as [|c l IHl x0 r _]; intros k fuel x HR Hx Hfuel; [discriminate|].
  cbn [rootp] in Hx. injection Hx as ->.
  destruct (read_node _ _ _ _ _ _ HR) as (Hl & _).
  destruct l as [|cl ll lx lr].
  - exists x. split; [|reflexivity].
    destruct fuel; cbn [verify_tree_descend]; now rewrite Hl.
  - cbn [ids] in Hfuel. rewrite !length_app in Hfuel. cbn [length] in Hfuel.
    destruct fuel as [|fuel]; [lia|].
    cbn [verify_tree_descend]. rewrite Hl. cbn [rootp].
    assert (HR' : Rep st (plug (T cl ll lx lr) (FL c x r :: k))) by exact HR.
    destruct (read_node _ _ _ _ _ _ HR') as (Hll & _). rewrite Hll.
    assert (Hne : ptr_eqb (rootp ll) (Some lx) = false).
    { destruct (ptr_eqb_spec (rootp ll) (Some lx)) as [He|]; [|reflexivity].
      exfalso. apply rootp_in in He.
      apply Rep_plug in HR'. destruct HR' as (_ & _ & _ & Hnd).
      cbn [ids] in Hnd. nd Hnd. nd_contra. }
    rewrite Hne.
    destruct (IHl (FL c x r :: k) fuel lx HR' eq_refl) as (y & Hd & Hhd).
    { cbn [ids]. rewrite !length_app. cbn [length]. lia. }
    exists y. split; [exact Hd|].
    cbn [ids] in Hhd |- *.
    destruct (ids ll ++ lx :: ids lr) as [|z zs] eqn:Hz; [discriminate|].
    exact Hhd.
Qed.

Lemma existsb_seen (c : nat) (seen : list nat) :
  ~ In c seen -> existsb (Nat.eqb c) seen = false.
Proof.
  intros H. destruct (existsb (Nat.eqb c) seen) eqn:He; [|reflexivity].
  apply existsb_exists in He. destruct He as (z & Hz & Heq).
  apply Nat.eqb_eq in Heq. now subst.
Qed.

Lemma child_checks (st : RBTree) c l x r (k : context) :
  Rep st (plug (T c l x r) k) ->
  (match _rbt_left (mem st x) with
   | None => false
   | Some l0 =>
       negb (ptr_eqb (_rbt_parent (mem st l0)) (Some x))
       || ptr_eqb (_rbt_right (mem st x)) (Some x)
   end = false) /\
  (match _rbt_right (mem st x) with
   | None => false
   | Some r0 =>
       negb (ptr_eqb (_rbt_parent (mem st r0)) (Some x))
       || ptr_eqb (_rbt_right (mem st x)) (Some x)
   end = false).
Proof.
  intros HR. destruct (read_node _ _ _ _ _ _ HR) as (Hl & Hr & _).
  rewrite Hl, Hr.
  assert (Hrx : ptr_eqb (rootp r) (Some x) = false).
  { destruct (ptr_eqb_spec (rootp r) (Some x)) as [He|]; [|reflexivity].
    exfalso. apply rootp_in in He.
    apply Rep_plug in HR. destruct HR as (_ & _ & _ & Hnd).
    cbn [ids] in Hnd. nd Hnd. nd_contra. }
  rewrite Hrx. split.
  - destruct l as [|cl ll lx lr]; [reflexivity|]. cbn [rootp].
    destruct (read_node st cl ll lx lr (FL c x r :: k) HR) as (_ & _ & Hp & _).
    rewrite Hp. cbn [cpar fid]. now rewrite ptr_eqb_refl.
  - destruct r as [|cr rl rx rr]; [reflexivity|]. cbn [rootp].
    destruct (read_node st cr rl rx rr (FR c l x :: k) HR) as (_ & _ & Hp & _).
    rewrite Hp. cbn [cpar fid]. now rewrite ptr_eqb_refl.
Qed.

Lemma verify_tree_walk_spec (st : RBTree) (t : tree) (l2 : list nat) :
  forall l1 fuel seen,
    Rep st t -> ids t = l1 ++ l2 -> (forall z, In z seen -> In z l1) ->
    length (ids t) + length l2 <= fuel ->
    verify_tree_walk fuel (mem st) (hd_error l2) seen = Ok true.
Proof.
  induction l2 as [|x l2 IH]; intros l1 fuel seen HR Hids Hseen Hfuel.
  - destruct fuel; reflexivity.
  - cbn [length] in Hfuel. destruct fuel as [|fuel]; [lia|].
    cbn [hd_error verify_tree_walk].
    assert (Hnd : NoDup (ids t)) by now destruct HR as (_ & _ & Hnd).
    rewrite existsb_seen.
    2:{ intros Hx. apply Hseen in Hx. rewrite Hids in Hnd.
        apply NoDup_remove_2 in Hnd. apply Hnd. apply in_or_app. now left. }
    assert (Hin : In x (ids t)) by (rewrite Hids; apply in_or_app; right; now left).
    destruct (in_ids_split _ _ Hin) as (c & l & r & k & Ht).
    pose proof HR as HR'. rewrite Ht in HR'.
    destruct (child_checks st c l x r k HR') as (-> & ->).
    rewrite (step_forward_list st t l1 l2 x (S fuel) HR Hids) by lia.
    cbn [bind].
    apply (IH (l1 ++ [x]) fuel (x :: seen) HR).
    + rewrite <- app_assoc. exact Hids.
    + intros z [<-|Hz]; apply in_or_app; [right; now left|left; now apply Hseen].
    + lia.
Qed.

Lemma verify_tree_spec (st : RBTree) (t : tree) (fuel : nat) :
  Rep st t -> 2 * length (ids t) <= fuel -> verify_tree fuel st = Ok true.
Proof.
  intros HR Hfuel. unfold verify_tree.
  pose proof HR as (Hroot & _). rewrite Hroot.
  destruct t as [|c l x r]; cbn [rootp]; [reflexivity|].
  destruct (verify_tree_descend_spec st (T c l x r) [] fuel x HR eq_refl)
    as (y & Hd & Hhd); [lia|].
  rewrite Hd. cbn [bind]. rewrite <- Hhd.
  apply (verify_tree_walk_spec st (T c l x r) _ [] fuel [] HR eq_refl).
  - intros z [].
  - lia.
Qed.

Section Order.

Variable K : Type.
Variable cmp : K -> K -> bool.
Variable key : nat -> K.
Variable multiple : bool.

Lemma order_checks (st : RBTree) c l x r (k : context) :
  Rep st (plug (T c l x r) k) ->
  StronglySorted (le cmp key) (ids (plug (T c l x r) k)) ->
  key_less cmp key (mem st) x (_rbt_left (mem st x)) false = false /\
  key_less cmp key (mem st) x (_rbt_right (mem st x)) true = false.
Proof.
  intros HR Hso. destruct (read_node _ _ _ _ _ _ HR) as (Hl & Hr & _).
  rewrite Hl, Hr. rewrite ids_plug in Hso.
  apply StronglySorted_app in Hso. destruct Hso as (_ & Hso & _).
  apply StronglySorted_app in Hso. destruct Hso as (Hso & _ & _).
  destruct (sorted_node K cmp key c l x r Hso) as (_ & _ & Hlx & Hxr).
  split.
  - destruct l as [|cl ll lx lr]; [reflexivity|]. cbn [rootp key_less].
    apply Hlx. cbn [ids]. apply in_or_app. right. now left.
  - destruct r as [|cr rl rx rr]; [reflexivity|]. cbn [rootp key_less].
    apply Hxr. cbn [ids]. apply in_or_app. right. now left.
Qed.

Lemma verify_order_from_spec (st : RBTree) (t : tree) (l2 : list nat) :
  forall l1 fuel,
    Rep st t -> StronglySorted (le cmp key) (ids t) ->
    ids t = l1 ++ l2 -> length (ids t) + length l2 <= fuel ->
    verify_order_from cmp key fuel (mem st) (hd_error l2) = Ok true.
Proof.
  induction l2 as [|x l2 IH]; intros l1 fuel HR Hso Hids Hfuel.
  - destruct fuel; reflexivity.
  - cbn [length] in Hfuel. destruct fuel as [|fuel]; [lia|].
    cbn [hd_error verify_order_from].
    assert (Hin : In x (ids t)) by (rewrite Hids; apply in_or_app; right; now left).
    destruct (in_ids_split _ _ Hin) as (c & l & r & k & Ht).
    pose proof HR as HR'. pose proof Hso as Hso'. rewrite Ht in HR', Hso'.
    destruct (order_checks st c l x r k HR' Hso') as (-> & ->).
    rewrite (step_forward_list st t l1 l2 x (S fuel) HR Hids) by lia.
    cbn [bind].
    apply (IH (l1 ++ [x]) fuel HR Hso); [|lia].
    rewrite <- app_assoc. exact Hids.
Qed.

Lemma verify_order_spec (st : RBTree) (t : tree) (fuel : nat) :
  Rep st t -> StronglySorted (le cmp key) (ids t) ->
  2 * length (ids t) <= fuel -> verify_order cmp key fuel st = Ok true.
Proof.
  intros HR Hso Hfuel. unfold verify_order, begin.
  rewrite (get_smallest_spec st t fuel HR) by lia. cbn [bind].
  apply (verify_order_from_spec st t (ids t) [] fuel HR Hso eq_refl). lia.
Qed.

(** *** The equality chains *)

Lemma equality_list_verify_spec (m : memory) (l : list nat) (n fuel : nat) :
  chains_ok cmp key multiple m l -> In n l -> length l <= fuel ->
  equality_list_verify multiple fuel m n = Ok true.
Proof.
  intros Hch Hn Hfuel. unfold equality_list_verify.
  destruct multiple eqn:Hm; [|reflexivity].
  destruct (Hch eq_refl) as (rk & Hrk).
  pose proof (filter_length_le (fun z => Nat.ltb (rk n) (rk z)) l) as Ha.
  pose proof (filter_length_le (fun z => Nat.ltb (rk z) (rk n)) l) as Hb.
  rewrite (verify_prev_spec K cmp key m l rk n Hrk fuel n Hn (Nat.le_refl _))
    by (unfold above; lia).
  cbn [bind].
  apply (verify_next_spec K cmp key m l rk n Hrk fuel n Hn (Nat.le_refl _)).
  unfold below. lia.
Qed.

Lemma verify_equality_from_spec (st : RBTree) (t : tree) (l2 : list nat) :
  forall l1 fuel,
    Rep st t -> chains_ok cmp key multiple (mem st) (ids t) ->
    ids t = l1 ++ l2 -> length (ids t) + length l2 <= fuel ->
    verify_equality_from multiple fuel (mem st) (hd_error l2) = Ok true.
Proof.
  induction l2 as [|x l2 IH]; intros l1 fuel HR Hch Hids Hfuel.
  - destruct fuel; reflexivity.
  - cbn [length] in Hfuel. destruct fuel as [|fuel]; [lia|].
    cbn [hd_error verify_equality_from].
    assert (Hin : In x (ids t)) by (rewrite Hids; apply in_or_app; right; now left).
    rewrite (equality_list_verify_spec (mem st) (ids t) x (S fuel) Hch Hin) by lia.
    cbn [bind].
    rewrite (step_forward_list st t l1 l2 x (S fuel) HR Hids) by lia.
    cbn [bind].
    apply (IH (l1 ++ [x]) fuel HR Hch); [|lia].
    rewrite <- app_assoc. exact Hids.
Qed.

Lemma verify_equality_spec (st : RBTree) (t : tree) (fuel : nat) :
  Rep st t -> chains_ok cmp key multiple (mem st) (ids t) ->
  2 * length (ids t) <= fuel -> verify_equality multiple fuel st = Ok true.
Proof.
  intros HR Hch Hfuel. unfold verify_equality.
  destruct (negb multiple); [reflexivity|]. unfold begin.
  rewrite (get_smallest_spec st t fuel HR) by lia. cbn [bind].
  apply (verify_equality_from_spec st t (ids t) [] fuel HR Hch eq_refl). lia.
Qed.

Lemma verify_integrity_holds (st : RBTree) (t : tree) (fuel : nat) :
  holds cmp key multiple st t -> 2 * length (ids t) <= fuel ->
  verify_integrity cmp key multiple fuel st = Ok true.
Proof.
  intros (HR & Hrb & Hso & Hch) Hfuel.
  unfold verify_integrity.
  rewrite (verify_tree_spec st t fuel HR Hfuel). cbn [bind].
  rewrite (verify_black_root_spec st t HR Hrb).
  pose proof Hrb as (_ & Hnrr & Hbal).
  pose proof HR as (Hroot & Hs & _).
  assert (Hpaths : match root st with
                   | None => Ok true
                   | Some r =>
                       p <- verify_black_paths fuel (mem st) r ;;
                       Ok (match p with Some _ => true | None => false end)
                   end = Ok true).
  { rewrite Hroot. destruct t as [|c l x r]; cbn [rootp]; [reflexivity|].
    rewrite (verify_black_paths_spec (mem st) (T c l x r) None fuel c l x r
               eq_refl Hs Hbal) by lia.
    reflexivity. }
  rewrite Hpaths. cbn [bind].
  rewrite Hroot, (verify_red_black_spec (mem st) t None fuel Hs Hnrr) by lia.
  cbn [bind].
  rewrite (verify_order_spec st t fuel HR Hso Hfuel). cbn [bind].
  rewrite (verify_equality_spec st t fuel HR Hch Hfuel). cbn [bind].
  reflexivity.
Qed.

Hypothesis cmp_swo : strict_weak_order cmp.

(** Every tree built by [insert] and [remove] passes [verify_integrity]:
    the check of the links, of the colors, of the order of the keys and of
    the equality chains answers [true] and no assertion of it fails. *)
Theorem verify_integrity_passes (st : RBTree) :
  built cmp key multiple st ->
  exists n, forall fuel, n <= fuel ->
    verify_integrity cmp key multiple fuel st = Ok true.
Proof.
  intros Hb.
  destruct (built_holds K cmp key multiple cmp_swo st Hb) as (t & Hh).
  exists (2 * length (ids t)). intros fuel Hfuel.
  exact (verify_integrity_holds st t fuel Hh Hfuel).
Qed.

(** In a built tree that keeps equality chains, the chain links of a
    linked node lead to other linked nodes with an equivalent key, and
    [_rbt_next] and [_rbt_prev] are inverse to each other. *)
Theorem chains_are_reciprocal (st : RBTree) (n : nat) :
  built cmp key multiple st -> multiple = true -> linked st n ->
  (forall x, _rbt_next (mem st n) = Some x ->
     linked st x /\ x <> n /\ _rbt_prev (mem st x) = Some n /\
     equivalent cmp (key n) (key x)) /\
  (forall x, _rbt_prev (mem st n) = Some x ->
     linked st x /\ x <> n /\ _rbt_next (mem st x) = Some n /\
     equivalent cmp (key n) (key x)).
Proof.
  intros Hb Hm Hn.
  destruct (built_holds K cmp key multiple cmp_swo st Hb) as (t & HR & _ & _ & Hch).
  destruct (Hch Hm) as (rk & Hrk).
  apply (linked_iff _ _ n HR) in Hn.
  destruct (Hrk n Hn) as (H1 & H2). split.
  - intros x Hx. destruct (H1 x Hx) as (Hxl & Hp & He & _).
    split; [now apply (linked_iff _ _ x HR)|].
    split; [exact (chain_next_neq K cmp key _ _ rk n x Hrk Hn Hx)|].
    now split.
  - intros x Hx. destruct (H2 x Hx) as (Hxl & Hnx).
    split; [now apply (linked_iff _ _ x HR)|].
    split; [exact (chain_prev_neq K cmp key _ _ rk n x Hrk Hn Hx)|].
    split; [exact Hnx|].
    destruct (Hrk x Hxl) as (H1x & _).
    destruct (H1x n Hnx) as (_ & _ & He & _).
    exact (equivalent_sym K cmp _ _ He).
Qed.

End Order.

Lemma verify_integrity_passes_witness :
  exists t,
    Scenario.rb_run Scenario.key_id true 100
      (map Scenario.Ins [5; 3; 8]) Scenario.rb_empty = Ok t /\
    exists n, forall fuel, n <= fuel ->
      verify_integrity Nat.ltb Scenario.key_id true fuel t = Ok true.
Proof.
  destruct tree_538 as (t & Ht & Hb & _). exists t. split; [exact Ht|].
  exact (verify_integrity_passes nat Nat.ltb Scenario.key_id true
           ltb_strict_weak_order t Hb).
Defined.

Lemma verify_red_black_sound_witness :
  exists t,
    Scenario.rb_run Scenario.key_id true 100
      (map Scenario.Ins [5; 3; 8]) Scenario.rb_empty = Ok t /\
    is_red (mem t) (_rbt_left (mem t 3)) = false /\
    is_red (mem t) (_rbt_right (mem t 3)) = false.
Proof.
  assert (F : (t <- Scenario.rb_run Scenario.key_id true 100
                 (map Scenario.Ins [5; 3; 8]) Scenario.rb_empty ;;
               Ok (verify_red_black 10 (mem t) (root t), _rbt_color (mem t 3)))
              = Ok (Ok true, RED)).
  { vm_compute. reflexivity. }
  apply bind_ok_inv in F. destruct F as (t & Ht & F). injection F as Hv Hc.
  destruct (built_inserts_empty Scenario.key_id 100 [5; 3; 8] t) as (Hb & Hl);
    [repeat constructor; cbn [In]; lia|exact Ht|].
  assert (H3 : linked t 3) by (rewrite Hl; cbn [In]; lia).
  exists t. split; [exact Ht|].
  exact (verify_red_black_sound (mem t) 10 (root t) Hv 3 H3 Hc).
Defined.

Lemma chains_are_reciprocal_witness :
  exists t,
    Scenario.rb_run Scenario.key_div10 true 100
      (map Scenario.Ins [50; 51]) Scenario.rb_empty = Ok t /\
    _rbt_next (mem t 50) = Some 51 /\
    (forall x, _rbt_next (mem t 50) = Some x ->
       linked t x /\ x <> 50 /\ _rbt_prev (mem t x) = Some 50 /\
       equivalent Nat.ltb (Scenario.key_div10 50) (Scenario.key_div10 x)) /\
    (forall x, _rbt_prev (mem t 50) = Some x ->
       linked t x /\ x <> 50 /\ _rbt_next (mem t x) = Some 50 /\
       equivalent Nat.ltb (Scenario.key_div10 50) (Scenario.key_div10 x)).
Proof.
  assert (F : (t <- Scenario.rb_run Scenario.key_div10 true 100
                 (map Scenario.Ins [50; 51]) Scenario.rb_empty ;;
               Ok (_rbt_next (mem t 50))) = Ok (Some 51)).
  { vm_compute. reflexivity. }
  apply bind_ok_inv in F. destruct F as (t & Ht & Hnx).
  destruct (built_inserts_empty Scenario.key_div10 100 [50; 51] t) as (Hb & Hl);
    [repeat constructor; cbn [In]; lia|exact Ht|].
  assert (H50 : linked t 50) by (rewrite Hl; cbn [In]; lia).
  exists t. split; [exact Ht|]. split; [exact Hnx|].
  exact (chains_are_reciprocal nat Nat.ltb Scenario.key_div10 true
           ltb_strict_weak_order t 50 Hb eq_refl H50).
Defined.

End Checks.

Import RB RBMem RBSpec NoDupFacts Shape Rotate Inv Frames InsertFixup InsertLeaf
  Ordering HintedInsert DeleteFixup DeleteCases Links Chains Remove Fuel Invariants Contents
  Iteration Search Checks.

(** ** The depth of a red-black tree *)

Module Depth.

Lemma pow2_bh (t : tree) : balanced t -> 2 ^ bh t <= length (ids t) + 1.
Proof.
  induction t as [|c l IHl x r IHr]; cbn [balanced bh ids]; [cbn; lia|].
  intros (Hh & Hbl & Hbr). rewrite length_app. cbn [length].
  specialize (IHl Hbl). specialize (IHr Hbr). rewrite <- Hh in IHr.
  destruct c; cbn [blk].
  - rewrite Nat.add_0_r. lia.
  - rewrite Nat.add_1_r. cbn [Nat.pow]. lia.
Qed.

Lemma height_bh (t : tree) :
  balanced t -> no_red_red t ->
  height t <= 2 * bh t + (match col t with RED => 1 | BLACK => 0 end).
Proof.
  induction t as [|c l IHl x r IHr]; cbn [balanced no_red_red height bh col]; [lia|].
  intros (Hh & Hbl & Hbr) (Hred & Hnl & Hnr).
  specialize (IHl Hbl Hnl). specialize (IHr Hbr Hnr). rewrite <- Hh in IHr.
  destruct c; cbn [blk].
  - destruct (Hred eq_refl) as (Hcl & Hcr). rewrite Hcl in IHl. rewrite Hcr in IHr.
    lia.
  - destruct (col l), (col r); lia.
Qed.

Lemma height_log (t : tree) :
  rbtree t -> height t <= 2 * Nat.log2 (length (ids t) + 1).
Proof.
  intros (Hc & Hnrr & Hbal).
  pose proof (height_bh t Hbal Hnrr) as Hh. rewrite Hc in Hh.
  pose proof (pow2_bh t Hbal) as Hp.
  apply Nat.log2_le_pow2 in Hp; lia.
Qed.

Section Descents.

Variable K : Type.
Variable cmp : K -> K -> bool.
Variable key : nat -> K.
Variable multiple : bool.

Hypothesis cmp_swo : strict_weak_order cmp.

(** In a built tree with [n] nodes no loop of [insert], of [remove] and of
    [upper_bound] makes more than [2 * log2 (n + 1)] rounds, and neither
    does [find] when there are no equality chains to walk: that much fuel
    is enough for each of them to return. *)
Theorem operations_are_logarithmic (st : RBTree) (l : list nat) (fuel : nat)
  (node : nat) (query : K) :
  built cmp key multiple st ->
  NoDup l -> (forall x, In x l <-> linked st x) ->
  2 * Nat.log2 (length l + 1) <= fuel ->
  (~ linked st node -> exists st', insert cmp key multiple fuel st node = Ok st') /\
  (linked st node -> exists st', remove cmp key multiple fuel st node = Ok st') /\
  (exists r, upper_bound cmp key fuel st query = Ok r) /\
  (multiple = false -> exists r, find cmp key multiple fuel st query = Ok r).
Proof.
  intros Hb Hnd Hl Hfuel.
  destruct (built_holds K cmp key multiple cmp_swo st Hb) as (t & Hh).
  pose proof Hh as (HR & Hrb & _).
  assert (Hlen : length l = length (ids t)).
  { apply Permutation_length. apply NoDup_Permutation; [exact Hnd| |].
    - now destruct HR as (_ & _ & H).
    - intros x. rewrite Hl. apply (linked_iff _ _ x HR). }
  pose proof (height_log t Hrb) as Hht. rewrite <- Hlen in Hht.
  split; [|split; [|split]].
  - intros Hn. rewrite (linked_iff _ _ node HR) in Hn.
    destruct (insert_contents K cmp key multiple cmp_swo fuel st t node Hh Hn)
      as (st' & _ & Hi & _); [lia|]. now exists st'.
  - intros Hn. rewrite (linked_iff _ _ node HR) in Hn.
    destruct (remove_contents K cmp key multiple cmp_swo fuel st t node Hh Hn)
      as (st' & _ & Hi & _); [lia|]. now exists st'.
  - destruct HR as (Hroot & Hs & _).
    exists (bound_of K cmp key query t None). unfold upper_bound. rewrite Hroot.
    apply (upper_bound_loop_spec K cmp key query (mem st) t None); [exact Hs|lia].
  - destruct HR as (Hroot & Hs & _).
    intros Hm. unfold find. rewrite Hroot.
    rewrite (find_loop_spec K cmp key multiple query (mem st) t None fuel Hs)
      by (pose proof (hit_depth_height K cmp key query t); lia).
    destruct (hit K cmp key query t); [|now exists None].
    unfold equality_list_find_first. rewrite Hm. cbn [bind]. now eexists.
Qed.

End Descents.

Lemma operations_are_logarithmic_witness :
  exists t,
    Scenario.rb_run Scenario.key_id true 100
      (map Scenario.Ins [5; 3; 8]) Scenario.rb_empty = Ok t /\
    (~ linked t 7 -> exists t', insert Nat.ltb Scenario.key_id true 4 t 7 = Ok t') /\
    (linked t 7 -> exists t', remove Nat.ltb Scenario.key_id true 4 t 7 = Ok t') /\
    (exists r, upper_bound Nat.ltb Scenario.key_id 4 t 6 = Ok r) /\
    (true = false -> exists r, find Nat.ltb Scenario.key_id true 4 t 6 = Ok r).
Proof.
  destruct tree_538 as (t & Ht & Hb & Hl). exists t. split; [exact Ht|].
  apply (operations_are_logarithmic nat Nat.ltb Scenario.key_id true
           ltb_strict_weak_order t [5; 3; 8] 4 7 6 Hb).
  - repeat constructor; cbn [In]; lia.
  - intros x. symmetry. apply Hl.
  - vm_compute. lia.
Defined.

End Depth.

Import RB RBMem RBSpec NoDupFacts Shape Rotate Inv Frames InsertFixup InsertLeaf
  Ordering HintedInsert DeleteFixup DeleteCases Links Chains Remove Fuel Invariants Contents
  Iteration Search Checks Depth.

(** ** Reverse iterators and iterator arithmetic *)

Module Advance.

(** The reverse loop from the last node of [l1] yields [l1] backwards. *)
Lemma riterate_from_spec (st : RBTree) (t : tree) (l1 : list nat) :
  forall l2 fuel,
    Rep st t -> ids t = l1 ++ l2 -> length (ids t) + length l1 <= fuel ->
    riterate_from fuel (mem st) (last_error l1) = Ok (rev l1).
Proof.
  induction l1 as [|x l1 IH] using rev_ind; intros l2 fuel HR Hids Hfuel.
  - destruct fuel; reflexivity.
  - rewrite length_app in Hfuel. cbn [length] in Hfuel.
    destruct fuel as [|fuel]; [lia|].
    rewrite last_error_app, rev_app_distr. cbn [rev app riterate_from].
    unfold operator_plusplus. cbn [deref bind].
    rewrite <- app_assoc in Hids. cbn [app] in Hids.
    rewrite (step_back_list st t l1 l2 x (S fuel) HR Hids) by lia.
    cbn [bind].
    rewrite (IH (x :: l2) fuel HR Hids) by lia.
    reflexivity.
Qed.

Lemma riterate_spec (st : RBTree) (t : tree) (fuel : nat) :
  Rep st t -> 2 * length (ids t) <= fuel ->
  riterate fuel st = Ok (rev (ids t)).
Proof.
  intros HR Hfuel. unfold riterate, rbegin.
  rewrite (get_largest_spec st t fuel HR) by lia. cbn [bind].
  apply (riterate_from_spec st t (ids t) [] fuel HR); [now rewrite app_nil_r|lia].
Qed.

(** The forward [+=] from the first node of [l2], with the end of the tree
    nearer than the wrap-around of [steps]. *)
Lemma plus_assign_forward (st : RBTree) (t : tree) (l2 : list nat) :
  forall l1 fuel steps,
    Rep st t -> ids t = l1 ++ l2 ->
    (0 < steps)%Z -> (steps + Z.of_nat (length l2) < size_max)%Z ->
    length (ids t) + length l2 < fuel ->
    operator_plus_assign false fuel (mem st) (hd_error l2) steps = Err NullDeref.
Proof.
  induction l2 as [|x l2 IH]; intros l1 fuel steps HR Hids Hpos Hmax Hfuel;
    (destruct fuel as [|fuel]; [lia|]); cbn [operator_plus_assign];
    (replace (0 <? steps)%Z with true by (symmetry; apply Z.ltb_lt; lia)).
  - reflexivity.
  - cbn [hd_error]. unfold operator_plusplus. cbn [deref bind].
    cbn [length] in Hfuel, Hmax.
    rewrite (step_forward_list st t l1 l2 x (S fuel) HR Hids) by lia.
    cbn [bind]. rewrite Z.mod_small by lia.
    apply (IH (l1 ++ [x]) fuel (steps + 1)%Z HR); [|lia|lia|lia].
    rewrite <- app_assoc. exact Hids.
Qed.

(** The same for a reverse iterator, from the last node of [l1]. *)
Lemma plus_assign_reverse (st : RBTree) (t : tree) (l1 : list nat) :
  forall l2 fuel steps,
    Rep st t -> ids t = l1 ++ l2 ->
    (0 < steps)%Z -> (steps + Z.of_nat (length l1) < size_max)%Z ->
    length (ids t) + length l1 < fuel ->
    operator_plus_assign true fuel (mem st) (last_error l1) steps = Err NullDeref.
Proof.
  induction l1 as [|x l1 IH] using rev_ind; intros l2 fuel steps HR Hids Hpos Hmax Hfuel;
    (destruct fuel as [|fuel]; [cbn [length] in Hfuel; lia|]);
    cbn [operator_plus_assign];
    (replace (0 <? steps)%Z with true by (symmetry; apply Z.ltb_lt; lia)).
  - reflexivity.
  - rewrite length_app in Hfuel, Hmax. cbn [length] in Hfuel, Hmax.
    rewrite last_error_app. unfold operator_plusplus. cbn [deref bind].
    rewrite <- app_assoc in Hids. cbn [app] in Hids.
    rewrite (step_back_list st t l1 l2 x (S fuel) HR Hids) by lia.
    cbn [bind]. rewrite Z.mod_small by lia.
    apply (IH (x :: l2) fuel (steps + 1)%Z HR Hids); lia.
Qed.

Section Built.

Variable K : Type.
Variable cmp : K -> K -> bool.
Variable key : nat -> K.
Variable multiple : bool.

Hypothesis cmp_swo : strict_weak_order cmp.

(** The loop from [rbegin()] to [rend()] over a built tree visits the nodes
    of the range loop in the opposite order. *)
Theorem riterate_reverses (st : RBTree) :
  built cmp key multiple st ->
  exists l n, forall fuel, n <= fuel ->
    iterate fuel st = Ok l /\ riterate fuel st = Ok (rev l).
Proof.
  intros Hb. destruct (built_holds K cmp key multiple cmp_swo st Hb)
    as (t & HR & _).
  exists (ids t), (2 * length (ids t)). intros fuel Hfuel. split.
  - now apply iterate_spec.
  - now apply riterate_spec.
Qed.

(** [it += steps] and [it + steps] return the iterator as it is when [steps]
    is 0.  With any other number of steps the loop counts [steps] up until
    it wraps around to 0: on a built tree with fewer than [2^64 - steps]
    nodes the iterator, forward or reverse, is stepped past the end and the
    next step reads the fields of the null node. *)
Theorem plus_assign_leaves_the_tree (st : RBTree) (l : list nat) (reverse : bool)
  (it : ptr) (steps : Z) :
  built cmp key multiple st ->
  NoDup l -> (forall x, In x l <-> linked st x) ->
  match it with Some x => linked st x | None => True end ->
  (0 < steps)%Z -> (steps + Z.of_nat (length l) < size_max)%Z ->
  (forall fuel, operator_plus_assign reverse fuel (mem st) it 0 = Ok it) /\
  exists n, forall fuel, n <= fuel ->
    operator_plus_assign reverse fuel (mem st) it steps = Err NullDeref /\
    operator_plus reverse fuel (mem st) it steps = Err NullDeref.
Proof.
  intros Hb Hnd Hl Hit Hpos Hmax.
  split; [intros fuel; now destruct fuel|].
  destruct (built_holds K cmp key multiple cmp_swo st Hb) as (t & HR & _).
  assert (Hlen : length l = length (ids t)).
  { apply Permutation_length. apply NoDup_Permutation; [exact Hnd| |].
    - now destruct HR as (_ & _ & H).
    - intros x. rewrite Hl. apply (linked_iff _ _ x HR). }
  rewrite Hlen in Hmax.
  exists (2 * length (ids t) + 1). intros fuel Hfuel.
  unfold operator_plus.
  assert (Hgoal : operator_plus_assign reverse fuel (mem st) it steps = Err NullDeref);
    [|now split].
  destruct it as [x|].
  - apply (linked_iff _ _ x HR) in Hit.
    destruct (in_split _ _ Hit) as (l1 & l2 & Hids).
    destruct reverse.
    + rewrite <- (last_error_app l1 x).
      assert (Hids' : ids t = (l1 ++ [x]) ++ l2)
        by (rewrite <- app_assoc; exact Hids).
      assert (Hle : length (l1 ++ [x]) <= length (ids t))
        by (rewrite Hids', (length_app (l1 ++ [x])); lia).
      apply (plus_assign_reverse st t (l1 ++ [x]) l2 fuel steps HR Hids'); lia.
    + change (Some x) with (hd_error (x :: l2)).
      assert (Hle : length (x :: l2) <= length (ids t))
        by (rewrite Hids, length_app; lia).
      apply (plus_assign_forward st t (x :: l2) l1 fuel steps HR Hids); lia.
  - destruct reverse.
    + apply (plus_assign_reverse st t [] (ids t) fuel steps HR eq_refl);
        cbn [length]; lia.
    + apply (plus_assign_forward st t [] (ids t) fuel steps HR);
        [now rewrite app_nil_r|lia|cbn [length]; lia|cbn [length]; lia].
Qed.

End Built.

Lemma riterate_reverses_witness :
  exists t,
    Scenario.rb_run Scenario.key_id true 100
      (map Scenario.Ins [5; 3; 8]) Scenario.rb_empty = Ok t /\
    exists l n, forall fuel, n <= fuel ->
      iterate fuel t = Ok l /\ riterate fuel t = Ok (rev l).
Proof.
  destruct tree_538 as (t & Ht & Hb & _). exists t. split; [exact Ht|].
  exact (riterate_reverses nat Nat.ltb Scenario.key_id true
           ltb_strict_weak_order t Hb).
Defined.

Lemma plus_assign_leaves_the_tree_witness :
  exists t,
    Scenario.rb_run Scenario.key_id true 100
      (map Scenario.Ins [5; 3; 8]) Scenario.rb_empty = Ok t /\
    (forall fuel, operator_plus_assign false fuel (mem t) (Some 3) 0 = Ok (Some 3)) /\
    exists n, forall fuel, n <= fuel ->
      operator_plus_assign false fuel (mem t) (Some 3) 1 = Err NullDeref /\
      operator_plus false fuel (mem t) (Some 3) 1 = Err NullDeref.
Proof.
  destruct tree_538 as (t & Ht & Hb & Hl). exists t. split; [exact Ht|].
  apply (plus_assign_leaves_the_tree nat Nat.ltb Scenario.key_id true
           ltb_strict_weak_order t [5; 3; 8] false (Some 3) 1 Hb).
  - repeat constructor; cbn [In]; lia.
  - intros x. symmetry. apply Hl.
  - apply Hl. cbn [In]. auto.
  - lia.
  - vm_compute. reflexivity.
Defined.

End Advance.

Import RB RBMem RBSpec NoDupFacts Shape Rotate Inv Frames InsertFixup InsertLeaf
  Ordering HintedInsert DeleteFixup DeleteCases Links Chains Remove Fuel Invariants Contents
  Iteration Search Checks Depth.

(** ** Looking up what was put in and what was taken out *)

Module Lookup.

Section Ops.

Variable K : Type.
Variable cmp : K -> K -> bool.
Variable key : nat -> K.
Variable multiple : bool.

Hypothesis cmp_swo : strict_weak_order cmp.

(** After [insert] has linked a node, [find] with the key of the node
    answers a linked node with an equivalent key: the node itself when no
    other linked node has such a key. *)
Theorem insert_then_find (st : RBTree) (node : nat) :
  built cmp key multiple st -> ~ linked st node ->
  multiple = true \/
  (forall p, linked st p -> ~ equivalent cmp (key node) (key p)) ->
  exists n, forall fuel, n <= fuel ->
    exists st' f,
      insert cmp key multiple fuel st node = Ok st' /\
      find cmp key multiple fuel st' (key node) = Ok (Some f) /\
      linked st' f /\ equivalent cmp (key node) (key f) /\
      ((forall p, linked st p -> ~ equivalent cmp (key node) (key p)) -> f = node).
Proof.
  intros Hb Hn Hadm. destruct (built_holds K cmp key multiple cmp_swo st Hb) as (t & Hh).
  pose proof Hh as (HR & _).
  pose proof Hn as Hn'. rewrite (linked_iff _ _ node HR) in Hn'.
  destruct (insert_contents K cmp key multiple cmp_swo (height t) st t node Hh Hn'
              (Nat.le_refl _)) as (st0 & t0 & Hi0 & _).
  assert (Hb0 : built cmp key multiple st0)
    by now apply built_insert with (st := st) (fuel := height t) (node := node).
  destruct (find_built K cmp key multiple cmp_swo (key node) st0 Hb0) as (n & Hfind).
  exists (Nat.max n (height t)). intros fuel Hfuel.
  rewrite (insert_mono K cmp key multiple (height t) fuel st node st0 ltac:(lia) Hi0).
  destruct (Hfind fuel ltac:(lia)) as (r & Hr & Hres).
  destruct (insert_linked K cmp key multiple cmp_swo (height t) st st0 t node Hh Hn Hi0)
    as (Hnew & _ & Hlinks).
  specialize (Hlinks Hadm).
  destruct r as [f|].
  - destruct Hres as (Hf & He & _).
    exists st0, f. split; [reflexivity|]. split; [exact Hr|].
    split; [exact Hf|]. split; [exact He|].
    intros Hno. destruct (Hnew f Hf) as [Hfn|Hfo]; [exact Hfn|].
    exfalso. exact (Hno f Hfo He).
  - exfalso. apply (Hres node Hlinks). apply (equivalent_refl K cmp cmp_swo).
Qed.

(** After [remove] has taken out the only linked node with its key, [find]
    with that key answers the end. *)
Theorem remove_then_find (st : RBTree) (node : nat) :
  built cmp key multiple st -> linked st node ->
  (forall p, linked st p -> p <> node -> ~ equivalent cmp (key node) (key p)) ->
  exists n, forall fuel, n <= fuel ->
    exists st',
      remove cmp key multiple fuel st node = Ok st' /\
      find cmp key multiple fuel st' (key node) = Ok None.
Proof.
  intros Hb Hn Hno. destruct (built_holds K cmp key multiple cmp_swo st Hb) as (t & Hh).
  pose proof Hh as (HR & _).
  pose proof Hn as Hn'. rewrite (linked_iff _ _ node HR) in Hn'.
  destruct (remove_contents K cmp key multiple cmp_swo (height t) st t node Hh Hn'
              ltac:(lia)) as (st0 & t0 & Hr0 & (HR0 & _) & Hw).
  assert (Hb0 : built cmp key multiple st0)
    by now apply built_remove with (st := st) (fuel := height t) (node := node).
  destruct (find_built K cmp key multiple cmp_swo (key node) st0 Hb0) as (n & Hfind).
  exists (Nat.max n (height t)). intros fuel Hfuel.
  rewrite (remove_mono K cmp key multiple (height t) fuel st node st0 ltac:(lia) Hr0).
  destruct (Hfind fuel ltac:(lia)) as (r & Hr & Hres).
  exists st0. split; [reflexivity|].
  destruct r as [f|]; [|exact Hr].
  destruct Hres as (Hf & He & _). exfalso.
  apply (linked_iff _ _ f HR0) in Hf.
  assert (Hnd : NoDup (ids t)) by (destruct HR as (_ & _ & Hnd); exact Hnd).
  apply (without_in _ _ _ Hw Hnd) in Hf. destruct Hf as (Hf & Hne).
  apply (Hno f); [now apply (linked_iff _ _ f HR)|exact Hne|exact He].
Qed.

End Ops.

Lemma insert_then_find_witness :
  exists t,
    Scenario.rb_run Scenario.key_id true 100
      (map Scenario.Ins [5; 3; 8]) Scenario.rb_empty = Ok t /\
    exists n, forall fuel, n <= fuel ->
      exists t' f,
        insert Nat.ltb Scenario.key_id true fuel t 7 = Ok t' /\
        find Nat.ltb Scenario.key_id true fuel t' (Scenario.key_id 7) = Ok (Some f) /\
        linked t' f /\ equivalent Nat.ltb (Scenario.key_id 7) (Scenario.key_id f) /\
        ((forall p, linked t p ->
            ~ equivalent Nat.ltb (Scenario.key_id 7) (Scenario.key_id p)) -> f = 7).
Proof.
  destruct tree_538 as (t & Ht & Hb & Hl). exists t. split; [exact Ht|].
  assert (H7 : ~ linked t 7) by (rewrite Hl; cbn [In]; lia).
  exact (insert_then_find nat Nat.ltb Scenario.key_id true ltb_strict_weak_order
           t 7 Hb H7 (or_introl eq_refl)).
Defined.

Lemma remove_then_find_witness :
  exists t,
    Scenario.rb_run Scenario.key_id true 100
      (map Scenario.Ins [5; 3; 8]) Scenario.rb_empty = Ok t /\
    exists n, forall fuel, n <= fuel ->
      exists t',
        remove Nat.ltb Scenario.key_id true fuel t 5 = Ok t' /\
        find Nat.ltb Scenario.key_id true fuel t' (Scenario.key_id 5) = Ok None.
Proof.
  destruct tree_538 as (t & Ht & Hb & Hl). exists t. split; [exact Ht|].
  assert (H5 : linked t 5) by (rewrite Hl; cbn [In]; lia).
  apply (remove_then_find nat Nat.ltb Scenario.key_id true ltb_strict_weak_order
           t 5 Hb H5).
  intros p Hp Hne (H1 & H2). unfold Scenario.key_id in H1, H2.
  apply Nat.ltb_ge in H1, H2. lia.
Defined.

End Lookup.

Import RB RBMem RBSpec NoDupFacts Shape Rotate Inv Frames InsertFixup InsertLeaf
  Ordering HintedInsert DeleteFixup DeleteCases Links Chains Remove Fuel Invariants Contents
  Iteration Search Checks Depth.

(** ** Filling a tree and emptying it again *)

Module RoundTrip.

Import Scenario.

Lemma rb_run_app (key : nat -> nat) (multiple : bool) (fuel : nat) (ops1 ops2 : list op) :
  forall st,
    rb_run key multiple fuel (ops1 ++ ops2) st =
    (st' <- rb_run key multiple fuel ops1 st ;; rb_run key multiple fuel ops2 st').
Proof.
  induction ops1 as [|[x|x] ops1 IH]; intros st; cbn [app rb_run bind]; [reflexivity| |].
  - destruct (insert Nat.ltb key multiple fuel st x) as [st1|e]; cbn [bind];
      [apply IH|reflexivity].
  - destruct (remove Nat.ltb key multiple fuel st x) as [st1|e]; cbn [bind];
      [apply IH|reflexivity].
Qed.

Lemma run_inserts (key : nat -> nat) (fuel : nat) (l : list nat) :
  forall st t,
    holds Nat.ltb key true st t -> NoDup l ->
    (forall x, In x l -> ~ In x (ids t)) ->
    length (ids t) + length l <= fuel ->
    exists st' t',
      rb_run key true fuel (map Ins l) st = Ok st' /\
      holds Nat.ltb key true st' t' /\
      Permutation (ids t') (l ++ ids t).
Proof.
  induction l as [|a l IH]; intros st t Hh Hnd Hnew Hfuel.
  - exists st, t. split; [reflexivity|]. split; [exact Hh|]. apply Permutation_refl.
  - cbn [map rb_run]. cbn [length] in Hfuel.
    pose proof (height_le_size t) as Hht.
    destruct (insert_contents nat Nat.ltb key true ltb_strict_weak_order fuel st t a Hh
                (Hnew a (or_introl eq_refl)) ltac:(lia))
      as (st1 & t1 & Hi & Hh1 & Hc).
    destruct Hc as [Hp|(Hf & _)]; [|discriminate].
    rewrite Hi. cbn [bind].
    inversion Hnd as [|? ? Hal Hnd']; subst.
    destruct (IH st1 t1 Hh1 Hnd') as (st' & t' & Hrun & Hh' & Hp').
    + intros x Hx Hin. apply (Permutation_in _ Hp) in Hin.
      destruct Hin as [<-|Hin]; [contradiction|].
      apply (Hnew x); [now right|exact Hin].
    + rewrite (Permutation_length Hp). cbn [length]. lia.
    + exists st', t'. split; [exact Hrun|]. split; [exact Hh'|].
      eapply Permutation_trans; [exact Hp'|].
      eapply Permutation_trans; [apply Permutation_app_head; exact Hp|].
      apply Permutation_sym, Permutation_middle.
Qed.

Lemma run_removes (key : nat -> nat) (fuel : nat) (l : list nat) :
  forall st t,
    holds Nat.ltb key true st t -> NoDup l ->
    (forall x, In x l -> In x (ids t)) ->
    length (ids t) <= S fuel ->
    exists st' t',
      rb_run key true fuel (map Rem l) st = Ok st' /\
      holds Nat.ltb key true st' t' /\
      forall x, In x (ids t') <-> In x (ids t) /\ ~ In x l.
Proof.
  induction l as [|a l IH]; intros st t Hh Hnd Hold Hfuel.
  - exists st, t. split; [reflexivity|]. split; [exact Hh|].
    intros x. cbn [In]. tauto.
  - cbn [map rb_run].
    pose proof (height_le_size t) as Hht.
    destruct (remove_contents nat Nat.ltb key true ltb_strict_weak_order fuel st t a Hh
                (Hold a (or_introl eq_refl)) ltac:(lia))
      as (st1 & t1 & Hr & Hh1 & Hw).
    rewrite Hr. cbn [bind].
    assert (Hndt : NoDup (ids t)) by (destruct Hh as ((_ & _ & H) & _); exact H).
    pose proof (without_in _ _ _ Hw Hndt) as Hin.
    pose proof (without_length _ _ _ Hw) as Hlen.
    inversion Hnd as [|? ? Hal Hnd']; subst.
    destruct (IH st1 t1 Hh1 Hnd') as (st' & t' & Hrun & Hh' & Hin').
    + intros x Hx. apply Hin. split; [apply Hold; now right|].
      intros ->. contradiction.
    + lia.
    + exists st', t'. split; [exact Hrun|]. split; [exact Hh'|].
      intros x. rewrite Hin', Hin. cbn [In]. split.
      * intros ((H1 & H2) & H3). split; [exact H1|]. intros [H|H]; [congruence|auto].
      * intros (H1 & H2). split; [split; [exact H1|]|]; intros H; apply H2; auto.
Qed.

Lemma holds_empty (key : nat -> nat) (m : memory) :
  holds Nat.ltb key true (mkTree None m) E.
Proof.
  split; [|split; [|split]].
  - repeat split. constructor.
  - repeat split.
  - constructor.
  - apply chains_ok_nil.
Qed.

(** Nodes that are inserted into an empty tree one after the other and
    then removed, all of them and in any order, leave the tree empty, as it
    was; equal keys are admitted. *)
Theorem round_trip_leaves_empty (key : nat -> nat) (l l' : list nat) (fuel : nat) :
  NoDup l -> Permutation l l' -> length l <= fuel ->
  exists t,
    rb_run key true fuel (map Ins l ++ map Rem l') rb_empty = Ok t /\
    root t = None /\ forall x, ~ linked t x.
Proof.
  intros Hnd Hp Hfuel. rewrite rb_run_app.
  destruct (run_inserts key fuel l rb_empty E (holds_empty key _) Hnd)
    as (st1 & t1 & Hrun1 & Hh1 & Hp1).
  { intros x _ []. }
  { cbn [ids length]. lia. }
  rewrite Hrun1. cbn [bind]. rewrite app_nil_r in Hp1.
  destruct (run_removes key fuel l' st1 t1 Hh1) as (st2 & t2 & Hrun2 & Hh2 & Hin).
  { exact (Permutation_NoDup Hp Hnd). }
  { intros x Hx. apply (Permutation_in _ (Permutation_sym Hp1)).
    exact (Permutation_in _ (Permutation_sym Hp) Hx). }
  { rewrite (Permutation_length Hp1). lia. }
  exists st2. split; [exact Hrun2|].
  destruct Hh2 as (HR2 & _).
  assert (Ht2 : t2 = E).
  { destruct t2 as [|c a x b]; [reflexivity|]. exfalso.
    assert (Hx : In x (ids (T c a x b)))
      by (cbn [ids]; apply in_or_app; right; now left).
    apply Hin in Hx. destruct Hx as (Hx & Hno). apply Hno.
    apply (Permutation_in _ Hp). exact (Permutation_in _ Hp1 Hx). }
  subst t2. split.
  - now destruct HR2 as (Hroot & _).
  - intros x Hx. now apply (linked_iff _ _ x HR2) in Hx.
Qed.

Lemma round_trip_leaves_empty_witness :
  exists t,
    rb_run key_div10 true 4 (map Ins [50; 30; 51; 80] ++ map Rem [51; 80; 50; 30])
      rb_empty = Ok t /\
    root t = None /\ forall x, ~ linked t x.
Proof.
  apply (round_trip_leaves_empty key_div10 [50; 30; 51; 80] [51; 80; 50; 30] 4).
  - repeat constructor; cbn [In]; lia.
  - apply NoDup_Permutation.
    + repeat constructor; cbn [In]; lia.
    + repeat constructor; cbn [In]; lia.
    + intros x. cbn [In]. lia.
  - cbn [length]. lia.
Defined.

End RoundTrip.

Import RB RBMem RBSpec NoDupFacts Shape Rotate Inv Frames InsertFixup InsertLeaf
  Ordering HintedInsert DeleteFixup DeleteCases Links Chains Remove Fuel Invariants Contents
  Iteration Search Checks Depth.

(** ** The two rotations undo each other *)

Module Rotations.

Lemma node_ext (a b : Node) :
  _rbt_left a = _rbt_left b -> _rbt_right a = _rbt_right b ->
  _rbt_parent a = _rbt_parent b -> _rbt_color a = _rbt_color b ->
  _rbt_next a = _rbt_next b -> _rbt_prev a = _rbt_prev b -> a = b.
Proof.
  destruct a, b. cbn. intros. subst. reflexivity.
Qed.

(** Two states that hold the same tree agree on the fields of its nodes, up
    to the chain links. *)
Lemma rep_fields (st st' : RBTree) (t : tree) (z : nat) :
  Rep st t -> Rep st' t -> In z (ids t) ->
  _rbt_left (mem st' z) = _rbt_left (mem st z) /\
  _rbt_right (mem st' z) = _rbt_right (mem st z) /\
  _rbt_parent (mem st' z) = _rbt_parent (mem st z) /\
  _rbt_color (mem st' z) = _rbt_color (mem st z).
Proof.
  intros HR HR' Hz.
  destruct (in_ids_split _ _ Hz) as (c & l & r & k & ->).
  destruct (read_node _ _ _ _ _ _ HR) as (-> & -> & -> & ->).
  destruct (read_node _ _ _ _ _ _ HR') as (-> & -> & -> & ->).
  now repeat split.
Qed.

Section Built.

Variable K : Type.
Variable cmp : K -> K -> bool.
Variable key : nat -> K.
Variable multiple : bool.

Hypothesis cmp_swo : strict_weak_order cmp.

(** [rotate_left] at a linked node [x] with the right child [y] puts [y]
    in the place of [x] and [x] to the left of [y], and the range loop
    visits the same nodes in the same order as before.  [rotate_right] at
    [y] then gives back the root and the fields of every linked node. *)
Theorem rotations_are_inverse (st : RBTree) (x y : nat) :
  built cmp key multiple st -> linked st x ->
  _rbt_right (mem st x) = Some y ->
  exists st' st'',
    rotate_left st x = Ok st' /\
    _rbt_left (mem st' y) = Some x /\
    _rbt_parent (mem st' y) = _rbt_parent (mem st x) /\
    (exists l n, forall fuel, n <= fuel ->
       iterate fuel st = Ok l /\ iterate fuel st' = Ok l) /\
    rotate_right st' y = Ok st'' /\
    root st'' = root st /\
    forall z, linked st z -> mem st'' z = mem st z.
Proof.
  intros Hb Hx Hr.
  destruct (built_holds K cmp key multiple cmp_swo st Hb) as (t & HR & _).
  apply (linked_iff _ _ x HR) in Hx.
  destruct (in_ids_split _ _ Hx) as (c & a & r & k & ->).
  destruct (read_node _ _ _ _ _ _ HR) as (_ & Hxr & Hxp & _).
  rewrite Hr in Hxr. destruct r as [|c' b y' d]; [discriminate|].
  cbn [rootp] in Hxr. injection Hxr as <-.
  destruct (rotate_left_spec st c a x c' b y d k HR) as (st' & Hrl & HR').
  destruct (rotate_right_spec st' c a x c' b y d k HR') as (st'' & Hrr & HR'').
  exists st', st''. split; [exact Hrl|].
  destruct (read_node _ _ _ _ _ _ HR') as (Hyl & _ & Hyp & _).
  split; [exact Hyl|]. split; [now rewrite Hyp, Hxp|].
  split.
  { exists (ids (plug (T c a x (T c' b y d)) k)),
           (2 * length (ids (plug (T c a x (T c' b y d)) k))).
    intros fuel Hfuel. split; [now apply iterate_spec|].
    assert (Hids : ids (plug (T c' (T c a x b) y d) k) =
                   ids (plug (T c a x (T c' b y d)) k)).
    { rewrite !ids_plug. cbn [ids]. do 2 f_equal. now rewrite <- app_assoc. }
    rewrite <- Hids. apply iterate_spec; [exact HR'|]. now rewrite Hids. }
  split; [exact Hrr|]. split.
  { destruct HR as (H1 & _). destruct HR'' as (H2 & _). now rewrite H1, H2. }
  intros z Hz. apply (linked_iff _ _ z HR) in Hz.
  destruct (rep_fields st st'' _ z HR HR'' Hz) as (H1 & H2 & H3 & H4).
  pose proof (links_eq_trans _ _ _ (rotate_right_links _ _ _ Hrr)
                (rotate_left_links _ _ _ Hrl) z) as (H5 & H6).
  now apply node_ext.
Qed.

End Built.

Lemma rotations_are_inverse_witness :
  exists t,
    Scenario.rb_run Scenario.key_id true 100
      (map Scenario.Ins [5; 3; 8]) Scenario.rb_empty = Ok t /\
    exists t' t'',
      rotate_left t 5 = Ok t' /\
      _rbt_left (mem t' 8) = Some 5 /\
      _rbt_parent (mem t' 8) = _rbt_parent (mem t 5) /\
      (exists l n, forall fuel, n <= fuel ->
         iterate fuel t = Ok l /\ iterate fuel t' = Ok l) /\
      rotate_right t' 8 = Ok t'' /\
      root t'' = root t /\
      forall z, linked t z -> mem t'' z = mem t z.
Proof.
  assert (F : (t <- Scenario.rb_run Scenario.key_id true 100
                 (map Scenario.Ins [5; 3; 8]) Scenario.rb_empty ;;
               Ok (_rbt_right (mem t 5))) = Ok (Some 8)).
  { vm_compute. reflexivity. }
  apply bind_ok_inv in F. destruct F as (t & Ht & Hr).
  destruct (built_inserts_empty Scenario.key_id 100 [5; 3; 8] t) as (Hb & Hl);
    [repeat constructor; cbn [In]; lia|exact Ht|].
  assert (H5 : linked t 5) by (rewrite Hl; cbn [In]; lia).
  exists t. split; [exact Ht|].
  exact (rotations_are_inverse nat Nat.ltb Scenario.key_id true
           ltb_strict_weak_order t 5 8 Hb H5 Hr).
Defined.

End Rotations.

Import RB RBMem RBSpec NoDupFacts Shape Rotate Inv Frames InsertFixup InsertLeaf
  Ordering HintedInsert DeleteFixup DeleteCases Links Chains Remove Fuel Invariants Contents
  Iteration Search Checks Depth.

(** ** [insert] with the iterator [end()] as hint *)

Module InsertAtEnd.

(** Below a node without right child a red-black tree has at most one
    node, a RED one. *)
Lemma low_left (c : Color) (l : tree) (x : nat) :
  balanced (T c l x E) -> no_red_red (T c l x E) ->
  l = E \/ exists y, l = T RED E y E.
Proof.
  cbn [balanced no_red_red bh]. intros (Hh & Hbl & _) (_ & Hnl & _).
  destruct l as [|cl ll y lr]; [now left|right]. exists y.
  cbn [bh] in Hh. cbn [balanced] in Hbl. cbn [no_red_red] in Hnl.
  destruct Hbl as (Hhl & _). destruct Hnl as (Hred & _).
  destruct cl; cbn [blk] in Hh; [|lia].
  destruct (Hred eq_refl) as (Hcl & Hcr).
  assert (Hll : ll = E).
  { destruct ll as [|c1 ? ? ?]; [reflexivity|]. cbn [col] in Hcl. subst c1.
    cbn [bh blk] in Hh. lia. }
  assert (Hlr : lr = E).
  { destruct lr as [|c1 ? ? ?]; [reflexivity|]. cbn [col] in Hcr. subst c1.
    cbn [bh blk] in Hhl. subst ll. cbn [bh] in Hhl. lia. }
  now subst.
Qed.

Section Insert.

Variable K : Type.
Variable cmp : K -> K -> bool.
Variable key : nat -> K.
Variable multiple : bool.
Variable node : nat.

Hypothesis cmp_swo : strict_weak_order cmp.

(** Where the descent from the largest node ends at the left of a node,
    that node has no right child. *)
Lemma descend_left_sib (c : Color) (l : tree) (x : nat) (k : context)
  (cp : Color) (p : nat) (sib : tree) (k' : context) :
  l = E \/ (exists y, l = T RED E y E) ->
  descend K cmp key node (T c l x E) k = FL cp p sib :: k' -> sib = E.
Proof.
  intros [->|(y & ->)]; cbn [descend].
  - destruct (cmp (key x) (key node)); intros [= ]; congruence.
  - destruct (cmp (key x) (key node)); [intros [= ]|].
    destruct (cmp (key y) (key node)); intros [= ]; congruence.
Qed.

Lemma sorted_insert_after (a b : list nat) (p : nat) :
  StronglySorted (le cmp key) (a ++ p :: b) ->
  (forall y, In y (a ++ [p]) -> le cmp key y node) ->
  le cmp key node p ->
  StronglySorted (le cmp key) (a ++ p :: node :: b).
Proof.
  intros Hs Hlow Hnp.
  apply StronglySorted_app in Hs. destruct Hs as (Ha & Hpb & Hab).
  apply StronglySorted_cons_iff in Hpb. destruct Hpb as (Hb & Hp).
  apply StronglySorted_app. split; [exact Ha|]. split.
  - apply StronglySorted_cons_iff. split.
    + apply StronglySorted_cons_iff. split; [exact Hb|].
      intros z Hz. apply (le_trans cmp_swo) with p; [exact Hnp|now apply Hp].
    + intros z [<-|Hz]; [|now apply Hp].
      apply Hlow. apply in_or_app. right. now left.
  - intros y z Hy [<-|[<-|Hz]].
    + apply Hab; [exact Hy|now left].
    + apply Hlow. apply in_or_app. now left.
    + apply Hab; [exact Hy|now right].
Qed.

(** The first node of an empty tree. *)
Lemma insert_right_empty_spec (fuel : nat) (st : RBTree) :
  Rep st E ->
  exists st',
    insert_leaf_right_biased cmp key multiple fuel st node None = Ok st' /\
    Rep st' (T BLACK E node E) /\
    chains_ok cmp key multiple (mem st') (ids (T BLACK E node E)).
Proof.
  intros (Hr & _ & _).
  unfold insert_leaf_right_biased, insert_leaf_base.
  assert (Hch : forall m, chains_ok cmp key multiple
                  (equality_list_insert_after multiple m node None)
                  (ids (T BLACK E node E))).
  { intros m. apply (chains_insert_alone K cmp key multiple m [] _ node).
    - apply chains_ok_nil.
    - intros [].
    - intros z. cbn [ids app In]. split; intros [H|[]]; left; congruence. }
  destruct fuel; cbn [insert_descend bind];
    (eexists; split; [reflexivity|]); (split; [|apply Hch]);
    (split; [reflexivity|]); (split; [|repeat constructor; simpl; tauto]);
    cbn [mem shape rootp];
    pose proof (same_node_equality_list_insert_after multiple
                  (set_color (set_parent (set_left (set_right (mem st) node None) node None)
                                node None) node BLACK) node None node) as (E1 & E2 & E3 & E4);
    rewrite E1, E2, E3, E4; repeat split; mem_auto.
Qed.

(** The leaf that is looked for from the largest node [x] on. *)
Lemma insert_leaf_right_spec (fuel : nat) (st : RBTree) (c : Color) (l : tree)
  (x : nat) (k : context) :
  let t := plug (T c l x E) k in
  Rep st t -> rbtree t -> cright k = [] ->
  StronglySorted (le cmp key) (ids t) ->
  chains_ok cmp key multiple (mem st) (ids t) ->
  ~ In node (ids t) ->
  (forall y, In y (ids t) -> cmp (key node) (key y) = false) ->
  height t <= fuel ->
  exists st' t',
    insert_leaf_right_biased cmp key multiple fuel st node (Some x) = Ok st' /\
    holds cmp key multiple st' t' /\
    (Permutation (ids t') (node :: ids t) \/
     (multiple = false /\ t' = t /\
      exists p, In p (ids t) /\ equivalent cmp (key node) (key p))).
Proof.
  intros t HR Hrb Hcr Hso Hch Hnode Hmax Hfuel. subst t.
  remember (T c l x E) as s eqn:Es.
  assert (Hs : s <> E) by (rewrite Es; discriminate).
  unfold insert_leaf_right_biased, insert_leaf_base.
  set (m0 := set_left (set_right (mem st) node None) node None).
  assert (HR0 : Rep (mkTree (root st) m0) (plug s k)).
  { apply Rep_same; [exact HR|]. intros z Hz. unfold m0, same_node.
    assert (z <> node) by (intros ->; auto).
    repeat split; mem_auto. }
  pose proof HR0 as HR0'. rewrite Rep_plug in HR0'.
  destruct HR0' as (_ & Hsh & _). cbn [mem] in Hsh.
  replace (Some x) with (rootp s) by (rewrite Es; reflexivity).
  rewrite (insert_descend_spec K cmp key node s (cpar k) fuel m0 k (rootp s) Hsh)
    by (pose proof (height_plug k s); lia).
  destruct (descend_dir K cmp key node s k Hs) as (f & k' & Hd & Hdir).
  replace (match s with E => rootp s | T _ _ _ _ => cpar (descend K cmp key node s k) end)
    with (Some (fid f)) by (destruct s; [congruence|rewrite Hd; reflexivity]).
  cbn [bind].
  pose proof (plug_descend K cmp key node s k) as Hpd. rewrite Hd in Hpd.
  pose proof (descend_sorted cmp_swo node s k Hso) as Hds.
  pose proof (perm_insert_descend K cmp key node s k) as Hperm.
  rewrite Hd in Hds, Hperm.
  assert (Hpin : In (fid f) (ids (plug s k))).
  { rewrite <- Hpd. apply in_ids_plug. right. cbn [cids].
    apply in_or_app. left. apply fid_in. }
  rewrite (Hmax _ Hpin).
  pose proof Hnode as Hnode0.
  assert (Hlinked : forall mX, links_eq mX m0 ->
            chains_ok cmp key multiple mX (ids (plug s k))).
  { intros mX HX.
    apply (chains_ok_frame cmp key multiple (mem st) mX _ _ Hch);
      [|intros z; reflexivity].
    eapply links_eq_trans; [exact HX|].
    unfold m0. intros z. split; autorewrite with rbmem; reflexivity. }
  destruct (cmp (key (fid f)) (key node)) eqn:Hc2.
  { (* greater than the parent *)
    cbn [negb] in Hdir.
    rewrite <- Hpd in HR, Hrb, Hnode, Hfuel.
    assert (Hdepth : length (f :: k') <= fuel).
    { pose proof (height_plug (f :: k') E). lia. }
    destruct (link_and_fixup K cmp key node fuel st f k'
                (equality_list_insert_after multiple
                   (set_right (set_color (set_parent m0 node (Some (fid f))) node RED)
                      (fid f) (Some node)) node None)
                HR Hrb Hnode Hdepth) as (st' & t' & H1 & H2 & H3 & H4).
    { cbv zeta. rewrite Hdir. intros z. apply same_node_equality_list_insert_after. }
    exists st', t'. split; [exact H1|].
    assert (Hp' : Permutation (ids t') (node :: ids (plug s k)))
      by (rewrite H4; now apply Permutation_sym).
    split; [|left; exact Hp'].
    split; [exact H2|]. split; [exact H3|]. split.
    - rewrite H4. apply Hds; [|rewrite Hcr; intros y []].
      intros y Hy. apply Hmax. rewrite ids_plug. apply in_or_app. now left.
    - apply fixup_after_insert_links in H1. cbn [mem] in H1.
      eapply chains_ok_frame; [|exact H1|intros z; reflexivity].
      apply (chains_insert_alone K cmp key multiple _ (ids (plug s k))); auto.
      + apply Hlinked. intros z. split; autorewrite with rbmem; reflexivity.
      + intros z. split.
        * intros Hz. apply (Permutation_in _ Hp') in Hz.
          destruct Hz as [Hz|Hz]; auto.
        * intros Hz. apply (Permutation_in _ (Permutation_sym Hp')).
          destruct Hz as [Hz|Hz]; [now left|now right]. }
  cbn [negb] in Hdir. destruct multiple eqn:Hmult; cbn [negb].
  - (* equal to the parent, duplicates admitted: linked to its right *)
    destruct f as [cp p sib|cp sib p]; [|discriminate]. cbn [fid] in *.
    assert (Hsib : sib = E).
    { apply rbtree_plug_inv in Hrb. destruct Hrb as (Hb & Hn & _).
      rewrite Es in Hb, Hn, Hd.
      exact (descend_left_sib c l x k cp p sib k' (low_left c l x Hb Hn) Hd). }
    subst sib.
    assert (Hpd' : plug E (FR cp E p :: k') = plug s k) by (rewrite <- Hpd; reflexivity).
    rewrite <- Hpd' in HR, Hrb, Hnode, Hfuel.
    assert (Hdepth : length (FR cp E p :: k') <= fuel).
    { pose proof (height_plug (FR cp E p :: k') E). lia. }
    destruct (link_and_fixup K cmp key node fuel st (FR cp E p) k'
                (equality_list_insert_after true
                   (set_right (set_color (set_parent m0 node (Some p)) node RED)
                      p (Some node)) node (Some p))
                HR Hrb Hnode Hdepth) as (st' & t' & H1 & H2 & H3 & H4).
    { cbv zeta. cbn [is_FL fid]. intros z. apply same_node_equality_list_insert_after. }
    exists st', t'. split; [exact H1|].
    assert (Hold : ids (plug s k) = cleft k' ++ p :: cright k').
    { rewrite <- Hpd. change (plug E (FL cp p E :: k')) with (plug (T cp E p E) k').
      rewrite ids_plug. reflexivity. }
    assert (Hnew : ids t' = cleft k' ++ p :: node :: cright k').
    { rewrite H4. change (plug (T RED E node E) (FR cp E p :: k'))
        with (plug (T cp E p (T RED E node E)) k').
      rewrite ids_plug. reflexivity. }
    assert (Hp' : Permutation (ids t') (node :: ids (plug s k))).
    { rewrite Hnew, Hold. apply Permutation_sym.
      eapply Permutation_trans; [apply Permutation_middle|].
      apply Permutation_app_head. apply perm_swap. }
    split; [|left; exact Hp'].
    split; [exact H2|]. split; [exact H3|]. split.
    + rewrite Hnew. apply sorted_insert_after.
      * now rewrite <- Hold.
      * intros y Hy. apply Hmax. rewrite Hold.
        apply in_app_or in Hy. apply in_or_app.
        destruct Hy as [Hy|[<-|[]]]; [now left|right; now left].
      * exact Hc2.
    + apply fixup_after_insert_links in H1. cbn [mem] in H1.
      eapply chains_ok_frame; [|exact H1|intros z; reflexivity].
      apply (chains_insert_after K cmp key true cmp_swo _ (ids (plug s k))); auto.
      * apply Hlinked. intros z. split; autorewrite with rbmem; reflexivity.
      * split; [now apply Hmax|exact Hc2].
      * intros z. split.
        -- intros Hz. apply (Permutation_in _ Hp') in Hz.
           destruct Hz as [Hz|Hz]; auto.
        -- intros Hz. apply (Permutation_in _ (Permutation_sym Hp')).
           destruct Hz as [Hz|Hz]; [now left|now right].
  - (* equal to the parent, duplicates refused *)
    eexists _, (plug s k). split; [reflexivity|]. split.
    + split; [|split; [exact Hrb|split; [exact Hso|]]].
      * apply Rep_same; [exact HR|]. intros z Hz. unfold m0, same_node.
        assert (z <> node) by (intros ->; auto).
        repeat split; mem_auto.
      * cbn [mem]. apply Hlinked. intros z. split; autorewrite with rbmem; reflexivity.
    + right. split; [reflexivity|]. split; [reflexivity|].
      exists (fid f). split; [exact Hpin|]. split; [now apply Hmax|exact Hc2].
Qed.

(** [insert(node, end())] into a built tree, for a node whose key is not
    below the key of any linked node: the call returns, the result is a
    red-black tree whose keys never decrease in the in-order sequence and
    passes [verify_integrity], no node is unlinked and no node but the new
    one is linked, and the new node is linked whenever duplicates are
    admitted or no linked node has an equivalent key. *)
Theorem insert_at_end_keeps_order (st : RBTree) :
  built cmp key multiple st -> ~ linked st node ->
  (forall p, linked st p -> cmp (key node) (key p) = false) ->
  exists n, forall fuel, n <= fuel ->
    exists st' t',
      insert_iterator_hint cmp key multiple fuel st node end_ = Ok st' /\
      Rep st' t' /\ rbtree t' /\ nondecreasing cmp key (ids t') /\
      verify_integrity cmp key multiple fuel st' = Ok true /\
      (forall z, linked st' z -> z = node \/ linked st z) /\
      (forall z, linked st z -> linked st' z) /\
      (multiple = true \/
       (forall p, linked st p -> ~ equivalent cmp (key node) (key p)) ->
       linked st' node).
Proof.
  intros Hb Hn Hmax.
  destruct (built_holds K cmp key multiple cmp_swo st Hb) as (t & HR & Hrb & Hso & Hch).
  exists (2 * length (ids t) + 2). intros fuel Hfuel.
  rewrite (linked_iff _ _ node HR) in Hn.
  assert (Hmax' : forall y, In y (ids t) -> cmp (key node) (key y) = false).
  { intros y Hy. apply Hmax. now apply (linked_iff _ _ y HR). }
  assert (Hpost : exists st' t',
            insert_iterator_hint cmp key multiple fuel st node end_ = Ok st' /\
            holds cmp key multiple st' t' /\
            (Permutation (ids t') (node :: ids t) \/
             (multiple = false /\ t' = t /\
              exists p, In p (ids t) /\ equivalent cmp (key node) (key p)))).
  { unfold insert_iterator_hint, end_.
    pose proof HR as (Hroot & _). rewrite Hroot.
    destruct t as [|c0 l0 x0 r0] eqn:Et.
    - cbn [rootp].
      destruct (insert_right_empty_spec fuel st HR) as (st' & Hi & HR' & Hch').
      exists st', (T BLACK E node E). split; [exact Hi|]. split; [|now left].
      split; [exact HR'|]. split; [repeat split; auto|].
      split; [cbn [ids app]; repeat constructor|exact Hch'].
    - rewrite <- Et in *.
      destruct (rightmost_spec st t [] fuel ltac:(subst t; discriminate) HR
                  ltac:(lia))
        as (x' & c2 & a & n2 & KK & Hx' & Hrm & Hpl & Hcr).
      rewrite Et in Hx'. cbn [rootp] in Hx'. injection Hx' as <-.
      replace (rootp t) with (Some x0) by (rewrite Et; reflexivity).
      rewrite Hrm. cbn [bind].
      cbn [plug] in HR. rewrite Hpl in HR, Hrb, Hso, Hch, Hn, Hmax', Hfuel |- *.
      pose proof (height_le_size (plug (T c2 a n2 E) KK)) as Hht.
      exact (insert_leaf_right_spec fuel st c2 a n2 KK HR Hrb Hcr Hso Hch Hn Hmax'
               ltac:(lia)). }
  destruct Hpost as (st' & t' & Hi & Hh' & Hc).
  exists st', t'. split; [exact Hi|].
  pose proof Hh' as (HR' & Hrb' & Hso' & _).
  split; [exact HR'|]. split; [exact Hrb'|].
  split; [now apply (nondecreasing_strongly cmp_swo)|].
  split.
  { apply (verify_integrity_holds K cmp key multiple st' t' fuel Hh').
    destruct Hc as [Hp|(_ & -> & _)]; [|lia].
    rewrite (Permutation_length Hp). cbn [length]. lia. }
  destruct Hc as [Hp|(Hm & -> & p & Hp & He)].
  - split; [|split].
    + intros z Hz. apply (linked_iff _ _ z HR') in Hz.
      apply (Permutation_in _ Hp) in Hz. destruct Hz as [Hz|Hz]; [now left|].
      right. now apply (linked_iff _ _ z HR).
    + intros z Hz. apply (linked_iff _ _ z HR').
      apply (Permutation_in _ (Permutation_sym Hp)). right.
      now apply (linked_iff _ _ z HR).
    + intros _. apply (linked_iff _ _ node HR').
      apply (Permutation_in _ (Permutation_sym Hp)). now left.
  - split; [|split].
    + intros z Hz. right. apply (linked_iff _ _ z HR).
      now apply (linked_iff _ _ z HR').
    + intros z Hz. apply (linked_iff _ _ z HR').
      now apply (linked_iff _ _ z HR).
    + intros [Ht|Hno]; [congruence|].
      exfalso. apply (Hno p); [|exact He]. now apply (linked_iff _ _ p HR).
Qed.

End Insert.

Lemma insert_at_end_keeps_order_witness :
  exists t,
    Scenario.rb_run Scenario.key_id true 100
      (map Scenario.Ins [5; 3; 8]) Scenario.rb_empty = Ok t /\
    exists n, forall fuel, n <= fuel ->
      exists t' tr,
        insert_iterator_hint Nat.ltb Scenario.key_id true fuel t 9 end_ = Ok t' /\
        Rep t' tr /\ rbtree tr /\ nondecreasing Nat.ltb Scenario.key_id (ids tr) /\
        verify_integrity Nat.ltb Scenario.key_id true fuel t' = Ok true /\
        (forall z, linked t' z -> z = 9 \/ linked t z) /\
        (forall z, linked t z -> linked t' z) /\
        (true = true \/
         (forall p, linked t p ->
            ~ equivalent Nat.ltb (Scenario.key_id 9) (Scenario.key_id p)) ->
         linked t' 9).
Proof.
  destruct tree_538 as (t & Ht & Hb & Hl). exists t. split; [exact Ht|].
  assert (H9 : ~ linked t 9) by (rewrite Hl; cbn [In]; lia).
  apply (insert_at_end_keeps_order nat Nat.ltb Scenario.key_id true 9
           ltb_strict_weak_order t Hb H9).
  intros p Hp. apply Hl in Hp. unfold Scenario.key_id. apply Nat.ltb_ge.
  cbn [In] in Hp. lia.
Defined.

End InsertAtEnd.

Import RB RBMem RBSpec NoDupFacts Shape Rotate Inv Frames InsertFixup InsertLeaf
  Ordering HintedInsert DeleteFixup DeleteCases Links Chains Remove Fuel Invariants Contents
  Iteration Search Checks Depth.

(** ** The place of a node in the order of the range loop *)

Module Stability.

Section Ops.

Variable K : Type.
Variable cmp : K -> K -> bool.
Variable key : nat -> K.
Variable multiple : bool.

Hypothesis cmp_swo : strict_weak_order cmp.

(** The descent of [insert_leaf_base] ends behind the nodes with a smaller
    key and in front of all others. *)
Lemma descend_position (node : nat) (s : tree) :
  forall k,
    StronglySorted (le cmp key) (ids (plug s k)) ->
    (forall y, In y (cleft k) -> cmp (key y) (key node) = true) ->
    (forall y, In y (cright k) -> cmp (key y) (key node) = false) ->
    (forall y, In y (cleft (descend K cmp key node s k)) ->
       cmp (key y) (key node) = true) /\
    (forall y, In y (cright (descend K cmp key node s k)) ->
       cmp (key y) (key node) = false).
Proof.
  destruct cmp_swo as (_ & _ & Hneg).
  induction s as [|c l IHl x r IHr]; intros k Hs Hl Hr; cbn [descend];
    [now split|].
  assert (Hparts : (forall y, In y (ids l) -> cmp (key x) (key y) = false) /\
                   (forall y, In y (ids r) -> cmp (key y) (key x) = false)).
  { rewrite ids_plug in Hs. cbn [ids] in Hs.
    apply StronglySorted_app in Hs. destruct Hs as (_ & Hs & _).
    apply StronglySorted_app in Hs. destruct Hs as (Hs & _ & _).
    apply StronglySorted_app in Hs. destruct Hs as (_ & Hxr & Hlx).
    apply StronglySorted_cons_iff in Hxr. destruct Hxr as (_ & Hxr).
    split.
    - intros y Hy. apply (Hlx y x Hy). now left.
    - intros y Hy. now apply Hxr. }
  destruct Hparts as (Hlx & Hxr).
  destruct (cmp (key x) (key node)) eqn:Hx.
  - apply IHr; [exact Hs| |exact Hr].
    cbn [cleft]. intros y Hy.
    rewrite !in_app_iff in Hy. destruct Hy as [Hy|[Hy|[<-|[]]]].
    + now apply Hl.
    + destruct (Hneg _ (key y) _ Hx) as [H|H]; [|exact H].
      rewrite (Hlx y Hy) in H. discriminate.
    + exact Hx.
  - apply IHl; [exact Hs|exact Hl|].
    cbn [cright]. intros y [<-|Hy]; [exact Hx|].
    apply in_app_or in Hy. destruct Hy as [Hy|Hy]; [|now apply Hr].
    destruct (cmp (key y) (key node)) eqn:Hy'; [|reflexivity].
    destruct (Hneg _ (key x) _ Hy') as [H|H]; [|congruence].
    rewrite (Hxr y Hy) in H. discriminate.
Qed.

(** [insert] leaves the nodes of a built tree in the order in which the
    range loop visited them, and puts the new node behind the nodes with a
    smaller key and in front of all others, the nodes with an equivalent
    key among them. *)
Theorem insert_keeps_places (st : RBTree) (node : nat) :
  built cmp key multiple st -> ~ linked st node ->
  multiple = true \/
  (forall p, linked st p -> ~ equivalent cmp (key node) (key p)) ->
  exists l1 l2 n,
    (forall y, In y l1 -> cmp (key y) (key node) = true) /\
    (forall y, In y l2 -> cmp (key y) (key node) = false) /\
    forall fuel, n <= fuel ->
      exists st',
        insert cmp key multiple fuel st node = Ok st' /\
        iterate fuel st = Ok (l1 ++ l2) /\
        iterate fuel st' = Ok (l1 ++ node :: l2).
Proof.
  intros Hb Hn Hadm.
  destruct (built_holds K cmp key multiple cmp_swo st Hb) as (t & HR & Hrb & Hso & _).
  rewrite (linked_iff _ _ node HR) in Hn.
  destruct t as [|c l x r] eqn:Et.
  - exists [], [], 2. split; [intros y []|]. split; [intros y []|].
    intros fuel Hfuel.
    destruct (insert_empty_spec K cmp key multiple node fuel st HR) as (st' & Hi & HR').
    exists st'. split; [exact Hi|]. split.
    + apply (iterate_spec st E fuel HR). cbn [ids length]. lia.
    + apply (iterate_spec st' (T BLACK E node E) fuel HR'). cbn [ids app length]. lia.
  - rewrite <- Et in *.
    pose proof (descend_position node t [] Hso ltac:(intros y [])
                  ltac:(intros y [])) as (Hlow & Hhigh).
    pose proof (plug_descend K cmp key node t []) as Hpd.
    exists (cleft (descend K cmp key node t [])),
           (cright (descend K cmp key node t [])),
           (2 * length (ids t) + 2).
    split; [exact Hlow|]. split; [exact Hhigh|].
    intros fuel Hfuel.
    pose proof (height_le_size t) as Hht.
    destruct (insert_leaf_spec K cmp key multiple node (cmp_asym cmp_swo) fuel st
                t [] HR Hrb Hn ltac:(subst t; discriminate) ltac:(cbn [plug]; lia))
      as (st' & t' & Hi & HR' & _ & Hids).
    exists st'. split.
    { unfold insert. destruct HR as (Hroot & _). rewrite Hroot. exact Hi. }
    assert (Hold : ids t = cleft (descend K cmp key node t []) ++
                           cright (descend K cmp key node t [])).
    { change (ids t) with (ids (plug t [])). rewrite <- Hpd, ids_plug. reflexivity. }
    split.
    + rewrite <- Hold. apply (iterate_spec st t fuel HR). lia.
    + destruct Hids as [Hids|(Hm & _ & p & Hp & He1 & He2)].
      * rewrite ids_plug in Hids. cbn [ids app] in Hids. rewrite <- Hids.
        apply (iterate_spec st' t' fuel HR').
        rewrite Hids, length_app. cbn [length]. rewrite Hold, length_app in Hfuel. lia.
      * exfalso. destruct Hadm as [Ht|Hno]; [congruence|].
        apply (Hno p); [|now split].
        apply (linked_iff _ _ p HR). exact Hp.
Qed.

(** [remove] leaves the other nodes of a built tree in the order in which
    the range loop visited them. *)
Theorem remove_keeps_places (st : RBTree) (node : nat) :
  built cmp key multiple st -> linked st node ->
  exists l1 l2 n,
    forall fuel, n <= fuel ->
      exists st',
        remove cmp key multiple fuel st node = Ok st' /\
        iterate fuel st = Ok (l1 ++ node :: l2) /\
        iterate fuel st' = Ok (l1 ++ l2).
Proof.
  intros Hb Hn.
  destruct (built_holds K cmp key multiple cmp_swo st Hb) as (t & Hh).
  pose proof Hh as (HR & _).
  rewrite (linked_iff _ _ node HR) in Hn.
  destruct (remove_contents K cmp key multiple cmp_swo (height t) st t node Hh Hn
              ltac:(lia)) as (st0 & t0 & Hr0 & (HR0 & _) & (l1 & l2 & E1 & E2)).
  exists l1, l2, (2 * length (ids t)). intros fuel Hfuel.
  pose proof (height_le_size t) as Hht.
  exists st0. split.
  { apply (remove_mono K cmp key multiple (height t) fuel st node st0); [lia|exact Hr0]. }
  split.
  - rewrite <- E1. now apply iterate_spec.
  - rewrite <- E2. apply (iterate_spec st0 t0 fuel HR0).
    rewrite E1, length_app in Hfuel. cbn [length] in Hfuel.
    rewrite E2, length_app. lia.
Qed.

End Ops.

Lemma insert_keeps_places_witness :
  exists t,
    Scenario.rb_run Scenario.key_id true 100
      (map Scenario.Ins [5; 3; 8]) Scenario.rb_empty = Ok t /\
    exists l1 l2 n,
      (forall y, In y l1 -> Nat.ltb (Scenario.key_id y) (Scenario.key_id 7) = true) /\
      (forall y, In y l2 -> Nat.ltb (Scenario.key_id y) (Scenario.key_id 7) = false) /\
      forall fuel, n <= fuel ->
        exists t',
          insert Nat.ltb Scenario.key_id true fuel t 7 = Ok t' /\
          iterate fuel t = Ok (l1 ++ l2) /\
          iterate fuel t' = Ok (l1 ++ 7 :: l2).
Proof.
  destruct tree_538 as (t & Ht & Hb & Hl). exists t. split; [exact Ht|].
  assert (H7 : ~ linked t 7) by (rewrite Hl; cbn [In]; lia).
  exact (insert_keeps_places nat Nat.ltb Scenario.key_id true ltb_strict_weak_order
           t 7 Hb H7 (or_introl eq_refl)).
Defined.

Lemma remove_keeps_places_witness :
  exists t,
    Scenario.rb_run Scenario.key_id true 100
      (map Scenario.Ins [5; 3; 8]) Scenario.rb_empty = Ok t /\
    exists l1 l2 n,
      forall fuel, n <= fuel ->
        exists t',
          remove Nat.ltb Scenario.key_id true fuel t 5 = Ok t' /\
          iterate fuel t = Ok (l1 ++ 5 :: l2) /\
          iterate fuel t' = Ok (l1 ++ l2).
Proof.
  destruct tree_538 as (t & Ht & Hb & Hl). exists t. split; [exact Ht|].
  assert (H5 : linked t 5) by (rewrite Hl; cbn [In]; lia).
  exact (remove_keeps_places nat Nat.ltb Scenario.key_id true ltb_strict_weak_order
           t 5 Hb H5).
Defined.

End Stability.

Import RB RBMem RBSpec NoDupFacts Shape Rotate Inv Frames InsertFixup InsertLeaf
  Ordering HintedInsert DeleteFixup DeleteCases Links Chains Remove Fuel Invariants Contents
  Iteration Search Checks Depth.

(** ** The nodes that [insert] and [remove] write to *)

Module Footprint.

Section Within.

(** [multiple] is the option of the tree; [P] holds of the nodes that the
    operation may write to. *)
Variable multiple : bool.
Variable P : nat -> Prop.

(** The link [p] is null or leads to a node of [P]. *)
Definition inP (p : ptr) : Prop :=
  match p with
  | Some x => P x
  | None => True
  end.

(** No link of a node of [P] leaves [P]; the chain links count when the
    tree keeps equality chains. *)
Definition closed (m : memory) : Prop :=
  forall a, P a ->
    inP (_rbt_left (m a)) /\ inP (_rbt_right (m a)) /\ inP (_rbt_parent (m a)) /\
    (multiple = true -> inP (_rbt_next (m a)) /\ inP (_rbt_prev (m a))).

(** From [m] to [m'] only nodes of [P] were written, and [P] is closed in
    [m'] as well. *)
Definition within (m m' : memory) : Prop :=
  (forall z, ~ P z -> m' z = m z) /\ closed m'.

Lemma within_refl (m : memory) : closed m -> within m m.
Proof. intros H. now split. Qed.

Lemma within_trans (m1 m2 m3 : memory) :
  within m1 m2 -> within m2 m3 -> within m1 m3.
Proof.
  intros (F1 & _) (F2 & C3). split; [|exact C3].
  intros z Hz. now rewrite F2, F1.
Qed.

Lemma within_closed (m m' : memory) : within m m' -> closed m'.
Proof. now intros (_ & H). Qed.

Lemma closed_left (m : memory) (a : nat) : closed m -> P a -> inP (_rbt_left (m a)).
Proof. intros H Ha. now destruct (H a Ha). Qed.

Lemma closed_right (m : memory) (a : nat) : closed m -> P a -> inP (_rbt_right (m a)).
Proof. intros H Ha. now destruct (H a Ha) as (_ & ? & _). Qed.

Lemma closed_parent (m : memory) (a : nat) : closed m -> P a -> inP (_rbt_parent (m a)).
Proof. intros H Ha. now destruct (H a Ha) as (_ & _ & ? & _). Qed.

Lemma closed_next (m : memory) (a : nat) :
  closed m -> multiple = true -> P a -> inP (_rbt_next (m a)).
Proof. intros H Hm Ha. destruct (H a Ha) as (_ & _ & _ & Hc). now destruct (Hc Hm). Qed.

Lemma closed_prev (m : memory) (a : nat) :
  closed m -> multiple = true -> P a -> inP (_rbt_prev (m a)).
Proof. intros H Hm Ha. destruct (H a Ha) as (_ & _ & _ & Hc). now destruct (Hc Hm). Qed.

(** *** Writes to a node of [P] leave the other nodes alone *)

Lemma upd_out (m : memory) (b z : nat) (f : Node -> Node) :
  P b -> ~ P z -> upd m b f z = m z.
Proof. intros Hb Hz. apply upd_neq. intros ->. contradiction. Qed.

Lemma set_left_out (m : memory) (b z : nat) (v : ptr) :
  P b -> ~ P z -> set_left m b v z = m z.
Proof. apply upd_out. Qed.

Lemma set_right_out (m : memory) (b z : nat) (v : ptr) :
  P b -> ~ P z -> set_right m b v z = m z.
Proof. apply upd_out. Qed.

Lemma set_parent_out (m : memory) (b z : nat) (v : ptr) :
  P b -> ~ P z -> set_parent m b v z = m z.
Proof. apply upd_out. Qed.

Lemma set_color_out (m : memory) (b z : nat) (v : Color) :
  P b -> ~ P z -> set_color m b v z = m z.
Proof. apply upd_out. Qed.

Lemma set_next_out (m : memory) (b z : nat) (v : ptr) :
  P b -> ~ P z -> set_next m b v z = m z.
Proof. apply upd_out. Qed.

Lemma set_prev_out (m : memory) (b z : nat) (v : ptr) :
  P b -> ~ P z -> set_prev m b v z = m z.
Proof. apply upd_out. Qed.

Lemma set_parent_if_out (m : memory) (p : ptr) (z : nat) (v : ptr) :
  inP p -> ~ P z -> set_parent_if m p v z = m z.
Proof. destruct p; cbn [set_parent_if inP]; [apply set_parent_out|reflexivity]. Qed.

Lemma set_next_if_out (m : memory) (p : ptr) (z : nat) (v : ptr) :
  inP p -> ~ P z -> set_next_if m p v z = m z.
Proof. destruct p; cbn [set_next_if inP]; [apply set_next_out|reflexivity]. Qed.

Lemma set_prev_if_out (m : memory) (p : ptr) (z : nat) (v : ptr) :
  inP p -> ~ P z -> set_prev_if m p v z = m z.
Proof. destruct p; cbn [set_prev_if inP]; [apply set_prev_out|reflexivity]. Qed.

End Within.

(** Closes [inP P e] for a link [e] that is read from a memory made of
    writes to a memory in which [P] is closed. *)
Ltac inP_leaf :=
  first [ assumption | inP_read ]
with inP_read :=
  lazymatch goal with
  | |- inP _ None => exact I
  | |- inP _ (Some ?c) =>
      cbn [inP];
      first [ assumption
            | match goal with
              | E : ?e = Some c |- _ =>
                  change (inP _ (Some c)); rewrite <- E; inP_leaf
              end ]
  | |- inP _ (_rbt_left (_ _)) => eapply closed_left; [eassumption|inP_node]
  | |- inP _ (_rbt_right (_ _)) => eapply closed_right; [eassumption|inP_node]
  | |- inP _ (_rbt_parent (_ _)) => eapply closed_parent; [eassumption|inP_node]
  | |- inP _ (_rbt_next (_ _)) =>
      eapply closed_next; [eassumption|first [assumption|reflexivity]|inP_node]
  | |- inP _ (_rbt_prev (_ _)) =>
      eapply closed_prev; [eassumption|first [assumption|reflexivity]|inP_node]
  end
with inP_node :=
  first [ assumption
        | match goal with
          | E : ?e = Some ?c |- ?Q ?c =>
              change (inP Q (Some c)); rewrite <- E; inP_leaf
          end ].

Ltac solve_inP :=
  cbn [mem with_mem root set_parent_if set_next_if set_prev_if];
  autorewrite with rbmem;
  repeat match goal with
         | |- context [match ?p with Some _ => _ | None => _ end] => destruct p eqn:?
         | |- context [if ?b then _ else _] => destruct b
         end;
  inP_leaf.

(** Records [P c] for the nodes [c] that were read from links of nodes of
    [P]. *)
Ltac learn_P P :=
  repeat match goal with
         | E : _ = Some ?c |- _ =>
             lazymatch goal with
             | _ : P c |- _ => fail
             | _ => idtac
             end;
             let HP := fresh "HP" in
             assert (HP : P c) by (change (inP P (Some c)); rewrite <- E; solve_inP)
         end.

(** The memory of the goal is the memory [m] after writes to nodes of
    [P]. *)
Ltac solve_frame P :=
  repeat first
    [ rewrite (set_left_out P) by (first [assumption|inP_node])
    | rewrite (set_right_out P) by (first [assumption|inP_node])
    | rewrite (set_parent_out P) by (first [assumption|inP_node])
    | rewrite (set_color_out P) by (first [assumption|inP_node])
    | rewrite (set_next_out P) by (first [assumption|inP_node])
    | rewrite (set_prev_out P) by (first [assumption|inP_node])
    | rewrite (set_parent_if_out P) by (first [assumption|solve_inP])
    | rewrite (set_next_if_out P) by (first [assumption|solve_inP])
    | rewrite (set_prev_if_out P) by (first [assumption|solve_inP]) ];
  reflexivity.

Ltac solve_closed :=
  let a := fresh "a" in
  let Ha := fresh "Ha" in
  intros a Ha;
  repeat match goal with
         | |- _ /\ _ => split
         | |- _ = true -> _ => intro
         end;
  solve_inP.

Ltac solve_within P :=
  split; [let z := fresh "z" in let Hz := fresh "Hz" in intros z Hz; solve_frame P
         |solve_closed].

Ltac split_code :=
  repeat match goal with
         | |- context [match ?e with _ => _ end] => destruct e eqn:?
         end;
  cbn [mem with_mem root set_parent_if set_next_if set_prev_if].

Section Steps.

Variable multiple : bool.
Variable P : nat -> Prop.

Lemma rotate_left_within (t t' : RBTree) (x : nat) :
  closed multiple P (mem t) -> P x ->
  rotate_left t x = Ok t' -> within multiple P (mem t) (mem t').
Proof.
  intros Hc Hx H. unfold rotate_left in H. cbv zeta in H.
  destruct (_rbt_right (mem t x)) as [y|] eqn:Ey; [|discriminate].
  cbn [deref bind] in H. injection H as <-.
  split_code; learn_P P; solve_within P.
Qed.

Lemma rotate_right_within (t t' : RBTree) (x : nat) :
  closed multiple P (mem t) -> P x ->
  rotate_right t x = Ok t' -> within multiple P (mem t) (mem t').
Proof.
  intros Hc Hx H. unfold rotate_right in H. cbv zeta in H.
  destruct (_rbt_left (mem t x)) as [y|] eqn:Ey; [|discriminate].
  cbn [deref bind] in H. injection H as <-.
  split_code; learn_P P; solve_within P.
Qed.

Lemma set_color_within (m0 m : memory) (b : nat) (c : Color) :
  within multiple P m0 m -> P b -> within multiple P m0 (set_color m b c).
Proof.
  intros (F & C) Hb. split.
  - intros z Hz. rewrite (set_color_out P) by assumption. now apply F.
  - solve_closed.
Qed.

Lemma set_left_within (m0 m : memory) (b : nat) (v : ptr) :
  within multiple P m0 m -> P b -> inP P v -> within multiple P m0 (set_left m b v).
Proof.
  intros (F & C) Hb Hv. split.
  - intros z Hz. rewrite (set_left_out P) by assumption. now apply F.
  - solve_closed.
Qed.

Lemma set_right_within (m0 m : memory) (b : nat) (v : ptr) :
  within multiple P m0 m -> P b -> inP P v -> within multiple P m0 (set_right m b v).
Proof.
  intros (F & C) Hb Hv. split.
  - intros z Hz. rewrite (set_right_out P) by assumption. now apply F.
  - solve_closed.
Qed.

Lemma deref_ok (p : ptr) (x : nat) : deref p = Ok x -> p = Some x.
Proof. destruct p; cbn [deref]; congruence. Qed.

Lemma equality_list_insert_after_within (m : memory) (node : nat) (s : ptr) :
  closed multiple P m -> P node -> inP P s ->
  within multiple P m (equality_list_insert_after multiple m node s).
Proof.
  intros Hc Hn Hs. unfold equality_list_insert_after.
  destruct multiple eqn:Hm; [|now apply within_refl].
  destruct s as [s|]; cbv zeta; cbn [inP] in Hs; solve_within P.
Qed.

Lemma equality_list_insert_before_within (m : memory) (node : nat) (s : ptr) :
  closed multiple P m -> P node -> inP P s ->
  within multiple P m (equality_list_insert_before multiple m node s).
Proof.
  intros Hc Hn Hs. unfold equality_list_insert_before.
  destruct multiple eqn:Hm; [|now apply within_refl].
  destruct s as [s|]; cbv zeta; cbn [inP] in Hs; solve_within P.
Qed.

Lemma equality_list_delete_node_within (m : memory) (node : nat) :
  closed multiple P m -> P node ->
  within multiple P m (equality_list_delete_node multiple m node).
Proof.
  intros Hc Hn. unfold equality_list_delete_node.
  destruct multiple eqn:Hm; [|now apply within_refl].
  cbv zeta. solve_within P.
Qed.

Variable K : Type.
Variable cmp : K -> K -> bool.
Variable key : nat -> K.

Lemma equality_list_swap_within (m : memory) (n1 n2 : nat) :
  closed multiple P m -> P n1 -> P n2 ->
  within multiple P m (equality_list_swap_if_necessary cmp key multiple m n1 n2).
Proof.
  intros Hc H1 H2. unfold equality_list_swap_if_necessary.
  destruct multiple eqn:Hm; [|now apply within_refl].
  cbv zeta.
  destruct (cmp (key n1) (key n2) || cmp (key n2) (key n1)); [now apply within_refl|].
  destruct (ptr_eqb (_rbt_next (m n1)) (Some n2)); [solve_within P|].
  destruct (ptr_eqb (_rbt_next (m n2)) (Some n1)); solve_within P.
Qed.

Lemma swap_neighbors_within (t : RBTree) (p c : nat) :
  closed multiple P (mem t) -> P p -> P c ->
  within multiple P (mem t) (mem (swap_neighbors t p c)).
Proof.
  intros Hc Hp Hcc. unfold swap_neighbors. cbv zeta.
  split_code; learn_P P; solve_within P.
Qed.

Lemma swap_unrelated_nodes_within (t : RBTree) (n1 n2 : nat) :
  closed multiple P (mem t) -> P n1 -> P n2 ->
  within multiple P (mem t) (mem (swap_unrelated_nodes t n1 n2)).
Proof.
  intros Hc H1 H2. unfold swap_unrelated_nodes. cbv zeta.
  split_code; learn_P P; solve_within P.
Qed.

Lemma swap_nodes_within (t : RBTree) (n1 n2 : nat) (sc : bool) :
  closed multiple P (mem t) -> P n1 -> P n2 ->
  within multiple P (mem t) (mem (swap_nodes cmp key multiple t n1 n2 sc)).
Proof.
  intros Hc H1 H2. unfold swap_nodes. cbv zeta. cbn [mem with_mem].
  match goal with
  | |- within _ _ _ (if negb sc then _ else equality_list_swap_if_necessary _ _ _ (mem ?t1) _ _) =>
      assert (W1 : within multiple P (mem t) (mem t1))
  end.
  { destruct (ptr_eqb (_rbt_parent (mem t n1)) (Some n2));
      [now apply swap_neighbors_within|].
    destruct (ptr_eqb (_rbt_parent (mem t n2)) (Some n1));
      [now apply swap_neighbors_within|now apply swap_unrelated_nodes_within]. }
  match goal with
  | |- within _ _ _ (if negb sc then _ else ?m2) =>
      assert (W2 : within multiple P (mem t) m2)
  end.
  { eapply within_trans; [exact W1|].
    apply equality_list_swap_within; auto. exact (within_closed _ _ _ _ W1). }
  destruct sc; cbn [negb]; [exact W2|].
  apply set_color_within; [|exact H2]. apply set_color_within; [exact W2|exact H1].
Qed.

End Steps.

End Footprint.

Import RB RBMem RBSpec NoDupFacts Shape Rotate Inv Frames InsertFixup InsertLeaf
  Ordering HintedInsert DeleteFixup DeleteCases Links Chains Remove Fuel Invariants Contents
  Iteration Search Checks Depth Footprint.

(** ** [insert] and [remove] write to linked nodes only *)

Module Touched.

Section Steps.

Variable multiple : bool.
Variable P : nat -> Prop.
Variable K : Type.
Variable cmp : K -> K -> bool.
Variable key : nat -> K.

(** *** The fix-up after an insertion *)

Lemma get_uncle_inP (m : memory) (node : nat) (u : ptr) :
  closed multiple P m -> P node -> get_uncle m node = Ok u -> inP P u.
Proof.
  intros Hc Hn H. unfold get_uncle in H.
  apply bind_ok in H. destruct H as (parent & Hp & H). apply deref_ok in Hp.
  apply bind_ok in H. destruct H as (gp & Hg & H). apply deref_ok in Hg.
  learn_P P.
  destruct (ptr_eqb (_rbt_left (m gp)) (Some parent)); injection H as <-; inP_leaf.
Qed.

Lemma fixup_after_insert_loop_within :
  forall fuel m node m' res,
    closed multiple P m -> P node ->
    fixup_after_insert_loop fuel m node = Ok (m', res) ->
    within multiple P m m' /\ inP P res.
Proof.
  induction fuel as [|fuel IH]; intros m node m' res Hc Hn H;
    cbn [fixup_after_insert_loop] in H;
    apply bind_ok in H; destruct H as (parent & Hp & H); apply deref_ok in Hp;
    (destruct (_rbt_color (m parent));
     [|injection H as <- <-; split; [now apply within_refl|exact Hn]]);
    apply bind_ok in H; destruct H as (uncle & Hu & H);
    apply (get_uncle_inP m node uncle Hc Hn) in Hu;
    (destruct uncle as [u|];
     [|injection H as <- <-; split; [now apply within_refl|exact Hn]]);
    cbn [inP] in Hu;
    (destruct (_rbt_color (m u));
     [|injection H as <- <-; split; [now apply within_refl|exact Hn]]);
    apply bind_ok in H; destruct H as (gp & Hg & H); apply deref_ok in Hg;
    learn_P P;
    match type of H with
    | match ?x with _ => _ end = _ => destruct x eqn:Hpp
    end; try discriminate.
  - injection H as <- <-. split; [solve_within P|exact I].
  - assert (W : within multiple P m
                  (set_color (set_color (set_color m parent BLACK) u BLACK) gp RED))
      by solve_within P.
    assert (Hgp : P gp) by assumption.
    destruct (IH _ gp m' res (within_closed _ _ _ _ W) Hgp H) as (W' & Hres).
    split; [exact (within_trans _ _ _ _ _ W W')|exact Hres].
  - injection H as <- <-. split; [solve_within P|exact I].
Qed.

Lemma with_color_within (m0 : memory) (t : RBTree) (b : nat) (c : Color) :
  within multiple P m0 (mem t) -> P b ->
  within multiple P m0 (mem (with_mem t (set_color (mem t) b c))).
Proof. intros W Hb. cbn [mem with_mem]. now apply set_color_within. Qed.

Lemma fixup_after_insert_within (fuel : nat) (t t' : RBTree) (node : nat) :
  closed multiple P (mem t) -> P node ->
  fixup_after_insert fuel t node = Ok t' -> within multiple P (mem t) (mem t').
Proof.
  intros Hc Hn H. unfold fixup_after_insert in H.
  apply bind_ok in H. destruct H as ((m & res) & Hloop & H).
  destruct (fixup_after_insert_loop_within _ _ _ _ _ Hc Hn Hloop) as (W & Hres).
  pose proof (within_closed _ _ _ _ W) as Cm.
  destruct res as [n|]; [|injection H as <-; exact W]. cbn [inP] in Hres.
  apply bind_ok in H. destruct H as (parent & Hp & H). apply deref_ok in Hp.
  destruct (_rbt_color (m parent)); [|injection H as <-; exact W].
  apply bind_ok in H. destruct H as (gp & Hg & H). apply deref_ok in Hg.
  learn_P P.
  apply bind_ok in H. destruct H as (t1 & H1 & H). injection H as <-.
  apply with_color_within; [|assumption].
  eapply within_trans; [exact W|].
  change m with (mem (with_mem t m)) at 1.
  destruct (ptr_eqb (_rbt_left (m gp)) (Some parent)).
  - apply bind_ok in H1. destruct H1 as (t2 & H2 & H1).
    assert (W2 : within multiple P (mem (with_mem t m)) (mem t2)).
    { destruct (ptr_eqb (_rbt_right (m parent)) (Some n)).
      + apply bind_ok in H2. destruct H2 as (t3 & H3 & H2). injection H2 as <-.
        apply with_color_within; [|assumption].
        apply (rotate_left_within multiple P _ _ parent); auto.
      + injection H2 as <-. apply with_color_within; [|assumption].
        now apply within_refl. }
    eapply within_trans; [exact W2|].
    apply (rotate_right_within multiple P _ _ gp); auto. exact (within_closed _ _ _ _ W2).
  - apply bind_ok in H1. destruct H1 as (t2 & H2 & H1).
    assert (W2 : within multiple P (mem (with_mem t m)) (mem t2)).
    { destruct (ptr_eqb (_rbt_left (m parent)) (Some n)).
      + apply bind_ok in H2. destruct H2 as (t3 & H3 & H2). injection H2 as <-.
        apply with_color_within; [|assumption].
        apply (rotate_right_within multiple P _ _ parent); auto.
      + injection H2 as <-. apply with_color_within; [|assumption].
        now apply within_refl. }
    eapply within_trans; [exact W2|].
    apply (rotate_left_within multiple P _ _ gp); auto. exact (within_closed _ _ _ _ W2).
Qed.

(** *** The fix-up after a removal *)

Lemma fixup_after_delete_loop_within :
  forall fuel m parent dl m' res,
    closed multiple P m -> P parent ->
    fixup_after_delete_loop fuel m parent dl = Ok (m', res) ->
    within multiple P m m' /\
    match res with
    | Some (p, _, s) => P p /\ P s
    | None => True
    end.
Proof.
  induction fuel as [|fuel IH]; intros m parent dl m' res Hc Hpar Hrun;
    cbn [fixup_after_delete_loop] in Hrun;
    apply bind_ok in Hrun; destruct Hrun as (sibling & Hs & Hrun);
    apply deref_ok in Hs; learn_P P;
    match type of Hrun with
    | (if ?b then _ else _) = _ => destruct b
    end;
    try (injection Hrun as <- <-; split; [now apply within_refl|now split]);
    match type of Hrun with
    | match ?x with _ => _ end = _ => destruct x eqn:Hpp
    end; try discriminate.
  - injection Hrun as <- <-. split; [solve_within P|exact I].
  - assert (W : within multiple P m (set_color m sibling RED)) by solve_within P.
    learn_P P.
    match type of Hrun with
    | fixup_after_delete_loop _ _ ?pp ?d = _ =>
        assert (Hpp' : P pp) by assumption;
        destruct (IH _ pp d m' res (within_closed _ _ _ _ W) Hpp' Hrun) as (W' & Hres)
    end.
    split; [exact (within_trans _ _ _ _ _ W W')|exact Hres].
  - injection Hrun as <- <-. split; [solve_within P|exact I].
Qed.

Lemma fixup_after_delete_case2_within (t t' : RBTree) (parent : nat) (dl : bool)
  (sibling s : nat) :
  closed multiple P (mem t) -> P parent -> P sibling ->
  fixup_after_delete_case2 t parent dl sibling = Ok (t', s) ->
  within multiple P (mem t) (mem t') /\ P s.
Proof.
  intros Hc Hpar Hsib Hrun. unfold fixup_after_delete_case2 in Hrun.
  destruct (color_eqb (_rbt_color (mem t sibling)) RED);
    [|injection Hrun as <- <-; split; [now apply within_refl|exact Hsib]].
  cbv zeta in Hrun.
  assert (W : within multiple P (mem t)
                (set_color (set_color (mem t) sibling BLACK) parent RED))
    by solve_within P.
  pose proof (within_closed _ _ _ _ W) as C1.
  destruct dl; apply bind_ok in Hrun; destruct Hrun as (t1 & Hrot & Hrun);
    apply bind_ok in Hrun; destruct Hrun as (s1 & Hs1 & Hrun);
    apply deref_ok in Hs1; injection Hrun as <- <-;
    [apply (rotate_left_within multiple P _ _ parent) in Hrot; auto
    |apply (rotate_right_within multiple P _ _ parent) in Hrot; auto];
    cbn [mem with_mem] in Hrot;
    pose proof (within_closed _ _ _ _ Hrot) as C2;
    (split; [exact (within_trans _ _ _ _ _ W Hrot)|]);
    learn_P P; assumption.
Qed.

Lemma swap_colors_of_within (m0 m : memory) (a b : nat) :
  within multiple P m0 m -> P a -> P b ->
  within multiple P m0 (swap_colors_of m a b).
Proof.
  intros W Ha Hb. unfold swap_colors_of. cbv zeta.
  apply set_color_within; [|exact Hb]. now apply set_color_within.
Qed.

(** Case 5: the rotation at the sibling. *)
Lemma case5_within (t t2 : RBTree) (sibling s2 : nat) (left_rot : bool) (test : bool) :
  closed multiple P (mem t) -> P sibling ->
  (if test then
     t1 <- (if left_rot then rotate_left t sibling else rotate_right t sibling) ;;
     s <- deref (_rbt_parent (set_color (mem t1) sibling RED sibling)) ;;
     Ok (with_mem t1 (set_color (set_color (mem t1) sibling RED) s BLACK), s)
   else Ok (t, sibling)) = Ok (t2, s2) ->
  within multiple P (mem t) (mem t2) /\ P s2.
Proof.
  intros Hc Hsib Hrun.
  destruct test; [|injection Hrun as <- <-; split; [now apply within_refl|exact Hsib]].
  apply bind_ok in Hrun. destruct Hrun as (t1 & Hrot & Hrun).
  apply bind_ok in Hrun. destruct Hrun as (s & Hs & Hrun). apply deref_ok in Hs.
  injection Hrun as <- <-.
  assert (W : within multiple P (mem t) (mem t1)).
  { destruct left_rot;
      [apply (rotate_left_within multiple P _ _ sibling) in Hrot
      |apply (rotate_right_within multiple P _ _ sibling) in Hrot]; auto. }
  pose proof (within_closed _ _ _ _ W) as C1.
  learn_P P. split; [|assumption].
  cbn [mem with_mem].
  apply set_color_within; [|assumption]. now apply set_color_within.
Qed.

Lemma fixup_after_delete_case456_within (t t' : RBTree) (parent : nat) (dl : bool)
  (sibling : nat) :
  closed multiple P (mem t) -> P parent -> P sibling ->
  fixup_after_delete_case456 t parent dl sibling = Ok t' ->
  within multiple P (mem t) (mem t').
Proof.
  intros Hc Hpar Hsib Hrun. unfold fixup_after_delete_case456 in Hrun.
  cbv zeta in Hrun.
  match type of Hrun with
  | (if ?b then _ else _) = _ => destruct b
  end; [injection Hrun as <-; cbn [mem with_mem]; solve_within P|].
  destruct dl; apply bind_ok in Hrun; destruct Hrun as ((t1 & s1) & H5 & Hrun);
    [apply (case5_within t t1 sibling s1 false) in H5
    |apply (case5_within t t1 sibling s1 true) in H5]; auto;
    destruct H5 as (W1 & Hs1);
    pose proof (within_closed _ _ _ _ W1) as C1;
    apply bind_ok in Hrun; destruct Hrun as (t2 & Hrot & Hrun);
    apply bind_ok in Hrun; destruct Hrun as (outer & Ho & Hrun);
    apply deref_ok in Ho; injection Hrun as <-;
    [apply (rotate_left_within multiple P _ _ parent) in Hrot
    |apply (rotate_right_within multiple P _ _ parent) in Hrot]; auto;
    pose proof (within_closed _ _ _ _ Hrot) as C2;
    unfold swap_colors_of in Ho; cbv zeta in Ho;
    learn_P P;
    cbn [mem with_mem];
    (apply set_color_within; [|assumption]);
    (apply swap_colors_of_within; [|assumption|assumption]);
    exact (within_trans _ _ _ _ _ W1 Hrot).
Qed.

Lemma fixup_after_delete_within (fuel : nat) (t t' : RBTree) (parent : nat)
  (dl : bool) :
  closed multiple P (mem t) -> P parent ->
  fixup_after_delete fuel t parent dl = Ok t' ->
  within multiple P (mem t) (mem t').
Proof.
  intros Hc Hpar Hrun. unfold fixup_after_delete in Hrun.
  apply bind_ok in Hrun. destruct Hrun as ((m & res) & Hloop & Hrun).
  destruct (fixup_after_delete_loop_within _ _ _ _ _ _ Hc Hpar Hloop) as (W & Hres).
  destruct res as [[[p d] s]|]; [|injection Hrun as <-; exact W].
  destruct Hres as (Hp & Hs).
  apply bind_ok in Hrun. destruct Hrun as ((t1 & s1) & H2 & Hrun).
  apply fixup_after_delete_case2_within in H2;
    [|exact (within_closed _ _ _ _ W)|exact Hp|exact Hs].
  destruct H2 as (W2 & Hs1). cbn [mem with_mem] in W2.
  apply fixup_after_delete_case456_within in Hrun;
    [|exact (within_closed _ _ _ _ W2)|exact Hp|exact Hs1].
  exact (within_trans _ _ _ _ _ W (within_trans _ _ _ _ _ W2 Hrun)).
Qed.

(** *** Removal *)

Lemma leftmost_inP (m : memory) :
  closed multiple P m ->
  forall fuel x y, P x -> leftmost fuel m x = Ok y -> P y.
Proof.
  intros Hc. induction fuel as [|fuel IH]; intros x y Hx H; cbn [leftmost] in H;
    destruct (_rbt_left (m x)) as [l|] eqn:El; try discriminate;
    try (injection H as <-; exact Hx).
  apply (IH l y); [|exact H]. learn_P P. assumption.
Qed.

Lemma remove_pseudo_leaf_within (fuel : nat) (t t' : RBTree) (node : nat) :
  closed multiple P (mem t) -> P node ->
  remove_pseudo_leaf cmp key multiple fuel t node = Ok t' ->
  within multiple P (mem t) (mem t').
Proof.
  intros Hc Hn H. unfold remove_pseudo_leaf in H. cbv zeta in H.
  destruct (_rbt_right (mem t node)) as [rc|] eqn:Er.
  - injection H as <-. cbn [mem with_mem]. learn_P P.
    assert (Hrc : P rc) by assumption.
    pose proof (swap_nodes_within multiple P K cmp key t node rc true Hc Hn Hrc) as W1.
    match goal with
    | |- within _ _ _ (equality_list_delete_node _ ?M _) =>
        assert (W2 : within multiple P (mem t) M)
    end.
    { apply set_right_within; [|exact Hrc|exact I].
      apply set_color_within; [exact W1|exact Hrc]. }
    eapply within_trans; [exact W2|].
    apply equality_list_delete_node_within; [exact (within_closed _ _ _ _ W2)|exact Hn].
  - destruct (_rbt_parent (mem t node)) as [p|] eqn:Ep;
      [|injection H as <-; now apply within_refl].
    learn_P P. assert (Hp : P p) by assumption.
    remember (ptr_eqb (_rbt_left (mem t p)) (Some node)) as dl eqn:Edl. clear Edl.
    match type of H with
    | context [equality_list_delete_node _ ?M _] =>
        assert (W1 : within multiple P (mem t) M)
    end.
    { destruct dl; [apply set_left_within|apply set_right_within];
        first [now apply within_refl|exact Hp|exact I]. }
    match type of H with
    | context [equality_list_delete_node _ ?M _] =>
        remember M as M1 eqn:EM1; clear EM1
    end.
    pose proof (equality_list_delete_node_within multiple P M1 node
                  (within_closed _ _ _ _ W1) Hn) as W2.
    remember (equality_list_delete_node multiple M1 node) as M2 eqn:EM2. clear EM2.
    pose proof (within_trans _ _ _ _ _ W1 W2) as W.
    pose proof (within_closed _ _ _ _ W) as C2.
    destruct (_rbt_color (M2 node)); [injection H as <-; exact W|].
    apply bind_ok in H. destruct H as (p' & Hp' & H). apply deref_ok in Hp'.
    learn_P P. assert (Hpp : P p') by assumption.
    apply fixup_after_delete_within in H; [|exact C2|exact Hpp].
    exact (within_trans _ _ _ _ _ W H).
Qed.

Lemma remove_within (fuel : nat) (t t' : RBTree) (node : nat) :
  closed multiple P (mem t) -> P node ->
  remove cmp key multiple fuel t node = Ok t' ->
  within multiple P (mem t) (mem t').
Proof.
  intros Hc Hn H. unfold remove, remove_to_leaf in H. cbv zeta in H.
  apply bind_ok in H. destruct H as (child & Hch & H).
  assert (Hchild : P child).
  { destruct (_rbt_right (mem t node)) as [r|] eqn:Er;
      destruct (_rbt_left (mem t node)) as [l|] eqn:El; learn_P P;
      try (injection Hch as <-; assumption).
    apply (leftmost_inP (mem t) Hc fuel r child); [assumption|exact Hch]. }
  destruct (Nat.eqb child node).
  - now apply (remove_pseudo_leaf_within fuel t t' node).
  - pose proof (swap_nodes_within multiple P K cmp key t node child false Hc Hn Hchild)
      as W1.
    apply remove_pseudo_leaf_within in H; [|exact (within_closed _ _ _ _ W1)|exact Hn].
    exact (within_trans _ _ _ _ _ W1 H).
Qed.

End Steps.

(** *** The links of a tree stay in the tree *)

Section Closed.

Variable K : Type.
Variable cmp : K -> K -> bool.
Variable key : nat -> K.
Variable multiple : bool.

Lemma holds_closed (st : RBTree) (t : tree) :
  Rep st t -> chains_ok cmp key multiple (mem st) (ids t) ->
  closed multiple (fun z => In z (ids t)) (mem st).
Proof.
  intros HR Hch a Ha.
  destruct (in_ids_split t a Ha) as (c & l & r & k & ->).
  destruct (read_node st c l a r k HR) as (El & Er & Ep & _).
  rewrite El, Er, Ep. split; [|split; [|split]].
  - destruct (rootp l) as [x|] eqn:E; cbn [inP]; [|exact I].
    apply in_ids_plug. left. cbn [ids]. apply rootp_in in E.
    rewrite in_app_iff. auto.
  - destruct (rootp r) as [x|] eqn:E; cbn [inP]; [|exact I].
    apply in_ids_plug. left. cbn [ids]. apply rootp_in in E.
    rewrite in_app_iff. cbn [In]. auto.
  - destruct (cpar k) as [x|] eqn:E; cbn [inP]; [|exact I].
    apply in_ids_plug. right. now apply cpar_in.
  - intros Hm. destruct (Hch Hm) as (rk & Hinv).
    destruct (Hinv a Ha) as (Hnx & Hpv). split.
    + destruct (_rbt_next (mem st a)) as [x|] eqn:E; cbn [inP]; [|exact I].
      now destruct (Hnx x eq_refl).
    + destruct (_rbt_prev (mem st a)) as [x|] eqn:E; cbn [inP]; [|exact I].
      now destruct (Hpv x eq_refl).
Qed.

End Closed.

(** *** Insertion *)

Section Insert.

Variable K : Type.
Variable cmp : K -> K -> bool.
Variable key : nat -> K.
Variable multiple : bool.
Variable Q : nat -> Prop.

Lemma closed_weaken (m : memory) : closed multiple Q m -> closed false Q m.
Proof.
  intros H a Ha. destruct (H a Ha) as (Hl & Hr & Hp & _).
  split; [exact Hl|]. split; [exact Hr|]. split; [exact Hp|]. discriminate.
Qed.

Lemma closed_out (mult : bool) (m m' : memory) :
  (forall a, Q a -> m' a = m a) -> closed mult Q m -> closed mult Q m'.
Proof. intros E H a Ha. rewrite (E a Ha). exact (H a Ha). Qed.

Lemma inP_mono (P P' : nat -> Prop) (p : ptr) :
  (forall x, P x -> P' x) -> inP P p -> inP P' p.
Proof. intros H. destruct p; cbn [inP]; auto. Qed.

Lemma closed_same (P : nat -> Prop) (m m' : memory) :
  (forall z, same_node (m' z) (m z)) -> closed false P m -> closed false P m'.
Proof.
  intros E H a Ha. destruct (E a) as (El & Er & Ep & _).
  destruct (H a Ha) as (Hl & Hr & Hp & _). rewrite El, Er, Ep.
  split; [exact Hl|]. split; [exact Hr|]. split; [exact Hp|]. discriminate.
Qed.

Lemma insert_descend_inP (m : memory) (node : nat) :
  closed false Q m ->
  forall fuel parent cur r,
    inP Q parent -> inP Q cur ->
    insert_descend cmp key fuel m node parent cur = Ok r -> inP Q r.
Proof.
  intros Hc. induction fuel as [|fuel IH]; intros parent cur r Hp Hcur H;
    destruct cur as [c|]; cbn [insert_descend] in H; try discriminate;
    try (injection H as <-; exact Hp).
  cbn [inP] in Hcur.
  destruct (cmp (key c) (key node)); apply IH in H; try exact H; try exact Hcur;
    [exact (closed_right _ _ _ _ Hc Hcur)|exact (closed_left _ _ _ _ Hc Hcur)].
Qed.

Lemma equality_list_insert_after_frame (P : nat -> Prop) (m : memory) (node : nat)
  (s : ptr) :
  P node -> inP P s ->
  (forall s', s = Some s' -> inP P (_rbt_prev (m s'))) ->
  forall z, ~ P z -> equality_list_insert_after multiple m node s z = m z.
Proof.
  intros Hn Hs Hprev z Hz. unfold equality_list_insert_after.
  destruct multiple; [|reflexivity].
  destruct s as [s|]; cbv zeta.
  - cbn [inP] in Hs. pose proof (Hprev s eq_refl) as Hp. solve_frame P.
  - solve_frame P.
Qed.

Lemma equality_list_insert_before_frame (P : nat -> Prop) (m : memory) (node : nat)
  (s : ptr) :
  P node -> inP P s ->
  (forall s', s = Some s' -> inP P (_rbt_next (m s'))) ->
  forall z, ~ P z -> equality_list_insert_before multiple m node s z = m z.
Proof.
  intros Hn Hs Hnext z Hz. unfold equality_list_insert_before.
  destruct multiple; [|reflexivity].
  destruct s as [s|]; cbv zeta.
  - cbn [inP] in Hs. pose proof (Hnext s eq_refl) as Hp. solve_frame P.
  - solve_frame P.
Qed.

Ltac split_eqb :=
  repeat match goal with
         | |- context [Nat.eqb ?x ?y] => destruct (Nat.eqb_spec x y)
         end.

(** The new leaf under [p], the chain operation [chain] and the fix-up. *)
Lemma link_and_fix (m : memory) (node p : nat) (left : bool)
  (chain : memory -> memory) (fuel : nat) (r : ptr) (t' : RBTree) :
  closed false Q m -> ~ Q node -> Q p ->
  let P := fun x => x = node \/ Q x in
  let m0 := set_left (set_right m node None) node None in
  let m1 := set_color (set_parent m0 node (Some p)) node RED in
  let m2 := if left then set_left m1 p (Some node) else set_right m1 p (Some node) in
  (forall z, same_node (chain m2 z) (m2 z)) ->
  (forall z, ~ P z -> chain m2 z = m2 z) ->
  fixup_after_insert fuel (mkTree r (chain m2)) node = Ok t' ->
  forall z, ~ P z -> mem t' z = m z.
Proof.
  intros Hc Hn Hp P m0 m1 m2 Hsame Hframe Hfix z Hz.
  assert (HPn : P node) by (left; reflexivity).
  assert (HPp : P p) by (right; exact Hp).
  assert (HQP : forall x, Q x -> P x) by (intros x Hx; right; exact Hx).
  assert (C2 : closed false P (chain m2)).
  { apply (closed_same P m2); [exact Hsame|].
    intros a Ha.
    assert (Hfields : inP P (_rbt_left (m2 a)) /\ inP P (_rbt_right (m2 a)) /\
                      inP P (_rbt_parent (m2 a))).
    { destruct Ha as [->|Ha].
      - unfold m2, m1, m0. destruct left; autorewrite with rbmem; split_eqb;
          subst; try contradiction; cbn [inP]; auto.
      - destruct (Hc a Ha) as (Hl & Hr & Hpa & _).
        apply (inP_mono Q P _ HQP) in Hl, Hr, Hpa.
        unfold m2, m1, m0. destruct left; autorewrite with rbmem; split_eqb;
          subst; try contradiction; cbn [inP]; auto. }
    destruct Hfields as (Hl & Hr & Hpa).
    split; [exact Hl|]. split; [exact Hr|]. split; [exact Hpa|]. discriminate. }
  destruct (fixup_after_insert_within false P fuel (mkTree r (chain m2)) t' node
              C2 HPn Hfix) as (F & _).
  cbn [mem] in F. rewrite (F z Hz), (Hframe z Hz).
  unfold m2, m1, m0. destruct left; solve_frame P.
Qed.

Lemma insert_leaf_base_frame (bias : bool) (fuel : nat) (t t' : RBTree) (node : nat)
  (start : ptr) :
  closed multiple Q (mem t) -> ~ Q node -> inP Q start ->
  insert_leaf_base cmp key multiple bias fuel t node start = Ok t' ->
  forall z, z <> node -> ~ Q z -> mem t' z = mem t z.
Proof.
  intros Hc Hn Hstart Hrun z Hzn HzQ.
  pose (P := fun x => x = node \/ Q x).
  assert (HPn : P node) by (left; reflexivity).
  assert (HPz : ~ P z) by (intros [E|E]; contradiction).
  assert (HQP : forall x, Q x -> P x) by (intros x Hx; right; exact Hx).
  pose proof (closed_weaken _ Hc) as Hcf.
  unfold insert_leaf_base in Hrun. cbv zeta in Hrun.
  apply bind_ok in Hrun. destruct Hrun as (parent & Hd & Hrun).
  apply insert_descend_inP in Hd; [| |exact Hstart|exact Hstart].
  2: { apply (closed_out false (mem t)); [|exact Hcf].
       intros a Ha. unfold set_left, set_right.
       rewrite !upd_neq by (intros ->; contradiction). reflexivity. }
  destruct parent as [p|]; cbn [inP] in Hd.
  2: { injection Hrun as <-. cbn [mem].
       rewrite (equality_list_insert_after_frame P);
         [solve_frame P|exact HPn|exact I|discriminate|exact HPz]. }
  assert (HPp : P p) by (right; exact Hd).
  assert (Hpn : p <> node) by (intros ->; contradiction).
  assert (Hchain : multiple = true ->
                   inP P (_rbt_next (mem t p)) /\ inP P (_rbt_prev (mem t p))).
  { intros Hm. destruct (Hc p Hd) as (_ & _ & _ & Hnp). destruct (Hnp Hm) as (Hx & Hy).
    split; [exact (inP_mono Q P _ HQP Hx)|exact (inP_mono Q P _ HQP Hy)]. }
  assert (Hnone : forall (m : memory) (left : bool),
            fixup_after_insert fuel
              (mkTree (root t)
                 (equality_list_insert_after multiple
                    (if left then set_left m p (Some node) else set_right m p (Some node))
                    node None)) node = Ok t' ->
            m = set_color (set_parent (set_left (set_right (mem t) node None) node None)
                             node (Some p)) node RED ->
            mem t' z = mem t z).
  { intros m left Hfix ->.
    apply (link_and_fix (mem t) node p left
             (fun m => equality_list_insert_after multiple m node None)
             fuel (root t) t' Hcf Hn Hd); [| |exact Hfix|exact HPz].
    - intros y. apply same_node_equality_list_insert_after.
    - intros y Hy. apply (equality_list_insert_after_frame P);
        [exact HPn|exact I|discriminate|exact Hy]. }
  destruct (cmp (key node) (key p));
    [exact (Hnone _ true Hrun eq_refl)|].
  destruct (cmp (key p) (key node));
    [exact (Hnone _ false Hrun eq_refl)|].
  destruct multiple eqn:Hm; cbn [negb] in Hrun;
    [|injection Hrun as <-; cbn [mem]; solve_frame P].
  destruct (Hchain eq_refl) as (Hnx & Hpv).
  destruct bias.
  - apply (link_and_fix (mem t) node p true
             (fun m => equality_list_insert_before true m node (Some p))
             fuel (root t) t' Hcf Hn Hd); [| |exact Hrun|exact HPz].
    + intros y. apply same_node_equality_list_insert_before.
    + intros y Hy. rewrite <- Hm. apply (equality_list_insert_before_frame P);
        [exact HPn|exact HPp| |exact Hy].
      intros s' [= <-]. autorewrite with rbmem. split_eqb; subst; try contradiction;
        exact Hnx.
  - apply (link_and_fix (mem t) node p false
             (fun m => equality_list_insert_after true m node (Some p))
             fuel (root t) t' Hcf Hn Hd); [| |exact Hrun|exact HPz].
    + intros y. apply same_node_equality_list_insert_after.
    + intros y Hy. rewrite <- Hm. apply (equality_list_insert_after_frame P);
        [exact HPn|exact HPp| |exact Hy].
      intros s' [= <-]. autorewrite with rbmem. split_eqb; subst; try contradiction;
        exact Hpv.
Qed.

End Insert.

(** *** Built trees *)

Section Built.

Variable K : Type.
Variable cmp : K -> K -> bool.
Variable key : nat -> K.
Variable multiple : bool.

Hypothesis cmp_swo : strict_weak_order cmp.

(** [insert] of a node that is not linked into a built tree returns, and
    the only nodes it writes to are the new node and nodes of the tree:
    every other node has all its fields as before. *)
Theorem insert_spares_other_nodes (st : RBTree) (node : nat) :
  built cmp key multiple st -> ~ linked st node ->
  exists n, forall fuel, n <= fuel ->
    exists st',
      insert cmp key multiple fuel st node = Ok st' /\
      forall z, z <> node -> ~ linked st z -> mem st' z = mem st z.
Proof.
  intros Hb Hn. destruct (built_holds K cmp key multiple cmp_swo st Hb) as (t & Hh).
  exists (height t). intros fuel Hfuel.
  pose proof Hh as (HR & _ & _ & Hch).
  pose proof Hn as Hn'. rewrite (linked_iff _ _ node HR) in Hn'.
  destruct (insert_contents K cmp key multiple cmp_swo fuel st t node Hh Hn' Hfuel)
    as (st' & t' & Hi & _).
  exists st'. split; [exact Hi|].
  intros z Hz Hl. rewrite (linked_iff _ _ z HR) in Hl.
  unfold insert, insert_leaf in Hi.
  apply (insert_leaf_base_frame K cmp key multiple (fun x => In x (ids t))
           true fuel st st' node (root st)); try assumption.
  - now apply (holds_closed K cmp key).
  - destruct HR as (Hroot & _). rewrite Hroot.
    destruct (rootp t) as [x|] eqn:E; cbn [inP]; [|exact I]. now apply rootp_in.
Qed.

(** [remove] of a linked node of a built tree returns, and it writes to
    nodes of the tree only: a node that is not linked has all its fields as
    before. *)
Theorem remove_spares_other_nodes (st : RBTree) (node : nat) :
  built cmp key multiple st -> linked st node ->
  exists n, forall fuel, n <= fuel ->
    exists st',
      remove cmp key multiple fuel st node = Ok st' /\
      forall z, ~ linked st z -> mem st' z = mem st z.
Proof.
  intros Hb Hn. destruct (built_holds K cmp key multiple cmp_swo st Hb) as (t & Hh).
  exists (height t). intros fuel Hfuel.
  pose proof Hh as (HR & _ & _ & Hch).
  pose proof Hn as Hn'. rewrite (linked_iff _ _ node HR) in Hn'.
  destruct (remove_contents K cmp key multiple cmp_swo fuel st t node Hh Hn')
    as (st' & t' & Hi & _); [lia|].
  exists st'. split; [exact Hi|].
  intros z Hl. rewrite (linked_iff _ _ z HR) in Hl.
  destruct (remove_within multiple (fun x => In x (ids t)) K cmp key fuel st st' node)
    as (F & _); [now apply (holds_closed K cmp key)|exact Hn'|exact Hi|].
  now apply F.
Qed.

End Built.

Lemma insert_spares_other_nodes_witness :
  exists t,
    Scenario.rb_run Scenario.key_id true 100
      (map Scenario.Ins [5; 3; 8]) Scenario.rb_empty = Ok t /\
    exists n, forall fuel, n <= fuel ->
      exists t',
        insert Nat.ltb Scenario.key_id true fuel t 7 = Ok t' /\
        forall z, z <> 7 -> ~ linked t z -> mem t' z = mem t z.
Proof.
  destruct tree_538 as (t & Ht & Hb & Hl). exists t. split; [exact Ht|].
  assert (H7 : ~ linked t 7) by (rewrite Hl; cbn [In]; lia).
  exact (insert_spares_other_nodes nat Nat.ltb Scenario.key_id true
           ltb_strict_weak_order t 7 Hb H7).
Defined.

Lemma remove_spares_other_nodes_witness :
  exists t,
    Scenario.rb_run Scenario.key_id true 100
      (map Scenario.Ins [5; 3; 8]) Scenario.rb_empty = Ok t /\
    exists n, forall fuel, n <= fuel ->
      exists t',
        remove Nat.ltb Scenario.key_id true fuel t 5 = Ok t' /\
        forall z, ~ linked t z -> mem t' z = mem t z.
Proof.
  destruct tree_538 as (t & Ht & Hb & Hl). exists t. split; [exact Ht|].
  assert (H5 : linked t 5) by (rewrite Hl; cbn [In]; lia).
  exact (remove_spares_other_nodes nat Nat.ltb Scenario.key_id true
           ltb_strict_weak_order t 5 Hb H5).
Defined.

End Touched.
